(** * react-ai-games: the simulation cores of the five arcade games

    A shallow embedding of the game logic of Snake, Flappy Bird,
    Match-Three, Space Invaders and Pixel Runner, and the properties
    their specification states about them.

    Conventions of the embedding.
    - JavaScript numbers that the code keeps integral (gem indices, grid
      coordinates, scores) are [Z] or [nat]; numbers that are fractional
      (timestamps, pixel positions, velocities) are exact rationals [Q].
    - [Math.random()] reads the next element of an arbitrary sequence of
      numbers in [0,1): nothing is assumed about the sequence, so a
      property proved here holds for every outcome of the generator.
    - A loop whose exit depends on the random draws takes an iteration
      budget and yields no result when the budget is used up.
    - Arrays are lists; a read outside an array is [None] (JavaScript's
      [undefined]).
    - Drawing, the canvas layout and the React display state are left
      out. *)

From Stdlib Require Import ZArith QArith Qround Qabs Lia Lqa Bool Ascii String.
From stdpp Require Import base option list strings gmap.

Local Open Scope nat_scope.

(** ** The random source and the monad of the simulation steps *)

Module Rand.

(** A value of [Math.random()]: a rational [u] with [0 <= u < 1]. *)
Record U01 := mkU01 {
  u_val : Q;
  u_ok : Qle_bool 0 u_val && negb (Qle_bool 1 u_val) = true
}.

(** A computation reads the random sequence [src] from a cursor and
    returns a value and the new cursor. It returns nothing when a loop
    ran out of its budget, or where the source would throw or would
    store [undefined] in an array of numbers. *)
Definition M (A : Type) : Type := (nat -> U01) -> nat -> option (A * nat).

Definition ret {A} (a : A) : M A := fun _ p => Some (a, p).

Definition bind {A B} (m : M A) (k : A -> M B) : M B :=
  fun src p =>
    match m src p with
    | Some (a, p') => k a src p'
    | None => None
    end.

Definition fail {A} : M A := fun _ _ => None.

Definition lift {A} (o : option A) : M A :=
  fun _ p => match o with Some a => Some (a, p) | None => None end.

(** [Math.random()] *)
Definition random : M U01 := fun src p => Some (src p, S p).

(** [for (const x of xs) s = body(x, s)] *)
Fixpoint forM {I S} (xs : list I) (body : I -> S -> M S) (s : S) : M S :=
  match xs with
  | [] => ret s
  | x :: xs' => bind (body x s) (forM xs' body)
  end.

(** [Math.floor(Math.random() * n)] *)
Definition randomIndex (n : Z) : M Z :=
  bind random (fun u => ret (Qfloor (u_val u * inject_Z n))).

End Rand.

Import Rand.

(** [a < b] on rationals, as a boolean *)
Definition Qltb (a b : Q) : bool := negb (Qle_bool b a).

#[global] Instance M_ret : MRet M := @ret.
#[global] Instance M_bind : MBind M := fun A B k m => bind m k.

(** ** Persistence: the stored best score *)

Module Persistence.

(** [localStorage]: string keys to string values. *)
Definition Storage : Type := gmap string string.

(** The result of [parseInt]: an integer or [NaN]. (A double holds an
    integer exactly up to 2^53; scores stay far below.) *)
Inductive JSNumber := NaN | Num (z : Z).

(** White space that [parseInt] skips, within ASCII. *)
Definition isWhite (a : ascii) : bool :=
  let n := nat_of_ascii a in
  ((9 <=? n) && (n <=? 13)) || (n =? 32).

Fixpoint skipWhite (s : string) : string :=
  match s with
  | String a s' => if isWhite a then skipWhite s' else s
  | EmptyString => s
  end.

Definition digitOf (a : ascii) : option Z :=
  let n := nat_of_ascii a in
  if (48 <=? n) && (n <=? 57) then Some (Z.of_nat (n - 48)) else None.

(** The longest prefix of decimal digits, as a number; [acc] is the value
    read so far, [None] before the first digit. *)
Fixpoint digits (s : string) (acc : option Z) : option Z :=
  match s with
  | String a s' =>
      match digitOf a with
      | Some d => digits s' (Some (10 * default 0%Z acc + d)%Z)
      | None => acc
      end
  | EmptyString => acc
  end.

(** [parseInt(s, 10)] *)
Definition parseInt (s : string) : JSNumber :=
  let s1 := skipWhite s in
  let '(negative, s2) :=
    match s1 with
    | String "-" rest => (true, rest)
    | String "+" rest => (false, rest)
    | _ => (false, s1)
    end in
  match digits s2 None with
  | None => NaN
  | Some n => Num (if negative then - n else n)
  end.

(** [const v = localStorage.getItem(key); return v ? parseInt(v, 10) : 0]:
    the initializer of the [best] state, the same in every game. A string
    is truthy unless it is empty. *)
Definition bestInit (key : string) (st : Storage) : JSNumber :=
  match st !! key with
  | Some v => if bool_decide (v = EmptyString) then Num 0 else parseInt v
  | None => Num 0
  end.

(** *** Notions for the properties *)

(** What the specification asks of the initial best score: zero whenever
    the stored value is absent or does not parse as an integer. *)
Definition DefaultsToZero : Prop :=
  forall (key : string) (st : Storage),
    (st !! key = None \/ exists v, st !! key = Some v /\ parseInt v = NaN) ->
    bestInit key st = Num 0.

(** *** Writing the best score *)

(** The decimal digits of a natural number [n], most significant first, in
    front of [acc]; [fuel] bounds the number of digits. *)
Fixpoint digitsOf (fuel : nat) (n : Z) (acc : string) : string :=
  match fuel with
  | O => acc
  | S fuel' =>
      let acc' := String (ascii_of_nat (48 + Z.to_nat (n mod 10))) acc in
      if (n <? 10)%Z then acc' else digitsOf fuel' (n / 10) acc'
  end.

(** The integers a JavaScript number holds exactly
    ([Number.isSafeInteger]). *)
Definition SafeInteger (z : Z) : Prop := (Z.abs z <= 2 ^ 53 - 1)%Z.

(** [String(n)] for an integer [n]: its decimal digits, after a minus sign
    when it is negative. JavaScript prints every digit of an integer below
    10^21, so of every safe integer. *)
Definition toString (z : Z) : string :=
  if (z <? 0)%Z
  then String "-" (digitsOf (S (Z.to_nat (- z))) (- z) EmptyString)
  else digitsOf (S (Z.to_nat z)) z EmptyString.

(** [localStorage.setItem(key, String(score))] *)
Definition saveBest (key : string) (score : Z) (st : Storage) : Storage :=
  <[key := toString score]> st.

(** [parseInt(localStorage.getItem(key) || "0", 10)]: the stored best as
    Match-Three, Space Invaders and Pixel Runner read it at game over. *)
Definition storedBest (key : string) (st : Storage) : JSNumber :=
  match st !! key with
  | Some v => if bool_decide (v = EmptyString) then parseInt "0" else parseInt v
  | None => parseInt "0"
  end.

(** [score > cur]; a comparison with [NaN] is false. *)
Definition exceeds (score : Z) (cur : JSNumber) : bool :=
  match cur with Num z => (z <? score)%Z | NaN => false end.

(** The bookkeeping of those three games at game over:
    [if (score > cur) localStorage.setItem(key, String(score))]. *)
Definition recordBest (key : string) (score : Z) (st : Storage) : Storage :=
  if exceeds score (storedBest key st) then saveBest key score st else st.

End Persistence.

(** ** Snake *)

Module Snake.

Import Persistence.

Record GameSettings := mkSettings {
  speed : Z;
  gridSize : Z;
  wallTeleport : bool
}.

Record Point := mkPoint { x : Z; y : Z }.

Inductive Direction := up | down | left | right.
Inductive Difficulty := easy | medium | hard.
Inductive GameState := menu | playing | paused | gameover.

Definition PRESETS (d : Difficulty) : GameSettings :=
  match d with
  | easy => mkSettings 8 15 true
  | medium => mkSettings 12 20 false
  | hard => mkSettings 18 25 false
  end.

#[global] Instance Snake_GameState_eq_dec : EqDecision GameState.
Proof. solve_decision. Defined.
#[global] Instance Point_eq_dec : EqDecision Point.
Proof. solve_decision. Defined.

Definition DIRECTION_VECTORS (d : Direction) : Point :=
  match d with
  | up => mkPoint 0 (-1)
  | down => mkPoint 0 1
  | left => mkPoint (-1) 0
  | right => mkPoint 1 0
  end.

Definition bestKey : string := "snake-best".

Definition best0 (st : Storage) : JSNumber := bestInit bestKey st.

(** [seg.x === p.x && seg.y === p.y] *)
Definition samePoint (a b : Point) : bool :=
  (x a =? x b)%Z && (y a =? y b)%Z.

(** The cells of the grid that the snake does not cover, [x] outermost. *)
Definition freeCells (gridSize : Z) (snake : list Point) : list Point :=
  let n := Z.to_nat gridSize in
  filter (fun p => negb (existsb (samePoint p) snake))
    (i ← seq 0 n; (fun j => mkPoint (Z.of_nat i) (Z.of_nat j)) <$> seq 0 n).

Definition spawnFood (gridSize : Z) (snake : list Point) : M Point :=
  let free := freeCells gridSize snake in
  match free with
  | [] => ret (mkPoint 0 0)
  | _ =>
      i ← randomIndex (Z.of_nat (length free));
      lift (free !! Z.to_nat i)
  end.

Record World := mkWorld {
  stateRef : GameState;
  snake : list Point;
  food : Point;
  dir : Direction;
  nextDir : Direction;
  score : Z;
  best : JSNumber
}.

(** [initGame] followed by the switch to [playing] ([startGame]). *)
Definition startGame (s : GameSettings) (b : JSNumber) : M World :=
  let mid := (gridSize s / 2)%Z in
  let body := [mkPoint mid mid; mkPoint (mid - 1) mid; mkPoint (mid - 2) mid] in
  f ← spawnFood (gridSize s) body;
  ret (mkWorld playing body f right right 0 b).

(** [scoreRef.current > best]; a comparison with [NaN] is false. *)
Definition beats (sc : Z) (b : JSNumber) : bool :=
  match b with Num z => (z <? sc)%Z | NaN => false end.

(** The death branch of [tick]. *)
Definition die (w : World) (d : Direction) : World :=
  mkWorld gameover (snake w) (food w) d (nextDir w) (score w)
    (if beats (score w) (best w) then Num (score w) else best w).

(** [((v % g) + g) % g], with JavaScript's remainder. *)
Definition wrap (v g : Z) : Z := Z.rem (Z.rem v g + g) g.

(** One call of [tick]. It has no result on an empty snake, where the
    source reads [snake[0].x] of [undefined]. *)
Definition tick (s : GameSettings) (w : World) : M World :=
  if negb (bool_decide (stateRef w = playing)) then ret w
  else
    let d := nextDir w in
    let vec := DIRECTION_VECTORS d in
    match snake w with
    | [] => fail
    | head :: _ =>
        let moved := mkPoint (x head + x vec) (y head + y vec) in
        let outside :=
          ((x moved <? 0) || (gridSize s <=? x moved)
           || (y moved <? 0) || (gridSize s <=? y moved))%Z in
        if negb (wallTeleport s) && outside then ret (die w d)
        else
          let newHead :=
            if wallTeleport s
            then mkPoint (wrap (x moved) (gridSize s)) (wrap (y moved) (gridSize s))
            else moved in
          let willEat := samePoint newHead (food w) in
          let bodyToCheck :=
            if willEat then snake w else take (length (snake w) - 1) (snake w) in
          if existsb (fun seg => samePoint seg newHead) bodyToCheck
          then ret (die w d)
          else if willEat then
            f ← spawnFood (gridSize s) (newHead :: snake w);
            ret (mkWorld playing (newHead :: snake w) f d (nextDir w)
                   (score w + 1) (best w))
          else
            ret (mkWorld playing
                   (take (length (snake w)) (newHead :: snake w))
                   (food w) d (nextDir w) (score w) (best w))
    end.

(** The arrow keys of [onKey]: a turn is buffered in [nextDir] unless it
    reverses the current direction. *)
Definition opposite (d : Direction) : Direction :=
  match d with up => down | down => up | left => right | right => left end.

#[global] Instance Direction_eq_dec : EqDecision Direction.
Proof. solve_decision. Defined.

Definition turn (want : Direction) (w : World) : World :=
  if bool_decide (dir w = opposite want) then w
  else mkWorld (stateRef w) (snake w) (food w) (dir w) want (score w) (best w).

Definition togglePause (w : World) : World :=
  match stateRef w with
  | playing => mkWorld paused (snake w) (food w) (dir w) (nextDir w) (score w) (best w)
  | paused => mkWorld playing (snake w) (food w) (dir w) (nextDir w) (score w) (best w)
  | _ => w
  end.

(** What can happen between two renders: the interval timer fires, or a
    key is pressed. *)
Inductive Event := Tick | Turn (d : Direction) | Pause.

Definition handle (s : GameSettings) (e : Event) (w : World) : M World :=
  match e with
  | Tick => tick s w
  | Turn d => ret (turn d w)
  | Pause => ret (togglePause w)
  end.

Definition run (s : GameSettings) (es : list Event) (w : World) : M World :=
  forM es (handle s) w.

(** *** Notions for the grid *)

(** A cell of the [gridSize] by [gridSize] grid. *)
Definition InGrid (gridSize : Z) (p : Point) : Prop :=
  (0 <= x p < gridSize)%Z /\ (0 <= y p < gridSize)%Z.

(** The cell the head moves to from [head] in direction [d]: one step on,
    wrapped around the grid when the walls teleport. *)
Definition advance (s : GameSettings) (d : Direction) (head : Point) : Point :=
  let vec := DIRECTION_VECTORS d in
  if wallTeleport s
  then mkPoint (wrap (x head + x vec) (gridSize s)) (wrap (y head + y vec) (gridSize s))
  else mkPoint (x head + x vec) (y head + y vec).

(** The snake lies on every cell of the grid. *)
Definition Covers (gridSize : Z) (body : list Point) : Prop :=
  forall c, InGrid gridSize c -> c ∈ body.

(** The outcomes of a tick of a game that is playing. *)
Inductive Outcome (s : GameSettings) (w w' : World) (head : Point) : Prop :=
  | Died :
      w' = die w (nextDir w) ->
      (wallTeleport s = false /\ ~ InGrid (gridSize s) (advance s (nextDir w) head))
      \/ advance s (nextDir w) head ∈ snake w ->
      Outcome s w w' head
  | Ate :
      advance s (nextDir w) head = food w ->
      advance s (nextDir w) head ∉ snake w ->
      snake w' = advance s (nextDir w) head :: snake w ->
      score w' = (score w + 1)%Z ->
      (exists src p p', spawnFood (gridSize s) (snake w') src p = Some (food w', p')) ->
      stateRef w' = playing -> dir w' = nextDir w -> nextDir w' = nextDir w ->
      best w' = best w ->
      (wallTeleport s = false -> InGrid (gridSize s) (advance s (nextDir w) head)) ->
      Outcome s w w' head
  | Moved :
      advance s (nextDir w) head <> food w ->
      advance s (nextDir w) head ∉ take (length (snake w) - 1) (snake w) ->
      snake w' = advance s (nextDir w) head :: take (length (snake w) - 1) (snake w) ->
      score w' = score w -> food w' = food w ->
      stateRef w' = playing -> dir w' = nextDir w -> nextDir w' = nextDir w ->
      best w' = best w ->
      (wallTeleport s = false -> InGrid (gridSize s) (advance s (nextDir w) head)) ->
      Outcome s w w' head.


(** Body and food on the grid. *)
Definition OnGrid (s : GameSettings) (w : World) : Prop :=
  Forall (InGrid (gridSize s)) (snake w) /\ InGrid (gridSize s) (food w).

End Snake.

(** ** Flappy Bird *)

Module FlappyBird.

Import Persistence.

Definition GRAVITY : Q := 45 # 100.
Definition FLAP_STRENGTH : Q := - (75 # 10).
Definition GROUND_HEIGHT : Q := 60.

Record Bird := mkBird {
  x : Q;
  y : Q;
  velocity : Q;
  rotation : Q;
  wingPhase : Q
}.

Record Pipe := mkPipe { p_x : Q; gapY : Q; scored : bool }.

Inductive GameState := ready | playing | gameover.

Record World := mkWorld {
  stateRef : GameState;
  bird : Bird;
  pipes : list Pipe;
  score : Z;
  frame : Z
}.

Definition best0 (st : Storage) : JSNumber := bestInit "flappy-best" st.

(** [resetGame(w, h)] *)
Definition resetGame (w h : Q) (wd : World) : World :=
  mkWorld (stateRef wd)
    (mkBird (w * (25 # 100)) ((h - GROUND_HEIGHT) / 2) 0 0 0) [] 0 0.

Definition withVelocity (b : Bird) (v : Q) : Bird :=
  mkBird (x b) (y b) v (rotation b) (wingPhase b).

(** [flap]; [canvas] is the size of the canvas when there is one. *)
Definition flap (canvas : option (Q * Q)) (wd : World) : World :=
  match stateRef wd with
  | ready =>
      mkWorld playing (withVelocity (bird wd) FLAP_STRENGTH) (pipes wd)
        (score wd) (frame wd)
  | playing =>
      mkWorld playing (withVelocity (bird wd) FLAP_STRENGTH) (pipes wd)
        (score wd) (frame wd)
  | gameover =>
      let wd1 :=
        match canvas with
        | Some (w, h) => resetGame w h wd
        | None => wd
        end in
      mkWorld ready (bird wd1) (pipes wd1) (score wd1) (frame wd1)
  end.

(** The bird physics at the head of a [playing] frame of [loop]: gravity
    adds to the velocity, the velocity to the height. (The drawing angle
    [rotation], an arc tangent, is not computed here.) *)
Definition fall (b : Bird) : Bird :=
  let v := (velocity b + GRAVITY)%Q in
  mkBird (x b) (y b + v) v (rotation b) (wingPhase b + (3 # 10)).

(** *** The frame loop *)

Definition PIPE_WIDTH : Q := 60.
Definition PIPE_GAP : Q := 160.
Definition PIPE_SPEED : Q := 28 # 10.
Definition PIPE_SPAWN_INTERVAL : Z := 100.
Definition BIRD_RADIUS : Q := 16.

(** "spawn pipes": every [PIPE_SPAWN_INTERVAL] frames a pipe enters at the
    right edge [w], its gap centred at a random height. *)
Definition spawnPipe (w playH : Q) (frame : Z) (ps : list Pipe) : M (list Pipe) :=
  if (Z.rem frame PIPE_SPAWN_INTERVAL =? 0)%Z then
    let minGapY := (PIPE_GAP / 2 + 40)%Q in
    let maxGapY := (playH - PIPE_GAP / 2 - 40)%Q in
    u ← random;
    mret (ps ++ [mkPipe w (minGapY + u_val u * (maxGapY - minGapY)) false])
  else mret ps.

(** The body of "move pipes + score" for the pipe [p]; [acc] holds the
    pipes after [p], which the loop has visited already (it runs from the
    last pipe to the first), and the score. *)
Definition movePipe (birdX : Q) (p : Pipe) (acc : list Pipe * Z) : list Pipe * Z :=
  let '(later, score) := acc in
  let x1 := (p_x p - PIPE_SPEED)%Q in
  let passed := negb (scored p) && Qltb (x1 + PIPE_WIDTH) birdX in
  let score1 := if passed then (score + 1)%Z else score in
  if Qltb (x1 + PIPE_WIDTH + 8) 0 then (later, score1)
  else (mkPipe x1 (gapY p) (scored p || passed) :: later, score1).

(** [for (let i = pipes.length - 1; i >= 0; i--) ...] *)
Definition movePipes (birdX : Q) (ps : list Pipe) (score : Z) : list Pipe * Z :=
  foldr (movePipe birdX) ([], score) ps.

(** The test of "collision" for one pipe. *)
Definition hitsPipe (b : Bird) (p : Pipe) : bool :=
  let bLeft := (x b - BIRD_RADIUS)%Q in
  let bRight := (x b + BIRD_RADIUS)%Q in
  let bTop := (y b - BIRD_RADIUS)%Q in
  let bBottom := (y b + BIRD_RADIUS)%Q in
  let pLeft := (p_x p - 4)%Q in
  let pRight := (p_x p + PIPE_WIDTH + 4)%Q in
  let gapTop := (gapY p - PIPE_GAP / 2)%Q in
  let gapBottom := (gapY p + PIPE_GAP / 2)%Q in
  Qltb pLeft bRight && Qltb bLeft pRight
  && (Qltb bTop gapTop || Qltb gapBottom bBottom).

(** [dead] at the end of "collision". *)
Definition dead (playH : Q) (b : Bird) (ps : list Pipe) : bool :=
  Qltb playH (y b + BIRD_RADIUS) || Qltb (y b - BIRD_RADIUS) 0
  || existsb (hitsPipe b) ps.

(** The update of [loop] on a canvas of width [w] and height [h]; [sway]
    is the value of [Math.sin(Date.now() / 300) * 8], which only the
    hovering bird of the ready state uses. *)
Definition loop (w h sway : Q) (wd : World) : M World :=
  let playH := (h - GROUND_HEIGHT)%Q in
  match stateRef wd with
  | playing =>
      let b := fall (bird wd) in
      let fr := (frame wd + 1)%Z in
      ps ← spawnPipe w playH fr (pipes wd);
      let moved := movePipes (x b) ps (score wd) in
      mret (mkWorld (if dead playH b moved.1 then gameover else playing)
              b moved.1 moved.2 fr)
  | ready =>
      let b := bird wd in
      mret (mkWorld ready
              (mkBird (x b) (playH / 2 + sway) (velocity b) 0
                 (wingPhase b + (15 # 100)))
              (pipes wd) (score wd) (frame wd))
  | gameover => mret wd
  end.

(** The world when the component has mounted: [resize] resets the game,
    which is ready. *)
Definition start (w h : Q) : World :=
  resetGame w h (mkWorld ready (mkBird 0 0 0 0 0) [] 0 0).

(** What happens to a game on a canvas of a fixed size: a frame, or a
    flap of the player. *)
Inductive Event := Frame (sway : Q) | Flap.

Definition onEvent (w h : Q) (e : Event) (wd : World) : M World :=
  match e with
  | Frame sway => loop w h sway wd
  | Flap => mret (flap (Some (w, h)) wd)
  end.

Definition play (w h : Q) (es : list Event) (wd : World) : M World :=
  forM es (onEvent w h) wd.

(** *** Notions for the properties *)

(** The gap of the pipe lies in the play area, 40 pixels from its top and
    from the ground. *)
Definition GapOnScreen (playH : Q) (p : Pipe) : Prop :=
  (40 <= gapY p - PIPE_GAP / 2)%Q /\ (gapY p + PIPE_GAP / 2 <= playH - 40)%Q.

(** The bird has passed the pipe. *)
Definition Behind (b : Bird) (p : Pipe) : Prop :=
  (p_x p + PIPE_WIDTH < x b)%Q.

Definition behind (b : Bird) (p : Pipe) : bool :=
  Qltb (p_x p + PIPE_WIDTH) (x b).

(** The box around the bird does not reach into the pipe: it is left or
    right of the pipe and its caps, or within the gap. *)
Definition Clear (b : Bird) (p : Pipe) : Prop :=
  (x b + BIRD_RADIUS <= p_x p - 4)%Q
  \/ (p_x p + PIPE_WIDTH + 4 <= x b - BIRD_RADIUS)%Q
  \/ ((gapY p - PIPE_GAP / 2 <= y b - BIRD_RADIUS)%Q
      /\ (y b + BIRD_RADIUS <= gapY p + PIPE_GAP / 2)%Q).

(** The bookkeeping of the score on a canvas of width [w]: the bird is not
    right of the pipes that enter, the pipes flagged as scored are the
    pipes behind the bird, and the score is the number of pipes spawned so
    far, one every [PIPE_SPAWN_INTERVAL] frames, less the pipes that the
    bird has not passed yet. *)
Definition Counted (w : Q) (wd : World) : Prop :=
  (0 <= x (bird wd))%Q /\ (x (bird wd) <= w + PIPE_WIDTH)%Q
  /\ (0 <= frame wd)%Z
  /\ (forall p, p ∈ pipes wd -> scored p = behind (bird wd) p)
  /\ (score wd
      = frame wd / PIPE_SPAWN_INTERVAL
        - Z.of_nat (length (filter (fun p => behind (bird wd) p = false)
                              (pipes wd))))%Z.

End FlappyBird.

(** ** Match-Three *)

Module MatchThree.

Record GameSettings := mkSettings {
  timeLimit : Q;
  gridSize : nat;
  gemTypes : Z
}.

Record CellPos := mkCell { row : nat; col : nat }.

Record FallInfo := mkFall {
  f_col : nat;
  toRow : nat;
  fromRow : Z;
  gemType : Z
}.

Inductive Difficulty := easy | medium | hard.
Inductive GameState := menu | playing | paused | gameover.
Inductive AnimState := idle | swapping | swapping_back | clearing | falling.

#[global] Instance GameState_eq_dec : EqDecision GameState.
Proof. solve_decision. Defined.
#[global] Instance AnimState_eq_dec : EqDecision AnimState.
Proof. solve_decision. Defined.

Definition PRESETS (d : Difficulty) : GameSettings :=
  match d with
  | easy => mkSettings 180 7 5
  | medium => mkSettings 120 8 6
  | hard => mkSettings 90 9 7
  end.

Definition best0 (st : Persistence.Storage) : Persistence.JSNumber :=
  Persistence.bestInit "match3-best" st.

Definition SWAP_MS : Q := 200.
Definition CLEAR_MS : Q := 250.
Definition FALL_MS : Q := 300.

(** The board: [grid[r][c]] is a gem index, or a negative number for an
    empty cell. *)
Abbreviation Grid := (list (list Z)).

(** [grid[r][c]]. (A row that does not exist reads as [None] too; the
    source would throw there, and never reads one.) *)
Definition cell (g : Grid) (r c : nat) : option Z :=
  match g !! r with
  | Some line => line !! c
  | None => None
  end.

(** [a[i] = x]: in place inside the array, an append at its end. The
    programs below never write further out. *)
Definition arrSet {A} (l : list A) (i : nat) (x : A) : list A :=
  if i <? length l then <[i:=x]> l
  else if i =? length l then l ++ [x]
  else l.

(** [grid[r][c] = v]. (A write to a row that does not exist, where the
    source would throw, leaves the grid as it is; none occurs.) *)
Definition setCell (g : Grid) (r c : nat) (v : Z) : Grid :=
  match g !! r with
  | Some line => <[r := arrSet line c v]> g
  | None => g
  end.

(** [a === b] on cell reads *)
Definition same (a b : option Z) : bool := bool_decide (a = b).

(** [t < 0]; false for [undefined] *)
Definition isNeg (t : option Z) : bool :=
  match t with Some z => (z <? 0)%Z | None => false end.

(** [t >= 0]; false for [undefined] *)
Definition isGem (t : option Z) : bool :=
  match t with Some z => (0 <=? z)%Z | None => false end.

Definition randomGem (n : Z) : M Z := randomIndex n.

(** *** createBoard *)

(** The condition of the [do ... while]: [gem] would complete a run of
    three to the left or upwards. *)
Definition rejects (g : Grid) (r c : nat) (gem : Z) : bool :=
  ((2 <=? c) && same (cell g r (c - 1)) (Some gem)
             && same (cell g r (c - 2)) (Some gem))
  || ((2 <=? r) && same (cell g (r - 1) c) (Some gem)
                && same (cell g (r - 2) c) (Some gem)).

Fixpoint pickGem (fuel : nat) (g : Grid) (r c : nat) (types : Z) : M Z :=
  match fuel with
  | O => fail
  | S fuel' =>
      gem ← randomGem types;
      if rejects g r c gem then pickGem fuel' g r c types else ret gem
  end.

Definition createRow (fuel size : nat) (types : Z) (r : nat) (g : Grid) : M Grid :=
  forM (seq 0 size)
    (fun c g => gem ← pickGem fuel g r c types; ret (setCell g r c gem))
    (arrSet g r []).

Definition createBoard (fuel size : nat) (types : Z) : M Grid :=
  forM (seq 0 size) (createRow fuel size types) [].

(** *** findMatches *)

Record MatchGroup := mkMatch { cells : list CellPos }.

(** [while (end < n && line[end] === t) end++], with [k = n - end]. *)
Fixpoint runEnd (get : nat -> option Z) (t : option Z) (k e : nat) : nat :=
  match k with
  | O => e
  | S k' => if same (get e) t then runEnd get t k' (S e) else e
  end.

(** One line (a row or a column) of the scan; the source has the loop
    twice, once per direction. Every iteration advances [c], so [n]
    iterations are enough. *)
Fixpoint scanLine (get : nat -> option Z) (mk : nat -> CellPos)
    (n fuel c : nat) : list MatchGroup :=
  match fuel with
  | O => []
  | S fuel' =>
      if n <=? c then []
      else
        let t := get c in
        if isNeg t then scanLine get mk n fuel' (S c)
        else
          let e := runEnd get t (n - S c) (S c) in
          (if 3 <=? e - c then [mkMatch (mk <$> seq c (e - c))] else [])
            ++ scanLine get mk n fuel' e
  end.

(** [matches.length === 0] *)
Definition noMatches (matches : list MatchGroup) : bool :=
  match matches with [] => true | _ => false end.

Definition findMatches (g : Grid) : list MatchGroup :=
  let n := length g in
  concat ((fun r => scanLine (cell g r) (mkCell r) n n 0) <$> seq 0 n)
  ++ concat ((fun c => scanLine (fun r => cell g r c) (fun r => mkCell r c) n n 0)
               <$> seq 0 n).

(** [getMatchedSet]: the set of matched cells, in insertion order (the
    source keys a [Set] by the string [r,c]). *)
Definition cellEqb (a b : CellPos) : bool :=
  (row a =? row b) && (col a =? col b).

Definition setAdd (s : list CellPos) (c : CellPos) : list CellPos :=
  if existsb (cellEqb c) s then s else s ++ [c].

Definition getMatchedSet (matches : list MatchGroup) : list CellPos :=
  foldl (fun s m => foldl setAdd s (cells m)) [] matches.

(** *** applyGravity *)

(** [Array.from({ length: n }, () => Array(n).fill(-1))] *)
Definition emptyGrid (n : nat) : Grid := replicate n (replicate n (-1)%Z).

(** The surviving gems of column [c], bottom row first. *)
Definition existingOf (g : Grid) (n c : nat) : list (nat * Z) :=
  omap (fun r => if isGem (cell g r c)
                 then (fun v => (r, v)) <$> cell g r c else None)
       (rev (seq 0 n)).

Abbreviation GravState := (list (list Z) * list FallInfo)%type.

(** One iteration of [for (const { row: fromRow, type } of existing)];
    [write] is the row being filled. *)
Definition placeExisting (c : nat) (st : GravState * Z) (e : nat * Z)
    : GravState * Z :=
  let '(ng, fd, write) := st in
  let '(from, type) := e in
  (setCell ng (Z.to_nat write) c type,
   if bool_decide (Z.of_nat from = write) then fd
   else fd ++ [mkFall c (Z.to_nat write) (Z.of_nat from) type],
   (write - 1)%Z).

(** One iteration of [for (let i = write; i >= 0; i--)]. *)
Definition placeNew (types : Z) (c : nat) (numNew : Z) (i : nat)
    (st : GravState) : M GravState :=
  let '(ng, fd) := st in
  type ← randomGem types;
  ret (setCell ng i c type,
       fd ++ [mkFall c i (Z.of_nat i - numNew) type]).

Definition gravityColumn (g : Grid) (types : Z) (n c : nat)
    (st : GravState) : M GravState :=
  let '(st1, write) :=
    foldl (placeExisting c) (st, Z.of_nat n - 1)%Z (existingOf g n c) in
  let numNew := (write + 1)%Z in
  forM (rev (seq 0 (Z.to_nat (write + 1)))) (placeNew types c numNew) st1.

Definition applyGravity (g : Grid) (types : Z) : M GravState :=
  let n := length g in
  forM (seq 0 n) (gravityColumn g types n) (emptyGrid n, []).

(** *** wouldMatch and findValidMove *)

(** [while (lo > 0 && line[lo - 1] === t) lo--] *)
Fixpoint extendLow (get : nat -> option Z) (t : Z) (lo : nat) : nat :=
  match lo with
  | O => O
  | S j => if same (get j) (Some t) then extendLow get t j else lo
  end.

(** [while (hi < n - 1 && line[hi + 1] === t) hi++], with [k = n - 1 - hi]. *)
Fixpoint extendHigh (get : nat -> option Z) (t : Z) (k hi : nat) : nat :=
  match k with
  | O => hi
  | S k' => if same (get (S hi)) (Some t) then extendHigh get t k' (S hi) else hi
  end.

(** The run through position [i] of a line, all equal to [t], has three
    cells or more. *)
Definition lineHit (get : nat -> option Z) (t : Z) (n i : nat) : bool :=
  3 <=? extendHigh get t (n - 1 - i) i - extendLow get t i + 1.

(** [wouldMatch] swaps the two cells in the grid it is given, probes the
    runs through both, and swaps back: it returns the answer and the grid
    as it leaves it. No result when a cell is outside the grid (the source
    would store [undefined] in it; its callers never do that). *)
Definition wouldMatch (g : Grid) (r1 c1 r2 c2 : nat) : option (bool * Grid) :=
  match cell g r1 c1, cell g r2 c2 with
  | Some t1, Some t2 =>
      if bool_decide (t1 = t2) then Some (false, g)
      else
        let n := length g in
        let g1 := setCell (setCell g r1 c1 t2) r2 c2 t1 in
        let found :=
          lineHit (cell g1 r1) t2 n c1
          || lineHit (fun r => cell g1 r c1) t2 n r1
          || lineHit (cell g1 r2) t1 n c2
          || lineHit (fun r => cell g1 r c2) t1 n r2 in
        Some (found, setCell (setCell g1 r1 c1 t1) r2 c2 t2)
  | _, _ => None
  end.

Abbreviation Move := (CellPos * CellPos)%type.

(** The body of the inner loop of [findValidMove] at cell [(r, c)]: the
    swap with the right neighbour, then with the one below. *)
Definition probeCell (n : nat) (g : Grid) (rc : nat * nat)
    : option (option Move * Grid) :=
  let '(r, c) := rc in
  '(hitR, g1) ← (if c <? n - 1 then wouldMatch g r c r (c + 1)
                  else Some (false, g));
  if (hitR : bool) then Some (Some (mkCell r c, mkCell r (c + 1)), g1)
  else
    '(hitD, g2) ← (if r <? n - 1 then wouldMatch g1 r c (r + 1) c
                   else Some (false, g1));
    if (hitD : bool) then Some (Some (mkCell r c, mkCell (r + 1) c), g2)
    else Some (None, g2).

Fixpoint probeCells (n : nat) (rcs : list (nat * nat)) (g : Grid)
    : option (option Move * Grid) :=
  match rcs with
  | [] => Some (None, g)
  | rc :: rcs' =>
      '(m, g1) ← probeCell n g rc;
      match m with
      | Some mv => Some (Some mv, g1)
      | None => probeCells n rcs' g1
      end
  end.

(** [move === null] *)
Definition isNull (mv : option Move) : bool :=
  match mv with None => true | Some _ => false end.

(** Row-major enumeration of the cells of an [n] by [n] board. *)
Definition allCells (n : nat) : list (nat * nat) :=
  r ← seq 0 n; (fun c => (r, c)) <$> seq 0 n.

Definition findValidMove (g : Grid) : option (option Move * Grid) :=
  probeCells (length g) (allCells (length g)) g.

(** *** shuffleBoard *)

(** [[a[i], a[j]] = [a[j], a[i]]] *)
Definition swapAt (l : list Z) (i j : nat) : list Z :=
  match l !! i, l !! j with
  | Some vi, Some vj => <[j := vi]> (<[i := vj]> l)
  | _, _ => l
  end.

(** One step of the Fisher-Yates loop, at index [i]. *)
Definition shuffleStep (i : nat) (flat : list Z) : M (list Z) :=
  j ← randomIndex (Z.of_nat i + 1);
  ret (swapAt flat i (Z.to_nat j)).

(** [for (let i = flat.length - 1; i > 0; i--)] *)
Definition shuffleFlat (flat : list Z) : M (list Z) :=
  forM (rev (seq 1 (length flat - 1))) shuffleStep flat.

(** [ng[r] = flat.slice(r * n, (r + 1) * n)] for each row *)
Definition regrid (n : nat) (flat : list Z) : Grid :=
  (fun r => take n (drop (r * n) flat)) <$> seq 0 n.

Fixpoint shuffleAttempts (attempts fuel : nat) (g : Grid) (types : Z) : M Grid :=
  match attempts with
  | O => createBoard fuel (length g) types
  | S attempts' =>
      flat ← shuffleFlat (concat g);
      let ng := regrid (length g) flat in
      if noMatches (findMatches ng)
      then
        '(mv, ng') ← lift (findValidMove ng);
        if isNull mv
        then shuffleAttempts attempts' fuel g types
        else ret ng'
      else shuffleAttempts attempts' fuel g types
  end.

Definition shuffleBoard (fuel : nat) (g : Grid) (types : Z) : M Grid :=
  shuffleAttempts 100 fuel g types.

Arguments shuffleBoard : simpl never.

(** *** calcScore *)

Definition groupScore (m : MatchGroup) : Z :=
  let len := length (cells m) in
  if len <=? 3 then 50%Z else if len =? 4 then 150%Z else 300%Z.

Definition calcScore (matches : list MatchGroup) (cascade : Z) : Z :=
  (foldl (fun total m => total + groupScore m) 0 matches * cascade)%Z.

(** *** The game record and the per-frame update

    The fields of [gameRef.current] that the update reads or writes,
    together with [stateRef.current]. Score floaters and the canvas layout
    are presentation and are left out, as is the best-score bookkeeping at
    game over. *)

Record Game := mkGame {
  stateRef : GameState;
  grid : Grid;
  score : Z;
  timeRemaining : Q;
  cascadeLevel : Z;
  animState : AnimState;
  animStart : Q;
  swapFrom : CellPos;
  swapTo : CellPos;
  matchedCells : list CellPos;
  fallData : list FallInfo;
  lastInteraction : Q;
  lastTickTime : Q;
  hintMove : option Move
}.

Definition HINT_DELAY : Q := 5000.

(** The countdown at the head of [draw]. *)
Definition tickTimer (now : Q) (gm : Game) : Game :=
  match stateRef gm with
  | playing =>
      let t1 :=
        if Qltb 0 (lastTickTime gm) then
          let dt := ((now - lastTickTime gm) / 1000)%Q in
          if Qltb dt (1 # 2) then (timeRemaining gm - dt)%Q
          else timeRemaining gm
        else timeRemaining gm in
      let over := Qle_bool t1 0 in
      mkGame (if over then gameover else playing) (grid gm) (score gm)
        (if over then 0%Q else t1) (cascadeLevel gm) (animState gm)
        (animStart gm) (swapFrom gm) (swapTo gm) (matchedCells gm)
        (fallData gm) (lastInteraction gm) now (hintMove gm)
  | _ =>
      mkGame (stateRef gm) (grid gm) (score gm) (timeRemaining gm)
        (cascadeLevel gm) (animState gm) (animStart gm) (swapFrom gm)
        (swapTo gm) (matchedCells gm) (fallData gm) (lastInteraction gm)
        0%Q (hintMove gm)
  end.

(** [[grid[a.row][a.col], grid[b.row][b.col]] =
     [grid[b.row][b.col], grid[a.row][a.col]]]; no result when a cell is
    outside the grid. *)
Definition swapCells (g : Grid) (a b : CellPos) : option Grid :=
  match cell g (row a) (col a), cell g (row b) (col b) with
  | Some va, Some vb =>
      Some (setCell (setCell g (row a) (col a) vb) (row b) (col b) va)
  | _, _ => None
  end.

(** A match was found: mark, score and start clearing. *)
Definition startClearing (now : Q) (gm : Game) (g : Grid)
    (matches : list MatchGroup) (cascade : Z) : Game :=
  mkGame (stateRef gm) g (score gm + calcScore matches cascade)%Z
    (timeRemaining gm) cascade clearing now (swapFrom gm) (swapTo gm)
    (getMatchedSet matches) (fallData gm) (lastInteraction gm)
    (lastTickTime gm) (hintMove gm).

Definition withAnim (gm : Game) (g : Grid) (a : AnimState) (start : Q) : Game :=
  mkGame (stateRef gm) g (score gm) (timeRemaining gm) (cascadeLevel gm)
    a start (swapFrom gm) (swapTo gm) (matchedCells gm) (fallData gm)
    (lastInteraction gm) (lastTickTime gm) (hintMove gm).

(** [swapping]: apply the swap; keep it when it matches, undo it
    otherwise. *)
Definition stepSwapping (now : Q) (gm : Game) : option Game :=
  if bool_decide (animState gm = swapping)
     && Qle_bool SWAP_MS (now - animStart gm)
  then
    g1 ← swapCells (grid gm) (swapFrom gm) (swapTo gm);
    let matches := findMatches g1 in
    if noMatches matches then
      g2 ← swapCells g1 (swapFrom gm) (swapTo gm);
      Some (withAnim gm g2 swapping_back now)
    else Some (startClearing now gm g1 matches 1)
  else Some gm.

Definition stepSwappingBack (now : Q) (gm : Game) : Game :=
  if bool_decide (animState gm = swapping_back)
     && Qle_bool SWAP_MS (now - animStart gm)
  then withAnim gm (grid gm) idle (animStart gm)
  else gm.

(** [clearing]: empty the matched cells and let the columns fall. *)
Definition stepClearing (types : Z) (now : Q) (gm : Game) : M Game :=
  if bool_decide (animState gm = clearing)
     && Qle_bool CLEAR_MS (now - animStart gm)
  then
    let holed :=
      foldl (fun g k => setCell g (row k) (col k) (-1)) (grid gm)
            (matchedCells gm) in
    '(newGrid, fd) ← applyGravity holed types;
    ret (mkGame (stateRef gm) newGrid (score gm) (timeRemaining gm)
           (cascadeLevel gm) falling now (swapFrom gm) (swapTo gm) []
           fd (lastInteraction gm) (lastTickTime gm) (hintMove gm))
  else ret gm.

(** [falling]: cascade when the fallen board matches again; otherwise
    settle, reshuffling a board that has no move. *)
Definition stepFalling (fuel : nat) (types : Z) (now : Q) (gm : Game) : M Game :=
  if bool_decide (animState gm = falling)
     && Qle_bool FALL_MS (now - animStart gm)
  then
    let matches := findMatches (grid gm) in
    if noMatches matches then
      '(mv, g1) ← lift (findValidMove (grid gm));
      g2 ← (if isNull mv
            then shuffleBoard fuel g1 types else ret g1);
      ret (mkGame (stateRef gm) g2 (score gm) (timeRemaining gm) 0 idle
             (animStart gm) (swapFrom gm) (swapTo gm) (matchedCells gm)
             (fallData gm) (lastInteraction gm) (lastTickTime gm) None)
    else ret (startClearing now gm (grid gm) matches (cascadeLevel gm + 1))
  else ret gm.

(** The hint search at the end of [draw]. *)
Definition stepHint (now : Q) (gm : Game) : option Game :=
  if bool_decide (animState gm = idle) && bool_decide (stateRef gm = playing)
     && Qltb HINT_DELAY (now - lastInteraction gm)
  then
    match hintMove gm with
    | Some _ => Some gm
    | None =>
        '(mv, g1) ← findValidMove (grid gm);
        Some (mkGame (stateRef gm) g1 (score gm) (timeRemaining gm)
                (cascadeLevel gm) (animState gm) (animStart gm) (swapFrom gm)
                (swapTo gm) (matchedCells gm) (fallData gm)
                (lastInteraction gm) (lastTickTime gm) mv)
    end
  else Some gm.

(** The state update of one call of [draw] at time [now]. *)
Definition draw (fuel : nat) (s : GameSettings) (now : Q) (gm : Game) : M Game :=
  let gm0 := tickTimer now gm in
  gm1 ← lift (stepSwapping now gm0);
  let gm2 := stepSwappingBack now gm1 in
  gm3 ← stepClearing (gemTypes s) now gm2;
  gm4 ← stepFalling fuel (gemTypes s) now gm3;
  lift (stepHint now gm4).

(** The host calls [draw] once per animation frame: the game after the
    frames at the times [nows], with no input in between. *)
Definition frames (fuel : nat) (s : GameSettings) (nows : list Q) (gm : Game)
    : M Game :=
  forM nows (draw fuel s) gm.

(** [initGame], called at time [now]. *)
Definition initGame (fuel : nat) (s : GameSettings) (now : Q) : M Game :=
  g ← createBoard fuel (gridSize s) (gemTypes s);
  '(mv, g1) ← lift (findValidMove g);
  g2 ← (if isNull mv
        then shuffleBoard fuel g1 (gemTypes s) else ret g1);
  ret (mkGame playing g2 0 (timeLimit s) 0 idle 0 (mkCell 0 0) (mkCell 0 0)
         [] [] now 0 None).

(** [handleSwipe]: a drag from [startCell] by [(dx, dy)] pixels, handled
    at time [now]. *)
Definition handleSwipe (s : GameSettings) (now : Q) (startCell : CellPos)
    (dx dy : Q) (gm : Game) : Game :=
  if negb (bool_decide (stateRef gm = playing)) then gm
  else if negb (bool_decide (animState gm = idle)) then gm
  else
    let horizontal := Qltb (Qabs dy) (Qabs dx) in
    let targetRow :=
      if horizontal then Z.of_nat (row startCell)
      else (Z.of_nat (row startCell) + (if Qltb 0 dy then 1 else -1))%Z in
    let targetCol :=
      if horizontal
      then (Z.of_nat (col startCell) + (if Qltb 0 dx then 1 else -1))%Z
      else Z.of_nat (col startCell) in
    let gs := Z.of_nat (gridSize s) in
    if ((targetRow <? 0) || (gs <=? targetRow)
        || (targetCol <? 0) || (gs <=? targetCol))%Z
    then gm
    else
      mkGame (stateRef gm) (grid gm) (score gm) (timeRemaining gm)
        (cascadeLevel gm) swapping now startCell
        (mkCell (Z.to_nat targetRow) (Z.to_nat targetCol))
        (matchedCells gm) (fallData gm) now (lastTickTime gm) None.

(** *** Notions for the properties *)

(** An [n] by [n] board. *)
Definition Square (n : nat) (g : Grid) : Prop :=
  length g = n /\ Forall (fun line => length line = n) g.

(** The three animation states a swap without a match passes through. *)
Definition Quiet (a : AnimState) : Prop :=
  a = swapping \/ a = swapping_back \/ a = idle.

(** No gem of the board ends a run of three, to its left or upwards. *)
Definition NoRuns (g : Grid) : Prop :=
  forall r c v, cell g r c = Some v ->
    (2 <= c -> ~ (cell g r (c - 1) = Some v /\ cell g r (c - 2) = Some v))
    /\ (2 <= r -> ~ (cell g (r - 1) c = Some v /\ cell g (r - 2) c = Some v)).

(** The board while row [r] is being filled: rows above are complete,
    row [r] has [c] gems, and no gem ends a run. *)
Definition Filling (size r c : nat) (g : Grid) : Prop :=
  length g = S r
  /\ (forall r' line, r' < r -> g !! r' = Some line -> length line = size)
  /\ (exists line, g !! r = Some line /\ length line = c)
  /\ NoRuns g.

(** The board between two rows. *)
Definition Filled (size r : nat) (g : Grid) : Prop :=
  length g = r
  /\ (forall r' line, g !! r' = Some line -> length line = size)
  /\ NoRuns g.

(** The gem that the draw at position [p] of the random sequence gives. *)
Definition gemAt (types : Z) (src : nat -> U01) (p : nat) : Z :=
  Qfloor (u_val (src p) * inject_Z types).

(** Any three draws in a row give three different gems. *)
Definition Varied (types : Z) (src : nat -> U01) : Prop :=
  forall p,
    gemAt types src p <> gemAt types src (S p)
    /\ gemAt types src p <> gemAt types src (S (S p))
    /\ gemAt types src (S p) <> gemAt types src (S (S p)).

(** No three cells in a row or in a column hold the same gem. *)
Definition NoThreeInLine (g : Grid) : Prop :=
  forall r c v,
    ~ (cell g r c = Some v /\ cell g r (c + 1) = Some v
       /\ cell g r (c + 2) = Some v)
    /\ ~ (cell g r c = Some v /\ cell g (r + 1) c = Some v
          /\ cell g (r + 2) c = Some v).

(** Column [c] of a board, top row first. *)
Definition column (g : Grid) (c : nat) : list Z :=
  (fun line => line !!! c) <$> g.

(** The gems of a column, without its empty cells. *)
Definition survivors (g : Grid) (c : nat) : list Z :=
  filter (fun v => (0 <= v)%Z) (column g c).

(** Some swap of two neighbours makes a match. *)
Definition HasMove (g : Grid) : Prop :=
  exists mv, findValidMove g = Some (Some mv, g).

(** What the specification asks of a settle on a board without a valid
    move: whatever the random draws, the game is back at [idle] on a board
    without a match that has a valid move. *)
Definition SettleLeavesMove : Prop :=
  forall n fuel s now gm gm' src p p',
    Square n (grid gm) ->
    animState gm = falling ->
    (FALL_MS <= now - animStart gm)%Q ->
    findMatches (grid gm) = [] ->
    ~ HasMove (grid gm) ->
    draw fuel s now gm src p = Some (gm', p') ->
    animState gm' = idle /\ findMatches (grid gm') = [] /\ HasMove (grid gm').

(** The time that one call of [draw] takes off the Match-Three
    countdown, in seconds. *)
Definition countdownDrop (now : Q) (gm : Game) : Q :=
  (timeRemaining gm
   - timeRemaining (tickTimer now gm))%Q.

(** *** Notions for the matches and the moves *)

(** Cell [k] lies in three cells in line, in its row or in its column,
    that hold the same gem. *)
Definition InRun (g : Grid) (k : CellPos) : Prop :=
  exists v, (0 <= v)%Z
    /\ ((exists c, c <= col k <= c + 2
           /\ forall i, i < 3 -> cell g (row k) (c + i) = Some v)
        \/ (exists r, r <= row k <= r + 2
              /\ forall i, i < 3 -> cell g (r + i) (col k) = Some v)).

(** A cell of the [n] by [n] board. *)
Definition OnBoard (n : nat) (k : CellPos) : Prop := row k < n /\ col k < n.

(** Every cell of the board holds a gem. *)
Definition Full (g : Grid) : Prop :=
  forall r c v, cell g r c = Some v -> (0 <= v)%Z.

(** Two cells next to each other, in a row or in a column. *)
Definition Neighbours (a b : CellPos) : Prop :=
  (row a = row b /\ (col b = col a + 1 \/ col a = col b + 1))
  \/ (col a = col b /\ (row b = row a + 1 \/ row a = row b + 1)).

(** Swapping the gems of [a] and [b] gives a board on which [findMatches]
    finds a match. *)
Definition MakesMatch (g : Grid) (a b : CellPos) : Prop :=
  exists g1, swapCells g a b = Some g1 /\ findMatches g1 <> [].

(** The two probes of [findValidMove] at cell [(r, c)]: one of them
    accepts the swap of [a] and [b]; both refuse. *)
Definition ProbedTrue (n : nat) (g : Grid) (r c : nat) (a b : CellPos) : Prop :=
  a = mkCell r c
  /\ ((b = mkCell r (c + 1) /\ c + 1 < n
       /\ wouldMatch g r c r (c + 1) = Some (true, g))
      \/ (b = mkCell (r + 1) c /\ r + 1 < n
          /\ wouldMatch g r c (r + 1) c = Some (true, g))).

Definition ProbedFalse (n : nat) (g : Grid) (r c : nat) : Prop :=
  (c + 1 < n -> wouldMatch g r c r (c + 1) = Some (false, g))
  /\ (r + 1 < n -> wouldMatch g r c (r + 1) c = Some (false, g)).

(** [togglePause] of the Match-Three component. *)
Definition togglePause (gm : Game) : Game :=
  match stateRef gm with
  | playing =>
      mkGame paused (grid gm) (score gm) (timeRemaining gm) (cascadeLevel gm)
        (animState gm) (animStart gm) (swapFrom gm) (swapTo gm)
        (matchedCells gm) (fallData gm) (lastInteraction gm)
        (lastTickTime gm) (hintMove gm)
  | paused =>
      mkGame playing (grid gm) (score gm) (timeRemaining gm) (cascadeLevel gm)
        (animState gm) (animStart gm) (swapFrom gm) (swapTo gm)
        (matchedCells gm) (fallData gm) (lastInteraction gm)
        0 (hintMove gm)
  | _ => gm
  end.

(** The state, the countdown and the time of the last tick are the same
    in both games. *)
Definition SameClock (gm gm' : Game) : Prop :=
  stateRef gm' = stateRef gm /\ timeRemaining gm' = timeRemaining gm
  /\ lastTickTime gm' = lastTickTime gm.

(** From [gm] to [gm'] the score went up by a multiple of 50, and the
    cascade level is not negative. *)
Definition Scored (gm gm' : Game) : Prop :=
  (0 <= cascadeLevel gm')%Z
  /\ exists k, (0 <= k)%Z /\ score gm' = (score gm + 50 * k)%Z.

(** *** The pointer input

    [game.selected], the cell picked by a first tap, is read and written
    by the input handlers only; a session pairs it with the game. *)

Record Session := mkSession {
  game : Game;
  selected : option CellPos
}.

(** [game.lastInteraction = performance.now(); game.hintMove = null] *)
Definition touched (now : Q) (gm : Game) : Game :=
  mkGame (stateRef gm) (grid gm) (score gm) (timeRemaining gm)
    (cascadeLevel gm) (animState gm) (animStart gm) (swapFrom gm) (swapTo gm)
    (matchedCells gm) (fallData gm) now (lastTickTime gm) None.

(** [Math.abs(a - b)] on two indices *)
Definition dist (a b : nat) : Z := Z.abs (Z.of_nat a - Z.of_nat b).

(** [handleTap]: [hit] is what [clientToCell] gives for the tap, [now]
    and [now'] are the two readings of the clock. *)
Definition handleTap (now now' : Q) (hit : option CellPos) (ss : Session)
    : Session :=
  let gm := game ss in
  if negb (bool_decide (stateRef gm = playing)) then ss
  else if negb (bool_decide (animState gm = idle)) then ss
  else
    match hit with
    | None => mkSession gm None
    | Some cell =>
        let gm1 := touched now gm in
        match selected ss with
        | None => mkSession gm1 (Some cell)
        | Some sel =>
            if (row sel =? row cell) && (col sel =? col cell)
            then mkSession gm1 None
            else if (dist (row sel) (row cell) + dist (col sel) (col cell)
                     =? 1)%Z
            then
              mkSession
                (mkGame (stateRef gm1) (grid gm1) (score gm1)
                   (timeRemaining gm1) (cascadeLevel gm1) swapping now' sel
                   cell (matchedCells gm1) (fallData gm1)
                   (lastInteraction gm1) (lastTickTime gm1) (hintMove gm1))
                None
            else mkSession gm1 (Some cell)
        end
    end.

(** [handleSwipe] gets as far as its assignments. *)
Definition swipeStarts (s : GameSettings) (startCell : CellPos) (dx dy : Q)
    (gm : Game) : bool :=
  bool_decide (stateRef gm = playing) && bool_decide (animState gm = idle)
  && let horizontal := Qltb (Qabs dy) (Qabs dx) in
     let targetRow :=
       if horizontal then Z.of_nat (row startCell)
       else (Z.of_nat (row startCell) + (if Qltb 0 dy then 1 else -1))%Z in
     let targetCol :=
       if horizontal
       then (Z.of_nat (col startCell) + (if Qltb 0 dx then 1 else -1))%Z
       else Z.of_nat (col startCell) in
     let gs := Z.of_nat (gridSize s) in
     negb ((targetRow <? 0) || (gs <=? targetRow)
           || (targetCol <? 0) || (gs <=? targetCol))%Z.

(** [handleSwipe] with its [game.selected = null]. *)
Definition onSwipe (s : GameSettings) (now : Q) (startCell : CellPos)
    (dx dy : Q) (ss : Session) : Session :=
  mkSession (handleSwipe s now startCell dx dy (game ss))
    (if swipeStarts s startCell dx dy (game ss) then None else selected ss).

(** What happens to a session: a frame is drawn, the player swipes, taps,
    or presses the pause key. *)
Inductive Event :=
  | Frame (now : Q)
  | Swipe (now : Q) (startCell : CellPos) (dx dy : Q)
  | Tap (now now' : Q) (hit : option CellPos)
  | PauseKey.

Definition onEvent (fuel : nat) (s : GameSettings) (e : Event) (ss : Session)
    : M Session :=
  match e with
  | Frame now =>
      gm ← draw fuel s now (game ss); ret (mkSession gm (selected ss))
  | Swipe now startCell dx dy => ret (onSwipe s now startCell dx dy ss)
  | Tap now now' hit => ret (handleTap now now' hit ss)
  | PauseKey => ret (mkSession (togglePause (game ss)) (selected ss))
  end.

Definition play (fuel : nat) (s : GameSettings) (es : list Event)
    (ss : Session) : M Session :=
  forM es (onEvent fuel s) ss.

(** The cells that [clientToCell] hands to the handlers are cells of the
    board. *)
Definition ValidEvent (n : nat) (e : Event) : Prop :=
  match e with
  | Swipe _ startCell _ _ => OnBoard n startCell
  | Tap _ _ (Some cell) => OnBoard n cell
  | _ => True
  end.

(** Every cell of the board holds one of the [types] gems. *)
Definition Gems (types : Z) (g : Grid) : Prop :=
  forall r c v, cell g r c = Some v -> (0 <= v < types)%Z.

(** The board of a game is whole: [n] by [n], a gem in every cell, the
    cells marked for clearing on the board, and a swap in progress between
    two neighbouring cells of the board. *)
Definition BoardOk (n : nat) (types : Z) (gm : Game) : Prop :=
  Square n (grid gm) /\ Gems types (grid gm)
  /\ Forall (OnBoard n) (matchedCells gm)
  /\ (animState gm = swapping ->
      OnBoard n (swapFrom gm) /\ OnBoard n (swapTo gm)
      /\ Neighbours (swapFrom gm) (swapTo gm)).

(** The two games show the same board. *)
Definition SameBoard (gm gm' : Game) : Prop :=
  grid gm' = grid gm /\ animState gm' = animState gm
  /\ swapFrom gm' = swapFrom gm /\ swapTo gm' = swapTo gm
  /\ matchedCells gm' = matchedCells gm.

(** The board of the session is whole and the selected cell is a cell of
    the board. *)
Definition SessionOk (n : nat) (types : Z) (ss : Session) : Prop :=
  BoardOk n types (game ss)
  /\ forall k, selected ss = Some k -> OnBoard n k.

(** A board that [shuffleBoard] accepts: it has no match and it has a
    valid move. *)
Definition Accepted (g : Grid) : Prop := findMatches g = [] /\ HasMove g.

(** Board [ng] is the shuffle of board [g] that the random numbers from
    cursor [q] on give, the Fisher-Yates pass over the cells of [g] cut
    into rows again; the pass leaves the cursor at [q']. *)
Definition ShuffleOf (g : Grid) (src : nat -> U01) (q : nat) (ng : Grid)
    (q' : nat) : Prop :=
  exists flat,
    shuffleFlat (concat g) src q = Some (flat, q')
    /\ ng = regrid (length g) flat.

(** [k] shuffles of board [g] in a row, from cursor [p] to cursor [q],
    none of which is accepted. *)
Inductive Rejected (g : Grid) (src : nat -> U01) : nat -> nat -> nat -> Prop :=
  | Rejected_none p : Rejected g src 0 p p
  | Rejected_more k p ng p1 q :
      ShuffleOf g src p ng p1 -> ~ Accepted ng -> Rejected g src k p1 q ->
      Rejected g src (S k) p q.

(** What [shuffleBoard] makes of board [g] with the random numbers from
    cursor [p] on: the first accepted one of 100 shuffles of [g], or,
    after 100 shuffles that were all turned down, the board of
    [createBoard]. *)
Definition Reshuffled (fuel : nat) (types : Z) (g : Grid) (src : nat -> U01)
    (p : nat) (g' : Grid) (p' : nat) : Prop :=
  (exists k q, k < 100 /\ Rejected g src k p q
               /\ ShuffleOf g src q g' p' /\ Accepted g')
  \/ (exists q, Rejected g src 100 p q
                /\ createBoard fuel (length g) types src q = Some (g', p')).

End MatchThree.

(** ** Space Invaders *)

Module SpaceInvaders.

Record GameSettings := mkSettings {
  rows : nat;
  cols : nat;
  alienSpeed : Q;
  alienDropPx : Q;
  enemyFireInterval : Q;
  playerSpeed : Q;
  bulletSpeed : Q;
  lives : Z;
  maxPlayerBullets : nat
}.

Record Alien := mkAlien {
  a_row : nat;
  a_col : nat;
  x : Q;
  y : Q;
  w : Q;
  h : Q;
  alive : bool;
  type : nat;
  animFrame : Z
}.

Inductive Difficulty := easy | medium | hard.

Definition PRESETS (d : Difficulty) : GameSettings :=
  match d with
  | easy => mkSettings 4 6 12 18 1800 280 450 4 2
  | medium => mkSettings 5 8 14 20 1200 300 480 3 1
  | hard => mkSettings 5 10 18 22 800 320 520 2 1
  end.

Definition ALIEN_W : Q := 28.
Definition ALIEN_H : Q := 22.
Definition ALIEN_PAD_X : Q := 10.
Definition ALIEN_PAD_Y : Q := 10.
Definition STEP_INTERVAL_BASE : Q := 600.
Definition STEP_INTERVAL_MIN : Q := 80.

Definition best0 (st : Persistence.Storage) : Persistence.JSNumber :=
  Persistence.bestInit "space-invaders-best" st.

(** [Math.min] and [Math.max] *)
Definition qmin (a b : Q) : Q := if Qle_bool a b then a else b.
Definition qmax (a b : Q) : Q := if Qle_bool a b then b else a.

(** The elapsed time of a frame, in seconds: [dt] at the head of [frame],
    from [lastTimeRef.current] and the timestamp [now]. *)
Definition frameDt (lastTime now : Q) : Q :=
  if Qltb 0 lastTime then qmin ((now - lastTime) / 1000) (5 # 100) else 0.

(** The part of [gameRef.current] that the formation step touches. *)
Record Formation := mkFormation {
  aliens : list Alien;
  alienDir : Z;
  stepTimer : Q;
  stepInterval : Q;
  alienAnimFrame : Z
}.

(** The alien grid of [initGame] for a canvas of width [canvasW]. *)
Definition initAliens (s : GameSettings) (canvasW : Q) (wave : Z) : list Alien :=
  let gridW := (inject_Z (Z.of_nat (cols s)) * (ALIEN_W + ALIEN_PAD_X) - ALIEN_PAD_X)%Q in
  let startX := ((canvasW - gridW) / 2)%Q in
  let startY := (60 + inject_Z (wave - 1) * 8)%Q in
  r ← seq 0 (rows s);
  (fun c =>
     mkAlien r c
       (startX + inject_Z (Z.of_nat c) * (ALIEN_W + ALIEN_PAD_X))
       (startY + inject_Z (Z.of_nat r) * (ALIEN_H + ALIEN_PAD_Y))
       ALIEN_W ALIEN_H true
       (if r =? 0 then 0 else if r <=? rows s / 2 then 1 else 2) 0)
    <$> seq 0 (cols s).

Definition initFormation (s : GameSettings) (canvasW : Q) (wave : Z) : Formation :=
  let speedFactor := (1 + inject_Z (wave - 1) * (12 # 100))%Q in
  mkFormation (initAliens s canvasW wave) 1 0
    (qmax STEP_INTERVAL_MIN (STEP_INTERVAL_BASE / speedFactor)) 0.

(** [nx < 4 || nx + a.w > width - 4] for [nx = a.x + alienDir * alienSpeed] *)
Definition wouldLeave (s : GameSettings) (width : Q) (d : Z) (a : Alien) : bool :=
  let nx := (x a + inject_Z d * alienSpeed s)%Q in
  Qltb nx 4 || Qltb (width - 4) (nx + w a).

Definition needDrop (s : GameSettings) (width : Q) (f : Formation) : bool :=
  existsb (fun a => alive a && wouldLeave s width (alienDir f) a) (aliens f).

Definition dropAlien (s : GameSettings) (fr : Z) (a : Alien) : Alien :=
  if alive a
  then mkAlien (a_row a) (a_col a) (x a) (y a + alienDropPx s) (w a) (h a)
         (alive a) (type a) fr
  else a.

Definition slideAlien (s : GameSettings) (d fr : Z) (a : Alien) : Alien :=
  if alive a
  then mkAlien (a_row a) (a_col a) (x a + inject_Z d * alienSpeed s) (y a)
         (w a) (h a) (alive a) (type a) fr
  else a.

(** One step of the formation: the body of
    [if (game.stepTimer >= game.stepInterval)]. *)
Definition formationStep (s : GameSettings) (width : Q) (f : Formation) : Formation :=
  let fr := Z.rem (alienAnimFrame f + 1) 2 in
  if needDrop s width f
  then mkFormation (dropAlien s fr <$> aliens f) (alienDir f * -1) 0
         (stepInterval f) fr
  else mkFormation (slideAlien s (alienDir f) fr <$> aliens f) (alienDir f) 0
         (stepInterval f) fr.

(** The formation block of a [playing] frame with elapsed time [dt]. *)
Definition formationUpdate (s : GameSettings) (width dt : Q) (f : Formation) : Formation :=
  let t := (stepTimer f + dt * 1000)%Q in
  if Qle_bool (stepInterval f) t
  then formationStep s width
         (mkFormation (aliens f) (alienDir f) t (stepInterval f) (alienAnimFrame f))
  else mkFormation (aliens f) (alienDir f) t (stepInterval f) (alienAnimFrame f).

(** *** Notions for the properties *)

(** Alien [a], moved one more horizontal step in direction [d], would no
    longer lie within the interval [4, width - 4]. *)
Definition LeavesField (s : GameSettings) (width : Q) (d : Z) (a : Alien) : Prop :=
  let nx := (x a + inject_Z d * alienSpeed s)%Q in
  ~ (4 <= nx /\ nx + w a <= width - 4)%Q.

(** *** The update of a playing frame

    The state that the update block of [frame] reads and writes:
    [gameRef.current] (without the stars), [stateRef.current],
    [lastTimeRef.current] and the [shootCooldown] of the render loop. *)

Inductive GameState := menu | playing | paused | gameover.
Inductive Owner := player | enemy.

#[global] Instance Invaders_GameState_eq_dec : EqDecision GameState.
Proof. solve_decision. Defined.

Definition PLAYER_W : Q := 36.
Definition PLAYER_H : Q := 22.
Definition BULLET_W : Q := 3.
Definition BULLET_H : Q := 10.
Definition SHIELD_BLOCK : Q := 6.
Definition SHIELD_ROWS : nat := 4.
Definition SHIELD_COLS : nat := 8.
Definition UFO_W : Q := 36.
Definition UFO_H : Q := 16.
Definition ALIEN_POINTS : list Z := [40; 20; 10]%Z.
Definition UFO_POINTS : Z := 200.

(** [ax < bx + bw && ax + aw > bx && ay < by + bh && ay + ah > by] *)
Definition rectsOverlap (ax ay aw ah bx by' bw bh : Q) : bool :=
  Qltb ax (bx + bw) && Qltb bx (ax + aw)
  && Qltb ay (by' + bh) && Qltb by' (ay + ah).

Record Bullet := mkBullet {
  b_x : Q;
  b_y : Q;
  dy : Q;
  owner : Owner
}.

Record Shield := mkShield {
  s_x : Q;
  s_y : Q;
  blocks : list (list bool)
}.

Record UFO := mkUFO {
  active : bool;
  u_x : Q;
  u_y : Q;
  dx : Q;
  u_w : Q;
  u_h : Q
}.

(** The keys held down: [keysRef.current] has one of the keys for left,
    for right, or the space bar. *)
Record Keys := mkKeys {
  keyLeft : bool;
  keyRight : bool;
  keyShoot : bool
}.

Record Game := mkGame {
  stateRef : GameState;
  form : Formation;
  bullets : list Bullet;
  shields : list Shield;
  ufo : UFO;
  playerX : Q;
  playerY : Q;
  score : Z;
  livesLeft : Z;
  wave : Z;
  enemyFireTimer : Q;
  ufoTimer : Q;
  alienCount : Z;
  invincibleUntil : Q;
  touchLeft : bool;
  touchRight : bool;
  touchShoot : bool;
  shootCooldown : Q;
  lastTime : Q
}.

(** [b.owner === "player"] *)
Definition isPlayer (b : Bullet) : bool :=
  match owner b with player => true | enemy => false end.

Definition isEnemy (b : Bullet) : bool := negb (isPlayer b).

(** [rectsOverlap(b.x, b.y, BULLET_W, BULLET_H, x, y, w, h)] *)
Definition bulletOver (b : Bullet) (rx ry rw rh : Q) : bool :=
  rectsOverlap (b_x b) (b_y b) BULLET_W BULLET_H rx ry rw rh.

(** **** Player movement and shooting *)

Definition movePlayer (s : GameSettings) (width dt : Q) (keys : Keys)
    (g : Game) : Q :=
  let moveDir :=
    ((if keyLeft keys || touchLeft g then -1 else 0)
     + (if keyRight keys || touchRight g then 1 else 0))%Z in
  qmax 4 (qmin (width - PLAYER_W - 4)
            (playerX g + inject_Z moveDir * playerSpeed s * dt)).

(** The bullets and the cooldown after the shooting block; [px] is the
    player's position after the move. *)
Definition shoot (s : GameSettings) (dt : Q) (keys : Keys) (px : Q)
    (g : Game) : list Bullet * Q :=
  let cd := (shootCooldown g - dt)%Q in
  if (keyShoot keys || touchShoot g) && Qle_bool cd 0
  then
    if length (filter (fun b => isPlayer b = true) (bullets g))
       <? maxPlayerBullets s
    then (bullets g
            ++ [mkBullet (px + PLAYER_W / 2 - BULLET_W / 2)
                  (playerY g - BULLET_H) (- bulletSpeed s) player],
          18 # 100)
    else (bullets g, cd)
  else (bullets g, cd).

(** [b.y += b.dy * dt], then the filter of the bullets off the screen. *)
Definition moveBullets (height dt : Q) (bs : list Bullet) : list Bullet :=
  filter (fun b => Qltb (-20) (b_y b) && Qltb (b_y b) (height + 20) = true)
    ((fun b => mkBullet (b_x b) (b_y b + dy b * dt) (dy b) (owner b)) <$> bs).

(** **** Enemy fire *)

(** [colBottom.get(col)] on the entries of the [Map], in insertion order *)
Fixpoint mapGet (m : list (nat * Alien)) (k : nat) : option Alien :=
  match m with
  | [] => None
  | (k', a) :: m' => if k' =? k then Some a else mapGet m' k
  end.

(** [colBottom.set(col, a)]: a new key goes to the end, an old key keeps
    its place. *)
Fixpoint mapSet (m : list (nat * Alien)) (k : nat) (a : Alien)
    : list (nat * Alien) :=
  match m with
  | [] => [(k, a)]
  | (k', a') :: m' =>
      if k' =? k then (k', a) :: m' else (k', a') :: mapSet m' k a
  end.

(** The bottom-most alive alien of each column. *)
Definition colBottom (als : list Alien) : list (nat * Alien) :=
  foldl (fun m a =>
           if alive a then
             match mapGet m (a_col a) with
             | None => mapSet m (a_col a) a
             | Some existing =>
                 if a_row existing <? a_row a then mapSet m (a_col a) a else m
             end
           else m)
        [] als.

Definition bottomAliens (als : list Alien) : list Alien := (colBottom als).*2.

(** The bullets and the fire timer after the enemy fire block. *)
Definition enemyFire (s : GameSettings) (dt : Q) (wv : Z) (timer : Q)
    (als : list Alien) (bs : list Bullet) : M (list Bullet * Q) :=
  let t := (timer + dt * 1000)%Q in
  let fireInterval :=
    qmax 300 (enemyFireInterval s - inject_Z (wv - 1) * 80) in
  if Qle_bool fireInterval t then
    match bottomAliens als with
    | [] => ret (bs, 0%Q)
    | bottom =>
        i ← randomIndex (Z.of_nat (length bottom));
        shooter ← lift (bottom !! Z.to_nat i);
        ret (bs ++ [mkBullet (x shooter + w shooter / 2 - BULLET_W / 2)
                      (y shooter + h shooter)
                      (bulletSpeed s * (65 # 100)) enemy],
             0%Q)
    end
  else ret (bs, t).

(** **** The UFO *)

Definition ufoUpdate (width dt : Q) (u : UFO) (timer : Q) : M (UFO * Q) :=
  let t := (timer + dt * 1000)%Q in
  '(u1, t1) ←
    (if negb (active u) then
       r ← random;
       if Qltb (12000 + u_val r * 8000) t then
         r2 ← random;
         let fromLeft := Qltb (1 # 2) (u_val r2) in
         ret (mkUFO true (if fromLeft then - UFO_W else width) 28
                (if fromLeft then 120 else -120) UFO_W UFO_H,
              0%Q)
       else ret (u, t)
     else ret (u, t));
  ret (if active u1 then
         let x' := (u_x u1 + dx u1 * dt)%Q in
         mkUFO (negb (Qltb x' (- UFO_W - 10) || Qltb (width + 10) x'))
           x' (u_y u1) (dx u1) (u_w u1) (u_h u1)
       else u1,
       t1).

(** **** Collisions *)

(** The aliens, the counter, the score and the step interval: what the
    pass of the player's bullets over the aliens writes. *)
Record Tally := mkTally {
  t_aliens : list Alien;
  t_count : Z;
  t_score : Z;
  t_interval : Q
}.

Definition kill (a : Alien) : Alien :=
  mkAlien (a_row a) (a_col a) (x a) (y a) (w a) (h a) false (type a)
    (animFrame a).

(** The first alive alien under bullet [b]: the aliens with that alien
    dead, and the alien. *)
Fixpoint hitAlien (b : Bullet) (als : list Alien)
    : option (list Alien * Alien) :=
  match als with
  | [] => None
  | a :: rest =>
      if alive a && bulletOver b (x a) (y a) (w a) (h a)
      then Some (kill a :: rest, a)
      else
        match hitAlien b rest with
        | Some (rest', k) => Some (a :: rest', k)
        | None => None
        end
  end.

(** [(1 + (wave - 1) * 0.12) * (1 + (1 - ratio) * 2.5)] with
    [ratio = alienCount / total] *)
Definition speedFactor (s : GameSettings) (wv count : Z) : Q :=
  let total := inject_Z (Z.of_nat (rows s * cols s)) in
  let ratio := (inject_Z count / total)%Q in
  ((1 + inject_Z (wv - 1) * (12 # 100)) * (1 + (1 - ratio) * (5 # 2)))%Q.

(** [for (let bi = bullets.length - 1; bi >= 0; bi--)]: the bullets are
    visited last to first, and a bullet that hits is spliced out. No
    result where the source divides by zero or reads [ALIEN_POINTS]
    outside its three entries. *)
Fixpoint alienHits (s : GameSettings) (wv : Z) (bs : list Bullet) (t : Tally)
    : option (list Bullet * Tally) :=
  match bs with
  | [] => Some ([], t)
  | b :: rest =>
      '(rest', t1) ← alienHits s wv rest t;
      if isPlayer b then
        match hitAlien b (t_aliens t1) with
        | Some (als', a) =>
            pts ← ALIEN_POINTS !! type a;
            let count := (t_count t1 - 1)%Z in
            if (rows s * cols s =? 0) || Qeq_bool (speedFactor s wv count) 0
            then None
            else
              Some (rest',
                    mkTally als' count (t_score t1 + pts * wv)%Z
                      (qmax STEP_INTERVAL_MIN
                         (STEP_INTERVAL_BASE / speedFactor s wv count)))
        | None => Some (b :: rest', t1)
        end
      else Some (b :: rest', t1)
  end.

(** The bullets without the last one that satisfies [hit], if there is
    one: the loops that [break] at their first hit. *)
Fixpoint removeLast (hit : Bullet -> bool) (bs : list Bullet)
    : option (list Bullet) :=
  match bs with
  | [] => None
  | b :: rest =>
      match removeLast hit rest with
      | Some rest' => Some (b :: rest')
      | None => if hit b then Some rest else None
      end
  end.

(** Player bullets against the UFO: the UFO, the bullets and the score. *)
Definition ufoHits (wv : Z) (u : UFO) (bs : list Bullet) (sc : Z)
    : UFO * list Bullet * Z :=
  if active u then
    match removeLast
            (fun b => isPlayer b
                      && bulletOver b (u_x u) (u_y u) (u_w u) (u_h u)) bs with
    | Some bs' =>
        (mkUFO false (u_x u) (u_y u) (dx u) (u_w u) (u_h u), bs',
         (sc + UFO_POINTS * wv)%Z)
    | None => (u, bs, sc)
    end
  else (u, bs, sc).

(** [sh.blocks[br][bc]]: no result when the row is missing (the source
    would throw), [false] for [undefined]. *)
Definition blockAt (sh : Shield) (br bc : nat) : option bool :=
  line ← blocks sh !! br; Some (default false (line !! bc)).

(** [sh.blocks[br][bc] = false] on a block that is there *)
Definition clearBlock (sh : Shield) (br bc : nat) : Shield :=
  mkShield (s_x sh) (s_y sh) (alter (fun line => <[bc := false]> line) br (blocks sh)).

Definition inShield (br bc : Z) : bool :=
  ((0 <=? br) && (br <? Z.of_nat SHIELD_ROWS)
   && (0 <=? bc) && (bc <? Z.of_nat SHIELD_COLS))%Z.

(** [for (const sh of game.shields)] for one bullet: the shields after the
    hit, if a block was hit. *)
Fixpoint shieldHit (b : Bullet) (shs : list Shield)
    : M (option (list Shield)) :=
  match shs with
  | [] => ret None
  | sh :: rest =>
      let next : M (option (list Shield)) :=
        r ← shieldHit b rest; ret (cons sh <$> r) in
      let shW := (inject_Z (Z.of_nat SHIELD_COLS) * SHIELD_BLOCK)%Q in
      let shH := (inject_Z (Z.of_nat SHIELD_ROWS) * SHIELD_BLOCK)%Q in
      if negb (bulletOver b (s_x sh) (s_y sh) shW shH) then next
      else
        let localX := (b_x b + BULLET_W / 2 - s_x sh)%Q in
        let localY :=
          (b_y b + (if Qltb (dy b) 0 then 0 else BULLET_H) - s_y sh)%Q in
        let bc := Qfloor (localX / SHIELD_BLOCK) in
        let br := Qfloor (localY / SHIELD_BLOCK) in
        if inShield br bc then
          blk ← lift (blockAt sh (Z.to_nat br) (Z.to_nat bc));
          if (blk : bool) then
            let sh1 := clearBlock sh (Z.to_nat br) (Z.to_nat bc) in
            r ← random;
            let nbc := (bc + (if Qltb (1 # 2) (u_val r) then 1 else -1))%Z in
            sh2 ← (if ((0 <=? nbc) && (nbc <? Z.of_nat SHIELD_COLS))%Z then
                     nb ← lift (blockAt sh1 (Z.to_nat br) (Z.to_nat nbc));
                     ret (if (nb : bool)
                          then clearBlock sh1 (Z.to_nat br) (Z.to_nat nbc)
                          else sh1)
                   else ret sh1);
            ret (Some (sh2 :: rest))
          else next
        else next
  end.

(** Bullets against the shields, last bullet first. *)
Fixpoint shieldHits (bs : list Bullet) (shs : list Shield)
    : M (list Bullet * list Shield) :=
  match bs with
  | [] => ret ([], shs)
  | b :: rest =>
      '(rest', shs1) ← shieldHits rest shs;
      r ← shieldHit b shs1;
      match r with
      | Some shs2 => ret (rest', shs2)
      | None => ret (b :: rest', shs1)
      end
  end.

(** **** initGame *)

(** The arch of a shield: the middle blocks of the bottom row are
    missing. *)
Definition archBlocks : list (list bool) :=
  (fun r =>
     (fun cc => negb ((SHIELD_ROWS - 1 <=? r) && (2 <=? cc)
                      && (cc <=? SHIELD_COLS - 3)))
       <$> seq 0 SHIELD_COLS)
    <$> seq 0 SHIELD_ROWS.

Definition initShields (canvasW canvasH : Q) : list Shield :=
  let shieldCount := if Qltb canvasW 400 then 3 else 4 in
  let shieldW := (inject_Z (Z.of_nat SHIELD_COLS) * SHIELD_BLOCK)%Q in
  let totalShieldW := (inject_Z (Z.of_nat shieldCount) * shieldW)%Q in
  let shieldGap :=
    ((canvasW - totalShieldW) / (inject_Z (Z.of_nat shieldCount) + 1))%Q in
  (fun i =>
     mkShield (shieldGap + inject_Z (Z.of_nat i) * (shieldW + shieldGap))
       (canvasH - 100) archBlocks)
    <$> seq 0 shieldCount.

(** [generateStars(w, h, 80)]: four random numbers for each star; the
    stars themselves are only drawn. *)
Definition generateStars : M unit :=
  forM (seq 0 (80 * 4)) (fun _ u => _ ← random; ret u) tt.

(** [initGame(canvasW, canvasH, wave, carryScore, carryLives)] *)
Definition initGame (s : GameSettings) (canvasW canvasH : Q) (wv : Z)
    (carryScore carryLives : Z) (g : Game) : M Game :=
  _ ← (if (wv =? 1)%Z then generateStars else ret tt);
  let f := initFormation s canvasW wv in
  ret (mkGame (stateRef g) f []
         (if (wv =? 1)%Z then initShields canvasW canvasH else shields g)
         (mkUFO false 0 0 0 UFO_W UFO_H)
         (canvasW / 2 - PLAYER_W / 2) (canvasH - 45)
         carryScore carryLives wv 0 0
         (Z.of_nat (length (aliens f))) 0 false false false
         (shootCooldown g) (lastTime g)).

(** **** The frame *)

(** Enemy bullets against the player at [px]: the bullets without the
    one that hit, if one did and the player is not invincible. *)
Definition hitPlayer (now px : Q) (g : Game) (bs : list Bullet)
    : option (list Bullet) :=
  if Qltb (invincibleUntil g) now
  then removeLast
         (fun b => isEnemy b && bulletOver b px (playerY g) PLAYER_W PLAYER_H)
         bs
  else None.

(** [a.alive && a.y + a.h >= game.playerY] for some alien *)
Definition reachedPlayer (g : Game) (als : list Alien) : bool :=
  existsb (fun a => alive a && Qle_bool (playerY g) (y a + h a)) als.

(** The game at the end of the collisions: the player at [px], the
    cooldown [cd], the formation [f] with the aliens, the counter, the
    score and the step interval of [t], the UFO [u] with the score [sc]
    after it, the timers, the shields [shs] and the bullets [bs] that are
    left for the pass against the player. *)
Definition collided (now px cd : Q) (f : Formation) (fireTimer uTimer : Q)
    (t : Tally) (u : UFO) (sc : Z) (bs : list Bullet) (shs : list Shield)
    (g : Game) : Game :=
  let playerHit := hitPlayer now px g bs in
  let wasHit := match playerHit with Some _ => true | None => false end in
  let lv := if wasHit then (livesLeft g - 1)%Z else livesLeft g in
  let dead := wasHit && (lv <=? 0)%Z in
  mkGame (if dead || reachedPlayer g (t_aliens t) then gameover else playing)
    (mkFormation (t_aliens t) (alienDir f) (stepTimer f) (t_interval t)
       (alienAnimFrame f))
    (default bs playerHit) shs u px (playerY g) sc lv (wave g) fireTimer
    uTimer (t_count t)
    (if wasHit then (now + 1500)%Q else invincibleUntil g)
    (touchLeft g) (touchRight g) false cd (lastTime g).

(** The update block of a playing frame with elapsed time [dt], up to the
    end of the collisions: the game object [game] of the frame. *)
Definition collisions (s : GameSettings) (width height now dt : Q) (keys : Keys)
    (g : Game) : M Game :=
  let px := movePlayer s width dt keys g in
  let shot := shoot s dt keys px g in
  let bs2 := moveBullets height dt shot.1 in
  let f := formationUpdate s width dt (form g) in
  '(bs3, fireTimer) ← enemyFire s dt (wave g) (enemyFireTimer g) (aliens f) bs2;
  '(u1, uTimer) ← ufoUpdate width dt (ufo g) (ufoTimer g);
  '(bs4, t) ← lift (alienHits s (wave g) bs3
                      (mkTally (aliens f) (alienCount g) (score g)
                         (stepInterval f)));
  let '(u2, bs5, sc) := ufoHits (wave g) u1 bs4 (t_score t) in
  '(bs6, shs) ← shieldHits bs5 (shields g);
  ret (collided now px shot.2 f fireTimer uTimer t u2 sc bs6 shs g).

(** "All aliens dead → next wave", the end of the update block:
    [initGame] puts a new game object in [gameRef.current]. *)
Definition nextWave (s : GameSettings) (width height : Q) (g1 : Game) : M Game :=
  if (alienCount g1 <=? 0)%Z && bool_decide (stateRef g1 = playing)
  then initGame s width height (wave g1 + 1) (score g1) (livesLeft g1) g1
  else ret g1.

(** [lastTimeRef.current = now], and [0] instead when the game is
    paused. *)
Definition stamped (now : Q) (g : Game) : Game :=
  mkGame (stateRef g) (form g) (bullets g) (shields g) (ufo g) (playerX g)
    (playerY g) (score g) (livesLeft g) (wave g) (enemyFireTimer g)
    (ufoTimer g) (alienCount g) (invincibleUntil g) (touchLeft g)
    (touchRight g) (touchShoot g) (shootCooldown g)
    (if bool_decide (stateRef g = paused) then 0 else now).

(** The random numbers of the drawing: the engine glow of the player's
    ship draws two, [flicker] and the length of the flame, unless the
    state is the menu or the ship is blinked out ([now] is before
    [invincibleUntil] and [Math.floor(now / 100) % 2] is not 0). [st] is
    [stateRef.current] at the drawing and [inv] the [invincibleUntil] of
    the game object of the frame. *)
Definition glow (now : Q) (st : GameState) (inv : Q) : M unit :=
  if bool_decide (st <> menu)
     && (negb (Qltb now inv) || (Z.rem (Qfloor (now / 100)) 2 =? 0)%Z)
  then _ ← random; _ ← random; ret tt
  else ret tt.

(** [frame(now)] on a canvas of [width] by [height]: the state after it
    and the random numbers it draws. The drawing reads the game object
    that the frame started with, also when the update block has put the
    game of the next wave in [gameRef.current]. *)
Definition frame (s : GameSettings) (width height now : Q) (keys : Keys)
    (g : Game) : M Game :=
  let dt := frameDt (lastTime g) now in
  let g0 := stamped now g in
  if bool_decide (stateRef g = playing) && Qltb 0 dt
  then
    g1 ← collisions s width height now dt keys g0;
    g' ← nextWave s width height g1;
    _ ← glow now (stateRef g') (invincibleUntil g1);
    ret g'
  else
    _ ← glow now (stateRef g0) (invincibleUntil g0);
    ret g0.

(** The frames at the given times, each with the keys held down then. *)
Definition frames (s : GameSettings) (width height : Q)
    (inputs : list (Q * Keys)) (g : Game) : M Game :=
  forM inputs (fun i g => frame s width height i.1 i.2 g) g.

(** *** Notions for the frame *)

(** The aliens that are alive. *)
Definition living (als : list Alien) : list Alien :=
  filter (fun a => alive a = true) als.

(** The bullets of the player. *)
Definition playerBullets (bs : list Bullet) : list Bullet :=
  filter (fun b => isPlayer b = true) bs.

(** The open interval [(a, a + len)] and the open interval [(b, b + len')]
    have a point in common. *)
Definition Meet (a len b len' : Q) : Prop :=
  exists t : Q, (a < t /\ t < a + len /\ b < t /\ t < b + len')%Q.

(** A game whose counters agree with its aliens: the alien counter is the
    number of aliens alive, there are no more aliens than [rows * cols],
    every alien is of one of the three kinds, the wave is one or more, the
    player has no more bullets in flight than the settings allow, and the
    shields have their four rows. *)
Definition Sound (s : GameSettings) (g : Game) : Prop :=
  alienCount g = Z.of_nat (length (living (aliens (form g))))
  /\ length (aliens (form g)) <= rows s * cols s
  /\ Forall (fun a => type a < 3) (aliens (form g))
  /\ (1 <= wave g)%Z
  /\ length (playerBullets (bullets g)) <= maxPlayerBullets s
  /\ Forall (fun sh => length (blocks sh) = SHIELD_ROWS) (shields g).

(** The entries of the column map [m] are the bottom-most alive aliens,
    column by column, of the aliens [seen]. *)
Definition Bottoms (m : list (nat * Alien)) (seen : list Alien) : Prop :=
  NoDup m.*1
  /\ (forall k a, (k, a) ∈ m ->
        a ∈ seen /\ alive a = true /\ a_col a = k
        /\ forall a', a' ∈ seen -> alive a' = true -> a_col a' = k ->
             a_row a' <= a_row a)
  /\ (forall a', a' ∈ seen -> alive a' = true -> a_col a' ∈ m.*1).

(** What the pass of the player's bullets over the aliens makes of the
    bullets [bs] and the tally [t]: every hit takes one bullet and one
    alive alien and pays 10 to 40 points times the wave. *)
Definition Hits (wv : Z) (bs bs' : list Bullet) (t t' : Tally) : Prop :=
  bs' `sublist_of` bs
  /\ length (t_aliens t') = length (t_aliens t)
  /\ (t_count t' - Z.of_nat (length (living (t_aliens t')))
      = t_count t - Z.of_nat (length (living (t_aliens t))))%Z
  /\ (Z.of_nat (length bs) - Z.of_nat (length bs') = t_count t - t_count t')%Z
  /\ (t_count t' <= t_count t)%Z
  /\ ((0 <= wv)%Z ->
      (t_score t + 10 * wv * (t_count t - t_count t') <= t_score t'
       <= t_score t + 40 * wv * (t_count t - t_count t'))%Z)
  /\ (Forall (fun a => type a < 3) (t_aliens t) ->
      Forall (fun a => type a < 3) (t_aliens t'))
  /\ (t' = t \/ (STEP_INTERVAL_MIN <= t_interval t')%Q).

(** Block [(br, bc)] of the shield is there. *)
Definition solid (sh : Shield) (br bc : nat) : bool :=
  match blocks sh !! br with
  | Some line => default false (line !! bc)
  | None => false
  end.

(** Shield [sh'] is shield [sh] with some of its blocks shot away. *)
Definition Eroded (sh sh' : Shield) : Prop :=
  s_x sh' = s_x sh /\ s_y sh' = s_y sh
  /\ length (blocks sh') = length (blocks sh)
  /\ forall br bc, solid sh' br bc = true -> solid sh br bc = true.

(** What the update block at time [now], on a canvas [width] wide, makes
    of a game [g]. *)
Definition Updated (s : GameSettings) (width now : Q) (g g' : Game) : Prop :=
  Sound s g'
  /\ Forall2 Eroded (shields g) (shields g')
  /\ (score g <= score g')%Z
  /\ (livesLeft g - 1 <= livesLeft g' <= livesLeft g)%Z
  /\ ((now <= invincibleUntil g)%Q -> livesLeft g' = livesLeft g)
  /\ ((livesLeft g' < livesLeft g)%Z -> wave g' = wave g ->
      invincibleUntil g' = (now + 1500)%Q)
  /\ (stateRef g' = gameover ->
      (livesLeft g' <= 0)%Z
      \/ exists a, a ∈ aliens (form g') /\ alive a = true
                   /\ (playerY g' <= y a + h a)%Q)
  /\ (stateRef g' = playing \/ stateRef g' = gameover)
  /\ (wave g' = wave g
      \/ (wave g' = (wave g + 1)%Z /\ stateRef g' = playing
          /\ form g' = initFormation s width (wave g + 1)
          /\ bullets g' = []))
  /\ (stateRef g' = playing -> 0 < rows s * cols s ->
      living (aliens (form g')) <> [])
  /\ ((44 <= width)%Q -> (4 <= playerX g' <= width - 40)%Q).

(** A frame that runs the update block. *)
Definition Runs (now : Q) (g : Game) : Prop :=
  stateRef g = playing /\ (0 < frameDt (lastTime g) now)%Q.

End SpaceInvaders.

(** ** Pixel Runner *)

Module PixelRunner.

Record GameSettings := mkSettings {
  baseSpeed : Q;
  acceleration : Q;
  gapMin : Q;
  gapMax : Q;
  platWidthMin : Q;
  platWidthMax : Q;
  obstacleChance : Q;
  coinChance : Q;
  doubleJump : bool
}.

Record Platform := mkPlatform { x : Q; y : Q; w : Q }.

Inductive Kind := spike | flyer.

(** [phase] is kept in units of pi. *)
Record Obstacle := mkObstacle {
  o_x : Q;
  o_y : Q;
  o_w : Q;
  o_h : Q;
  kind : Kind;
  baseY : Q;
  phase : Q
}.

Record Coin := mkCoin { c_x : Q; c_y : Q; collected : bool }.

Inductive Difficulty := easy | medium | hard.

Definition PRESETS (d : Difficulty) : GameSettings :=
  match d with
  | easy => mkSettings 180 (15 # 10) 40 90 120 260 (15 # 100) (5 # 10) true
  | medium => mkSettings 230 (25 # 10) 55 120 90 200 (25 # 100) (4 # 10) true
  | hard => mkSettings 280 (35 # 10) 70 150 60 150 (4 # 10) (35 # 100) false
  end.

Definition GROUND_Y_FRAC : Q := 75 # 100.
Definition SPAWN_AHEAD : Q := 400.

Definition best0 (st : Persistence.Storage) : Persistence.JSNumber :=
  Persistence.bestInit "pixel-runner-best" st.

(** [min + Math.random() * (max - min)] *)
Definition rand (lo hi : Q) : M Q :=
  u ← random; ret (lo + u_val u * (hi - lo))%Q.

Definition qmin (a b : Q) : Q := if Qle_bool a b then a else b.
Definition qmax (a b : Q) : Q := if Qle_bool a b then b else a.

Definition clamp (v lo hi : Q) : Q := qmax lo (qmin hi v).

(** [Math.random() < p] *)
Definition chance (p : Q) : M bool :=
  u ← random; ret (Qltb (u_val u) p).

(** The elapsed time of a frame, in seconds ("capped to avoid spiral of
    death"). *)
Definition frameDt (lastTime now : Q) : Q :=
  if Qltb 0 lastTime then qmin ((now - lastTime) / 1000) (5 # 100) else 0.

Record Terrain := mkTerrain {
  platforms : list Platform;
  obstacles : list Obstacle;
  coins : list Coin
}.

(** *** initGame *)

(** The platform that both generation loops draw next, to the right of
    [lastRight]: [gap], [pw] and [py], in this order. Its right edge
    [x + w] is the next [lastRight]. *)
Definition newPlatform (s : GameSettings) (groundY height lastRight : Q) : M Platform :=
  gap ← rand (gapMin s) (gapMax s);
  pw ← rand (platWidthMin s) (platWidthMax s);
  dy ← rand (-60) 40;
  let py := clamp (groundY + dy) (height * (35 # 100)) (height * (88 # 100)) in
  mret (mkPlatform (lastRight + gap) py pw).

(** [while (lastRight < canvasW + SPAWN_AHEAD)] of [initGame]; [fuel]
    bounds the iterations. *)
Fixpoint initPlatforms (fuel : nat) (s : GameSettings) (groundY canvasW canvasH : Q)
    (ps : list Platform) (lastRight : Q) : M (list Platform * Q) :=
  if Qltb lastRight (canvasW + SPAWN_AHEAD) then
    match fuel with
    | O => fail
    | S fuel' =>
        plat ← newPlatform s groundY canvasH lastRight;
        initPlatforms fuel' s groundY canvasW canvasH (ps ++ [plat]) (x plat + w plat)
    end
  else mret (ps, lastRight).

(** The coin and the obstacle that [initGame] may put on platform [p]. *)
Definition decorate (s : GameSettings) (p : Platform)
    (acc : list Coin * list Obstacle) : M (list Coin * list Obstacle) :=
  let '(cs, os) := acc in
  hasCoin ← chance (coinChance s);
  cs1 ← (if (hasCoin : bool)
         then (r ← rand (2 # 10) (8 # 10);
               mret (cs ++ [mkCoin (x p + w p * r) (y p - 30) false]))
         else mret cs);
  hasObstacle ← chance (obstacleChance s);
  if (hasObstacle : bool) then
    isSpike ← chance (6 # 10);
    if (isSpike : bool) then
      r ← rand (3 # 10) (7 # 10);
      mret (cs1, os ++ [mkObstacle (x p + w p * r) (y p - 14) 14 14 spike 0 0])
    else
      r ← rand (2 # 10) (8 # 10);
      d ← rand 50 90;
      u ← random;
      let oy := (y p - d)%Q in
      mret (cs1, os ++ [mkObstacle (x p + w p * r) oy 20 16 flyer oy (u_val u * 2)])
  else mret (cs1, os).

(** The terrain that [initGame] builds for a canvas of the given size. *)
Definition initTerrain (fuel : nat) (s : GameSettings) (canvasW canvasH : Q) : M Terrain :=
  let groundY := inject_Z (Qfloor (canvasH * GROUND_Y_FRAC)) in
  '(ps, _) ← initPlatforms fuel s groundY canvasW canvasH
                [mkPlatform 0 groundY 300] 300;
  '(cs, os) ← forM (drop 1 ps) (decorate s) ([], []);
  mret (mkTerrain ps os cs).

(** *** The generation pass of a playing frame *)

(** [let lastRight = 0; for (const p of platforms) ...]: the rightmost
    platform edge, and at least 0. *)
Definition trackRight (ps : list Platform) : Q :=
  foldl (fun lastRight p =>
           let r := (x p + w p)%Q in
           if Qltb lastRight r then r else lastRight) 0%Q ps.

(** The coin and the obstacle that [frame] may add with a new platform. *)
Definition decorateAhead (s : GameSettings) (p : Platform) (t : Terrain) : M Terrain :=
  hasCoin ← chance (coinChance s);
  cs ← (if (hasCoin : bool)
        then (r ← rand (2 # 10) (8 # 10);
              d ← rand 25 45;
              mret (coins t ++ [mkCoin (x p + w p * r) (y p - d) false]))
        else mret (coins t));
  hasObstacle ← chance (obstacleChance s);
  os ← (if (hasObstacle : bool) then
          isSpike ← chance (6 # 10);
          if (isSpike : bool) then
            r ← rand (3 # 10) (7 # 10);
            mret (obstacles t ++
                    [mkObstacle (x p + w p * r) (y p - 14) 14 14 spike 0 0])
          else
            d ← rand 50 90;
            r ← rand (2 # 10) (8 # 10);
            u ← random;
            let oy := (y p - d)%Q in
            mret (obstacles t ++
                    [mkObstacle (x p + w p * r) oy 20 16 flyer oy (u_val u * 2)])
        else mret (obstacles t));
  mret (mkTerrain (platforms t) os cs).

(** [while (lastRight < w + SPAWN_AHEAD)] of [frame]. *)
Fixpoint extend (fuel : nat) (s : GameSettings) (groundY width height : Q)
    (t : Terrain) (lastRight : Q) : M (Terrain * Q) :=
  if Qltb lastRight (width + SPAWN_AHEAD) then
    match fuel with
    | O => fail
    | S fuel' =>
        plat ← newPlatform s groundY height lastRight;
        t1 ← decorateAhead s plat
               (mkTerrain (platforms t ++ [plat]) (obstacles t) (coins t));
        extend fuel' s groundY width height t1 (x plat + w plat)
    end
  else mret (t, lastRight).

(** "Generate new platforms ahead" in [frame], for a canvas of the given
    size. *)
Definition generateAhead (fuel : nat) (s : GameSettings) (groundY width height : Q)
    (t : Terrain) : M Terrain :=
  '(t', _) ← extend fuel s groundY width height t (trackRight (platforms t));
  mret t'.

(** *** Notions for the properties *)

(** Some platform reaches to [edge] or beyond. *)
Definition ReachesTo (edge : Q) (ps : list Platform) : Prop :=
  exists pl, pl ∈ ps /\ (edge <= x pl + w pl)%Q.

(** [lastRight] is the right edge of one of the platforms. *)
Definition EdgeOf (lastRight : Q) (ps : list Platform) : Prop :=
  exists pl, pl ∈ ps /\ lastRight = (x pl + w pl)%Q.

(** *** The player in a playing frame *)

Definition GRAVITY : Q := 1400.
Definition JUMP_VELOCITY : Q := -520.
Definition JUMP_HOLD_BOOST : Q := -200.
Definition JUMP_HOLD_MAX : Q := 18 # 100.
Definition PLAYER_W : Q := 28.
Definition PLAYER_H : Q := 34.
Definition PLATFORM_H : Q := 16.

Record Player := mkPlayer {
  pl_x : Q;
  pl_y : Q;
  vy : Q;
  pl_w : Q;
  pl_h : Q;
  onGround : bool;
  jumpsLeft : Z;
  jumpHeld : bool;
  jumpHoldTime : Q;
  runFrame : Z;
  runTimer : Q
}.

(** [const maxJumps = s.doubleJump ? 2 : 1] *)
Definition maxJumps (s : GameSettings) : Z := if doubleJump s then 2%Z else 1%Z.

(** "Process jump input", for the flag [game.jumpPressed] (which the
    frame clears): the jump starts when a jump is left. *)
Definition processJump (pressed : bool) (pl : Player) : Player :=
  if pressed && (0 <? jumpsLeft pl)%Z then
    mkPlayer (pl_x pl) (pl_y pl) JUMP_VELOCITY (pl_w pl) (pl_h pl) false
      (jumpsLeft pl - 1) true 0 (runFrame pl) (runTimer pl)
  else pl.

(** "Hold for higher jump" *)
Definition holdJump (dt : Q) (pl : Player) : Player :=
  if jumpHeld pl then
    let t := (jumpHoldTime pl + dt)%Q in
    if Qltb t JUMP_HOLD_MAX then
      mkPlayer (pl_x pl) (pl_y pl) (vy pl + JUMP_HOLD_BOOST * dt) (pl_w pl)
        (pl_h pl) (onGround pl) (jumpsLeft pl) true t (runFrame pl) (runTimer pl)
    else
      mkPlayer (pl_x pl) (pl_y pl) (vy pl) (pl_w pl) (pl_h pl) (onGround pl)
        (jumpsLeft pl) false t (runFrame pl) (runTimer pl)
  else pl.

(** "Gravity" *)
Definition gravity (dt : Q) (pl : Player) : Player :=
  let v := (vy pl + GRAVITY * dt)%Q in
  mkPlayer (pl_x pl) (pl_y pl + v * dt) v (pl_w pl) (pl_h pl) false
    (jumpsLeft pl) (jumpHeld pl) (jumpHoldTime pl) (runFrame pl) (runTimer pl).

(** The test of "Platform collision (land on top only)". *)
Definition landsOn (dt : Q) (pl : Player) (plat : Platform) : bool :=
  Qle_bool 0 (vy pl)
  && Qltb (x plat + 4) (pl_x pl + pl_w pl)
  && Qltb (pl_x pl) (x plat + w plat - 4)
  && Qle_bool (y plat) (pl_y pl + pl_h pl)
  && Qle_bool (pl_y pl + pl_h pl) (y plat + PLATFORM_H + vy pl * dt + 4).

(** The body of that loop for the platform [plat]. *)
Definition landOn (maxJ : Z) (dt : Q) (pl : Player) (plat : Platform) : Player :=
  if landsOn dt pl plat then
    mkPlayer (pl_x pl) (y plat - pl_h pl) 0 (pl_w pl) (pl_h pl) true maxJ false
      (jumpHoldTime pl) (runFrame pl) (runTimer pl)
  else pl.

(** [for (const plat of game.platforms) ...] *)
Definition land (maxJ : Z) (dt : Q) (plats : list Platform) (pl : Player) : Player :=
  foldl (landOn maxJ dt) pl plats.

(** What a playing frame with the elapsed time [dt] does to the player,
    up to the landing; [plats] are the platforms after the scroll of the
    frame. (The obstacles and the coins change the state of the game and
    the count of coins, not the player.) *)
Definition movePlayer (s : GameSettings) (dt : Q) (pressed : bool)
    (plats : list Platform) (pl : Player) : Player :=
  land (maxJumps s) dt plats (gravity dt (holdJump dt (processJump pressed pl))).

(** *** Notions for the generated terrain *)

(** The platforms [ps] follow one another to the right of [lastRight] as
    the settings ask: each starts after a gap within [gapMin, gapMax],
    is [platWidthMin] to [platWidthMax] wide, and lies between 35% and
    88% of the height of the canvas. *)
Fixpoint Chained (s : GameSettings) (height lastRight : Q) (ps : list Platform) : Prop :=
  match ps with
  | [] => True
  | pl :: ps' =>
      (gapMin s <= x pl - lastRight)%Q /\ (x pl - lastRight <= gapMax s)%Q
      /\ (platWidthMin s <= w pl)%Q /\ (w pl <= platWidthMax s)%Q
      /\ (height * (35 # 100) <= y pl)%Q /\ (y pl <= height * (88 # 100))%Q
      /\ Chained s height (x pl + w pl) ps'
  end.

(** The coin hangs over one of the platforms, 25 to 45 pixels above it. *)
Definition CoinOver (ps : list Platform) (c : Coin) : Prop :=
  exists pl, pl ∈ ps
    /\ (x pl <= c_x c)%Q /\ (c_x c <= x pl + w pl)%Q
    /\ (y pl - 45 <= c_y c)%Q /\ (c_y c <= y pl - 25)%Q
    /\ collected c = false.

(** The obstacle belongs to one of the platforms: a spike stands on it,
    a flyer hovers 50 to 90 pixels above it. *)
Definition ObstacleOver (ps : list Platform) (o : Obstacle) : Prop :=
  exists pl, pl ∈ ps
    /\ (x pl <= o_x o)%Q /\ (o_x o <= x pl + w pl)%Q
    /\ match kind o with
       | spike => (o_y o + o_h o == y pl)%Q
       | flyer => (y pl - 90 <= o_y o)%Q /\ (o_y o <= y pl - 50)%Q
                  /\ baseY o = o_y o
       end.

(** The settings are consistent: the ranges of the gaps and of the widths
    are not empty, and no platform has a negative width. *)
Definition Consistent (s : GameSettings) : Prop :=
  (gapMin s <= gapMax s)%Q /\ (0 <= platWidthMin s)%Q
  /\ (platWidthMin s <= platWidthMax s)%Q.

(** *** The frame *)

Inductive GameState := menu | playing | paused | gameover.

#[global] Instance Runner_GameState_eq_dec : EqDecision GameState.
Proof. solve_decision. Defined.

Definition COIN_R : Q := 8.
Definition COIN_SCORE : Z := 100.

(** [Math.PI], the double nearest to pi. *)
Definition PI : Q := 884279719003555 # 281474976710656.

(** [ax < bx + bw && ax + aw > bx && ay < by + bh && ay + ah > by] *)
Definition rectsOverlap (ax ay aw ah bx by' bw bh : Q) : bool :=
  Qltb ax (bx + bw) && Qltb bx (ax + aw)
  && Qltb ay (by' + bh) && Qltb by' (ay + ah).

(** A shape of a parallax layer, and a layer (its colour is only drawn). *)
Record Shape := mkShape { sh_x : Q; sh_y : Q; sh_w : Q; sh_h : Q }.

Record Layer := mkLayer { shapes : list Shape; speed : Q }.

(** [gameRef.current] (without [lastPlatRight], which no frame reads),
    [stateRef.current], [lastTimeRef.current] and [localStorage]. *)
Record Game := mkGame {
  stateRef : GameState;
  player : Player;
  terrain : Terrain;
  scrollSpeed : Q;
  distance : Q;
  coinCount : Z;
  groundY : Q;
  parallax : list Layer;
  jumpPressed : bool;
  lastTime : Q;
  store : Persistence.Storage
}.

(** "Move world left": a platform, an obstacle and a coin after a scroll
    by [d]. The phase of a flyer is kept in units of pi, so the [dt * 3]
    radians of a frame add [dt * 3 / PI] to it, and [sine t] stands for
    [Math.sin(t * Math.PI)], which is not computed here. *)
Definition scrollPlatform (d : Q) (p : Platform) : Platform :=
  mkPlatform (x p - d) (y p) (w p).

Definition scrollObstacle (sine : Q -> Q) (d dt : Q) (o : Obstacle) : Obstacle :=
  match kind o with
  | spike =>
      mkObstacle (o_x o - d) (o_y o) (o_w o) (o_h o) spike (baseY o) (phase o)
  | flyer =>
      let ph := (phase o + dt * 3 / PI)%Q in
      mkObstacle (o_x o - d) (baseY o + sine ph * 20) (o_w o) (o_h o) flyer
        (baseY o - d * 0) ph
  end.

Definition scrollCoin (d : Q) (c : Coin) : Coin :=
  mkCoin (c_x c - d) (c_y c) (collected c).

(** [Math.max(...layer.shapes.map((s) => s.x + s.w))]; no shape reads it
    when there is none. *)
Definition maxEdge (shs : list Shape) : Q :=
  match shs with
  | [] => 0
  | sh :: rest =>
      foldl (fun m s => qmax m (sh_x s + sh_w s)) (sh_x sh + sh_w sh)%Q rest
  end.

(** "wrap shapes that go off left" for one shape. *)
Definition wrapShape (maxX : Q) (sh : Shape) (done : list Shape)
    : M (list Shape) :=
  if Qltb (sh_x sh + sh_w sh) (-50) then
    r ← rand 20 100;
    mret (done ++ [mkShape (maxX + r) (sh_y sh) (sh_w sh) (sh_h sh)])
  else mret (done ++ [sh]).

(** "Parallax" for one layer. *)
Definition scrollLayer (d : Q) (l : Layer) (done : list Layer) : M (list Layer) :=
  let moved :=
    (fun sh => mkShape (sh_x sh - d * speed l) (sh_y sh) (sh_w sh) (sh_h sh))
      <$> shapes l in
  shs ← forM moved (wrapShape (maxEdge moved)) [];
  mret (done ++ [mkLayer shs (speed l)]).

(** The test of "Obstacle collision", with its forgiveness of 3 pixels. *)
Definition hitsObstacle (pl : Player) (o : Obstacle) : bool :=
  rectsOverlap (pl_x pl + 3) (pl_y pl + 3) (pl_w pl - 3 * 2) (pl_h pl - 3 * 2)
    (o_x o + 3) (o_y o + 3) (o_w o - 3 * 2) (o_h o - 3 * 2).

(** [Math.floor(game.distance / 10) + game.coinCount * COIN_SCORE] *)
Definition total (dist : Q) (count : Z) : Z :=
  (Qfloor (dist / 10) + count * COIN_SCORE)%Z.

(** The record of the best score at a death. *)
Definition recordDeath (dist : Q) (count : Z) (st : Persistence.Storage)
    : Persistence.Storage :=
  Persistence.recordBest "pixel-runner-best" (total dist count) st.

(** "Coin collection" for one coin: [Math.hypot(cx - px, cy - py)] is
    under [COIN_R + 14] when the sum of the squares is under its square. *)
Definition collectCoin (pl : Player) (acc : list Coin * Z) (c : Coin)
    : list Coin * Z :=
  let px := (pl_x pl + pl_w pl / 2)%Q in
  let py := (pl_y pl + pl_h pl / 2)%Q in
  let dx := (c_x c - px)%Q in
  let dy := (c_y c - py)%Q in
  if negb (collected c)
     && Qltb (dx * dx + dy * dy) ((COIN_R + 14) * (COIN_R + 14))
  then (acc.1 ++ [mkCoin (c_x c) (c_y c) true], (acc.2 + 1)%Z)
  else (acc.1 ++ [c], acc.2).

(** "Run animation" *)
Definition runAnimation (dt : Q) (pl : Player) : Player :=
  if onGround pl then
    let t := (runTimer pl + dt)%Q in
    if Qltb (1 # 10) t then
      mkPlayer (pl_x pl) (pl_y pl) (vy pl) (pl_w pl) (pl_h pl) (onGround pl)
        (jumpsLeft pl) (jumpHeld pl) (jumpHoldTime pl)
        (Z.rem (runFrame pl + 1) 4) 0
    else
      mkPlayer (pl_x pl) (pl_y pl) (vy pl) (pl_w pl) (pl_h pl) (onGround pl)
        (jumpsLeft pl) (jumpHeld pl) (jumpHoldTime pl) (runFrame pl) t
  else pl.

(** The update block of a playing frame with elapsed time [dt], on a
    canvas of [width] by [height]; [fuel] bounds the iterations of the
    generation loop. *)
Definition update (sine : Q -> Q) (fuel : nat) (s : GameSettings)
    (width height dt : Q) (g : Game) : M Game :=
  let scrollDist := (scrollSpeed g * dt)%Q in
  let dist := (distance g + scrollDist)%Q in
  let plats := scrollPlatform scrollDist <$> platforms (terrain g) in
  let obs := scrollObstacle sine scrollDist dt <$> obstacles (terrain g) in
  let cns := scrollCoin scrollDist <$> coins (terrain g) in
  layers ← forM (parallax g) (scrollLayer scrollDist) [];
  let pl := movePlayer s dt (jumpPressed g) plats (player g) in
  let hit := existsb (hitsObstacle pl) obs in
  let st1 :=
    foldl (fun st o =>
             if hitsObstacle pl o then recordDeath dist (coinCount g) st
             else st)
          (store g) obs in
  let picked := foldl (collectCoin pl) ([], coinCount g) cns in
  t ← generateAhead fuel s (groundY g) width height
        (mkTerrain
           (filter (fun p => Qltb (-50) (x p + w p) = true) plats)
           (filter (fun o => Qltb (-50) (o_x o + o_w o) = true) obs)
           (filter (fun c => Qltb (-50) (c_x c) = true) picked.1));
  let pl' := runAnimation dt pl in
  let fell := Qltb (height + 50) (pl_y pl') in
  mret (mkGame (if hit || fell then gameover else stateRef g) pl' t
          (scrollSpeed g + acceleration s * dt) dist picked.2 (groundY g)
          layers false (lastTime g)
          (if fell then recordDeath dist picked.2 st1 else st1)).

(** [lastTimeRef.current = now], and [0] instead when the game is
    paused. *)
Definition stamped (now : Q) (g : Game) : Game :=
  mkGame (stateRef g) (player g) (terrain g) (scrollSpeed g) (distance g)
    (coinCount g) (groundY g) (parallax g) (jumpPressed g)
    (if bool_decide (stateRef g = paused) then 0 else now) (store g).

(** The state update of [frame(now)]. *)
Definition frame (sine : Q -> Q) (fuel : nat) (s : GameSettings)
    (width height now : Q) (g : Game) : M Game :=
  let dt := frameDt (lastTime g) now in
  if bool_decide (stateRef g = playing) && Qltb 0 dt
  then update sine fuel s width height dt (stamped now g)
  else mret (stamped now g).

(** A frame that runs the update block. *)
Definition Runs (now : Q) (g : Game) : Prop :=
  stateRef g = playing /\ (0 < frameDt (lastTime g) now)%Q.

(** The terrain that the update block hands to its generation loop: the
    terrain of [g] after the scroll, the coin collection and the removal
    of what has left the screen. *)
Definition kept (sine : Q -> Q) (s : GameSettings) (dt : Q) (g : Game)
    : Terrain :=
  let scrollDist := (scrollSpeed g * dt)%Q in
  let plats := scrollPlatform scrollDist <$> platforms (terrain g) in
  let obs := scrollObstacle sine scrollDist dt <$> obstacles (terrain g) in
  let cns := scrollCoin scrollDist <$> coins (terrain g) in
  let pl := movePlayer s dt (jumpPressed g) plats (player g) in
  let picked := foldl (collectCoin pl) ([], coinCount g) cns in
  mkTerrain
    (filter (fun p => Qltb (-50) (x p + w p) = true) plats)
    (filter (fun o => Qltb (-50) (o_x o + o_w o) = true) obs)
    (filter (fun c => Qltb (-50) (c_x c) = true) picked.1).

End PixelRunner.

(** ** Notions across the games, and sample inputs *)

Module Samples.

(** What the specification asks: no frame advances a simulation, or the
    Match-Three countdown, by more than 50 ms. *)
Definition CappedAt50ms : Prop :=
  (forall lastTime now, (SpaceInvaders.frameDt lastTime now <= 5 # 100)%Q)
  /\ (forall lastTime now, (PixelRunner.frameDt lastTime now <= 5 # 100)%Q)
  /\ (forall now gm, (MatchThree.countdownDrop now gm <= 5 # 100)%Q).

Definition lateFrame : MatchThree.Game :=
  MatchThree.mkGame MatchThree.playing [] 0 60 0 MatchThree.idle 0
    (MatchThree.mkCell 0 0) (MatchThree.mkCell 0 0) [] [] 0 1000 None.

(** A 7 by 7 board with five gem types, without a match and without a
    valid move: [grid[r][c] = (2 r + c) mod 5]. *)
Definition deadBoard : list (list Z) :=
  (fun r => (fun c => Z.of_nat ((2 * r + c) mod 5)) <$> seq 0 7) <$> seq 0 7.

(** A random number in the middle of the fifth that gives gem [z] when
    five gem types are drawn. *)
Definition gemDraw (z : Z) : U01 :=
  match z with
  | 0%Z => mkU01 (1 # 10) eq_refl
  | 1%Z => mkU01 (3 # 10) eq_refl
  | 2%Z => mkU01 (5 # 10) eq_refl
  | 3%Z => mkU01 (7 # 10) eq_refl
  | _ => mkU01 (9 # 10) eq_refl
  end.

(** A random sequence that makes each of the first 4800 draws 0.99, so
    that each of 100 Fisher-Yates passes over 49 cells leaves every cell
    where it is, and then draws the gems of [deadBoard] row by row. *)
Definition stubborn (i : nat) : U01 :=
  if i <? 4800 then mkU01 (99 # 100) eq_refl
  else gemDraw (concat deadBoard !!! (i - 4800)).

(** The gems 0, 1, 2, 3, 4, 0, 1, ... *)
Definition cycle5 (i : nat) : U01 := gemDraw (Z.of_nat (i mod 5)).

(** Every draw is 0.5. *)
Definition halves (i : nat) : U01 := mkU01 (1 # 2) eq_refl.

(** A Match-Three game whose falling phase started at time 0 on
    [deadBoard], and the game one frame at time 300 makes of it under
    [stubborn]. *)
Definition settling : MatchThree.Game :=
  MatchThree.mkGame MatchThree.playing deadBoard 0 100 1 MatchThree.falling 0
    (MatchThree.mkCell 0 0) (MatchThree.mkCell 0 1) [] [] 300 0 None.

Definition settled : MatchThree.Game :=
  MatchThree.mkGame MatchThree.playing deadBoard 0 100 0 MatchThree.idle 0
    (MatchThree.mkCell 0 0) (MatchThree.mkCell 0 1) [] [] 300 300 None.

(** An idle game on [deadBoard], and the swipe to the right from its top
    left cell at time 0. *)
Definition resting : MatchThree.Game :=
  MatchThree.mkGame MatchThree.playing deadBoard 0 100 0 MatchThree.idle 0
    (MatchThree.mkCell 0 0) (MatchThree.mkCell 0 0) [] [] 0 0 None.

Definition swiped : MatchThree.Game :=
  MatchThree.handleSwipe (MatchThree.PRESETS MatchThree.easy) 0
    (MatchThree.mkCell 0 0) 30 0 resting.

(** A 3 by 3 board after a clear, with four empty cells. *)
Definition holed : list (list Z) := [[1; -1; 2]; [-1; -1; 0]; [3; 4; -1]]%Z.

(** A snake of four cells coiled in a square, about to turn right into
    the cell of its tail. *)
Definition coiled : Snake.World :=
  Snake.mkWorld Snake.playing
    [Snake.mkPoint 5 5; Snake.mkPoint 5 6; Snake.mkPoint 6 6; Snake.mkPoint 6 5]
    (Snake.mkPoint 0 0) Snake.up Snake.right 0 (Persistence.Num 0).

Definition uncoiled : Snake.World :=
  Snake.mkWorld Snake.playing
    [Snake.mkPoint 6 5; Snake.mkPoint 5 5; Snake.mkPoint 5 6; Snake.mkPoint 6 6]
    (Snake.mkPoint 0 0) Snake.right Snake.right 0 (Persistence.Num 0).

(** A snake of the medium game one step from the right wall, with a score
    above the best score. *)
Definition atWall : Snake.World :=
  Snake.mkWorld Snake.playing
    [Snake.mkPoint 19 5; Snake.mkPoint 18 5; Snake.mkPoint 17 5]
    (Snake.mkPoint 0 0) Snake.right Snake.right 7 (Persistence.Num 3).

(** A 3 by 3 board with a run of three in its top row. *)
Definition lined : list (list Z) := [[1; 1; 1]; [0; 2; 0]; [2; 0; 2]]%Z.

(** A 3 by 3 board without a match on which swapping the last gems of the
    two top rows makes one. *)
Definition movable : list (list Z) := [[0; 0; 1]; [1; 2; 0]; [2; 1; 2]]%Z.

(** A game on [movable] whose player swapped, at time 0, the last gems of
    the two top rows. *)
Definition matching : MatchThree.Game :=
  MatchThree.mkGame MatchThree.playing movable 0 100 0 MatchThree.swapping 0
    (MatchThree.mkCell 0 2) (MatchThree.mkCell 1 2) [] [] 0 0 None.

(** A tap on the third cell of the top row, a tap on the cell below it,
    and a frame a quarter of a second later. *)
Definition twoTaps : list MatchThree.Event :=
  [MatchThree.Tap 10 10 (Some (MatchThree.mkCell 0 2));
   MatchThree.Tap 50 50 (Some (MatchThree.mkCell 1 2));
   MatchThree.Frame 250].

(** A game of Space Invaders on the easy settings, one second after its
    last frame: one alien is left, and a bullet of the player is about to
    reach it. *)
Definition lastAlien : SpaceInvaders.Game :=
  SpaceInvaders.mkGame SpaceInvaders.playing
    (SpaceInvaders.mkFormation
       [SpaceInvaders.mkAlien 0 0 100 100 28 22 true 0 0] 1 0 600 0)
    [SpaceInvaders.mkBullet 110 125 (-450) SpaceInvaders.player]
    [] (SpaceInvaders.mkUFO false 0 0 0 36 16) 200 595 0 3 1 0 0 1 0
    false false false 0 1000.

(** No key is held down. *)
Definition noKeys : SpaceInvaders.Keys :=
  SpaceInvaders.mkKeys false false false.

(** Every draw is 0.1. *)
Definition tenths (i : nat) : U01 := mkU01 (1 # 10) eq_refl.

(** The same game behind the four shields of a canvas of 480 by 640,
    with the bullet of the player under the first shield. *)
Definition shielded : SpaceInvaders.Game :=
  SpaceInvaders.mkGame SpaceInvaders.playing
    (SpaceInvaders.mkFormation
       [SpaceInvaders.mkAlien 0 0 100 100 28 22 true 0 0] 1 0 600 0)
    [SpaceInvaders.mkBullet 60 560 (-450) SpaceInvaders.player]
    (SpaceInvaders.initShields 480 640)
    (SpaceInvaders.mkUFO false 0 0 0 36 16) 200 595 0 3 1 0 0 1 0
    false false false 0 1000.

(** A game on its last life: a bullet of the enemy is about to reach the
    player. *)
Definition lastLife : SpaceInvaders.Game :=
  SpaceInvaders.mkGame SpaceInvaders.playing
    (SpaceInvaders.mkFormation
       [SpaceInvaders.mkAlien 0 0 100 100 28 22 true 0 0] 1 0 600 0)
    [SpaceInvaders.mkBullet 210 590 130 SpaceInvaders.enemy]
    [] (SpaceInvaders.mkUFO false 0 0 0 36 16) 200 595 0 1 1 0 0 1 0
    false false false 0 1000.

(** Eight draws of 0.5, one shuffle of a board of nine cells, and then
    the draws of [cycle5]. *)
Definition secondTry (i : nat) : U01 :=
  if i <? 8 then halves i else cycle5 (i - 8).

(** A terrain of Pixel Runner with two platforms, the second one ending
    at 550. *)
Definition twoPlatforms : PixelRunner.Terrain :=
  PixelRunner.mkTerrain
    [PixelRunner.mkPlatform 0 450 300; PixelRunner.mkPlatform 350 440 200]
    [] [].

(** A game of Pixel Runner whose last frame was at 1000 ms: the runner
    stands on the first of two platforms, in front of one hill of the
    parallax. *)
Definition runner : PixelRunner.Game :=
  PixelRunner.mkGame PixelRunner.playing
    (PixelRunner.mkPlayer 80 416 0 28 34 true 2 false 0 0 0)
    twoPlatforms 180 0 0 450
    [PixelRunner.mkLayer [PixelRunner.mkShape 0 300 100 120] (1 # 10)]
    false 1000 (∅ : Persistence.Storage).

(** The sine of a game in which the flyers do not swing. *)
Definition still (t : Q) : Q := 0.

End Samples.


(** * Properties *)

(** ** The monad *)

Module RandFacts.

Lemma bind_Some {A B} (m : M A) (k : A -> M B) src p b p' :
  (m ≫= k) src p = Some (b, p') <->
  exists a p1, m src p = Some (a, p1) /\ k a src p1 = Some (b, p').
Proof.
  unfold mbind, M_bind, bind.
  destruct (m src p) as [[a p1]|]; split.
  - intros H. exists a, p1. done.
  - intros (a' & p1' & [= -> ->] & H). done.
  - done.
  - intros (a' & p1' & [=] & _).
Qed.

Lemma ret_Some {A} (a b : A) src p p' :
  (mret a : M A) src p = Some (b, p') <-> a = b /\ p = p'.
Proof.
  unfold mret, M_ret, ret. split; [intros [= -> ->] | intros [-> ->]]; done.
Qed.

Lemma lift_Some {A} (o : option A) (b : A) src p p' :
  lift o src p = Some (b, p') <-> o = Some b /\ p = p'.
Proof.
  unfold lift. destruct o; split; try done.
  - intros [= -> ->]. done.
  - intros [[= ->] ->]. done.
  - intros [[=] _].
Qed.

Lemma forM_cons {I S} (body : I -> S -> M S) x xs s :
  forM (x :: xs) body s = (body x s ≫= forM xs body).
Proof. reflexivity. Qed.

Lemma forM_app {I S} (body : I -> S -> M S) xs ys s src p :
  forM (xs ++ ys) body s src p = (forM xs body s ≫= forM ys body) src p.
Proof.
  revert s p. induction xs as [|x xs IH]; intros s p; simpl.
  - reflexivity.
  - unfold mbind, M_bind, bind. destruct (body x s src p) as [[s1 p1]|]; [|done].
    apply IH.
Qed.

(** An invariant of the loop state holds after a [for] loop. *)
Lemma forM_invariant {I S} (P : S -> Prop) (body : I -> S -> M S) xs :
  (forall x s src p s' p', P s -> body x s src p = Some (s', p') -> P s') ->
  forall s src p s' p', P s -> forM xs body s src p = Some (s', p') -> P s'.
Proof.
  intros Hbody. induction xs as [|x xs IH]; intros s src p s' p' Hs H; simpl in H.
  - apply ret_Some in H as [<- _]. done.
  - unfold bind in H. destruct (body x s src p) as [[s1 p1]|] eqn:E; [|done].
    eapply IH; [|exact H]. eauto.
Qed.

(** [Math.floor(Math.random() * n)] lies in [0, n) for a positive [n]. *)
Lemma forM_total {I S} (body : I -> S -> M S) src :
  (forall x s p, exists s' p', body x s src p = Some (s', p')) ->
  forall xs s p, exists s' p', forM xs body s src p = Some (s', p').
Proof.
  intros Hbody. induction xs as [|x xs IH]; intros s p; simpl.
  - by eexists _, _.
  - destruct (Hbody x s p) as (s1 & p1 & E). unfold bind. rewrite E. apply IH.
Qed.

(** A loop over [start, start + len) with an invariant that depends on
    the index. *)
Lemma forM_seq_invariant {S} (P : nat -> S -> Prop) (body : nat -> S -> M S) :
  forall len start s src p s' p',
    (forall i s src p s' p', start <= i < start + len -> P i s ->
       body i s src p = Some (s', p') -> P (Datatypes.S i) s') ->
    P start s ->
    forM (seq start len) body s src p = Some (s', p') ->
    P (start + len) s'.
Proof.
  induction len as [|len IH]; intros start s src p s' p' Hbody Hs H; simpl in H.
  - apply ret_Some in H as [<- _]. by rewrite Nat.add_0_r.
  - unfold bind in H. destruct (body start s src p) as [[s1 p1]|] eqn:E; [|done].
    replace (start + Datatypes.S len) with (Datatypes.S start + len) by lia.
    eapply IH; [| |exact H].
    + intros i s2 src2 p2 s2' p2' Hi. apply Hbody. lia.
    + eapply Hbody; [|exact Hs|exact E]. lia.
Qed.

(** A loop over [start, start + len) whose body always returns. *)
Lemma forM_seq_spec {S} (P : nat -> S -> Prop) (body : nat -> S -> M S) src :
  forall len start s p,
    (forall i s p, start <= i < start + len -> P i s ->
       exists s' p', body i s src p = Some (s', p') /\ P (Datatypes.S i) s') ->
    P start s ->
    exists s' p',
      forM (seq start len) body s src p = Some (s', p') /\ P (start + len) s'.
Proof.
  induction len as [|len IH]; intros start s p Hbody Hs; simpl.
  - exists s, p. by rewrite Nat.add_0_r.
  - destruct (Hbody start s p) as (s1 & p1 & E & Hs1); [lia | done |].
    destruct (IH (Datatypes.S start) s1 p1) as (s' & p' & E' & Hs'); [|done|].
    { intros i s2 p2 Hi. apply Hbody. lia. }
    exists s', p'. unfold bind. rewrite E.
    replace (start + Datatypes.S len) with (Datatypes.S start + len) by lia. done.
Qed.

(** [Math.floor(Math.random() * n)] lies in [0, n) for a positive [n]. *)
Lemma randomIndex_Some n src p v p' :
  randomIndex n src p = Some (v, p') ->
  p' = S p /\ v = Qfloor (u_val (src p) * inject_Z n).
Proof. unfold randomIndex, bind, random, ret. intros [= <- <-]. done. Qed.

Lemma u_val_range (u : U01) : (0 <= u_val u)%Q /\ (u_val u < 1)%Q.
Proof.
  destruct u as [v Hv]; simpl. apply andb_prop in Hv as [H0 H1].
  split.
  - by apply Qle_bool_iff.
  - apply Qnot_le_lt. intros H. apply Qle_bool_iff in H. by rewrite H in H1.
Qed.

Lemma floor_scale_range (u : U01) (n : Z) :
  (0 < n)%Z -> (0 <= Qfloor (u_val u * inject_Z n) < n)%Z.
Proof.
  intros Hn. destruct (u_val_range u) as [H0 H1].
  assert (Hq : (inject_Z 0 < inject_Z n)%Q) by (rewrite <- Zlt_Qlt; done).
  change (inject_Z 0) with 0%Q in Hq.
  split.
  - change 0%Z with (Qfloor 0). apply Qfloor_resp_le.
    apply Qmult_le_0_compat; [done | by apply Qlt_le_weak].
  - apply Z.lt_nge. intros Hle.
    assert (H2 : (inject_Z n <= u_val u * inject_Z n)%Q).
    { eapply Qle_trans; [|apply Qfloor_le]. rewrite <- Zle_Qle. done. }
    assert (H3 : (u_val u * inject_Z n < 1 * inject_Z n)%Q).
    { apply Qmult_lt_compat_r; done. }
    rewrite Qmult_1_l in H3. eapply Qlt_irrefl, Qle_lt_trans; eauto.
Qed.

Lemma randomIndex_range n src p v p' :
  (0 < n)%Z -> randomIndex n src p = Some (v, p') -> (0 <= v < n)%Z.
Proof.
  intros Hn H. apply randomIndex_Some in H as [_ ->]. by apply floor_scale_range.
Qed.

Lemma Qltb_lt a b : Qltb a b = true <-> (a < b)%Q.
Proof.
  unfold Qltb. rewrite negb_true_iff. split.
  - intros H. apply Qnot_le_lt. intros Hle. apply Qle_bool_iff in Hle. congruence.
  - intros H. destruct (Qle_bool b a) eqn:E; [|done].
    apply Qle_bool_iff in E. exfalso. eapply Qlt_irrefl, Qle_lt_trans; eauto.
Qed.

Lemma Qltb_ge a b : Qltb a b = false <-> (b <= a)%Q.
Proof.
  unfold Qltb. rewrite negb_false_iff. apply Qle_bool_iff.
Qed.

End RandFacts.

Import RandFacts.

(** ** Flappy Bird *)

Module FlappyFacts.

Import FlappyBird.

(** C9. A flap in the ready or the playing state leaves the bird with the
    velocity [FLAP_STRENGTH] = -7.5 whatever its velocity was before (the
    impulse replaces the velocity, it is not added to it), and the game is
    playing afterwards. *)
Theorem flap_sets_velocity (canvas : option (Q * Q)) (wd : World) :
  stateRef wd = ready \/ stateRef wd = playing ->
  velocity (bird (flap canvas wd)) = FLAP_STRENGTH
  /\ (FLAP_STRENGTH == - (15 # 2))%Q
  /\ stateRef (flap canvas wd) = playing.
Proof.
  intros [H | H]; unfold flap; rewrite H; simpl; (split; [|split]); reflexivity.
Qed.

Lemma flap_sets_velocity_witness :
  let wd := mkWorld playing (mkBird 100 200 (31 # 4) 0 0) [] 3 250 in
  velocity (bird (flap (Some (400, 600)%Q) wd)) = FLAP_STRENGTH
  /\ (FLAP_STRENGTH == - (15 # 2))%Q
  /\ stateRef (flap (Some (400, 600)%Q) wd) = playing.
Proof.
  intros wd. apply (flap_sets_velocity (Some (400, 600)%Q) wd).
  right. reflexivity.
Defined.

End FlappyFacts.

(** ** Persistence *)

Module PersistenceFacts.

Import Persistence.

(** C7, as stated, fails: a stored value that is not a number makes the
    initial best score [NaN], not zero. *)
Lemma corrupt_best_is_not_zero : ~ DefaultsToZero.
Proof.
  intros H.
  specialize (H Snake.bestKey (<[Snake.bestKey := "abc"%string]> ∅)).
  assert (E : bestInit Snake.bestKey (<[Snake.bestKey := "abc"%string]> ∅) = NaN)
    by (vm_compute; reflexivity).
  rewrite E in H. discriminate H.
  right. exists "abc"%string. split; vm_compute; reflexivity.
Qed.

(** C7, amended. The initial best score is zero when nothing is stored
    under the key or the stored string is empty; a stored string that is
    not empty is handed to [parseInt] as it is, so one that does not parse
    gives [NaN]. This holds for each of the five games. *)
Theorem best_default (key : string) (st : Storage) :
  (st !! key = None -> bestInit key st = Num 0)
  /\ (st !! key = Some EmptyString -> bestInit key st = Num 0)
  /\ (forall v, st !! key = Some v -> v <> EmptyString ->
        bestInit key st = parseInt v)
  /\ (forall v, st !! key = Some v -> v <> EmptyString -> parseInt v = NaN ->
        bestInit key st = NaN)
  /\ Snake.best0 st = bestInit "snake-best" st
  /\ FlappyBird.best0 st = bestInit "flappy-best" st
  /\ MatchThree.best0 st = bestInit "match3-best" st
  /\ SpaceInvaders.best0 st = bestInit "space-invaders-best" st
  /\ PixelRunner.best0 st = bestInit "pixel-runner-best" st.
Proof.
  unfold bestInit. repeat split.
  - intros ->. done.
  - intros ->. done.
  - intros v -> Hv. rewrite bool_decide_eq_false_2; done.
  - intros v -> Hv Hp. rewrite bool_decide_eq_false_2; done.
Qed.

Lemma best_default_witness :
  let st : Storage := <["flappy-best"%string := "12"%string]> (<["snake-best"%string := "abc"%string]> ∅) in
  bestInit "match3-best" st = Num 0
  /\ bestInit "snake-best" st = NaN
  /\ bestInit "flappy-best" st = Num 12.
Proof.
  intros st.
  destruct (best_default "match3-best" st) as (H1 & _).
  destruct (best_default "snake-best" st) as (_ & _ & _ & H2 & _).
  destruct (best_default "flappy-best" st) as (_ & _ & H3 & _).
  split; [apply H1; vm_compute; reflexivity|].
  split; [apply (H2 "abc"%string); [vm_compute; reflexivity | discriminate | vm_compute; reflexivity]|].
  rewrite (H3 "12"%string); [vm_compute; reflexivity | vm_compute; reflexivity | discriminate].
Defined.

End PersistenceFacts.

(** ** Snake *)

Module SnakeFacts.

Import Snake.

Lemma samePoint_eq a b : samePoint a b = true <-> a = b.
Proof.
  unfold samePoint. rewrite andb_true_iff, !Z.eqb_eq.
  destruct a, b; simpl. split; [intros [-> ->] | intros [= -> ->]]; done.
Qed.

Lemma not_hit_not_in (newHead : Point) (body : list Point) :
  existsb (fun seg => samePoint seg newHead) body = false -> newHead ∉ body.
Proof.
  intros H Hin. apply list_elem_of_In in Hin.
  assert (E : existsb (fun seg => samePoint seg newHead) body = true).
  { apply existsb_exists. exists newHead. split; [done | by apply samePoint_eq]. }
  congruence.
Qed.

(** [spawnFood] always returns a cell. *)
Lemma spawnFood_total gs body src p :
  exists f p', spawnFood gs body src p = Some (f, p').
Proof.
  unfold spawnFood. destruct (freeCells gs body) as [|c free] eqn:E.
  - eexists _, _. reflexivity.
  - set (l := c :: free).
    assert (Hr : (0 <= Qfloor (u_val (src p) * inject_Z (Z.of_nat (length l)))
                  < Z.of_nat (length l))%Z).
    { apply floor_scale_range. simpl. lia. }
    destruct (lookup_lt_is_Some_2 l
                (Z.to_nat (Qfloor (u_val (src p) * inject_Z (Z.of_nat (length l))))))
      as [f Hf]; [lia|].
    exists f, (S p). unfold mbind, M_bind, bind, randomIndex, bind, random, ret, lift.
    fold l. rewrite Hf. reflexivity.
Qed.

(** The outcomes of a tick of a playing game with a non-empty snake. *)
Lemma tick_cases s w src p w' p' :
  tick s w src p = Some (w', p') ->
  snake w' = snake w
  \/ (exists newHead, (newHead ∉ snake w) /\ snake w' = newHead :: snake w)
  \/ (exists newHead,
        (newHead ∉ take (length (snake w) - 1) (snake w))
        /\ snake w' = newHead :: take (length (snake w) - 1) (snake w)
        /\ snake w <> []).
Proof.
  unfold tick. destruct (negb (bool_decide (stateRef w = playing))).
  { intros [= <- _]. by left. }
  destruct (snake w) as [|head tl] eqn:Esn; [done|].
  destruct (negb (wallTeleport s) && _).
  { intros [= <- _]. left. simpl. done. }
  set (newHead := if wallTeleport s then _ else _).
  destruct (samePoint newHead (food w)) eqn:Eeat.
  - destruct (existsb _ (head :: tl)) eqn:Ehit.
    { intros [= <- _]. left. simpl. done. }
    intros H. apply bind_Some in H as (f & p1 & _ & H).
    apply ret_Some in H as [<- _]. right. left. exists newHead. simpl.
    split; [|done]. by apply not_hit_not_in.
  - destruct (existsb _ (take _ _)) eqn:Ehit.
    { intros [= <- _]. left. simpl. done. }
    intros [= <- _]. right. right. exists newHead.
    replace (length (head :: tl) - 1) with (length tl) in * by (simpl; lia).
    split; [by apply not_hit_not_in|]. done.
Qed.

Lemma tick_NoDup s w src p w' p' :
  NoDup (snake w) -> tick s w src p = Some (w', p') -> NoDup (snake w').
Proof.
  intros Hnd H. apply tick_cases in H as [-> | [(h & Hh & ->) | (h & Hh & -> & _)]].
  - done.
  - by apply NoDup_cons.
  - apply NoDup_cons. split; [done|].
    eapply sublist_NoDup; [done | apply sublist_take].
Qed.

Lemma tick_nonempty s w src p w' p' :
  snake w <> [] -> tick s w src p = Some (w', p') -> snake w' <> [].
Proof.
  intros Hne H. apply tick_cases in H as [-> | [(h & _ & ->) | (h & _ & -> & _)]]; done.
Qed.

Lemma tick_total s w src p :
  snake w <> [] -> exists w' p', tick s w src p = Some (w', p').
Proof.
  intros Hne. unfold tick. destruct (negb (bool_decide (stateRef w = playing))).
  { eexists _, _. reflexivity. }
  destruct (snake w) as [|head tl] eqn:Esn; [done|].
  destruct (negb (wallTeleport s) && _).
  { eexists _, _. reflexivity. }
  set (newHead := if wallTeleport s then _ else _).
  destruct (samePoint newHead (food w)).
  - destruct (existsb _ (head :: tl)); [eexists _, _; reflexivity|].
    destruct (spawnFood_total (gridSize s) (newHead :: head :: tl) src p) as (f & p1 & Hf).
    eexists _, p1. apply bind_Some. exists f, p1. split; [done | reflexivity].
  - destruct (existsb _ (take _ _)); eexists _, _; reflexivity.
Qed.

Lemma handle_snake s e w src p w' p' :
  handle s e w src p = Some (w', p') ->
  match e with
  | Tick => tick s w src p = Some (w', p')
  | _ => snake w' = snake w
  end.
Proof.
  destruct e; simpl; [done | |].
  - intros [= <- _]. unfold turn. destruct (bool_decide _); done.
  - intros [= <- _]. unfold togglePause. destruct (stateRef w); done.
Qed.

Lemma run_invariant s es w src p w' p' :
  snake w <> [] /\ NoDup (snake w) ->
  run s es w src p = Some (w', p') ->
  snake w' <> [] /\ NoDup (snake w').
Proof.
  unfold run. revert w p. induction es as [|e es IH]; intros w p Hinv H; simpl in H.
  - apply ret_Some in H as [<- _]. done.
  - unfold bind in H. destruct (handle s e w src p) as [[w1 p1]|] eqn:E; [|done].
    apply (IH w1 p1); [|done]. apply handle_snake in E. destruct Hinv as [Hne Hnd].
    destruct e; [|rewrite E; done..].
    split; [eapply tick_nonempty | eapply tick_NoDup]; eauto.
Qed.

Lemma run_total s es w src p :
  snake w <> [] -> exists w' p', run s es w src p = Some (w', p').
Proof.
  unfold run. revert w p. induction es as [|e es IH]; intros w p Hne; simpl.
  - eexists _, _. reflexivity.
  - assert (exists w1 p1, handle s e w src p = Some (w1, p1) /\ snake w1 <> [])
      as (w1 & p1 & E & Hne1).
    { destruct e; simpl.
      - destruct (tick_total s w src p Hne) as (w1 & p1 & E).
        exists w1, p1. split; [done|]. eapply tick_nonempty; eauto.
      - eexists _, _. split; [reflexivity|]. unfold turn.
        destruct (bool_decide _); done.
      - eexists _, _. split; [reflexivity|]. unfold togglePause.
        destruct (stateRef w); done. }
    unfold bind. rewrite E. by apply IH.
Qed.

Lemma startGame_spec s b src p :
  exists w0 p0, startGame s b src p = Some (w0, p0)
    /\ stateRef w0 = playing /\ snake w0 <> [] /\ NoDup (snake w0).
Proof.
  unfold startGame.
  set (body := [_; _; _]).
  destruct (spawnFood_total (gridSize s) body src p) as (f & p1 & Hf).
  eexists _, p1. split.
  { apply bind_Some. exists f, p1. split; [done | reflexivity]. }
  simpl. split; [done|]. split; [done|]. subst body.
  repeat (apply NoDup_cons; split); try apply NoDup_nil_2;
    rewrite ?elem_of_cons, ?elem_of_nil; intros H;
    repeat destruct H as [H | H]; try done; injection H; lia.
Qed.

(** C4. The body of the snake never holds the same cell twice. Every
    tick keeps the cells of the body distinct: a tick that eats puts a head
    that is on no body cell in front of the whole body, a tick that does
    not eat puts a head that is on no cell but possibly the vacated tail in
    front of the body without its tail. So after [startGame] and any
    sequence of ticks and key presses the game has a result and its body
    is free of duplicates. *)
Theorem snake_body_distinct (s : GameSettings) :
  (forall w src p w' p',
     NoDup (snake w) -> tick s w src p = Some (w', p') ->
     NoDup (snake w')
     /\ (snake w' = snake w
         \/ (exists h, (h ∉ snake w) /\ snake w' = h :: snake w)
         \/ (exists h, (h ∉ take (length (snake w) - 1) (snake w))
               /\ snake w' = h :: take (length (snake w) - 1) (snake w))))
  /\ (forall b es src p,
        exists w0 p0 w' p',
          startGame s b src p = Some (w0, p0)
          /\ run s es w0 src p0 = Some (w', p')
          /\ NoDup (snake w')).
Proof.
  split.
  - intros w src p w' p' Hnd H. split; [by eapply tick_NoDup|].
    apply tick_cases in H as [-> | [(h & Hh & ->) | (h & Hh & -> & _)]]; eauto.
  - intros b es src p.
    destruct (startGame_spec s b src p) as (w0 & p0 & H0 & _ & Hne & Hnd).
    destruct (run_total s es w0 src p0 Hne) as (w' & p' & Hrun).
    exists w0, p0, w', p'. split; [done|]. split; [done|].
    eapply run_invariant; eauto.
Qed.

Lemma snake_body_distinct_witness :
  tick (PRESETS medium) Samples.coiled Samples.halves 0
  = Some (Samples.uncoiled, 0)
  /\ NoDup (snake Samples.uncoiled).
Proof.
  assert (E : tick (PRESETS medium) Samples.coiled Samples.halves 0
              = Some (Samples.uncoiled, 0)) by (vm_compute; reflexivity).
  split; [exact E|].
  destruct (snake_body_distinct (PRESETS medium)) as [H _].
  apply (H Samples.coiled Samples.halves 0 Samples.uncoiled 0); [|exact E].
  apply (bool_decide_unpack _). vm_compute. exact I.
Defined.

End SnakeFacts.

(** ** Space Invaders *)

Module InvadersFacts.

Import SpaceInvaders.

Lemma wouldLeave_spec s width d a :
  wouldLeave s width d a = true <-> LeavesField s width d a.
Proof.
  unfold wouldLeave, LeavesField. cbv zeta.
  rewrite orb_true_iff, !Qltb_lt. split.
  - intros [H | H] [H1 H2]; eapply Qlt_irrefl, Qlt_le_trans; eauto.
  - intros H.
    destruct (Qlt_le_dec (x a + inject_Z d * alienSpeed s) 4) as [Hl | Hl]; [by left|].
    destruct (Qlt_le_dec (width - 4) (x a + inject_Z d * alienSpeed s + w a))
      as [Hr | Hr]; [by right|].
    exfalso. apply H. split; done.
Qed.

Lemma needDrop_spec s width f :
  needDrop s width f = true <->
  exists a, a ∈ aliens f /\ alive a = true /\ LeavesField s width (alienDir f) a.
Proof.
  unfold needDrop. rewrite existsb_exists. split.
  - intros (a & Hin & H). apply andb_prop in H as [Ha Hl].
    exists a. rewrite list_elem_of_In, <- wouldLeave_spec. done.
  - intros (a & Hin & Ha & Hl). exists a. rewrite <- list_elem_of_In.
    split; [done|]. rewrite Ha. simpl. by apply wouldLeave_spec.
Qed.

(** C5. A formation step reverses the horizontal direction exactly when
    some alive alien, moved one more step in the current direction, would
    leave [4, width - 4]. On such a step the new direction is the opposite
    one, no alien moves horizontally, every alive alien moves down by
    [alienDropPx] and a dead alien is left as it is. *)
Theorem formation_reverses_at_edge (s : GameSettings) (width : Q) (f : Formation) :
  alienDir f = 1%Z \/ alienDir f = (-1)%Z ->
  let f' := formationStep s width f in
  (alienDir f' <> alienDir f <->
     exists a, a ∈ aliens f /\ alive a = true
               /\ LeavesField s width (alienDir f) a)
  /\ (alienDir f' <> alienDir f ->
      alienDir f' = (- alienDir f)%Z
      /\ length (aliens f') = length (aliens f)
      /\ forall i a, aliens f !! i = Some a ->
           exists a', aliens f' !! i = Some a'
             /\ x a' = x a
             /\ (alive a = true -> y a' = (y a + alienDropPx s)%Q)
             /\ (alive a = false -> a' = a)).
Proof.
  intros Hdir f'. subst f'. unfold formationStep.
  rewrite <- needDrop_spec.
  destruct (needDrop s width f) eqn:E; simpl.
  - split; [split; [done | intros _; lia]|].
    intros _. split; [lia|]. split; [by rewrite length_fmap|].
    intros i a Hi. exists (dropAlien s (Z.rem (alienAnimFrame f + 1) 2) a).
    rewrite list_lookup_fmap, Hi. split; [done|].
    unfold dropAlien. destruct (alive a); simpl; done.
  - split; [split; [done | done]|]. done.
Qed.

Lemma formation_reverses_at_edge_witness :
  let s := PRESETS medium in
  let f := initFormation s 330 1 in
  let f' := formationStep s 330 f in
  (alienDir f' <> alienDir f <->
     exists a, a ∈ aliens f /\ alive a = true
               /\ LeavesField s 330 (alienDir f) a)
  /\ (alienDir f' <> alienDir f ->
      alienDir f' = (- alienDir f)%Z
      /\ length (aliens f') = length (aliens f)
      /\ forall i a, aliens f !! i = Some a ->
           exists a', aliens f' !! i = Some a'
             /\ x a' = x a
             /\ (alive a = true -> y a' = (y a + alienDropPx s)%Q)
             /\ (alive a = false -> a' = a)).
Proof.
  intros s f. apply (formation_reverses_at_edge s 330 f).
  left. reflexivity.
Defined.

(** On a step without reversal every alive alien moves one step sideways
    and none moves down. *)
Lemma formation_slides (s : GameSettings) (width : Q) (f : Formation) :
  needDrop s width f = false ->
  alienDir (formationStep s width f) = alienDir f
  /\ forall i a, aliens f !! i = Some a ->
       exists a', aliens (formationStep s width f) !! i = Some a'
         /\ y a' = y a
         /\ (alive a = true ->
             x a' = (x a + inject_Z (alienDir f) * alienSpeed s)%Q).
Proof.
  intros E. unfold formationStep. rewrite E. simpl. split; [done|].
  intros i a Hi. exists (slideAlien s (alienDir f) (Z.rem (alienAnimFrame f + 1) 2) a).
  rewrite list_lookup_fmap, Hi. split; [done|].
  unfold slideAlien. destruct (alive a); simpl; done.
Qed.

Lemma qmin_le_r a b : (qmin a b <= b)%Q.
Proof.
  unfold qmin. destruct (Qle_bool a b) eqn:E.
  - by apply Qle_bool_iff.
  - apply Qle_refl.
Qed.

Lemma frameDt_capped lastTime now : (frameDt lastTime now <= 5 # 100)%Q.
Proof.
  unfold frameDt. destruct (Qltb 0 lastTime); [apply qmin_le_r | done].
Qed.

End InvadersFacts.

(** ** Match-Three: the grid *)

Module GridFacts.

Import MatchThree.

Lemma Square_row n g r line :
  Square n g -> g !! r = Some line -> length line = n.
Proof.
  intros [_ H] Hr. rewrite Forall_forall in H. apply H.
  eapply list_elem_of_lookup_2. exact Hr.
Qed.

Lemma Square_cell n g r c :
  Square n g -> r < n -> c < n -> is_Some (cell g r c).
Proof.
  intros Hsq Hr Hc. unfold cell.
  destruct (lookup_lt_is_Some_2 g r) as [line Hl]; [destruct Hsq; lia|].
  rewrite Hl. apply lookup_lt_is_Some_2. erewrite Square_row; eauto.
Qed.

Lemma cell_Some g r c v :
  cell g r c = Some v ->
  exists line, g !! r = Some line /\ line !! c = Some v /\ c < length line.
Proof.
  unfold cell. destruct (g !! r) as [line|]; [|done].
  intros H. exists line. split; [done|]. split; [done|].
  eapply lookup_lt_Some; eauto.
Qed.

Lemma setCell_insert g r c v line :
  g !! r = Some line -> c < length line ->
  setCell g r c v = <[r := <[c := v]> line]> g.
Proof.
  intros Hr Hc. unfold setCell, arrSet. rewrite Hr.
  apply Nat.ltb_lt in Hc. rewrite Hc. done.
Qed.

Lemma setCell_id g r c v : cell g r c = Some v -> setCell g r c v = g.
Proof.
  intros H. apply cell_Some in H as (line & Hr & Hc & Hlt).
  rewrite (setCell_insert _ _ _ _ line) by done.
  rewrite (list_insert_id line) by done. by apply list_insert_id.
Qed.

Lemma setCell_length g r c v : length (setCell g r c v) = length g.
Proof. unfold setCell. destruct (g !! r); [apply length_insert | done]. Qed.

Lemma cell_setCell_eq g r c v :
  is_Some (cell g r c) -> cell (setCell g r c v) r c = Some v.
Proof.
  intros [old H]. apply cell_Some in H as (line & Hr & Hc & Hlt).
  rewrite (setCell_insert _ _ _ _ line) by done. unfold cell.
  rewrite list_lookup_insert_eq by (eapply lookup_lt_Some; eauto).
  by apply list_lookup_insert_eq.
Qed.

Lemma cell_setCell_ne g r c v r' c' :
  is_Some (cell g r c) -> (r, c) <> (r', c') ->
  cell (setCell g r c v) r' c' = cell g r' c'.
Proof.
  intros [old H] Hne. apply cell_Some in H as (line & Hr & Hc & Hlt).
  rewrite (setCell_insert _ _ _ _ line) by done. unfold cell.
  destruct (decide (r = r')) as [<- | Hr'].
  - rewrite list_lookup_insert_eq by (eapply lookup_lt_Some; eauto).
    rewrite Hr. apply list_lookup_insert_ne. congruence.
  - by rewrite list_lookup_insert_ne.
Qed.

Lemma setCell_twice g r c v v' :
  is_Some (cell g r c) -> setCell (setCell g r c v) r c v' = setCell g r c v'.
Proof.
  intros [old H]. apply cell_Some in H as (line & Hr & Hc & Hlt).
  rewrite (setCell_insert g _ _ v line) by done.
  rewrite (setCell_insert g _ _ v' line) by done.
  rewrite (setCell_insert _ _ _ v' (<[c := v]> line)).
  - by rewrite list_insert_insert_eq, list_insert_insert_eq.
  - apply list_lookup_insert_eq. eapply lookup_lt_Some; eauto.
  - by rewrite length_insert.
Qed.

Lemma setCell_comm g r c v r' c' v' :
  is_Some (cell g r c) -> is_Some (cell g r' c') -> (r, c) <> (r', c') ->
  setCell (setCell g r c v) r' c' v' = setCell (setCell g r' c' v') r c v.
Proof.
  intros [o H] [o' H'] Hne.
  apply cell_Some in H as (line & Hr & Hc & Hlt).
  apply cell_Some in H' as (line' & Hr' & Hc' & Hlt').
  assert (Hrl : r < length g) by (eapply lookup_lt_Some; eauto).
  assert (Hrl' : r' < length g) by (eapply lookup_lt_Some; eauto).
  rewrite (setCell_insert g r c v line) by done.
  rewrite (setCell_insert g r' c' v' line') by done.
  destruct (decide (r = r')) as [<- | Hrr].
  - assert (line' = line) as -> by congruence.
    rewrite (setCell_insert _ r c' v' (<[c := v]> line));
      [| by apply list_lookup_insert_eq | by rewrite length_insert].
    rewrite (setCell_insert _ r c v (<[c' := v']> line));
      [| by apply list_lookup_insert_eq | by rewrite length_insert].
    rewrite !list_insert_insert_eq. f_equal.
    apply list_insert_insert_ne. congruence.
  - rewrite (setCell_insert _ r' c' v' line');
      [| by rewrite list_lookup_insert_ne | done].
    rewrite (setCell_insert _ r c v line);
      [| by rewrite list_lookup_insert_ne | done].
    by apply list_insert_insert_ne.
Qed.

(** Exchanging the values of two different cells twice gives the grid
    back. *)
Lemma swap_twice g r1 c1 r2 c2 va vb :
  cell g r1 c1 = Some va -> cell g r2 c2 = Some vb -> (r1, c1) <> (r2, c2) ->
  setCell (setCell (setCell (setCell g r1 c1 vb) r2 c2 va) r1 c1 va) r2 c2 vb = g.
Proof.
  intros Ha Hb Hne.
  assert (H1 : is_Some (cell g r1 c1)) by eauto.
  assert (H2 : is_Some (cell g r2 c2)) by eauto.
  rewrite (setCell_comm (setCell g r1 c1 vb) r2 c2 va r1 c1 va).
  - rewrite (setCell_twice g r1 c1 vb va) by done.
    rewrite (setCell_id g r1 c1 va) by done.
    rewrite (setCell_twice g r2 c2 va vb) by done. by apply setCell_id.
  - rewrite cell_setCell_ne; done.
  - rewrite cell_setCell_eq; done.
  - congruence.
Qed.

Lemma swapCells_back g a b g1 :
  swapCells g a b = Some g1 -> swapCells g1 a b = Some g.
Proof.
  unfold swapCells.
  destruct (cell g (row a) (col a)) as [va|] eqn:Ea; [|done].
  destruct (cell g (row b) (col b)) as [vb|] eqn:Eb; [|done].
  intros [= <-].
  destruct (decide ((row a, col a) = (row b, col b))) as [E | Hne].
  - injection E as Er Ec. rewrite <- Er, <- Ec in *.
    assert (vb = va) as -> by congruence.
    rewrite !(setCell_id g _ _ va) by done. rewrite Ea.
    by rewrite !(setCell_id g _ _ va).
  - assert (E1 : cell (setCell (setCell g (row a) (col a) vb) (row b) (col b) va)
                     (row a) (col a) = Some vb).
    { rewrite cell_setCell_ne;
        [apply cell_setCell_eq; eauto | rewrite cell_setCell_ne; eauto | congruence]. }
    assert (E2 : cell (setCell (setCell g (row a) (col a) vb) (row b) (col b) va)
                     (row b) (col b) = Some va).
    { apply cell_setCell_eq. rewrite cell_setCell_ne; eauto. }
    rewrite E1, E2. f_equal. by apply swap_twice.
Qed.

Lemma wouldMatch_restores g r1 c1 r2 c2 :
  is_Some (cell g r1 c1) -> is_Some (cell g r2 c2) ->
  exists found, wouldMatch g r1 c1 r2 c2 = Some (found, g).
Proof.
  intros [t1 H1] [t2 H2]. unfold wouldMatch. rewrite H1, H2.
  case_bool_decide as Et; [by eexists|].
  eexists. f_equal. f_equal. apply swap_twice; [done..|].
  intros [= -> ->]. congruence.
Qed.

Lemma probeCell_restores n g r c :
  Square n g -> r < n -> c < n ->
  exists mv, probeCell n g (r, c) = Some (mv, g).
Proof.
  intros Hsq Hr Hc. unfold probeCell.
  assert (Hrc : is_Some (cell g r c)) by (eapply Square_cell; eauto).
  assert (H1 : exists b, (if c <? n - 1 then wouldMatch g r c r (c + 1)
                          else Some (false, g)) = Some (b, g)).
  { destruct (c <? n - 1) eqn:E; [|by eexists].
    apply Nat.ltb_lt in E. apply wouldMatch_restores; [done|].
    eapply Square_cell; eauto. lia. }
  destruct H1 as [b1 ->]. simpl. destruct b1; [by eexists|].
  assert (H2 : exists b, (if r <? n - 1 then wouldMatch g r c (r + 1) c
                          else Some (false, g)) = Some (b, g)).
  { destruct (r <? n - 1) eqn:E; [|by eexists].
    apply Nat.ltb_lt in E. apply wouldMatch_restores; [done|].
    eapply Square_cell; eauto. lia. }
  destruct H2 as [b2 ->]. simpl. destruct b2; by eexists.
Qed.

Lemma probeCells_restores n g rcs :
  Square n g -> Forall (fun rc => rc.1 < n /\ rc.2 < n) rcs ->
  exists mv, probeCells n rcs g = Some (mv, g).
Proof.
  intros Hsq. induction rcs as [|[r c] rcs IH]; intros Hall.
  - by eexists.
  - apply Forall_cons in Hall as [[Hr Hc] Hall]. simpl in Hr, Hc.
    destruct (probeCell_restores n g r c Hsq Hr Hc) as [mv E].
    cbn [probeCells]. rewrite E. simpl.
    destruct mv; [by eexists | by apply IH].
Qed.

Lemma allCells_range n : Forall (fun rc => rc.1 < n /\ rc.2 < n) (allCells n).
Proof.
  apply Forall_forall. intros [r c] Hin. unfold allCells in Hin.
  apply list_elem_of_bind in Hin as (r' & Hin & Hr).
  apply list_elem_of_fmap in Hin as (c' & [= -> ->] & Hc).
  apply elem_of_seq in Hr, Hc. simpl. lia.
Qed.

(** On a square board [findValidMove] returns, and leaves the board as it
    found it. *)
Lemma findValidMove_restores n g :
  Square n g -> exists mv, findValidMove g = Some (mv, g).
Proof.
  intros Hsq. unfold findValidMove. destruct Hsq as [Hlen Hrows].
  rewrite Hlen. apply probeCells_restores; [done | apply allCells_range].
Qed.

End GridFacts.

(** ** Match-Three: a swap that does not match *)

Module SwapFacts.

Import MatchThree GridFacts.

(** The fields that the countdown leaves alone. *)
Lemma tickTimer_keeps now gm :
  let gm' := tickTimer now gm in
  grid gm' = grid gm /\ animState gm' = animState gm
  /\ animStart gm' = animStart gm /\ swapFrom gm' = swapFrom gm
  /\ swapTo gm' = swapTo gm.
Proof. unfold tickTimer. destruct (stateRef gm); simpl; done. Qed.

Lemma stepClearing_other types now gm :
  animState gm <> clearing -> stepClearing types now gm = mret gm.
Proof.
  intros H. unfold stepClearing. by rewrite bool_decide_eq_false_2.
Qed.

Lemma stepFalling_other fuel types now gm :
  animState gm <> falling -> stepFalling fuel types now gm = mret gm.
Proof.
  intros H. unfold stepFalling. by rewrite bool_decide_eq_false_2.
Qed.

Lemma stepHint_keeps n now gm :
  Square n (grid gm) ->
  exists gm', stepHint now gm = Some gm'
    /\ grid gm' = grid gm /\ animState gm' = animState gm
    /\ animStart gm' = animStart gm /\ swapFrom gm' = swapFrom gm
    /\ swapTo gm' = swapTo gm.
Proof.
  intros Hsq. unfold stepHint.
  destruct (_ && _); [|by eexists].
  destruct (hintMove gm); [by eexists|].
  destruct (findValidMove_restores n (grid gm) Hsq) as [mv ->]. simpl.
  by eexists.
Qed.

Section FailedSwap.

Variables (fuel n : nat) (s : GameSettings) (g0 g1 : Grid) (sf st : CellPos).
Hypothesis Hsq : Square n g0.
Hypothesis Hswap : swapCells g0 sf st = Some g1.
Hypothesis Hnone : findMatches g1 = [].

(** A frame in one of the three states keeps the board. *)
Lemma draw_failed_swap now gm src p :
  grid gm = g0 -> swapFrom gm = sf -> swapTo gm = st -> Quiet (animState gm) ->
  exists gm',
    draw fuel s now gm src p = Some (gm', p)
    /\ grid gm' = g0 /\ swapFrom gm' = sf /\ swapTo gm' = st
    /\ Quiet (animState gm')
    /\ (animState gm = swapping -> Qle_bool SWAP_MS (now - animStart gm) = true ->
        animState gm' = swapping_back /\ animStart gm' = now)
    /\ (animState gm = swapping_back ->
        Qle_bool SWAP_MS (now - animStart gm) = true -> animState gm' = idle)
    /\ (animState gm = idle -> animState gm' = idle).
Proof.
  intros Hg Hsf Hst Hq. unfold draw.
  destruct (tickTimer_keeps now gm) as (Tg & Ta & Ts & Tf & Tt).
  set (gm0 := tickTimer now gm) in *.
  (* swapping *)
  assert (exists gm1, stepSwapping now gm0 = Some gm1
            /\ grid gm1 = g0 /\ swapFrom gm1 = sf /\ swapTo gm1 = st
            /\ (animState gm = swapping ->
                Qle_bool SWAP_MS (now - animStart gm) = true ->
                animState gm1 = swapping_back /\ animStart gm1 = now)
            /\ (animState gm = swapping ->
                Qle_bool SWAP_MS (now - animStart gm) = false ->
                animState gm1 = swapping)
            /\ (animState gm <> swapping -> gm1 = gm0))
    as (gm1 & E1 & G1 & F1 & T1 & A1 & A1' & A1'').
  { unfold stepSwapping. rewrite Ta, Ts.
    destruct (decide (animState gm = swapping)) as [Ea | Ea].
    - rewrite bool_decide_eq_true_2 by done. simpl.
      destruct (Qle_bool SWAP_MS (now - animStart gm)) eqn:Et.
      + rewrite Tg, Tf, Tt, Hg, Hsf, Hst, Hswap. simpl.
        rewrite Hnone. simpl. rewrite (swapCells_back _ _ _ _ Hswap). simpl.
        eexists. split; [done|]. simpl. rewrite Tf, Tt.
        repeat split; try done; congruence.
      + exists gm0. rewrite Tg, Tf, Tt, Ta. repeat split; try done; congruence.
    - rewrite bool_decide_eq_false_2 by done. simpl.
      exists gm0. rewrite Tg, Tf, Tt. repeat split; try done; congruence. }
  (* swapping back *)
  set (gm2 := stepSwappingBack now gm1).
  assert (grid gm2 = g0 /\ swapFrom gm2 = sf /\ swapTo gm2 = st
          /\ (animState gm1 = swapping_back ->
              Qle_bool SWAP_MS (now - animStart gm1) = true ->
              animState gm2 = idle)
          /\ (animState gm1 = swapping_back ->
              Qle_bool SWAP_MS (now - animStart gm1) = false -> gm2 = gm1)
          /\ (animState gm1 <> swapping_back -> gm2 = gm1))
    as (G2 & F2 & T2 & A2 & A2' & A2'').
  { subst gm2. unfold stepSwappingBack.
    destruct (decide (animState gm1 = swapping_back)) as [Ea | Ea].
    - rewrite bool_decide_eq_true_2 by done. simpl.
      destruct (Qle_bool SWAP_MS (now - animStart gm1)); simpl;
        repeat split; try done; congruence.
    - rewrite bool_decide_eq_false_2 by done. simpl. done. }
  assert (Q2 : Quiet (animState gm2)
               /\ (animState gm = swapping ->
                   Qle_bool SWAP_MS (now - animStart gm) = true ->
                   animState gm2 = swapping_back /\ animStart gm2 = now)
               /\ (animState gm = swapping_back ->
                   Qle_bool SWAP_MS (now - animStart gm) = true ->
                   animState gm2 = idle)
               /\ (animState gm = idle -> animState gm2 = idle)).
  { destruct Hq as [Ea | [Ea | Ea]].
    - destruct (Qle_bool SWAP_MS (now - animStart gm)) eqn:Et.
      + destruct (A1 Ea eq_refl) as [Ea1 Es1].
        assert (gm2 = gm1) as ->.
        { apply A2'; [done|]. rewrite Es1.
          unfold SWAP_MS, Qle_bool. simpl. apply Z.leb_gt.
          destruct now as [nn nd]. simpl. nia. }
        unfold Quiet. rewrite Ea1, Ea. repeat split; try done; eauto.
      + rewrite A2'' by (rewrite (A1' Ea eq_refl); done).
        unfold Quiet. rewrite (A1' Ea eq_refl), Ea. repeat split; try done; eauto.
    - assert (gm1 = gm0) as -> by (apply A1''; congruence).
      rewrite Ta, Ts in *. rewrite Ea.
      destruct (Qle_bool SWAP_MS (now - animStart gm)) eqn:Et.
      + unfold Quiet. rewrite (A2 Ea eq_refl). repeat split; try done; eauto.
      + rewrite (A2' Ea eq_refl). unfold Quiet. rewrite Ta, Ea.
        repeat split; try done; eauto.
    - assert (gm1 = gm0) as -> by (apply A1''; congruence).
      rewrite A2'' by (rewrite Ta; congruence).
      unfold Quiet. rewrite Ta, Ea. repeat split; try done; eauto. }
  destruct Q2 as (Q2 & B1 & B2 & B3).
  assert (Hnc : animState gm2 <> clearing) by (destruct Q2 as [E | [E | E]]; congruence).
  assert (Hnf : animState gm2 <> falling) by (destruct Q2 as [E | [E | E]]; congruence).
  destruct (stepHint_keeps n now gm2) as (gm' & E5 & G5 & A5 & S5 & F5 & T5);
    [by rewrite G2|].
  exists gm'. split.
  { apply bind_Some. exists gm1, p. split; [by apply lift_Some|].
    apply bind_Some. exists gm2, p. split; [by rewrite stepClearing_other|].
    apply bind_Some. exists gm2, p. split; [by rewrite stepFalling_other|].
    by apply lift_Some. }
  rewrite G5, A5, S5, F5, T5. done.
Qed.

Lemma frames_failed_swap nows : forall gm src p,
  grid gm = g0 -> swapFrom gm = sf -> swapTo gm = st -> Quiet (animState gm) ->
  exists gm',
    frames fuel s nows gm src p = Some (gm', p)
    /\ grid gm' = g0 /\ Quiet (animState gm').
Proof.
  induction nows as [|now nows IH]; intros gm src p Hg Hsf Hst Hq.
  - exists gm. done.
  - destruct (draw_failed_swap now gm src p Hg Hsf Hst Hq)
      as (gm1 & E & G & F & T & Q & _).
    destruct (IH gm1 src p G F T Q) as (gm' & E' & G' & Q').
    exists gm'. split; [|done]. unfold frames. simpl. unfold bind.
    rewrite E. exact E'.
Qed.

End FailedSwap.

(** C3. When the swap of the two chosen cells makes no match, the board
    is cell for cell the board from before the swap in every later frame
    up to the next input: the frame that ends the swap animation swaps the
    cells and swaps them back, the animation runs on as [swapping-back],
    and the frame that ends it returns to [idle]. No frame on the way needs
    a random number. *)
Theorem failed_swap_restores_board (fuel n : nat) (s : GameSettings) (gm : Game)
    (g1 : Grid) :
  Square n (grid gm) ->
  animState gm = swapping ->
  swapCells (grid gm) (swapFrom gm) (swapTo gm) = Some g1 ->
  findMatches g1 = [] ->
  (forall nows src p,
     exists gm', frames fuel s nows gm src p = Some (gm', p)
       /\ grid gm' = grid gm
       /\ (animState gm' = swapping \/ animState gm' = swapping_back
           \/ animState gm' = idle))
  /\ (forall now1 now2 src p,
        (SWAP_MS <= now1 - animStart gm)%Q -> (SWAP_MS <= now2 - now1)%Q ->
        exists gm1 gm2,
          draw fuel s now1 gm src p = Some (gm1, p)
          /\ animState gm1 = swapping_back /\ grid gm1 = grid gm
          /\ draw fuel s now2 gm1 src p = Some (gm2, p)
          /\ animState gm2 = idle /\ grid gm2 = grid gm).
Proof.
  intros Hsq Ha Hswap Hnone. split.
  - intros nows src p.
    destruct (frames_failed_swap fuel n s (grid gm) g1 (swapFrom gm) (swapTo gm)
                Hsq Hswap Hnone nows gm src p) as (gm' & E & G & Q);
      try done; [by left|].
    exists gm'. done.
  - intros now1 now2 src p H1 H2.
    destruct (draw_failed_swap fuel n s (grid gm) g1 (swapFrom gm) (swapTo gm)
                Hsq Hswap Hnone now1 gm src p)
      as (gm1 & E1 & G1 & F1 & T1 & Q1 & A1 & _); try done; [by left|].
    destruct (A1 Ha) as [Ea1 Es1]; [by apply Qle_bool_iff|].
    destruct (draw_failed_swap fuel n s (grid gm) g1 (swapFrom gm) (swapTo gm)
                Hsq Hswap Hnone now2 gm1 src p)
      as (gm2 & E2 & G2 & F2 & T2 & Q2 & _ & A2 & _); try done.
    exists gm1, gm2. repeat split; try done.
    apply A2; [done|]. rewrite Es1. by apply Qle_bool_iff.
Qed.

Lemma deadBoard_Square : Square 7 Samples.deadBoard.
Proof. split; [reflexivity | repeat constructor]. Qed.

Lemma failed_swap_restores_board_witness :
  exists gm1 gm2,
    draw 1 (PRESETS easy) 200 Samples.swiped Samples.halves 0 = Some (gm1, 0)
    /\ animState gm1 = swapping_back /\ grid gm1 = Samples.deadBoard
    /\ draw 1 (PRESETS easy) 400 gm1 Samples.halves 0 = Some (gm2, 0)
    /\ animState gm2 = idle /\ grid gm2 = Samples.deadBoard.
Proof.
  assert (E : exists g1, swapCells (grid Samples.swiped) (swapFrom Samples.swiped)
                           (swapTo Samples.swiped) = Some g1
                         /\ findMatches g1 = [])
    by (eexists; split; vm_compute; reflexivity).
  destruct E as (g1 & Eswap & Enone).
  destruct (failed_swap_restores_board 1 7 (PRESETS easy) Samples.swiped g1
              deadBoard_Square eq_refl Eswap Enone) as [_ H].
  apply (H 200%Q 400%Q Samples.halves 0); vm_compute; discriminate.
Defined.

End SwapFacts.

(** ** Match-Three: a created board has no match *)

Module BoardFacts.

Import MatchThree GridFacts.

Lemma same_true a b : same a b = true <-> a = b.
Proof. unfold same. apply bool_decide_eq_true. Qed.

Lemma runEnd_ge get t k e : e <= runEnd get t k e.
Proof.
  revert e. induction k as [|k IH]; intros e; simpl; [lia|].
  destruct (same (get e) t); [|lia]. specialize (IH (S e)). lia.
Qed.

Lemma runEnd_two get t k e :
  e + 2 <= runEnd get t k e -> get e = t /\ get (S e) = t /\ 2 <= k.
Proof.
  destruct k as [|k]; simpl; [lia|].
  destruct (same (get e) t) eqn:E1; [|lia]. apply same_true in E1.
  destruct k as [|k]; simpl; [lia|].
  destruct (same (get (S e)) t) eqn:E2; [|lia]. apply same_true in E2.
  intros _. repeat split; [done | done | lia].
Qed.

Lemma scanLine_nil get mk n :
  (forall c, 2 <= c -> c < n ->
     ~ (get (c - 1) = get c /\ get (c - 2) = get c)) ->
  forall fuel c, scanLine get mk n fuel c = [].
Proof.
  intros Hno. induction fuel as [|fuel IH]; intros c; cbn [scanLine]; [done|].
  destruct (n <=? c) eqn:En; [done|]. apply Nat.leb_gt in En.
  destruct (isNeg (get c)); [apply IH|].
  rewrite IH, app_nil_r.
  destruct (3 <=? runEnd get (get c) (n - S c) (S c) - c) eqn:E3; [|done].
  apply Nat.leb_le in E3. exfalso.
  destruct (runEnd_two get (get c) (n - S c) (S c)) as (H1 & H2 & Hk); [lia|].
  apply (Hno (S (S c))); [lia | lia |]. simpl. rewrite Nat.sub_0_r.
  split; congruence.
Qed.

Lemma concat_fmap_nil {A B} (f : A -> list B) (l : list A) :
  (forall x, x ∈ l -> f x = []) -> concat (f <$> l) = [].
Proof.
  induction l as [|x l IH]; intros H; simpl; [done|].
  rewrite H by left. apply IH. intros y Hy. apply H. by right.
Qed.

(** A square board without runs has no match. *)
Lemma NoRuns_findMatches n g : Square n g -> NoRuns g -> findMatches g = [].
Proof.
  intros Hsq Hno. unfold findMatches. destruct Hsq as [Hlen Hrows].
  assert (Hsq : Square n g) by done. rewrite Hlen.
  rewrite !concat_fmap_nil; [done | |].
  - intros c Hc. apply elem_of_seq in Hc. apply scanLine_nil.
    intros r Hr2 Hr [E1 E2].
    destruct (Square_cell n g r c Hsq) as [v Hv]; [lia..|].
    destruct (Hno r c v Hv) as [_ H]. apply (H Hr2). split; congruence.
  - intros r Hr. apply elem_of_seq in Hr. apply scanLine_nil.
    intros c Hc2 Hc [E1 E2].
    destruct (Square_cell n g r c Hsq) as [v Hv]; [lia..|].
    destruct (Hno r c v Hv) as [H _]. apply (H Hc2). split; congruence.
Qed.

Lemma pickGem_accepts fuel g r c types src p gem p' :
  pickGem fuel g r c types src p = Some (gem, p') -> rejects g r c gem = false.
Proof.
  revert p. induction fuel as [|fuel IH]; intros p; simpl; [done|].
  intros H. apply bind_Some in H as (gem1 & p1 & _ & H).
  destruct (rejects g r c gem1) eqn:E; [by eapply IH|].
  apply ret_Some in H as [<- _]. done.
Qed.

Lemma rejects_false g r c gem :
  rejects g r c gem = false ->
  (2 <= c -> ~ (cell g r (c - 1) = Some gem /\ cell g r (c - 2) = Some gem))
  /\ (2 <= r -> ~ (cell g (r - 1) c = Some gem /\ cell g (r - 2) c = Some gem)).
Proof.
  unfold rejects. intros H. apply orb_false_elim in H as [H1 H2].
  split; intros Hge [E1 E2].
  - apply Nat.leb_le in Hge. rewrite Hge in H1.
    apply same_true in E1, E2. by rewrite E1, E2 in H1.
  - apply Nat.leb_le in Hge. rewrite Hge in H2.
    apply same_true in E1, E2. by rewrite E1, E2 in H2.
Qed.

Lemma Filling_append size r c g gem :
  Filling size r c g -> rejects g r c gem = false ->
  Filling size r (S c) (setCell g r c gem).
Proof.
  intros (Hlen & Hrows & (line & Hline & Hc) & Hno) Hrej.
  assert (Hset : setCell g r c gem = <[r := line ++ [gem]]> g).
  { unfold setCell, arrSet. rewrite Hline, Hc, Nat.ltb_irrefl, Nat.eqb_refl. done. }
  assert (Hr : r < length g) by lia.
  assert (Hcell : forall r' c',
            cell (setCell g r c gem) r' c'
            = if decide (r' = r /\ c' = c) then Some gem else cell g r' c').
  { intros r' c'. rewrite Hset. unfold cell.
    destruct (decide (r' = r)) as [-> | Hne].
    - rewrite list_lookup_insert_eq, Hline by done.
      destruct (decide (c' = c)) as [-> | Hnc].
      + rewrite decide_True by done. rewrite lookup_app_r by lia.
        by rewrite Hc, Nat.sub_diag.
      + rewrite decide_False by tauto.
        destruct (decide (c' < c)) as [Hlt | Hge].
        * by rewrite lookup_app_l by lia.
        * rewrite !lookup_ge_None_2; [done | lia |]. rewrite length_app. simpl. lia.
    - rewrite list_lookup_insert_ne by done. rewrite decide_False by tauto. done. }
  assert (Hold : forall r' c', is_Some (cell g r' c') ->
            r' < r \/ (r' = r /\ c' < c)).
  { intros r' c' [v Hv]. apply cell_Some in Hv as (l' & Hl' & _ & Hlt).
    assert (r' < length g) by (eapply lookup_lt_Some; eauto).
    destruct (decide (r' = r)) as [-> | ?]; [|lia].
    right. split; [done|]. congruence. }
  split; [by rewrite setCell_length|]. split; [|split].
  - intros r' l' Hr' Hl'. rewrite Hset, list_lookup_insert_ne in Hl' by lia. eauto.
  - exists (line ++ [gem]). rewrite Hset, list_lookup_insert_eq by done.
    split; [done|]. rewrite length_app. simpl. lia.
  - intros r' c' v Hv. rewrite Hcell in Hv.
    destruct (decide (r' = r /\ c' = c)) as [[-> ->] | Hne].
    + injection Hv as <-. destruct (rejects_false g r c gem Hrej) as [R1 R2].
      split; intros Hge; rewrite !Hcell, !decide_False by lia; eauto.
    + destruct (Hno r' c' v Hv) as [N1 N2].
      destruct (Hold r' c') as [Hlt | [-> Hlt]]; [by eexists | |];
        (split; intros Hge; rewrite !Hcell, !decide_False by lia; eauto).
Qed.

Lemma createRow_fills fuel size types r g src p g' p' :
  Filled size r g -> createRow fuel size types r g src p = Some (g', p') ->
  Filled size (S r) g'.
Proof.
  intros (Hlen & Hrows & Hno) H. unfold createRow in H.
  assert (Hset : arrSet g r [] = g ++ [[]]).
  { unfold arrSet. by rewrite Hlen, Nat.ltb_irrefl, Nat.eqb_refl. }
  rewrite Hset in H.
  apply (forM_seq_invariant (Filling size r)) in H.
  - change (0 + size) with size in H.
    destruct H as (Hlen' & Hrows' & (line & Hline & Hc) & Hno').
    split; [done|]. split; [|done].
    intros r' l' Hl'. destruct (decide (r' = r)) as [-> | Hne]; [congruence|].
    apply (Hrows' r'); [|done].
    assert (r' < length g') by (eapply lookup_lt_Some; eauto). lia.
  - intros c g1 src1 p1 g2 p2 _ HF Hb.
    apply bind_Some in Hb as (gem & p3 & Hpick & Hret).
    apply ret_Some in Hret as [<- _].
    apply Filling_append; [done|]. by eapply pickGem_accepts.
  - split; [rewrite length_app; simpl; lia|]. split; [|split].
    + intros r' l' Hr' Hl'. rewrite lookup_app_l in Hl' by lia. eauto.
    + exists []. rewrite lookup_app_r by lia. by rewrite Hlen, Nat.sub_diag.
    + assert (Hc : forall r' c', cell (g ++ [[]]) r' c' = cell g r' c').
      { intros r' c'. unfold cell.
        destruct (decide (r' < length g)) as [Hlt | Hge].
        - by rewrite lookup_app_l.
        - rewrite (lookup_ge_None_2 g) by lia.
          destruct ((g ++ [[]]) !! r') as [l'|] eqn:E; [|done].
          rewrite lookup_app_r in E by lia.
          destruct (r' - length g); simpl in E; [|done].
          injection E as <-. done. }
      intros r' c' v. rewrite !Hc. apply Hno.
Qed.

(** [createBoard]: the board it returns is square and has no run of three. *)
Lemma createBoard_spec fuel size types src p g p' :
  createBoard fuel size types src p = Some (g, p') ->
  Square size g /\ NoRuns g.
Proof.
  intros H. unfold createBoard in H.
  apply (forM_seq_invariant (Filled size)) in H.
  - change (0 + size) with size in H.
    destruct H as (Hlen & Hrows & Hno). split; [|done]. split; [done|].
    apply Forall_forall. intros line Hin.
    apply list_elem_of_lookup in Hin as [r Hr]. eauto.
  - intros r g1 src1 p1 g2 p2 _ HF Hb. by eapply createRow_fills.
  - split; [done|]. split.
    + intros r' l' Hl'. by rewrite lookup_nil in Hl'.
    + intros r c v Hv. unfold cell in Hv. by rewrite lookup_nil in Hv.
Qed.

Lemma createBoard_no_matches fuel size types src p g p' :
  createBoard fuel size types src p = Some (g, p') -> findMatches g = [].
Proof.
  intros H. apply createBoard_spec in H as [Hsq Hno].
  by eapply NoRuns_findMatches.
Qed.

(** *** createBoard returns *)

Lemma pickGem_step fuel g r c types src p :
  pickGem (S fuel) g r c types src p
  = if rejects g r c (gemAt types src p)
    then pickGem fuel g r c types src (S p)
    else Some (gemAt types src p, S p).
Proof.
  cbn [pickGem]. unfold mbind, M_bind, bind, randomGem, randomIndex, bind, random,
    ret, gemAt.
  by destruct (rejects _ _ _ _).
Qed.

(** A gem is turned down only when it is the gem to the left or the gem
    above. *)
Lemma rejects_true g r c gem :
  rejects g r c gem = true ->
  cell g r (c - 1) = Some gem \/ cell g (r - 1) c = Some gem.
Proof.
  unfold rejects. intros H. apply orb_prop in H as [H | H];
    apply andb_prop in H as [H _]; apply andb_prop in H as [_ H];
    apply same_true in H; auto.
Qed.

Lemma pickGem_returns fuel g r c types src p :
  3 <= fuel -> Varied types src ->
  exists gem p', pickGem fuel g r c types src p = Some (gem, p').
Proof.
  intros Hfuel Hv.
  destruct fuel as [|[|[|fuel]]]; [lia..|].
  rewrite pickGem_step.
  destruct (rejects g r c (gemAt types src p)) eqn:E1; [|by eexists _, _].
  rewrite pickGem_step.
  destruct (rejects g r c (gemAt types src (S p))) eqn:E2; [|by eexists _, _].
  rewrite pickGem_step.
  destruct (rejects g r c (gemAt types src (S (S p)))) eqn:E3; [|by eexists _, _].
  exfalso. destruct (Hv p) as (N1 & N2 & N3).
  apply rejects_true in E1, E2, E3.
  destruct E1 as [E1 | E1], E2 as [E2 | E2], E3 as [E3 | E3]; congruence.
Qed.

Lemma createBoard_returns fuel size types src p :
  3 <= fuel -> Varied types src ->
  exists g p', createBoard fuel size types src p = Some (g, p').
Proof.
  intros Hfuel Hv. unfold createBoard. apply forM_total.
  intros r g p1. unfold createRow. apply forM_total.
  intros c g1 p2.
  destruct (pickGem_returns fuel g1 r c types src p2 Hfuel Hv) as (gem & p3 & E).
  eexists _, p3. apply bind_Some. exists gem, p3. split; [done | reflexivity].
Qed.

Lemma NoRuns_NoThreeInLine g : NoRuns g -> NoThreeInLine g.
Proof.
  intros Hno r c v. split; intros (H0 & H1 & H2).
  - destruct (Hno r (c + 2) v H2) as [H _]. apply H; [lia|].
    replace (c + 2 - 1) with (c + 1) by lia.
    replace (c + 2 - 2) with c by lia. done.
  - destruct (Hno (r + 2) c v H2) as [_ H]. apply H; [lia|].
    replace (r + 2 - 1) with (r + 1) by lia.
    replace (r + 2 - 2) with r by lia. done.
Qed.

(** C1. For the board sizes and gem counts of the presets, the board
    that [createBoard] returns is square, has no three equal gems next to
    each other in a row or a column, and [findMatches] finds nothing on it.
    [createBoard] does return, each cell within three draws, on every
    random sequence in which three draws in a row give three different
    gems. *)
Theorem fresh_board_has_no_match (fuel n : nat) (t : Z) (src : nat -> U01)
    (p : nat) :
  7 <= n <= 9 -> (5 <= t <= 7)%Z ->
  (forall g p',
     createBoard fuel n t src p = Some (g, p') ->
     Square n g /\ NoThreeInLine g /\ findMatches g = [])
  /\ (3 <= fuel -> Varied t src ->
      exists g p', createBoard fuel n t src p = Some (g, p')).
Proof.
  intros _ _. split.
  - intros g p' H. pose proof (createBoard_no_matches _ _ _ _ _ _ _ H) as Hm.
    apply createBoard_spec in H as [Hsq Hno].
    split; [done|]. split; [by apply NoRuns_NoThreeInLine | done].
  - apply createBoard_returns.
Qed.

Lemma fresh_board_has_no_match_witness :
  exists g p',
    createBoard 3 7 5 Samples.cycle5 0 = Some (g, p')
    /\ Square 7 g /\ NoThreeInLine g /\ findMatches g = [].
Proof.
  assert (E : exists g p', createBoard 3 7 5 Samples.cycle5 0 = Some (g, p'))
    by (vm_compute; eauto).
  destruct E as (g & p' & E). exists g, p'. split; [exact E|].
  assert (Hn : 7 <= 7 <= 9) by lia.
  assert (Ht : (5 <= 5 <= 7)%Z) by lia.
  exact (proj1 (fresh_board_has_no_match 3 7 5 Samples.cycle5 0 Hn Ht) g p' E).
Defined.

End BoardFacts.

(** ** Match-Three: gravity *)

Module GravityFacts.

Import MatchThree GridFacts.

Lemma column_length g c : length (column g c) = length g.
Proof. apply length_fmap. Qed.

Lemma column_lookup n g r c :
  Square n g -> c < n -> column g c !! r = cell g r c.
Proof.
  intros Hsq Hc. unfold column, cell. rewrite list_lookup_fmap.
  destruct (g !! r) as [line|] eqn:E; simpl; [|done].
  symmetry. apply list_lookup_lookup_total_lt.
  erewrite Square_row; eauto.
Qed.

Lemma setCell_Square n g r c v :
  Square n g -> r < n -> c < n -> Square n (setCell g r c v).
Proof.
  intros Hsq Hr Hc.
  destruct (lookup_lt_is_Some_2 g r) as [line Hl]; [destruct Hsq; lia|].
  assert (Hll : length line = n) by (eapply Square_row; eauto).
  rewrite (setCell_insert g r c v line) by (done || lia).
  destruct Hsq as [Hlen Hrows]. split; [by rewrite length_insert|].
  apply Forall_insert; [done|]. by rewrite length_insert.
Qed.

Lemma column_setCell n g r c v :
  Square n g -> r < n -> c < n ->
  column (setCell g r c v) c = <[r := v]> (column g c).
Proof.
  intros Hsq Hr Hc.
  destruct (lookup_lt_is_Some_2 g r) as [line Hl]; [destruct Hsq; lia|].
  assert (Hll : length line = n) by (eapply Square_row; eauto).
  rewrite (setCell_insert g r c v line) by (done || lia).
  unfold column. rewrite list_fmap_insert. f_equal.
  apply list_lookup_total_insert_eq. lia.
Qed.

Lemma column_setCell_ne n g r c v c' :
  Square n g -> r < n -> c < n -> c' <> c ->
  column (setCell g r c v) c' = column g c'.
Proof.
  intros Hsq Hr Hc Hne.
  destruct (lookup_lt_is_Some_2 g r) as [line Hl]; [destruct Hsq; lia|].
  assert (Hll : length line = n) by (eapply Square_row; eauto).
  rewrite (setCell_insert g r c v line) by (done || lia).
  unfold column. rewrite list_fmap_insert.
  rewrite list_lookup_total_insert_ne by done.
  apply list_insert_id. by rewrite list_lookup_fmap, Hl.
Qed.

Lemma emptyGrid_Square n : Square n (emptyGrid n).
Proof.
  unfold emptyGrid. split; [apply length_replicate|].
  apply Forall_replicate. apply length_replicate.
Qed.

(** The surviving gems that [applyGravity] collects, bottom row first. *)
Lemma existingOf_prefix n g c k :
  Square n g -> c < n -> k <= n ->
  (existingOf g k c).*2 = rev (filter (fun v => (0 <= v)%Z) (take k (column g c))).
Proof.
  intros Hsq Hc. unfold existingOf. induction k as [|k IH]; intros Hk.
  - done.
  - rewrite seq_S, rev_app_distr. simpl.
    destruct (Square_cell n g k c Hsq) as [v Hv]; [lia..|].
    assert (Hcol : column g c !! k = Some v) by (by erewrite column_lookup).
    rewrite (take_S_r _ _ v Hcol), filter_app, rev_app_distr.
    rewrite Hv. simpl. rewrite filter_cons, filter_nil.
    destruct (decide (0 <= v)%Z) as [Hge | Hlt].
    + replace (0 <=? v)%Z with true by lia. simpl. f_equal. apply IH. lia.
    + replace (0 <=? v)%Z with false by lia. simpl. apply IH. lia.
Qed.

Lemma existingOf_survivors n g c :
  Square n g -> c < n -> (existingOf g n c).*2 = rev (survivors g c).
Proof.
  intros Hsq Hc. rewrite (existingOf_prefix n) by done.
  unfold survivors. rewrite take_ge; [done|].
  rewrite column_length. destruct Hsq. lia.
Qed.

(** The first loop of a column: the survivors are packed at the bottom. *)
Lemma placeExisting_fold n c ex :
  c < n ->
  forall ng fd m top filled,
    Square n ng -> m <= n -> length ex <= m ->
    column ng c = top ++ filled -> length top = m ->
    exists ng' fd',
      foldl (placeExisting c) (ng, fd, Z.of_nat m - 1)%Z ex
      = (ng', fd', Z.of_nat (m - length ex) - 1)%Z
      /\ Square n ng'
      /\ column ng' c = take (m - length ex) top ++ rev (ex.*2) ++ filled
      /\ forall c', c' <> c -> column ng' c' = column ng c'.
Proof.
  intros Hc. induction ex as [|[from v] ex IH];
    intros ng fd m top filled Hsq Hm Hlen Hcol Htop.
  - exists ng, fd. simpl. rewrite Nat.sub_0_r, take_ge by lia. done.
  - simpl in Hlen. cbn [foldl placeExisting].
    replace (Z.to_nat (Z.of_nat m - 1)) with (m - 1) by lia.
    set (fd1 := if bool_decide _ then _ else _).
    replace (Z.of_nat m - 1 - 1)%Z with (Z.of_nat (m - 1) - 1)%Z by lia.
    destruct (IH (setCell ng (m - 1) c v) fd1 (m - 1) (take (m - 1) top)
                (v :: filled)) as (ng' & fd' & E & Hsq' & Hcol' & Hoth).
    + apply setCell_Square; [done | lia | done].
    + lia.
    + lia.
    + rewrite (column_setCell n) by (done || lia). rewrite Hcol.
      rewrite insert_app_l by lia.
      destruct (lookup_lt_is_Some_2 top (m - 1)) as [x Hx]; [lia|].
      rewrite <- (take_drop (m - 1) top) at 1.
      rewrite insert_app_r_alt by (rewrite length_take; lia).
      rewrite length_take, Nat.min_l, Nat.sub_diag by lia.
      rewrite (drop_S _ x) by done. rewrite drop_ge by lia. simpl.
      by rewrite <- app_assoc.
    + rewrite length_take. lia.
    + exists ng', fd'. rewrite E. simpl.
      replace (m - 1 - length ex) with (m - S (length ex)) by lia.
      split; [done|]. split; [done|]. split.
      * rewrite Hcol', take_take, Nat.min_l by lia.
        replace (m - 1 - length ex) with (m - S (length ex)) by lia.
        by rewrite <- !app_assoc.
      * intros c' Hne. rewrite Hoth by done.
        apply (column_setCell_ne n); (done || lia).
Qed.

(** The second loop: the cells above get freshly drawn gems. *)
Lemma placeNew_loop n c types numNew src :
  c < n -> (0 < types)%Z ->
  forall m ng fd top rest p,
    Square n ng -> m <= n -> column ng c = top ++ rest -> length top = m ->
    exists ng' fd' p' fresh,
      forM (rev (seq 0 m)) (placeNew types c numNew) (ng, fd) src p
      = Some ((ng', fd'), p')
      /\ Square n ng'
      /\ column ng' c = fresh ++ rest
      /\ length fresh = m
      /\ Forall (fun v => (0 <= v < types)%Z) fresh
      /\ forall c', c' <> c -> column ng' c' = column ng c'.
Proof.
  intros Hc Ht. induction m as [|m IH]; intros ng fd top rest p Hsq Hm Hcol Htop.
  - exists ng, fd, p, []. destruct top; [|done]. simpl in *. done.
  - rewrite seq_S, rev_app_distr. simpl.
    set (v := Qfloor (u_val (src p) * inject_Z types)).
    assert (Hv : (0 <= v < types)%Z) by (by apply floor_scale_range).
    set (fd1 := fd ++ [mkFall c m (Z.of_nat m - numNew) v]).
    destruct (lookup_lt_is_Some_2 top m) as [x Hx]; [lia|].
    destruct (IH (setCell ng m c v) fd1 (take m top) (v :: rest) (S p))
      as (ng' & fd' & p' & fresh & E & Hsq' & Hcol' & Hlen' & Hall & Hoth).
    + apply setCell_Square; [done | lia | done].
    + lia.
    + rewrite (column_setCell n) by (done || lia). rewrite Hcol.
      rewrite insert_app_l by lia.
      rewrite <- (take_drop m top) at 1.
      rewrite insert_app_r_alt by (rewrite length_take; lia).
      rewrite length_take, Nat.min_l, Nat.sub_diag by lia.
      rewrite (drop_S _ x) by done. rewrite drop_ge by lia. simpl.
      by rewrite <- app_assoc.
    + rewrite length_take. lia.
    + exists ng', fd', p', (fresh ++ [v]).
      split; [|split; [done|]; split; [|split; [|split]]].
      * unfold bind at 1. unfold placeNew at 1.
        unfold mbind, M_bind, bind, randomGem, randomIndex, bind, random, mret,
          M_ret, ret. fold v. fold fd1. exact E.
      * by rewrite Hcol', <- app_assoc.
      * rewrite length_app. simpl. lia.
      * apply Forall_app. split; [done|]. by constructor.
      * intros c' Hne. rewrite Hoth by done.
        apply (column_setCell_ne n); (done || lia).
Qed.

(** One column of [applyGravity]. *)
Lemma gravityColumn_spec n g types c ng fd src p :
  Square n g -> Square n ng -> c < n -> (0 < types)%Z ->
  exists ng' fd' p' fresh,
    gravityColumn g types n c (ng, fd) src p = Some ((ng', fd'), p')
    /\ Square n ng'
    /\ column ng' c = fresh ++ survivors g c
    /\ Forall (fun v => (0 <= v < types)%Z) fresh
    /\ forall c', c' <> c -> column ng' c' = column ng c'.
Proof.
  intros Hg Hsq Hc Ht. unfold gravityColumn.
  assert (Hlen : length (existingOf g n c) <= n).
  { rewrite <- (length_fmap snd), (existingOf_survivors n) by done.
    rewrite length_rev. unfold survivors.
    etrans; [apply length_filter|]. rewrite column_length. destruct Hg. lia. }
  destruct (placeExisting_fold n c (existingOf g n c) Hc ng fd n (column ng c) [])
    as (ng1 & fd1 & E1 & Hsq1 & Hcol1 & Hoth1);
    [done | lia | done | by rewrite app_nil_r
     | rewrite column_length; by destruct Hsq |].
  rewrite E1.
  set (m := n - length (existingOf g n c)) in *.
  replace (Z.of_nat m - 1 + 1)%Z with (Z.of_nat m) by lia.
  rewrite Nat2Z.id.
  rewrite app_nil_r in Hcol1.
  destruct (placeNew_loop n c types (Z.of_nat m) src Hc Ht m ng1 fd1
              (take m (column ng c)) (rev (existingOf g n c).*2) p)
    as (ng' & fd' & p' & fresh & E & Hsq' & Hcol' & Hlen' & Hall & Hoth);
    [done | lia | done | |].
  { rewrite length_take, column_length. destruct Hsq. lia. }
  exists ng', fd', p', fresh. split; [done|]. split; [done|]. split; [|split; [done|]].
  - rewrite Hcol', (existingOf_survivors n), rev_involutive by done. done.
  - intros c' Hne. rewrite Hoth, Hoth1; done.
Qed.

(** C10. On an [n] by [n] board, with a positive number of gem types,
    [applyGravity] returns an [n] by [n] board without empty cells: every
    column holds the gems of that column that were not empty, packed at
    the bottom in their order from top to bottom, under as many newly
    drawn gems as cells were missing, each in [0, gemTypes). *)
Theorem applyGravity_packs_columns (n : nat) (g : Grid) (types : Z)
    (src : nat -> U01) (p : nat) :
  Square n g -> (0 < types)%Z ->
  exists ng fd p',
    applyGravity g types src p = Some ((ng, fd), p')
    /\ Square n ng
    /\ (forall r c, r < n -> c < n ->
          exists v, cell ng r c = Some v /\ (0 <= v)%Z)
    /\ (forall c, c < n ->
          exists fresh,
            column ng c = fresh ++ survivors g c
            /\ length fresh = n - length (survivors g c)
            /\ Forall (fun v => (0 <= v < types)%Z) fresh).
Proof.
  intros Hg Ht. unfold applyGravity.
  assert (Hn : length g = n) by (by destruct Hg). rewrite Hn.
  destruct (forM_seq_spec
              (fun c (st : GravState) =>
                 Square n st.1
                 /\ forall c', c' < c ->
                      exists fresh,
                        column st.1 c' = fresh ++ survivors g c'
                        /\ Forall (fun v => (0 <= v < types)%Z) fresh)
              (gravityColumn g types n) src n 0 (emptyGrid n, []) p)
    as ([ng fd] & p' & E & Hsq & Hcols).
  - intros c [ng fd] p1 Hc [Hsq Hdone]. simpl in Hsq, Hdone.
    destruct (gravityColumn_spec n g types c ng fd src p1)
      as (ng' & fd' & p' & fresh & E & Hsq' & Hcol & Hall & Hoth);
      [done | done | lia | done |].
    exists (ng', fd'), p'. split; [done|]. simpl. split; [done|].
    intros c' Hc'. destruct (decide (c' = c)) as [-> | Hne].
    + by exists fresh.
    + rewrite Hoth by done. apply Hdone. lia.
  - simpl. split; [apply emptyGrid_Square | intros c' Hc'; lia].
  - simpl in Hsq, Hcols.
    assert (Hfull : forall c, c < n ->
              exists fresh,
                column ng c = fresh ++ survivors g c
                /\ length fresh = n - length (survivors g c)
                /\ Forall (fun v => (0 <= v < types)%Z) fresh).
    { intros c Hc. destruct (Hcols c Hc) as (fresh & Hcol & Hall).
      exists fresh. split; [done|]. split; [|done].
      assert (Hl : length (column ng c) = n)
        by (rewrite column_length; by destruct Hsq).
      rewrite Hcol, length_app in Hl. lia. }
    exists ng, fd, p'. split; [done|]. split; [done|]. split; [|done].
    intros r c Hr Hc. destruct (Square_cell n ng r c Hsq Hr Hc) as [v Hv].
    exists v. split; [done|].
    destruct (Hfull c Hc) as (fresh & Hcol & _ & Hall).
    rewrite <- (column_lookup n) in Hv by done.
    apply list_elem_of_lookup_2 in Hv. rewrite Hcol in Hv.
    apply elem_of_app in Hv as [Hv | Hv].
    + rewrite Forall_forall in Hall. apply Hall in Hv. lia.
    + unfold survivors in Hv. by apply list_elem_of_filter in Hv as [Hv _].
Qed.

Lemma applyGravity_packs_columns_witness :
  exists ng fd p',
    applyGravity Samples.holed 5 Samples.halves 0 = Some ((ng, fd), p')
    /\ Square 3 ng
    /\ (forall r c, r < 3 -> c < 3 ->
          exists v, cell ng r c = Some v /\ (0 <= v)%Z)
    /\ (forall c, c < 3 ->
          exists fresh,
            column ng c = fresh ++ survivors Samples.holed c
            /\ length fresh = 3 - length (survivors Samples.holed c)
            /\ Forall (fun v => (0 <= v < 5)%Z) fresh).
Proof.
  apply (applyGravity_packs_columns 3 Samples.holed 5 Samples.halves 0).
  - split; [reflexivity | repeat constructor].
  - lia.
Defined.

End GravityFacts.

(** ** Match-Three: settling and the reshuffle *)

Module SettleFacts.

Import MatchThree GridFacts BoardFacts SwapFacts.

Lemma swapAt_length l i j : length (swapAt l i j) = length l.
Proof.
  unfold swapAt. destruct (l !! i), (l !! j); try done.
  by rewrite !length_insert.
Qed.

Lemma shuffleFlat_length flat src p flat' p' :
  shuffleFlat flat src p = Some (flat', p') -> length flat' = length flat.
Proof.
  unfold shuffleFlat.
  apply (forM_invariant (fun l => length l = length flat)); [|done].
  intros i l src1 p1 l' p1' Hl H. unfold shuffleStep in H.
  apply bind_Some in H as (j & p2 & _ & H). apply ret_Some in H as [<- _].
  by rewrite swapAt_length.
Qed.

Lemma concat_rows_length m (g : Grid) :
  Forall (fun line => length line = m) g -> length (concat g) = length g * m.
Proof.
  induction 1 as [|line g Hl _ IH]; [done|].
  simpl. rewrite length_app, Hl, IH. done.
Qed.

Lemma regrid_Square n flat : length flat = n * n -> Square n (regrid n flat).
Proof.
  intros Hlen. unfold regrid. split; [by rewrite length_fmap, length_seq|].
  apply Forall_fmap, Forall_forall. intros r Hr. apply elem_of_seq in Hr.
  simpl. rewrite length_take, length_drop. nia.
Qed.

Lemma noMatches_true ms : noMatches ms = true <-> ms = [].
Proof. destruct ms; simpl; split; done. Qed.

(** What an accepted board of [shuffleBoard] is, and what its fallback
    is. *)
Lemma shuffleAttempts_spec n types fuel src attempts g p g' p' :
  Square n g ->
  shuffleAttempts attempts fuel g types src p = Some (g', p') ->
  Square n g' /\ findMatches g' = []
  /\ (HasMove g' \/ exists p0, createBoard fuel n types src p0 = Some (g', p')).
Proof.
  intros Hsq. assert (Hn : length g = n) by (by destruct Hsq).
  revert p. induction attempts as [|k IH]; intros p H; simpl in H.
  - rewrite Hn in H. split; [|split].
    + by apply createBoard_spec in H as [? _].
    + by eapply createBoard_no_matches.
    + right. by exists p.
  - apply bind_Some in H as (flat & p1 & Hflat & H).
    apply shuffleFlat_length in Hflat.
    rewrite (concat_rows_length n) in Hflat by (by destruct Hsq).
    rewrite Hn in Hflat, H.
    assert (Hng : Square n (regrid n flat)) by (by apply regrid_Square).
    destruct (noMatches (findMatches (regrid n flat))) eqn:Em; [|by eapply IH].
    apply noMatches_true in Em.
    destruct (findValidMove_restores n _ Hng) as [mv Hmv].
    apply bind_Some in H as ([mv' ng'] & p2 & Hl & H).
    apply lift_Some in Hl as [Hl ->]. rewrite Hmv in Hl. injection Hl as <- <-.
    destruct mv as [mv|]; simpl in H; [|by eapply IH].
    apply ret_Some in H as [<- _]. split; [done|]. split; [done|].
    left. by exists mv.
Qed.

Lemma shuffleBoard_spec n types fuel src g p g' p' :
  Square n g ->
  shuffleBoard fuel g types src p = Some (g', p') ->
  Square n g' /\ findMatches g' = []
  /\ (HasMove g' \/ exists p0, createBoard fuel n types src p0 = Some (g', p')).
Proof. unfold shuffleBoard. apply shuffleAttempts_spec. Qed.

(** The attempts of [shuffleBoard], one by one. *)
Lemma shuffleAttempts_trace n types fuel src attempts g :
  Square n g ->
  forall p g' p',
    shuffleAttempts attempts fuel g types src p = Some (g', p') ->
    (exists k q, k < attempts /\ Rejected g src k p q
                 /\ ShuffleOf g src q g' p' /\ Accepted g')
    \/ (exists q, Rejected g src attempts p q
                  /\ createBoard fuel (length g) types src q = Some (g', p')).
Proof.
  intros Hsq. assert (Hn : length g = n) by (by destruct Hsq).
  induction attempts as [|k IH]; intros p g' p' H; cbn [shuffleAttempts] in H.
  - right. exists p. split; [constructor | exact H].
  - apply bind_Some in H as (flat & p1 & Hflat & H).
    assert (Hshuf : ShuffleOf g src p (regrid (length g) flat) p1)
      by (by exists flat).
    pose proof (shuffleFlat_length _ _ _ _ _ Hflat) as Hlen.
    rewrite (concat_rows_length n) in Hlen by (by destruct Hsq).
    rewrite Hn in Hlen, H, Hshuf.
    assert (Hng : Square n (regrid n flat)) by (by apply regrid_Square).
    assert (Hrest : ~ Accepted (regrid n flat) ->
              shuffleAttempts k fuel g types src p1 = Some (g', p') ->
              (exists k0 q, k0 < S k /\ Rejected g src k0 p q
                            /\ ShuffleOf g src q g' p' /\ Accepted g')
              \/ (exists q, Rejected g src (S k) p q
                            /\ createBoard fuel (length g) types src q
                               = Some (g', p'))).
    { intros Hno Hk. destruct (IH _ _ _ Hk)
        as [(k0 & q & Hk0 & Hr & Hs & Ha) | (q & Hr & Hc)].
      - left. exists (S k0), q. split; [lia|].
        split; [by eapply Rejected_more | done].
      - right. exists q. split; [by eapply Rejected_more | done]. }
    destruct (noMatches (findMatches (regrid n flat))) eqn:Em.
    + apply noMatches_true in Em.
      destruct (findValidMove_restores n _ Hng) as [mv Hmv].
      apply bind_Some in H as ([mv' ng'] & p2 & Hl & H).
      apply lift_Some in Hl as [Hl ->]. rewrite Hmv in Hl.
      injection Hl as <- <-.
      destruct mv as [mv|]; cbn [isNull] in H.
      * apply ret_Some in H as [<- <-]. left. exists 0, p.
        split; [lia|]. split; [constructor|]. split; [exact Hshuf|].
        split; [exact Em | by exists mv].
      * apply Hrest; [|exact H]. intros [_ [mv' Hmv']]. congruence.
    + apply Hrest; [|exact H]. intros [Hm _].
      apply noMatches_true in Hm. congruence.
Qed.

Lemma shuffleBoard_trace n types fuel src g p g' p' :
  Square n g ->
  shuffleBoard fuel g types src p = Some (g', p') ->
  Reshuffled fuel types g src p g' p'.
Proof.
  intros Hsq. unfold shuffleBoard, Reshuffled.
  apply (shuffleAttempts_trace n types fuel src 100 g Hsq).
Qed.

(** The settle branch of [stepFalling]. *)
Lemma stepFalling_eq fuel types now gm :
  animState gm = falling ->
  Qle_bool FALL_MS (now - animStart gm) = true ->
  findMatches (grid gm) = [] ->
  stepFalling fuel types now gm
  = ('(mv, g1) ← lift (findValidMove (grid gm));
     g2 ← (if isNull mv then shuffleBoard fuel g1 types else mret g1);
     mret (mkGame (stateRef gm) g2 (score gm) (timeRemaining gm) 0 idle
             (animStart gm) (swapFrom gm) (swapTo gm) (matchedCells gm)
             (fallData gm) (lastInteraction gm) (lastTickTime gm) None)).
Proof.
  intros Ha Ht Hm. unfold stepFalling. rewrite Ha, Ht, Hm. reflexivity.
Qed.

Lemma stepFalling_settle n fuel types now gm src p gm' p' :
  Square n (grid gm) ->
  animState gm = falling ->
  Qle_bool FALL_MS (now - animStart gm) = true ->
  findMatches (grid gm) = [] ->
  stepFalling fuel types now gm src p = Some (gm', p') ->
  animState gm' = idle /\ Square n (grid gm') /\ findMatches (grid gm') = []
  /\ (HasMove (grid gm) -> grid gm' = grid gm)
  /\ (~ HasMove (grid gm) ->
      shuffleBoard fuel (grid gm) types src p = Some (grid gm', p'))
  /\ (HasMove (grid gm')
      \/ exists p0, createBoard fuel n types src p0 = Some (grid gm', p')).
Proof.
  intros Hsq Ha Ht Hm H. rewrite stepFalling_eq in H by done.
  destruct (findValidMove_restores n _ Hsq) as [mv Hmv].
  apply bind_Some in H as ([mv' g1] & p1 & Hl & H).
  apply lift_Some in Hl as [Hl ->]. rewrite Hmv in Hl. injection Hl as <- <-.
  apply bind_Some in H as (g2 & p2 & Hg2 & H).
  apply ret_Some in H as [<- <-]. cbn [animState grid].
  destruct (isNull mv) eqn:Enull; (destruct mv as [mv|]; [|]); try discriminate Enull.
  2: { apply ret_Some in Hg2 as [<- _].
    split; [done|]. split; [done|]. split; [done|]. split; [done|].
    split; [|left; by exists mv].
    intros Hno. exfalso. apply Hno. by exists mv. }
  destruct (shuffleBoard_spec n types fuel src _ _ _ _ Hsq Hg2) as (S2 & M2 & V2).
  split; [done|]. split; [done|]. split; [done|]. split; [|done].
  intros [mv' Hmv']. congruence.
Qed.

(** *** The settle returns *)

Lemma shuffleFlat_total flat src p :
  exists flat' p', shuffleFlat flat src p = Some (flat', p').
Proof.
  unfold shuffleFlat. apply forM_total. intros i l p1.
  eexists _, _. reflexivity.
Qed.

Lemma shuffleAttempts_returns n types fuel src attempts g :
  Square n g -> 3 <= fuel -> Varied types src ->
  forall p, exists g' p', shuffleAttempts attempts fuel g types src p = Some (g', p').
Proof.
  intros Hsq Hfuel Hv. assert (Hn : length g = n) by (by destruct Hsq).
  induction attempts as [|k IH]; intros p; cbn [shuffleAttempts].
  - by apply createBoard_returns.
  - destruct (shuffleFlat_total (concat g) src p) as (flat & p1 & Eflat).
    pose proof (shuffleFlat_length _ _ _ _ _ Eflat) as Hlen.
    rewrite (concat_rows_length n) in Hlen by (by destruct Hsq).
    rewrite Hn in Hlen.
    assert (Hng : Square n (regrid n flat)) by (by apply regrid_Square).
    destruct (findValidMove_restores n _ Hng) as [mv Hmv].
    destruct (IH p1) as (g' & p' & E').
    assert (exists r p2,
              (if noMatches (findMatches (regrid n flat))
               then '(mv, ng') ← lift (findValidMove (regrid n flat));
                    if isNull mv then shuffleAttempts k fuel g types
                    else mret ng'
               else shuffleAttempts k fuel g types) src p1 = Some (r, p2))
      as (r & p2 & E).
    { destruct (noMatches _); [|by eexists _, _].
      destruct mv as [mv|].
      - exists (regrid n flat), p1. apply bind_Some.
        exists (Some mv, regrid n flat), p1. split; [by apply lift_Some | done].
      - exists g', p'. apply bind_Some.
        exists (None, regrid n flat), p1. split; [by apply lift_Some | done]. }
    exists r, p2. apply bind_Some. exists flat, p1. rewrite Hn. done.
Qed.

Lemma stepFalling_returns n fuel types now gm src p :
  Square n (grid gm) ->
  animState gm = falling ->
  Qle_bool FALL_MS (now - animStart gm) = true ->
  findMatches (grid gm) = [] ->
  3 <= fuel -> Varied types src ->
  exists gm' p', stepFalling fuel types now gm src p = Some (gm', p').
Proof.
  intros Hsq Ha Ht Hm Hfuel Hv. rewrite stepFalling_eq by done.
  destruct (findValidMove_restores n _ Hsq) as [mv Hmv].
  assert (exists g2 p2,
            (if isNull mv then shuffleBoard fuel (grid gm) types
             else mret (grid gm)) src p = Some (g2, p2)) as (g2 & p2 & E).
  { destruct mv; [by eexists _, _|].
    by apply (shuffleAttempts_returns n). }
  eexists _, p2. apply bind_Some. exists (mv, grid gm), p.
  split; [by apply lift_Some|].
  apply bind_Some. exists g2, p2. split; [done | reflexivity].
Qed.

(** C2, amended. When the falling phase ends without a new match, the
    frame returns to [idle] with a board that has no match. A board that
    had a valid move is kept. A board that had none is replaced by the
    result of [shuffleBoard], which is either one of its up to 100
    shuffles of that board, the first one that has no match and has a
    valid move, all shuffles before it having been turned down, or, after
    100 shuffles that were all turned down, the fresh board of
    [createBoard], of which only the absence of matches is known. The
    frame has a result on every random sequence in which three draws in a
    row give three different gems. *)
Theorem settle_reshuffles (n fuel : nat) (s : GameSettings) (now : Q)
    (gm : Game) (src : nat -> U01) (p : nat) :
  Square n (grid gm) ->
  animState gm = falling ->
  (FALL_MS <= now - animStart gm)%Q ->
  findMatches (grid gm) = [] ->
  (forall gm' p',
     draw fuel s now gm src p = Some (gm', p') ->
     animState gm' = idle
     /\ Square n (grid gm')
     /\ findMatches (grid gm') = []
     /\ (HasMove (grid gm) -> grid gm' = grid gm)
     /\ (~ HasMove (grid gm) ->
         shuffleBoard fuel (grid gm) (gemTypes s) src p = Some (grid gm', p'))
     /\ (~ HasMove (grid gm) ->
         Reshuffled fuel (gemTypes s) (grid gm) src p (grid gm') p')
     /\ (HasMove (grid gm')
         \/ exists p0,
              createBoard fuel n (gemTypes s) src p0 = Some (grid gm', p')))
  /\ (3 <= fuel -> Varied (gemTypes s) src ->
      exists gm' p', draw fuel s now gm src p = Some (gm', p')).
Proof.
  intros Hsq Ha Ht Hm.
  destruct (tickTimer_keeps now gm) as (Tg & Ta & Ts & _).
  assert (H1 : stepSwapping now (tickTimer now gm) = Some (tickTimer now gm)).
  { unfold stepSwapping. by rewrite Ta, Ha. }
  assert (H2 : stepSwappingBack now (tickTimer now gm) = tickTimer now gm).
  { unfold stepSwappingBack. by rewrite Ta, Ha. }
  assert (H3 : stepClearing (gemTypes s) now (tickTimer now gm)
               = mret (tickTimer now gm)).
  { apply stepClearing_other. by rewrite Ta, Ha. }
  assert (Hsq0 : Square n (grid (tickTimer now gm))) by (by rewrite Tg).
  assert (Ha0 : animState (tickTimer now gm) = falling) by (by rewrite Ta).
  assert (Ht0 : Qle_bool FALL_MS (now - animStart (tickTimer now gm)) = true)
    by (rewrite Ts; by apply Qle_bool_iff).
  assert (Hm0 : findMatches (grid (tickTimer now gm)) = []) by (by rewrite Tg).
  set (gm0 := tickTimer now gm) in *.
  split.
  - intros gm' p' H. unfold draw in H. fold gm0 in H.
    apply bind_Some in H as (gm1 & p1 & E1 & H).
    apply lift_Some in E1 as [E1 ->]. rewrite H1 in E1. injection E1 as <-.
    rewrite H2, H3 in H.
    apply bind_Some in H as (gm3 & p3 & E3 & H). apply ret_Some in E3 as [<- <-].
    apply bind_Some in H as (gm4 & p4 & H4 & H).
    apply lift_Some in H as [H5 ->].
    apply (stepFalling_settle n) in H4; [|done..].
    rewrite Tg in H4. destruct H4 as (A4 & S4 & M4 & K4 & R4 & V4).
    destruct (stepHint_keeps n now gm4 S4) as (gm5 & E5 & G5 & A5 & _).
    rewrite E5 in H5. injection H5 as <-. rewrite G5, A5.
    split; [done|]. split; [done|]. split; [done|]. split; [done|].
    split; [done|]. split; [|done].
    intros Hno. rewrite <- Tg. apply (shuffleBoard_trace n); [done|].
    rewrite Tg. by apply R4.
  - intros Hfuel Hv.
    destruct (stepFalling_returns n fuel (gemTypes s) now gm0 src p)
      as (gm4 & p4 & E4); [done..|].
    pose proof (stepFalling_settle n _ _ _ _ _ _ _ _ Hsq0 Ha0 Ht0 Hm0 E4)
      as (_ & S4 & _).
    destruct (stepHint_keeps n now gm4 S4) as (gm5 & E5 & _).
    exists gm5, p4. unfold draw. fold gm0.
    apply bind_Some. exists gm0, p. split; [by apply lift_Some|].
    rewrite H2, H3.
    apply bind_Some. exists gm0, p. split; [done|].
    apply bind_Some. exists gm4, p4. split; [done|]. by apply lift_Some.
Qed.

Lemma settling_frame :
  draw 1 (PRESETS easy) 300 Samples.settling Samples.stubborn 0
  = Some (Samples.settled, 4849).
Proof. vm_compute. reflexivity. Qed.

Lemma deadBoard_no_move : ~ HasMove Samples.deadBoard.
Proof. intros [mv H]. vm_compute in H. discriminate H. Qed.

(** C2, as stated, fails. The game settles on a board without a valid
    move; each of the 100 shuffles leaves the board as it is and is turned
    down, and the fresh board of the fallback is again a board without a
    valid move, which the game then plays on. *)
Lemma reshuffle_may_leave_no_move : ~ SettleLeavesMove.
Proof.
  intros H.
  destruct (H 7 1 (PRESETS easy) 300%Q Samples.settling Samples.settled
              Samples.stubborn 0 4849) as (_ & _ & Hmove).
  - apply deadBoard_Square.
  - reflexivity.
  - vm_compute. discriminate.
  - vm_compute. reflexivity.
  - apply deadBoard_no_move.
  - apply settling_frame.
  - apply deadBoard_no_move. exact Hmove.
Qed.

Lemma settle_reshuffles_witness :
  animState Samples.settled = idle
  /\ Square 7 (grid Samples.settled)
  /\ findMatches (grid Samples.settled) = []
  /\ exists q,
       Rejected (grid Samples.settling) Samples.stubborn 100 0 q
       /\ createBoard 1 (length (grid Samples.settling))
            (gemTypes (PRESETS easy)) Samples.stubborn q
          = Some (grid Samples.settled, 4849).
Proof.
  assert (Ht : (FALL_MS <= 300 - animStart Samples.settling)%Q)
    by (vm_compute; discriminate).
  assert (Hm : findMatches (grid Samples.settling) = [])
    by (vm_compute; reflexivity).
  destruct (proj1 (settle_reshuffles 7 1 (PRESETS easy) 300%Q Samples.settling
                     Samples.stubborn 0 deadBoard_Square eq_refl Ht Hm)
              Samples.settled 4849 settling_frame)
    as (Ha & Hs & Hn & _ & _ & Hr & _).
  split; [exact Ha|]. split; [exact Hs|]. split; [exact Hn|].
  destruct (Hr deadBoard_no_move)
    as [(k & q & _ & _ & _ & _ & Hmv) | (q & Hq & Hc)].
  - exfalso. exact (deadBoard_no_move Hmv).
  - exists q. split; [exact Hq | exact Hc].
Defined.

End SettleFacts.

(** ** Pixel Runner *)

Module RunnerFacts.

Import PixelRunner.

Lemma initPlatforms_edge fuel s groundY canvasW canvasH src :
  forall ps lastRight p ps' lastRight' p',
    EdgeOf lastRight ps ->
    initPlatforms fuel s groundY canvasW canvasH ps lastRight src p
    = Some ((ps', lastRight'), p') ->
    EdgeOf lastRight' ps' /\ (canvasW + SPAWN_AHEAD <= lastRight')%Q.
Proof.
  induction fuel as [|fuel IH]; intros ps lastRight p ps' lastRight' p' He H;
    cbn [initPlatforms] in H;
    destruct (Qltb lastRight (canvasW + SPAWN_AHEAD)) eqn:E; try done.
  - apply ret_Some in H as [[= <- <-] _]. split; [done | by apply Qltb_ge].
  - apply bind_Some in H as (plat & p1 & _ & H).
    apply IH in H; [done|]. exists plat. split; [|done].
    apply elem_of_app. right. by apply list_elem_of_singleton.
  - apply ret_Some in H as [[= <- <-] _]. split; [done | by apply Qltb_ge].
Qed.

Lemma decorateAhead_platforms s plat t src p t' p' :
  decorateAhead s plat t src p = Some (t', p') -> platforms t' = platforms t.
Proof.
  unfold decorateAhead. intros H.
  apply bind_Some in H as (hasCoin & p1 & _ & H).
  apply bind_Some in H as (cs & p2 & _ & H).
  apply bind_Some in H as (hasObstacle & p3 & _ & H).
  apply bind_Some in H as (os & p4 & _ & H).
  apply ret_Some in H as [<- _]. done.
Qed.

Lemma extend_edge fuel s groundY width height src :
  forall t lastRight p t' lastRight' p',
    extend fuel s groundY width height t lastRight src p
    = Some ((t', lastRight'), p') ->
    (width + SPAWN_AHEAD <= lastRight')%Q
    /\ ((t' = t /\ lastRight' = lastRight) \/ EdgeOf lastRight' (platforms t')).
Proof.
  induction fuel as [|fuel IH]; intros t lastRight p t' lastRight' p' H;
    cbn [extend] in H;
    destruct (Qltb lastRight (width + SPAWN_AHEAD)) eqn:E; try done.
  - apply ret_Some in H as [[= <- <-] _]. split; [by apply Qltb_ge | by left].
  - apply bind_Some in H as (plat & p1 & _ & H).
    apply bind_Some in H as (t1 & p2 & Ht1 & H).
    apply decorateAhead_platforms in Ht1. simpl in Ht1.
    apply IH in H as [Hle [[-> ->] | He]]; (split; [done|]); right; [|done].
    exists plat. split; [|done]. rewrite Ht1.
    apply elem_of_app. right. by apply list_elem_of_singleton.
  - apply ret_Some in H as [[= <- <-] _]. split; [by apply Qltb_ge | by left].
Qed.

Lemma trackRight_edge ps :
  trackRight ps = 0%Q \/ EdgeOf (trackRight ps) ps.
Proof.
  unfold trackRight.
  assert (H : forall acc,
    let r := foldl (fun lastRight p =>
                      if Qltb lastRight (x p + w p) then (x p + w p)%Q
                      else lastRight) acc ps in
    r = acc \/ EdgeOf r ps).
  { induction ps as [|pl ps IH]; intros acc; simpl; [by left|].
    destruct (Qltb acc (x pl + w pl)).
    - right. destruct (IH (x pl + w pl)%Q) as [-> | (q & Hq & ->)].
      + exists pl. split; [by left | done].
      + exists q. split; [by right | done].
    - destruct (IH acc) as [-> | (q & Hq & ->)]; [by left|].
      right. exists q. split; [by right | done]. }
  apply H.
Qed.

(** Whenever a generation loop returns, some platform has its right
    edge at [width + SPAWN_AHEAD] or beyond. *)
Lemma generation_reaches_ahead (fuel : nat) (s : GameSettings) :
  (SPAWN_AHEAD == 400)%Q
  /\ (forall canvasW canvasH src p t p',
        initTerrain fuel s canvasW canvasH src p = Some (t, p') ->
        ReachesTo (canvasW + SPAWN_AHEAD) (platforms t))
  /\ (forall groundY width height t src p t' p',
        (0 <= width)%Q ->
        generateAhead fuel s groundY width height t src p = Some (t', p') ->
        ReachesTo (width + SPAWN_AHEAD) (platforms t')).
Proof.
  split; [reflexivity|]. split.
  - intros canvasW canvasH src p t p' H. unfold initTerrain in H.
    apply bind_Some in H as ([ps lastRight] & p1 & Hps & H).
    apply bind_Some in H as ([cs os] & p2 & _ & H).
    apply ret_Some in H as [<- _]. simpl.
    apply initPlatforms_edge in Hps as [(pl & Hin & ->) Hle].
    + by exists pl.
    + eexists. split; [by left|]. simpl. reflexivity.
  - intros groundY width height t src p t' p' Hw H. unfold generateAhead in H.
    apply bind_Some in H as ([t1 lastRight] & p1 & Hext & H).
    apply ret_Some in H as [<- _].
    apply extend_edge in Hext as [Hle [[-> ->] | (pl & Hin & ->)]].
    + destruct (trackRight_edge (platforms t)) as [E0 | (pl & Hin & E)].
      * rewrite E0 in Hle. exfalso. unfold SPAWN_AHEAD in Hle. lra.
      * exists pl. split; [done|]. by rewrite <- E.
    + by exists pl.
Qed.

(** *** The generation loops return *)

Lemma rand_ge lo hi src p :
  (lo <= hi)%Q ->
  exists v, rand lo hi src p = Some (v, S p) /\ (lo <= v)%Q.
Proof.
  intros Hle. eexists. split; [reflexivity|].
  destruct (u_val_range (src p)) as [H0 _].
  assert (0 <= u_val (src p) * (hi - lo))%Q
    by (apply Qmult_le_0_compat; [done | lra]).
  lra.
Qed.

Section Returns.

Variable s : GameSettings.
Hypothesis Hgap : (gapMin s <= gapMax s)%Q.
Hypothesis Hwidth : (platWidthMin s <= platWidthMax s)%Q.

(** Every new platform moves the right edge on by at least the least gap
    and the least width. *)
Lemma newPlatform_advances groundY height lastRight src p :
  exists plat p',
    newPlatform s groundY height lastRight src p = Some (plat, p')
    /\ (lastRight + (gapMin s + platWidthMin s) <= x plat + w plat)%Q.
Proof.
  unfold newPlatform.
  destruct (rand_ge _ _ src p Hgap) as (gap & Eg & Hg).
  destruct (rand_ge _ _ src (S p) Hwidth) as (pw & Ew & Hw).
  eexists _, _. split.
  - apply bind_Some. exists gap, (S p). split; [done|].
    apply bind_Some. exists pw, (S (S p)). split; [done|]. reflexivity.
  - simpl. lra.
Qed.

Lemma decorate_total pl acc src p :
  exists acc' p', decorate s pl acc src p = Some (acc', p').
Proof.
  destruct acc as [cs os].
  cbv beta iota zeta delta [decorate mbind M_bind bind chance rand random mret
                            M_ret ret].
  repeat (match goal with |- context [if Qltb ?a ?b then _ else _] =>
            destruct (Qltb a b); cbv beta iota end); by eexists _, _.
Qed.

Lemma decorateAhead_total pl t src p :
  exists t' p', decorateAhead s pl t src p = Some (t', p').
Proof.
  cbv beta iota zeta delta [decorateAhead mbind M_bind bind chance rand random
                            mret M_ret ret].
  repeat (match goal with |- context [if Qltb ?a ?b then _ else _] =>
            destruct (Qltb a b); cbv beta iota end); by eexists _, _.
Qed.

Lemma inject_S k : (inject_Z (Z.of_nat (S k)) == inject_Z (Z.of_nat k) + 1)%Q.
Proof. rewrite Nat2Z.inj_succ, <- Z.add_1_r, inject_Z_plus. reflexivity. Qed.

Lemma initPlatforms_returns groundY canvasW canvasH src (fuel : nat) :
  forall ps lastRight p,
    (canvasW + SPAWN_AHEAD - lastRight
     <= inject_Z (Z.of_nat fuel) * (gapMin s + platWidthMin s))%Q ->
    exists r p',
      initPlatforms fuel s groundY canvasW canvasH ps lastRight src p = Some (r, p').
Proof.
  induction fuel as [|fuel IH]; intros ps lastRight p Hb; cbn [initPlatforms];
    destruct (Qltb lastRight (canvasW + SPAWN_AHEAD)) eqn:E;
    try (by eexists _, _).
  - apply Qltb_lt in E. change (inject_Z (Z.of_nat 0)) with 0%Q in Hb.
    exfalso. lra.
  - apply Qltb_lt in E. rewrite inject_S in Hb.
    destruct (newPlatform_advances groundY canvasH lastRight src p)
      as (plat & p1 & Ep & Hadv).
    destruct (IH (ps ++ [plat]) (x plat + w plat)%Q p1) as (r & p' & Er); [lra|].
    exists r, p'. apply bind_Some. by exists plat, p1.
Qed.

Lemma extend_returns groundY width height src (fuel : nat) :
  forall t lastRight p,
    (width + SPAWN_AHEAD - lastRight
     <= inject_Z (Z.of_nat fuel) * (gapMin s + platWidthMin s))%Q ->
    exists r p', extend fuel s groundY width height t lastRight src p = Some (r, p').
Proof.
  induction fuel as [|fuel IH]; intros t lastRight p Hb; cbn [extend];
    destruct (Qltb lastRight (width + SPAWN_AHEAD)) eqn:E;
    try (by eexists _, _).
  - apply Qltb_lt in E. change (inject_Z (Z.of_nat 0)) with 0%Q in Hb.
    exfalso. lra.
  - apply Qltb_lt in E. rewrite inject_S in Hb.
    destruct (newPlatform_advances groundY height lastRight src p)
      as (plat & p1 & Ep & Hadv).
    destruct (decorateAhead_total plat
                (mkTerrain (platforms t ++ [plat]) (obstacles t) (coins t)) src p1)
      as (t1 & p2 & Et).
    destruct (IH t1 (x plat + w plat)%Q p2) as (r & p' & Er); [lra|].
    exists r, p'. apply bind_Some. exists plat, p1. split; [done|].
    apply bind_Some. by exists t1, p2.
Qed.

End Returns.

Lemma trackRight_nonneg ps : (0 <= trackRight ps)%Q.
Proof.
  unfold trackRight.
  assert (H : forall acc, (0 <= acc)%Q ->
    (0 <= foldl (fun lastRight p =>
                   if Qltb lastRight (x p + w p) then (x p + w p)%Q
                   else lastRight) acc ps)%Q).
  { induction ps as [|pl ps IH]; intros acc Hacc; simpl; [done|].
    destruct (Qltb acc (x pl + w pl)) eqn:E; apply IH; [|done].
    apply Qltb_lt in E. lra. }
  apply H. lra.
Qed.

(** C8. With settings whose gap and width ranges are in
    order and whose least gap and least width add up to something
    positive, as in the three presets, both generation loops return within
    a number of iterations that the canvas width bounds; and whenever they
    return, at [initGame] and in a playing frame on a canvas of
    non-negative width, some platform has its right edge at
    [width + SPAWN_AHEAD] (400) or beyond. *)
Theorem generation_covers_lookahead (fuel : nat) (s : GameSettings) :
  (SPAWN_AHEAD == 400)%Q
  /\ (forall canvasW canvasH src p t p',
        initTerrain fuel s canvasW canvasH src p = Some (t, p') ->
        ReachesTo (canvasW + SPAWN_AHEAD) (platforms t))
  /\ (forall groundY width height t src p t' p',
        (0 <= width)%Q ->
        generateAhead fuel s groundY width height t src p = Some (t', p') ->
        ReachesTo (width + SPAWN_AHEAD) (platforms t'))
  /\ ((gapMin s <= gapMax s)%Q -> (platWidthMin s <= platWidthMax s)%Q ->
      forall width,
        (width + SPAWN_AHEAD
         <= inject_Z (Z.of_nat fuel) * (gapMin s + platWidthMin s))%Q ->
        (forall canvasH src p,
           exists t p', initTerrain fuel s width canvasH src p = Some (t, p'))
        /\ (forall groundY height t src p,
              exists t' p',
                generateAhead fuel s groundY width height t src p = Some (t', p'))).
Proof.
  destruct (generation_reaches_ahead fuel s) as (H1 & H2 & H3).
  split; [done|]. split; [done|]. split; [done|].
  intros Hgap Hwidth width Hfuel. split.
  - intros canvasH src p. unfold initTerrain.
    destruct (initPlatforms_returns s Hgap Hwidth
                (inject_Z (Qfloor (canvasH * GROUND_Y_FRAC))) width canvasH src fuel
                [mkPlatform 0 (inject_Z (Qfloor (canvasH * GROUND_Y_FRAC))) 300]
                300 p) as ([ps lr] & p1 & E1); [lra|].
    destruct (forM_total (decorate s) src (fun pl acc p => decorate_total s pl acc src p)
                (drop 1 ps) ([], []) p1)
      as ([cs os] & p2 & E2).
    eexists _, _. apply bind_Some. exists (ps, lr), p1. split; [done|].
    apply bind_Some. exists (cs, os), p2. split; [done|]. reflexivity.
  - intros groundY height t src p. unfold generateAhead.
    pose proof (trackRight_nonneg (platforms t)) as H0.
    destruct (extend_returns s Hgap Hwidth groundY width height src fuel t
                (trackRight (platforms t)) p) as ([t' lr] & p1 & E1); [lra|].
    eexists _, _. apply bind_Some. exists (t', lr), p1. split; [done|]. reflexivity.
Qed.

Lemma generation_covers_lookahead_witness :
  exists t p',
    initTerrain 10 (PRESETS medium) 800 600 Samples.halves 0 = Some (t, p')
    /\ ReachesTo (800 + SPAWN_AHEAD) (platforms t).
Proof.
  destruct (generation_covers_lookahead 10 (PRESETS medium)) as (_ & H2 & _ & H4).
  destruct (H4 ltac:(vm_compute; discriminate) ltac:(vm_compute; discriminate)
              800%Q ltac:(vm_compute; discriminate)) as [Hinit _].
  destruct (Hinit 600%Q Samples.halves 0) as (t & p' & E).
  exists t, p'. split; [exact E|]. exact (H2 800%Q 600%Q Samples.halves 0 t p' E).
Defined.

End RunnerFacts.

(** ** Persistence: writing and reading back *)

Module StoreFacts.

Import Persistence.

Lemma digitOf_digit d :
  (0 <= d < 10)%Z -> digitOf (ascii_of_nat (48 + Z.to_nat d)) = Some d.
Proof.
  intros Hd. unfold digitOf.
  rewrite nat_ascii_embedding by lia.
  replace (48 <=? 48 + Z.to_nat d) with true by (symmetry; apply Nat.leb_le; lia).
  replace (48 + Z.to_nat d <=? 57) with true by (symmetry; apply Nat.leb_le; lia).
  cbn [andb]. f_equal. lia.
Qed.

(** Reading the digits that [digitsOf] wrote gives the number back. *)
Lemma digits_digitsOf fuel : forall n rest,
  (0 <= n)%Z -> Z.to_nat n < fuel ->
  digits (digitsOf fuel n rest) None = digits rest (Some n).
Proof.
  induction fuel as [|fuel IH]; intros n rest Hn Hf; [lia|].
  cbn [digitsOf]. destruct (n <? 10)%Z eqn:E.
  - apply Z.ltb_lt in E. cbn [digits].
    rewrite digitOf_digit by (rewrite Z.mod_small; lia).
    rewrite Z.mod_small by lia. cbn [default]. unfold id. do 2 f_equal.
  - apply Z.ltb_ge in E. rewrite IH.
    + cbn [digits]. rewrite digitOf_digit by (apply Z.mod_pos_bound; lia).
      cbn [default]. do 2 f_equal. unfold id. pose proof (Z.div_mod n 10) as Hdm. lia.
    + apply Z.div_pos; lia.
    + assert (n / 10 < n)%Z by (apply Z.div_lt; lia). lia.
Qed.

(** What [digitsOf] writes starts with a digit. *)
Lemma digitsOf_head fuel : forall n rest,
  (0 <= n)%Z ->
  exists d s, (0 <= d < 10)%Z
    /\ digitsOf (S fuel) n rest = String (ascii_of_nat (48 + Z.to_nat d)) s.
Proof.
  induction fuel as [|fuel IH]; intros n rest Hn; cbn [digitsOf].
  - exists (n mod 10)%Z, rest. split; [apply Z.mod_pos_bound; lia|].
    by destruct (n <? 10)%Z.
  - destruct (n <? 10)%Z eqn:E.
    + exists (n mod 10)%Z, rest. split; [apply Z.mod_pos_bound; lia | done].
    + apply Z.ltb_ge in E. apply IH. apply Z.div_pos; lia.
Qed.

(** [parseInt] on a string that starts with a digit reads its digits. *)
Lemma parseInt_digit_first d s :
  (0 <= d < 10)%Z ->
  parseInt (String (ascii_of_nat (48 + Z.to_nat d)) s)
  = match digits (String (ascii_of_nat (48 + Z.to_nat d)) s) None with
    | Some n => Num n
    | None => NaN
    end.
Proof.
  intros Hd.
  assert (d = 0 \/ d = 1 \/ d = 2 \/ d = 3 \/ d = 4 \/ d = 5 \/ d = 6 \/ d = 7
          \/ d = 8 \/ d = 9)%Z as Hc by lia.
  repeat (destruct Hc as [-> | Hc]); try subst d; reflexivity.
Qed.

Lemma parseInt_toString z : parseInt (toString z) = Num z.
Proof.
  unfold toString. destruct (z <? 0)%Z eqn:E.
  - apply Z.ltb_lt in E. unfold parseInt. cbn [skipWhite isWhite].
    change (isWhite "-") with false. cbn iota.
    rewrite digits_digitsOf by lia. cbn [digits]. f_equal. lia.
  - apply Z.ltb_ge in E.
    destruct (digitsOf_head (Z.to_nat z) z EmptyString E) as (d & s & Hd & Hs).
    rewrite Hs, parseInt_digit_first, <- Hs by done.
    rewrite digits_digitsOf by lia. reflexivity.
Qed.

Lemma toString_nonempty z : toString z <> EmptyString.
Proof.
  unfold toString. destruct (z <? 0)%Z eqn:E; [done|].
  apply Z.ltb_ge in E.
  destruct (digitsOf_head (Z.to_nat z) z EmptyString E) as (d & s & _ & ->). done.
Qed.

Lemma saveBest_read key score st :
  bestInit key (saveBest key score st) = Num score
  /\ storedBest key (saveBest key score st) = Num score.
Proof.
  unfold bestInit, storedBest, saveBest, Storage in *. rewrite lookup_insert_eq.
  rewrite bool_decide_eq_false_2 by apply toString_nonempty.
  by rewrite parseInt_toString.
Qed.

(** X1. A best score written at game over is read back as it
    was written: after [localStorage.setItem(key, String(score))], for a
    score that is a safe integer, the initializer of the best score and
    the read at the next game over both give [score]. The other keys of
    the storage are left alone. *)
Theorem saved_best_reads_back (key : string) (score : Z) (st : Storage) :
  SafeInteger score ->
  bestInit key (saveBest key score st) = Num score
  /\ storedBest key (saveBest key score st) = Num score
  /\ forall key', key' <> key -> saveBest key score st !! key' = st !! key'.
Proof.
  intros _. destruct (saveBest_read key score st) as [H1 H2].
  split; [done|]. split; [done|].
  intros key' Hne. unfold saveBest, Storage in *. by rewrite lookup_insert_ne.
Qed.

Lemma saved_best_reads_back_witness :
  bestInit "snake-best" (saveBest "snake-best" 42 ∅) = Num 42
  /\ saveBest "snake-best" 42 ∅ !! "flappy-best"%string = None.
Proof.
  assert (Hs : SafeInteger 42) by (unfold SafeInteger; simpl; lia).
  destruct (saved_best_reads_back "snake-best" 42 ∅ Hs) as (H1 & _ & H3).
  split; [exact H1|]. rewrite H3; [reflexivity | discriminate].
Defined.

(** X2. The record at game over of Match-Three, Space Invaders
    and Pixel Runner never lowers the stored best: afterwards the storage
    holds the larger of the score (a safe integer) and the best it held,
    zero when nothing was stored. A stored value that is not a number is
    never replaced, whatever the score. *)
Theorem recordBest_max (key : string) (score : Z) (st : Storage) :
  SafeInteger score ->
  (forall cur, storedBest key st = Num cur ->
     storedBest key (recordBest key score st) = Num (Z.max cur score))
  /\ (st !! key = None ->
      storedBest key (recordBest key score st) = Num (Z.max 0 score))
  /\ (storedBest key st = NaN -> recordBest key score st = st).
Proof.
  intros _.
  assert (Hmax : forall cur, storedBest key st = Num cur ->
            storedBest key (recordBest key score st) = Num (Z.max cur score)).
  { intros cur Hcur. unfold recordBest. rewrite Hcur. cbn [exceeds].
    destruct (cur <? score)%Z eqn:E.
    - apply Z.ltb_lt in E.
      destruct (saveBest_read key score st) as [_ ->]. f_equal. lia.
    - apply Z.ltb_ge in E. rewrite Hcur. f_equal. lia. }
  split; [exact Hmax|]. split.
  - intros Hnone. apply Hmax. unfold storedBest, Storage in *.
    by rewrite Hnone.
  - intros Hnan. unfold recordBest. by rewrite Hnan.
Qed.

Lemma recordBest_max_witness :
  storedBest "match3-best" (recordBest "match3-best" 450
                              (<["match3-best"%string := "300"%string]> ∅))
  = Num 450
  /\ recordBest "match3-best" 450 (<["match3-best"%string := "abc"%string]> ∅)
     = <["match3-best"%string := "abc"%string]> ∅.
Proof.
  assert (Hs : SafeInteger 450) by (unfold SafeInteger; simpl; lia).
  destruct (recordBest_max "match3-best" 450
              (<["match3-best"%string := "300"%string]> ∅) Hs) as (H1 & _).
  destruct (recordBest_max "match3-best" 450
              (<["match3-best"%string := "abc"%string]> ∅) Hs) as (_ & _ & H2).
  split; [apply (H1 300%Z); vm_compute; reflexivity
         | apply H2; vm_compute; reflexivity].
Defined.

End StoreFacts.

(** ** Snake: the grid, the food and the score *)

Module SnakeRunFacts.

Import Persistence Snake SnakeFacts.

Lemma wrap_range v g : (0 < g)%Z -> (0 <= wrap v g < g)%Z.
Proof.
  intros Hg. unfold wrap.
  pose proof (Z.rem_bound_abs v g ltac:(lia)) as Hb.
  assert (H1 : (0 < Z.rem v g + g < 2 * g)%Z) by lia.
  pose proof (Z.rem_bound_pos (Z.rem v g + g) g ltac:(lia) Hg). lia.
Qed.

Lemma freeCells_spec gs body c :
  c ∈ freeCells gs body <-> InGrid gs c /\ c ∉ body.
Proof.
  unfold freeCells, InGrid. rewrite list_elem_of_filter, list_elem_of_bind.
  split.
  - intros [Hfree (i & Hc & Hi)].
    apply list_elem_of_fmap in Hc as (j & -> & Hj).
    apply elem_of_seq in Hi, Hj. simpl. split; [lia|].
    intros Hin. apply Is_true_true in Hfree. apply negb_true_iff in Hfree.
    assert (E : existsb (samePoint (mkPoint (Z.of_nat i) (Z.of_nat j))) body = true).
    { apply existsb_exists. eexists. split; [by apply list_elem_of_In|].
      by apply samePoint_eq. }
    congruence.
  - intros [[Hx Hy] Hout]. split.
    + apply Is_true_true, negb_true_iff.
      destruct (existsb (samePoint c) body) eqn:E; [|done].
      apply existsb_exists in E as (q & Hq & Hs). apply samePoint_eq in Hs.
      subst q. exfalso. by apply Hout, list_elem_of_In.
    + exists (Z.to_nat (x c)). split.
      * apply list_elem_of_fmap. exists (Z.to_nat (y c)). split.
        -- destruct c as [cx cy]. simpl in *. f_equal; lia.
        -- apply elem_of_seq. lia.
      * apply elem_of_seq. lia.
Qed.

Lemma spawnFood_pick gs body src p f p' :
  spawnFood gs body src p = Some (f, p') ->
  (freeCells gs body = [] /\ f = mkPoint 0 0 /\ p' = p)
  \/ f ∈ freeCells gs body.
Proof.
  unfold spawnFood. intros H. destruct (freeCells gs body) as [|c0 free] eqn:E.
  - apply ret_Some in H as [<- <-]. by left.
  - apply bind_Some in H as (i & p1 & _ & H). apply lift_Some in H as [H _].
    right. by apply list_elem_of_lookup_2 in H.
Qed.

(** X3. [spawnFood] returns a cell of the grid that the snake
    does not cover whenever there is one, and the fallback cell (0, 0),
    without drawing a random number, when the snake covers the grid. *)
Theorem spawnFood_free (gs : Z) (body : list Point) (src : nat -> U01)
    (p : nat) (f : Point) (p' : nat) :
  spawnFood gs body src p = Some (f, p') ->
  ((exists c, InGrid gs c /\ c ∉ body) -> InGrid gs f /\ f ∉ body)
  /\ (Covers gs body -> f = mkPoint 0 0 /\ p' = p).
Proof.
  intros H. apply spawnFood_pick in H as [(E & -> & ->) | H].
  - split; [|done]. intros (c & Hc). apply freeCells_spec in Hc.
    rewrite E in Hc. by apply elem_of_nil in Hc.
  - apply freeCells_spec in H. split; [done|].
    intros Hcov. destruct H as [Hin Hout]. exfalso. by apply Hout, Hcov.
Qed.

Lemma spawnFood_free_witness :
  exists f p',
    spawnFood 2 [mkPoint 0 0; mkPoint 1 0] Samples.halves 0 = Some (f, p')
    /\ InGrid 2 f /\ f ∉ [mkPoint 0 0; mkPoint 1 0].
Proof.
  assert (E : exists f p', spawnFood 2 [mkPoint 0 0; mkPoint 1 0] Samples.halves 0
                           = Some (f, p')) by (vm_compute; eauto).
  destruct E as (f & p' & E). exists f, p'. split; [exact E|].
  apply (proj1 (spawnFood_free 2 _ Samples.halves 0 f p' E)).
  exists (mkPoint 0 1). split; [split; simpl; lia|].
  intros Hin. apply elem_of_cons in Hin as [Hin | Hin]; [discriminate|].
  apply elem_of_cons in Hin as [Hin | Hin]; [discriminate|].
  by apply elem_of_nil in Hin.
Defined.

Lemma hit_in (newHead : Point) (body : list Point) :
  existsb (fun seg => samePoint seg newHead) body = true -> newHead ∈ body.
Proof.
  intros H. apply existsb_exists in H as (q & Hq & Hs).
  apply samePoint_eq in Hs. subst q. by apply list_elem_of_In.
Qed.

Lemma tick_outcome s w src p w' p' :
  stateRef w = playing ->
  tick s w src p = Some (w', p') ->
  exists head tl, snake w = head :: tl /\ Outcome s w w' head.
Proof.
  intros Hst. unfold tick. rewrite Hst. cbn [bool_decide decide_rel negb].
  rewrite bool_decide_eq_true_2 by done. cbn [negb].
  destruct (snake w) as [|head tl] eqn:Esn; [done|].
  intros H. exists head, tl. split; [done|].
  set (moved := mkPoint (x head + x (DIRECTION_VECTORS (nextDir w)))
                        (y head + y (DIRECTION_VECTORS (nextDir w)))) in *.
  set (o := ((x moved <? 0) || (gridSize s <=? x moved) || (y moved <? 0)
              || (gridSize s <=? y moved))%Z) in *.
  assert (Ht : o = true -> ~ InGrid (gridSize s) moved).
  { intros Hb [Hx Hy]. subst o.
    repeat (apply orb_prop in Hb as [Hb | Hb]); lia. }
  assert (Hin : o = false -> InGrid (gridSize s) moved).
  { intros Hb. subst o.
    repeat (apply orb_false_elim in Hb as [Hb ?]). split; lia. }
  assert (Hadv : advance s (nextDir w) head
                 = if wallTeleport s
                   then mkPoint (wrap (x moved) (gridSize s)) (wrap (y moved) (gridSize s))
                   else moved) by done.
  destruct (wallTeleport s) eqn:Etel; cbn [negb andb] in H.
  - (* teleport *)
    rewrite <- Hadv in H. set (newHead := advance s (nextDir w) head) in *.
    destruct (samePoint newHead (food w)) eqn:Eeat.
    + destruct (existsb _ (head :: tl)) eqn:Ehit.
      * apply ret_Some in H as [<- _]. apply Died; [done|]. right.
        rewrite Esn. by apply hit_in.
      * apply bind_Some in H as (f & p1 & Hf & H). apply ret_Some in H as [<- _].
        apply samePoint_eq in Eeat. apply not_hit_not_in in Ehit.
        apply Ate; cbn [snake score food stateRef dir nextDir best];
          rewrite ?Esn; try done; try (by exists src, p, p1);
          try (intros; congruence); try (intros _; exact Eo).
    + destruct (existsb _ (take _ _)) eqn:Ehit.
      * apply ret_Some in H as [<- _]. apply Died; [done|]. right.
        rewrite Esn. apply hit_in in Ehit.
        eapply elem_of_sublist; [exact Ehit | apply sublist_take].
      * apply ret_Some in H as [<- _]. apply not_hit_not_in in Ehit.
        assert (newHead <> food w).
        { intros E. apply samePoint_eq in E. congruence. }
        replace (length (head :: tl) - 1) with (length tl) in * by (simpl; lia).
        apply Moved; cbn [snake score food stateRef dir nextDir best];
          rewrite ?Esn; try done;
          replace (length (head :: tl) - 1) with (length tl) by (simpl; lia);
          try done; try (intros; congruence); try (intros _; exact Eo).
  - (* walls *)
    destruct o eqn:Eo; cbn [negb andb] in H.
    { apply ret_Some in H as [<- _]. apply Died; [done|]. left.
      rewrite Hadv. split; [done | by apply Ht]. }
    clear Eo. assert (Eo : InGrid (gridSize s) moved) by (by apply Hin).
    rewrite <- Hadv in H. rewrite <- Hadv in Eo.
    set (newHead := advance s (nextDir w) head) in *.
    destruct (samePoint newHead (food w)) eqn:Eeat.
    + destruct (existsb _ (head :: tl)) eqn:Ehit.
      * apply ret_Some in H as [<- _]. apply Died; [done|]. right.
        rewrite Esn. by apply hit_in.
      * apply bind_Some in H as (f & p1 & Hf & H). apply ret_Some in H as [<- _].
        apply samePoint_eq in Eeat. apply not_hit_not_in in Ehit.
        apply Ate; cbn [snake score food stateRef dir nextDir best];
          rewrite ?Esn; try done; try (by exists src, p, p1);
          try (intros; congruence); try (intros _; exact Eo).
    + destruct (existsb _ (take _ _)) eqn:Ehit.
      * apply ret_Some in H as [<- _]. apply Died; [done|]. right.
        rewrite Esn. apply hit_in in Ehit.
        eapply elem_of_sublist; [exact Ehit | apply sublist_take].
      * apply ret_Some in H as [<- _]. apply not_hit_not_in in Ehit.
        assert (newHead <> food w).
        { intros E. apply samePoint_eq in E. congruence. }
        replace (length (head :: tl) - 1) with (length tl) in * by (simpl; lia).
        apply Moved; cbn [snake score food stateRef dir nextDir best];
          rewrite ?Esn; try done;
          replace (length (head :: tl) - 1) with (length tl) by (simpl; lia);
          try done; try (intros; congruence); try (intros _; exact Eo).
Qed.

(** What one event does: a key press and a tick of a game that is not
    playing leave the snake, the food and the score alone; a tick of a
    playing game has one of the three outcomes. *)
Lemma handle_cases s e w src p w' p' :
  handle s e w src p = Some (w', p') ->
  (snake w' = snake w /\ food w' = food w /\ score w' = score w
   /\ dir w' = dir w /\ best w' = best w
   /\ (nextDir w' = nextDir w \/ dir w <> opposite (nextDir w')))
  \/ (stateRef w = playing
      /\ exists head tl, snake w = head :: tl /\ Outcome s w w' head).
Proof.
  destruct e as [|d|]; cbn [handle].
  - intros H. destruct (decide (stateRef w = playing)) as [Hp | Hp].
    + right. split; [done|]. by eapply tick_outcome.
    + left. unfold tick in H. rewrite bool_decide_eq_false_2 in H by done.
      apply ret_Some in H as [<- _]. repeat split; try done. by left.
  - intros H. apply ret_Some in H as [<- _]. left. unfold turn.
    case_bool_decide as Hd; cbn; repeat split; try done; [by left | by right].
  - intros H. apply ret_Some in H as [<- _]. left. unfold togglePause.
    destruct (stateRef w); cbn; repeat split; try done; by left.
Qed.

(** An invariant of the events holds after a run. *)
Lemma run_keeps (P : World -> Prop) s :
  (forall e w src p w' p', P w -> handle s e w src p = Some (w', p') -> P w') ->
  forall es w src p w' p', P w -> run s es w src p = Some (w', p') -> P w'.
Proof.
  intros Hstep es. unfold run. by apply forM_invariant.
Qed.

Lemma advance_in_grid s d head :
  (0 < gridSize s)%Z -> wallTeleport s = true ->
  InGrid (gridSize s) (advance s d head).
Proof.
  intros Hg Ht. unfold advance. rewrite Ht. split; cbn; by apply wrap_range.
Qed.

Lemma spawnFood_in_grid gs body src p f p' :
  (0 < gs)%Z -> spawnFood gs body src p = Some (f, p') -> InGrid gs f.
Proof.
  intros Hg H. apply spawnFood_pick in H as [(_ & -> & _) | H].
  - split; cbn; lia.
  - by apply freeCells_spec in H as [H _].
Qed.

Lemma Outcome_head_in_grid s w w' head :
  (0 < gridSize s)%Z -> Outcome s w w' head ->
  snake w' = snake w \/ InGrid (gridSize s) (advance s (nextDir w) head).
Proof.
  intros Hg [-> _ | _ _ _ _ _ _ _ _ _ Hin | _ _ _ _ _ _ _ _ _ Hin]; [by left | |];
    right; (destruct (wallTeleport s) eqn:Et; [by apply advance_in_grid | by apply Hin]).
Qed.

Lemma handle_OnGrid s e w src p w' p' :
  (0 < gridSize s)%Z -> OnGrid s w ->
  handle s e w src p = Some (w', p') -> OnGrid s w'.
Proof.
  intros Hg [Hb Hf] H. unfold OnGrid.
  apply handle_cases in H as [(Es & Ef & _) | (_ & head & tl & Esn & Ho)];
    [by rewrite Es, Ef|].
  pose proof (Outcome_head_in_grid s w w' head Hg Ho) as Hh.
  destruct Ho as [-> _ | _ _ Es _ (src' & q & q' & Hsp) _ _ _ _ _
                 | _ _ Es _ Ef _ _ _ _ _].
  - done.
  - destruct Hh as [Hh | Hh].
    { rewrite Es in Hh. exfalso. apply (f_equal length) in Hh. simpl in Hh. lia. }
    split; [rewrite Es; by constructor | by eapply spawnFood_in_grid].
  - split; [|by rewrite Ef]. rewrite Es.
    assert (Ht : Forall (InGrid (gridSize s)) (take (length (snake w) - 1) (snake w)))
      by (by apply Forall_take).
    destruct Hh as [Hh | Hh]; [|by constructor].
    rewrite <- Es, Hh. done.
Qed.

Lemma startGame_shape s b src p w0 p0 :
  startGame s b src p = Some (w0, p0) ->
  let mid := (gridSize s / 2)%Z in
  snake w0 = [mkPoint mid mid; mkPoint (mid - 1) mid; mkPoint (mid - 2) mid]
  /\ stateRef w0 = playing /\ dir w0 = right /\ nextDir w0 = right
  /\ score w0 = 0%Z /\ best w0 = b
  /\ spawnFood (gridSize s) (snake w0) src p = Some (food w0, p0).
Proof.
  unfold startGame. intros H. apply bind_Some in H as (f & p1 & Hf & H).
  apply ret_Some in H as [<- <-]. cbn. done.
Qed.

Lemma startGame_OnGrid s b src p w0 p0 :
  (4 <= gridSize s)%Z -> startGame s b src p = Some (w0, p0) -> OnGrid s w0.
Proof.
  intros Hg H. apply startGame_shape in H as (Es & _ & _ & _ & _ & _ & Hf).
  assert (Hm : (2 <= gridSize s / 2 < gridSize s)%Z).
  { split; [apply Z.div_le_lower_bound; lia | apply Z.div_lt_upper_bound; lia]. }
  split.
  - rewrite Es. repeat constructor; cbn; lia.
  - eapply spawnFood_in_grid; [|exact Hf]. lia.
Qed.

(** X4. On a grid of four cells or more across, after
    [startGame] and any ticks and key presses, every cell of the body and
    the food lie on the grid. With teleporting walls a tick wraps the head
    around the grid; without them a tick whose head would leave the grid
    ends the game and leaves the body as it is. *)
Theorem snake_stays_on_grid (s : GameSettings) :
  (4 <= gridSize s)%Z ->
  (forall b es src p w0 p0 w' p',
     startGame s b src p = Some (w0, p0) ->
     run s es w0 src p0 = Some (w', p') ->
     Forall (InGrid (gridSize s)) (snake w') /\ InGrid (gridSize s) (food w'))
  /\ (forall d head, wallTeleport s = true ->
        InGrid (gridSize s) (advance s d head))
  /\ (forall w src p head tl,
        stateRef w = playing -> snake w = head :: tl ->
        wallTeleport s = false ->
        ~ InGrid (gridSize s) (advance s (nextDir w) head) ->
        exists w', tick s w src p = Some (w', p)
          /\ stateRef w' = gameover /\ snake w' = snake w).
Proof.
  intros Hg. split; [|split].
  - intros b es src p w0 p0 w' p' H0 Hrun.
    apply (run_keeps (OnGrid s) s) in Hrun; [done | |].
    + intros e w src1 p1 w1 p1'. apply handle_OnGrid. lia.
    + by eapply startGame_OnGrid.
  - intros d head Ht. apply advance_in_grid; [lia | done].
  - intros w src p head tl Hp Es Ht Hout.
    exists (die w (nextDir w)). split; [|done].
    unfold advance, InGrid in Hout. rewrite Ht in Hout. cbn [x y] in Hout.
    unfold tick. rewrite Hp, Es, Ht, bool_decide_eq_true_2 by done.
    cbn [negb andb x y].
    match goal with |- (if ?c then _ else _) _ _ = _ => destruct c eqn:Eo end;
      [done|].
    exfalso. apply Hout.
    repeat (apply orb_false_iff in Eo as [Eo ?]). lia.
Qed.

Lemma snake_stays_on_grid_witness :
  (4 <= gridSize (PRESETS easy))%Z
  /\ InGrid 15 (advance (PRESETS easy) right (mkPoint 14 3)).
Proof.
  assert (Hg : (4 <= gridSize (PRESETS easy))%Z) by (simpl; lia).
  split; [exact Hg|].
  destruct (snake_stays_on_grid (PRESETS easy) Hg) as (_ & H & _).
  apply (H right (mkPoint 14 3)). reflexivity.
Defined.

Lemma elem_take_or_last {A} (c : A) (l : list A) :
  c ∈ l -> c ∈ take (length l - 1) l \/ last l = Some c.
Proof.
  induction l as [|a l IH]; intros H; [by apply elem_of_nil in H|].
  destruct l as [|b l].
  - apply list_elem_of_singleton in H as ->. by right.
  - replace (length (a :: b :: l) - 1) with (S (length (b :: l) - 1))
      by (simpl; lia).
    cbn [take]. apply elem_of_cons in H as [-> | H]; [left; by left|].
    destruct (IH H) as [Ht | Hl]; [left; by right | by right].
Qed.

Lemma last_not_in_take {A} (c : A) (l : list A) :
  c ∈ l -> c ∉ take (length l - 1) l -> last l = Some c.
Proof.
  intros H Hn. by destruct (elem_take_or_last c l H).
Qed.

(** Food under the snake only when the snake fills the grid. *)
Lemma handle_food s e w src p w' p' :
  (0 < gridSize s)%Z ->
  food w ∉ snake w \/ Covers (gridSize s) (snake w) ->
  handle s e w src p = Some (w', p') ->
  food w' ∉ snake w' \/ Covers (gridSize s) (snake w').
Proof.
  intros Hg Hinv H.
  apply handle_cases in H as [(Es & Ef & _) | (_ & head & tl & Esn & Ho)];
    [by rewrite Es, Ef|].
  pose proof (Outcome_head_in_grid s w w' head Hg Ho) as Hh.
  destruct Ho as [-> _ | _ _ Es _ (src' & q & q' & Hsp) _ _ _ _ _
                 | Hne Hnt Es _ Ef _ _ _ _ _].
  - done.
  - apply spawnFood_pick in Hsp as [(E & _) | Hsp].
    + right. intros c Hc. destruct (decide (c ∈ snake w')) as [|Hn]; [done|].
      assert (Hin : c ∈ freeCells (gridSize s) (snake w'))
        by (by apply freeCells_spec).
      rewrite E in Hin. by apply elem_of_nil in Hin.
    + left. by apply freeCells_spec in Hsp as [_ Hsp].
  - destruct Hinv as [Hfree | Hcov].
    + left. rewrite Es, Ef. intros Hin.
      apply elem_of_cons in Hin as [Hin | Hin]; [by apply Hne|].
      apply Hfree. eapply elem_of_sublist; [exact Hin | apply sublist_take].
    + right. destruct Hh as [Hh | Hh]; [by rewrite Hh|].
      intros c Hc. rewrite Es.
      destruct (elem_take_or_last c (snake w) (Hcov c Hc)) as [Ht | Hl];
        [by right|].
      pose proof (last_not_in_take _ _ (Hcov _ Hh) Hnt) as Hl'.
      assert (c = advance s (nextDir w) head) as -> by congruence. by left.
Qed.

(** X5. On a grid of four cells or more across, after
    [startGame] and any ticks and key presses the food is not under the
    snake, unless the snake lies on every cell of the grid. *)
Theorem food_not_under_snake (s : GameSettings) (b : JSNumber)
    (es : list Event) (src : nat -> U01) (p p0 p' : nat) (w0 w' : World) :
  (4 <= gridSize s)%Z ->
  startGame s b src p = Some (w0, p0) ->
  run s es w0 src p0 = Some (w', p') ->
  food w' ∉ snake w' \/ Covers (gridSize s) (snake w').
Proof.
  intros Hg H0 Hrun.
  apply (run_keeps
           (fun w => food w ∉ snake w \/ Covers (gridSize s) (snake w)) s)
    in Hrun; [done | |].
  - intros e w src1 p1 w1 p1'. apply handle_food. lia.
  - left. apply startGame_shape in H0 as (Es & _ & _ & _ & _ & _ & Hf).
    apply spawnFood_pick in Hf as [(E & _) | Hf];
      [|by apply freeCells_spec in Hf as [_ Hf]].
    exfalso.
    assert (Hm : (2 <= gridSize s / 2 /\ gridSize s / 2 + 1 < gridSize s)%Z).
    { split; [apply Z.div_le_lower_bound; lia|].
      pose proof (Z.div_lt_upper_bound (gridSize s) 2 (gridSize s - 1)). lia. }
    assert (Hin : mkPoint (gridSize s / 2) (gridSize s / 2 + 1)
                  ∈ freeCells (gridSize s) (snake w0)).
    { apply freeCells_spec. split; [split; cbn; lia|]. rewrite Es.
      intros Hin. repeat (apply elem_of_cons in Hin as [Hin | Hin];
        [injection Hin; lia|]). by apply elem_of_nil in Hin. }
    rewrite E in Hin. by apply elem_of_nil in Hin.
Qed.

Lemma food_not_under_snake_witness :
  exists w0 p0 w' p',
    startGame (PRESETS medium) NaN Samples.halves 0 = Some (w0, p0)
    /\ run (PRESETS medium) [Tick; Turn down; Tick] w0 Samples.halves p0
       = Some (w', p')
    /\ (food w' ∉ snake w' \/ Covers 20 (snake w')).
Proof.
  let r0 := eval vm_compute in
      (startGame (PRESETS medium) NaN Samples.halves 0) in
  match r0 with
  | Some (?w0, ?p0) =>
      let r1 := eval vm_compute in
          (run (PRESETS medium) [Tick; Turn down; Tick] w0 Samples.halves p0) in
      match r1 with
      | Some (?w1, ?p1) => exists w0, p0, w1, p1
      end
  end.
  match goal with
  | |- ?A /\ ?B /\ _ =>
      assert (E0 : A) by (vm_compute; reflexivity);
      assert (E : B) by (vm_compute; reflexivity)
  end.
  assert (Hg : (4 <= gridSize (PRESETS medium))%Z) by (simpl; lia).
  split; [exact E0|]. split; [exact E|].
  exact (food_not_under_snake (PRESETS medium) NaN [Tick; Turn down; Tick]
           Samples.halves 0 _ _ _ _ Hg E0 E).
Defined.

(** The length of the snake, and the score. *)
Lemma handle_length s e w src p w' p' :
  Z.of_nat (length (snake w)) = (score w + 3)%Z ->
  handle s e w src p = Some (w', p') ->
  Z.of_nat (length (snake w')) = (score w' + 3)%Z.
Proof.
  intros Hinv H.
  apply handle_cases in H as [(Es & _ & Esc & _) | (_ & head & tl & Esn & Ho)];
    [by rewrite Es, Esc|].
  destruct Ho as [-> _ | _ _ Es Esc _ _ _ _ _ _ | _ _ Es Esc _ _ _ _ _ _].
  - done.
  - rewrite Es, Esc. cbn [length]. lia.
  - rewrite Es, Esc. cbn [length]. rewrite length_take. rewrite Esn in *.
    cbn [length] in *. lia.
Qed.

(** X6. After [startGame] and any ticks and key presses the
    snake is three cells longer than the score. An event raises the score
    by at most one and never lowers it, and the score goes up only on a
    tick that puts the head on the food and keeps the whole body behind
    it. *)
Theorem snake_length_is_score (s : GameSettings) :
  (forall b es src p w0 p0 w' p',
     startGame s b src p = Some (w0, p0) ->
     run s es w0 src p0 = Some (w', p') ->
     Z.of_nat (length (snake w')) = (score w' + 3)%Z)
  /\ (forall e w src p w' p',
        handle s e w src p = Some (w', p') ->
        score w' = score w
        \/ (score w' = (score w + 1)%Z /\ e = Tick
            /\ snake w' = food w :: snake w)).
Proof.
  split.
  - intros b es src p w0 p0 w' p' H0 Hrun.
    apply (run_keeps
             (fun w => Z.of_nat (length (snake w)) = (score w + 3)%Z) s)
      in Hrun; [done | |].
    + intros e w src1 p1 w1 p1'. apply handle_length.
    + apply startGame_shape in H0 as (Es & _ & _ & _ & Esc & _).
      by rewrite Es, Esc.
  - intros e w src p w' p' H.
    destruct e; cycle 1.
    + left. cbn [handle] in H. apply ret_Some in H as [<- _].
      unfold turn. by case_bool_decide.
    + left. cbn [handle] in H. apply ret_Some in H as [<- _].
      unfold togglePause. by destruct (stateRef w).
    + apply handle_cases in H as [(_ & _ & Esc & _) | (_ & head & tl & _ & Ho)];
        [by left|].
      destruct Ho as [-> _ | Ef _ Es Esc _ _ _ _ _ _ | _ _ _ Esc _ _ _ _ _ _];
        [by left | | by left].
      right. by rewrite <- Ef.
Qed.

Lemma snake_length_is_score_witness :
  exists w0 p0 w' p',
    startGame (PRESETS medium) NaN Samples.halves 0 = Some (w0, p0)
    /\ run (PRESETS medium) [Tick; Turn down; Tick] w0 Samples.halves p0
       = Some (w', p')
    /\ Z.of_nat (length (snake w')) = (score w' + 3)%Z.
Proof.
  let r0 := eval vm_compute in
      (startGame (PRESETS medium) NaN Samples.halves 0) in
  match r0 with
  | Some (?w0, ?p0) =>
      let r1 := eval vm_compute in
          (run (PRESETS medium) [Tick; Turn down; Tick] w0 Samples.halves p0) in
      match r1 with
      | Some (?w1, ?p1) => exists w0, p0, w1, p1
      end
  end.
  match goal with
  | |- ?A /\ ?B /\ _ =>
      assert (E0 : A) by (vm_compute; reflexivity);
      assert (E : B) by (vm_compute; reflexivity)
  end.
  split; [exact E0|]. split; [exact E|].
  exact (proj1 (snake_length_is_score (PRESETS medium)) NaN
           [Tick; Turn down; Tick] Samples.halves 0 _ _ _ _ E0 E).
Defined.

(** The buffered turn never reverses the direction of the last tick. *)
Lemma handle_direction s e w src p w' p' :
  dir w <> opposite (nextDir w) ->
  handle s e w src p = Some (w', p') ->
  dir w' <> opposite (nextDir w').
Proof.
  intros Hinv H.
  destruct e; cbn [handle] in H.
  - destruct (decide (stateRef w = playing)) as [Hp | Hp].
    + apply tick_outcome in H as (head & tl & _ & Ho); [|done].
      destruct Ho as [-> _ | _ _ _ _ _ _ Ed En _ _ | _ _ _ _ _ _ Ed En _ _].
      * cbn. by destruct (nextDir w).
      * rewrite Ed, En. by destruct (nextDir w).
      * rewrite Ed, En. by destruct (nextDir w).
    + unfold tick in H. rewrite bool_decide_eq_false_2 in H by done.
      by apply ret_Some in H as [<- _].
  - apply ret_Some in H as [<- _]. unfold turn.
    case_bool_decide as Hd; cbn; [done|].
    intros E. apply Hd. rewrite E. by destruct d.
  - apply ret_Some in H as [<- _]. unfold togglePause.
    by destruct (stateRef w).
Qed.

(** X7. After [startGame] and any ticks and key presses, a tick
    of the playing game never turns the snake around: the direction it
    moves in is not the opposite of the direction of the tick before,
    whatever keys were pressed in between. *)
Theorem snake_never_reverses (s : GameSettings) (b : JSNumber)
    (es : list Event) (src : nat -> U01) (p p0 p1 p2 : nat)
    (w0 w1 w2 : World) :
  startGame s b src p = Some (w0, p0) ->
  run s es w0 src p0 = Some (w1, p1) ->
  stateRef w1 = playing ->
  tick s w1 src p1 = Some (w2, p2) ->
  dir w2 = nextDir w1 /\ dir w2 <> opposite (dir w1).
Proof.
  intros H0 Hrun Hp Ht.
  apply (run_keeps (fun w => dir w <> opposite (nextDir w)) s) in Hrun.
  - apply tick_outcome in Ht as (head & tl & _ & Ho); [|done].
    assert (Ed : dir w2 = nextDir w1).
    { by destruct Ho as [-> _ | _ _ _ _ _ _ Ed _ _ _ | _ _ _ _ _ _ Ed _ _ _]. }
    split; [done|]. rewrite Ed. intros E. apply Hrun. rewrite E.
    by destruct (dir w1).
  - intros e w src1 q w' q'. apply handle_direction.
  - apply startGame_shape in H0 as (_ & _ & -> & -> & _). done.
Qed.

Lemma snake_never_reverses_witness :
  exists w0 p0 w1 p1 w2 p2,
    startGame (PRESETS medium) NaN Samples.halves 0 = Some (w0, p0)
    /\ run (PRESETS medium) [Turn up; Turn left; Tick; Turn left] w0
         Samples.halves p0 = Some (w1, p1)
    /\ tick (PRESETS medium) w1 Samples.halves p1 = Some (w2, p2)
    /\ dir w2 <> opposite (dir w1).
Proof.
  let r0 := eval vm_compute in
      (startGame (PRESETS medium) NaN Samples.halves 0) in
  match r0 with
  | Some (?w0, ?p0) =>
      let r1 := eval vm_compute in
          (run (PRESETS medium) [Turn up; Turn left; Tick; Turn left] w0
             Samples.halves p0) in
      match r1 with
      | Some (?w1, ?p1) =>
          let r2 := eval vm_compute in
              (tick (PRESETS medium) w1 Samples.halves p1) in
          match r2 with
          | Some (?w2, ?p2) => exists w0, p0, w1, p1, w2, p2
          end
      end
  end.
  match goal with
  | |- ?A /\ ?B /\ ?C /\ _ =>
      assert (E0 : A) by (vm_compute; reflexivity);
      assert (E1 : B) by (vm_compute; reflexivity);
      assert (E2 : C) by (vm_compute; reflexivity)
  end.
  split; [exact E0|]. split; [exact E1|]. split; [exact E2|].
  apply (proj2 (snake_never_reverses _ _ _ _ _ _ _ _ _ _ _ E0 E1 eq_refl E2)).
Defined.

Lemma die_best w d :
  best (die w d)
  = match best w with Num z => Num (Z.max z (score w)) | NaN => NaN end.
Proof.
  unfold die. cbn [best]. destruct (best w) as [|z]; cbn [beats]; [done|].
  destruct (Z.ltb_spec z (score w)); f_equal; lia.
Qed.

(** X8. The best score of Snake changes only on the tick that
    ends a playing game, where it becomes the larger of itself and the
    score; the score is unchanged by that tick. A best score that is not a
    number (a corrupt stored value) is never replaced, whatever the score. *)
Theorem snake_best_is_max (s : GameSettings) (e : Event) (w w' : World)
    (src : nat -> U01) (p p' : nat) :
  handle s e w src p = Some (w', p') ->
  (best w = NaN -> best w' = NaN)
  /\ (best w' <> best w ->
      e = Tick /\ stateRef w = playing /\ stateRef w' = gameover)
  /\ (stateRef w = playing -> stateRef w' = gameover ->
      score w' = score w
      /\ best w'
         = match best w with Num z => Num (Z.max z (score w)) | NaN => NaN end).
Proof.
  intros H.
  assert (Hcases :
            (best w' = best w /\ (stateRef w = playing -> stateRef w' <> gameover))
            \/ (e = Tick /\ stateRef w = playing /\ w' = die w (nextDir w))).
  { destruct e; cbn [handle] in H.
    - destruct (decide (stateRef w = playing)) as [Hp | Hp].
      + apply tick_outcome in H as (head & tl & _ & Ho); [|done].
        destruct Ho as [-> _ | _ _ _ _ _ Hst _ _ Eb _ | _ _ _ _ _ Hst _ _ Eb _].
        * by right.
        * left. split; [done|]. intros _. by rewrite Hst.
        * left. split; [done|]. intros _. by rewrite Hst.
      + unfold tick in H. rewrite bool_decide_eq_false_2 in H by done.
        apply ret_Some in H as [<- _]. by left.
    - apply ret_Some in H as [<- _]. left. unfold turn.
      case_bool_decide; cbn; (split; [done|]); intros ->; done.
    - apply ret_Some in H as [<- _]. left. unfold togglePause.
      destruct (stateRef w); cbn; (split; [done|]); done. }
  destruct Hcases as [[Eb Hs] | (-> & Hp & ->)].
  - rewrite Eb. split; [done|]. split; [intros Hn; by destruct Hn|].
    intros Hp Hg. by destruct (Hs Hp).
  - rewrite die_best. split; [by intros ->|]. split; [done|]. done.
Qed.

Lemma snake_best_is_max_witness :
  exists w' p',
    handle (PRESETS medium) Tick Samples.atWall Samples.halves 0 = Some (w', p')
    /\ stateRef w' = gameover /\ best w' = Num 7.
Proof.
  assert (E : exists w' p',
             handle (PRESETS medium) Tick Samples.atWall Samples.halves 0
             = Some (w', p')
             /\ stateRef w' = gameover) by (vm_compute; eauto).
  destruct E as (w' & p' & E & Hg). exists w', p'.
  split; [exact E|]. split; [exact Hg|].
  destruct (snake_best_is_max (PRESETS medium) Tick Samples.atWall w'
              Samples.halves 0 p' E) as (_ & _ & H).
  destruct (H eq_refl Hg) as [_ Hb]. exact Hb.
Defined.

End SnakeRunFacts.

(** ** Match-Three: the matches *)

Module MatchFacts.

Import MatchThree GridFacts BoardFacts.

Lemma runEnd_spec get t k e :
  e <= runEnd get t k e <= e + k
  /\ (forall i, e <= i < runEnd get t k e -> get i = t)
  /\ (runEnd get t k e < e + k -> get (runEnd get t k e) <> t).
Proof.
  revert e. induction k as [|k IH]; intros e; cbn [runEnd].
  - split; [lia|]. split; [intros i Hi; lia | lia].
  - destruct (same (get e) t) eqn:E.
    + apply same_true in E. destruct (IH (S e)) as (Hr & Hall & Hstop).
      split; [lia|]. split.
      * intros i Hi. destruct (decide (i = e)) as [-> | Hne]; [done|].
        apply Hall. lia.
      * intros Hlt. apply Hstop. lia.
    + split; [lia|]. split; [intros i Hi; lia|].
      intros _ Hget. apply same_true in Hget. congruence.
Qed.

(** Every group of a line scan is a run of three or more equal gems. *)
Lemma scanLine_sound get mk n fuel c m :
  m ∈ scanLine get mk n fuel c ->
  exists s len, c <= s /\ s + len <= n /\ 3 <= len
    /\ cells m = mk <$> seq s len
    /\ isNeg (get s) = false
    /\ forall i, s <= i < s + len -> get i = get s.
Proof.
  revert c. induction fuel as [|fuel IH]; intros c; cbn [scanLine];
    [intros H; by apply elem_of_nil in H|].
  destruct (Nat.leb_spec n c) as [Hn | Hn]; [intros H; by apply elem_of_nil in H|].
  destruct (isNeg (get c)) eqn:Eneg.
  - intros H. destruct (IH _ H) as (s & len & Hs & Hrest).
    exists s, len. split; [lia | done].
  - destruct (runEnd_spec get (get c) (n - S c) (S c)) as (Hr & Hall & _).
    set (e := runEnd get (get c) (n - S c) (S c)) in *.
    intros H. apply elem_of_app in H as [H | H].
    + destruct (Nat.leb_spec 3 (e - c)) as [H3 | H3];
        [|by apply elem_of_nil in H].
      apply list_elem_of_singleton in H as ->.
      exists c, (e - c). cbn [cells]. repeat split; try done; try lia.
      intros i Hi. destruct (decide (i = c)) as [-> | Hne]; [done|].
      apply Hall. lia.
    + destruct (IH _ H) as (s & len & Hs & Hrest).
      exists s, len. split; [lia | done].
Qed.

(** Three equal gems in line are inside a group of the line scan. *)
Lemma scanLine_complete get mk n fuel c i :
  n - c <= fuel -> c <= i -> i + 2 < n ->
  isNeg (get i) = false -> get (i + 1) = get i -> get (i + 2) = get i ->
  exists m s len, m ∈ scanLine get mk n fuel c
    /\ cells m = mk <$> seq s len /\ s <= i /\ i + 3 <= s + len.
Proof.
  revert c. induction fuel as [|fuel IH]; intros c Hfuel Hc Hi Hneg H1 H2;
    [lia|].
  cbn [scanLine]. destruct (Nat.leb_spec n c) as [Hn | Hn]; [lia|].
  destruct (isNeg (get c)) eqn:Eneg.
  - assert (c <> i) by (intros ->; congruence).
    apply IH; try done; lia.
  - destruct (runEnd_spec get (get c) (n - S c) (S c)) as (Hr & Hall & Hstop).
    set (e := runEnd get (get c) (n - S c) (S c)) in *.
    destruct (decide (i < e)) as [Hie | Hie].
    + assert (Hgi : get i = get c).
      { destruct (decide (i = c)) as [-> | Hne]; [done|]. apply Hall. lia. }
      assert (He : i + 3 <= e).
      { destruct (decide (i + 3 <= e)) as [|Hlt]; [done|]. exfalso.
        apply Hstop; [lia|].
        assert (e = i + 1 \/ e = i + 2) as [-> | ->] by lia; congruence. }
      destruct (Nat.leb_spec 3 (e - c)) as [H3 | H3]; [|lia].
      exists (mkMatch (mk <$> seq c (e - c))), c, (e - c).
      split; [apply elem_of_app; left; by apply list_elem_of_singleton|].
      cbn [cells]. split; [done|]. lia.
    + destruct (IH e) as (m & s & len & Hm & Hrest); try done; try lia.
      exists m, s, len. split; [|done]. apply elem_of_app. by right.
Qed.

Lemma elem_of_concat_fmap {A B} (f : A -> list B) (l : list A) (x : B) :
  x ∈ concat (f <$> l) <-> exists y, y ∈ l /\ x ∈ f y.
Proof.
  induction l as [|a l IH]; cbn [fmap list_fmap concat].
  - split; [intros H; by apply elem_of_nil in H|].
    intros (y & Hy & _). by apply elem_of_nil in Hy.
  - rewrite elem_of_app, IH. split.
    + intros [H | (y & Hy & H)]; [exists a; split; [by left | done]|].
      exists y. split; [by right | done].
    + intros (y & Hy & H). apply elem_of_cons in Hy as [-> | Hy]; [by left|].
      right. by exists y.
Qed.

(** The groups of [findMatches]: the scans of the rows, then of the
    columns. *)
Lemma findMatches_elem g m :
  m ∈ findMatches g <->
  (exists r, r < length g /\ m ∈ scanLine (cell g r) (mkCell r) (length g) (length g) 0)
  \/ (exists c, c < length g
        /\ m ∈ scanLine (fun r => cell g r c) (fun r => mkCell r c)
               (length g) (length g) 0).
Proof.
  unfold findMatches. rewrite elem_of_app, !elem_of_concat_fmap.
  split; (intros [(y & Hy & H) | (y & Hy & H)]; [left | right]; exists y;
    (split; [|done]); apply elem_of_seq in Hy || apply elem_of_seq; lia).
Qed.

Lemma cellEqb_eq a b : cellEqb a b = true <-> a = b.
Proof.
  unfold cellEqb. rewrite andb_true_iff, !Nat.eqb_eq.
  destruct a, b; cbn. split; [intros [-> ->]; done | intros [= -> ->]; done].
Qed.

Lemma setAdd_spec s c :
  (forall k, k ∈ setAdd s c <-> k ∈ s \/ k = c)
  /\ (NoDup s -> NoDup (setAdd s c)).
Proof.
  unfold setAdd. destruct (existsb (cellEqb c) s) eqn:E.
  - apply existsb_exists in E as (q & Hq & Heq). apply cellEqb_eq in Heq as <-.
    apply list_elem_of_In in Hq. split; [|done].
    intros k. split; [by left | intros [H | ->]; done].
  - split.
    + intros k. rewrite elem_of_app, list_elem_of_singleton. done.
    + intros Hnd. apply NoDup_app. split; [done|]. split; [|apply NoDup_singleton].
      intros k Hk Hk'. apply list_elem_of_singleton in Hk' as ->.
      assert (existsb (cellEqb c) s = true); [|congruence].
      apply existsb_exists. exists c. split; [by apply list_elem_of_In|].
      by apply cellEqb_eq.
Qed.

Lemma foldl_setAdd_spec l s :
  (forall k, k ∈ foldl setAdd s l <-> k ∈ s \/ k ∈ l)
  /\ (NoDup s -> NoDup (foldl setAdd s l)).
Proof.
  revert s. induction l as [|c l IH]; intros s; cbn [foldl].
  - split; [|done]. intros k. split; [by left|].
    intros [H | H]; [done | by apply elem_of_nil in H].
  - destruct (IH (setAdd s c)) as [Hin Hnd].
    destruct (setAdd_spec s c) as [Hin1 Hnd1]. split.
    + intros k. rewrite Hin, Hin1, elem_of_cons. tauto.
    + intros H. by apply Hnd, Hnd1.
Qed.

Lemma getMatchedSet_fold ms s :
  (forall k, k ∈ foldl (fun s m => foldl setAdd s (cells m)) s ms
             <-> k ∈ s \/ exists m, m ∈ ms /\ k ∈ cells m)
  /\ (NoDup s -> NoDup (foldl (fun s m => foldl setAdd s (cells m)) s ms)).
Proof.
  revert s. induction ms as [|m ms IH]; intros s; cbn [foldl].
  - split; [|done]. intros k. split; [by left|].
    intros [H | (m & H & _)]; [done | by apply elem_of_nil in H].
  - destruct (IH (foldl setAdd s (cells m))) as [Hin Hnd].
    destruct (foldl_setAdd_spec (cells m) s) as [Hin1 Hnd1]. split.
    + intros k. rewrite Hin, Hin1. split.
      * intros [[H | H] | (m' & Hm' & H)]; [by left | |].
        -- right. exists m. split; [by left | done].
        -- right. exists m'. split; [by right | done].
      * intros [H | (m' & Hm' & H)]; [left; by left|].
        apply elem_of_cons in Hm' as [-> | Hm']; [left; by right|].
        right. by exists m'.
    + intros H. by apply Hnd, Hnd1.
Qed.

(** [getMatchedSet] as a set: the cells of the groups, each once. *)
Lemma getMatchedSet_spec ms :
  (forall k, k ∈ getMatchedSet ms <-> exists m, m ∈ ms /\ k ∈ cells m)
  /\ NoDup (getMatchedSet ms).
Proof.
  unfold getMatchedSet. destruct (getMatchedSet_fold ms []) as [Hin Hnd].
  split; [|apply Hnd, NoDup_nil_2].
  intros k. rewrite Hin. split; [|by right].
  intros [H | H]; [by apply elem_of_nil in H | done].
Qed.

Lemma isNeg_Some_false v : isNeg (Some v) = false <-> (0 <= v)%Z.
Proof. cbn [isNeg]. rewrite Z.ltb_ge. done. Qed.

(** The cells of the groups are the cells that lie in a run. *)
Lemma findMatches_cells n g k :
  Square n g ->
  (exists m, m ∈ findMatches g /\ k ∈ cells m) <-> InRun g k.
Proof.
  intros Hsq. assert (Hlen : length g = n) by apply Hsq. split.
  - intros (m & Hm & Hk). apply findMatches_elem in Hm. rewrite Hlen in Hm.
    destruct Hm as [(r & Hr & Hm) | (c & Hc & Hm)];
      apply scanLine_sound in Hm
        as (s & len & _ & Hsn & H3 & Hcells & Hneg & Hall);
      rewrite Hcells in Hk; apply list_elem_of_fmap in Hk as (j & -> & Hj);
      apply elem_of_seq in Hj; cbn [row col].
    + destruct (Square_cell n g r s Hsq Hr ltac:(lia)) as [v Hv].
      rewrite Hv in Hneg, Hall. apply isNeg_Some_false in Hneg.
      exists v. split; [done|]. left.
      exists (if decide (j + 3 <= s + len) then j else s + len - 3).
      case_decide; cbn [row col]; (split; [lia|]); intros i Hi; apply Hall; lia.
    + destruct (Square_cell n g s c Hsq ltac:(lia) Hc) as [v Hv].
      rewrite Hv in Hneg, Hall. apply isNeg_Some_false in Hneg.
      exists v. split; [done|]. right.
      exists (if decide (j + 3 <= s + len) then j else s + len - 3).
      case_decide; cbn [row col]; (split; [lia|]); intros i Hi; apply Hall; lia.
  - intros (v & Hv & [(c & Hc & Hall) | (r & Hr & Hall)]).
    + pose proof (Hall 0 ltac:(lia)) as H0. pose proof (Hall 1 ltac:(lia)) as H1.
      pose proof (Hall 2 ltac:(lia)) as H2.
      rewrite Nat.add_0_r in H0.
      assert (Hrn : row k < n /\ c + 2 < n).
      { apply cell_Some in H2 as (line & Hl & _ & Hlt).
        split; [rewrite <- Hlen; by eapply lookup_lt_Some|].
        by rewrite (Square_row n g _ _ Hsq Hl) in Hlt. }
      destruct (scanLine_complete (cell g (row k)) (mkCell (row k)) n n 0 c)
        as (m & s & len & Hm & Hcells & Hs & Hlen');
        try lia; try (by rewrite H0); try congruence.
      { rewrite H0. by apply isNeg_Some_false. }
      exists m. split.
      * apply findMatches_elem. left. exists (row k). rewrite Hlen.
        split; [lia | done].
      * rewrite Hcells. apply list_elem_of_fmap. exists (col k).
        split; [by destruct k|]. apply elem_of_seq. lia.
    + pose proof (Hall 0 ltac:(lia)) as H0. pose proof (Hall 1 ltac:(lia)) as H1.
      pose proof (Hall 2 ltac:(lia)) as H2.
      rewrite Nat.add_0_r in H0.
      assert (Hrn : col k < n /\ r + 2 < n).
      { apply cell_Some in H2 as (line & Hl & _ & Hlt).
        split; [by rewrite (Square_row n g _ _ Hsq Hl) in Hlt|].
        rewrite <- Hlen. by eapply lookup_lt_Some. }
      destruct (scanLine_complete (fun r => cell g r (col k))
                  (fun r => mkCell r (col k)) n n 0 r)
        as (m & s & len & Hm & Hcells & Hs & Hlen');
        try lia; try (by rewrite H0); try congruence.
      { rewrite H0. by apply isNeg_Some_false. }
      exists m. split.
      * apply findMatches_elem. right. exists (col k). rewrite Hlen.
        split; [lia | done].
      * rewrite Hcells. apply list_elem_of_fmap. exists (row k).
        split; [by destruct k|]. apply elem_of_seq. lia.
Qed.

Lemma findMatches_nil n g :
  Square n g -> findMatches g = [] <-> forall k, ~ InRun g k.
Proof.
  intros Hsq. split.
  - intros E k Hk.
    apply (proj2 (findMatches_cells n g k Hsq)) in Hk as (m & Hm & _).
    rewrite E in Hm. by apply elem_of_nil in Hm.
  - intros Hno. destruct (findMatches g) as [|m ms] eqn:E; [done|]. exfalso.
    assert (Hm : m ∈ findMatches g) by (rewrite E; by left).
    assert (Hc : exists k, k ∈ cells m).
    { apply findMatches_elem in Hm as [(r & _ & Hm) | (c & _ & Hm)];
        apply scanLine_sound in Hm as (s & len & _ & _ & H3 & -> & _);
        (destruct len as [|len]; [lia|]); eexists; cbn; by left. }
    destruct Hc as (k & Hk). apply (Hno k).
    apply (findMatches_cells n g k Hsq). exists m. by rewrite E in Hm |- *.
Qed.

(** X9. On a square board the cells that [findMatches] and
    [getMatchedSet] mark for clearing are exactly the cells that lie in
    three cells in line, in a row or in a column, holding the same gem;
    empty cells never match. Each marked cell is marked once, and
    [findMatches] finds nothing exactly when no cell lies in such a run. *)
Theorem matched_cells_are_runs (n : nat) (g : Grid) :
  Square n g ->
  (forall k, k ∈ getMatchedSet (findMatches g) <-> InRun g k)
  /\ NoDup (getMatchedSet (findMatches g))
  /\ (findMatches g = [] <-> forall k, ~ InRun g k)
  /\ (forall m, m ∈ findMatches g -> 3 <= length (cells m)).
Proof.
  intros Hsq. destruct (getMatchedSet_spec (findMatches g)) as [Hin Hnd].
  split; [|split; [done|split]].
  - intros k. rewrite Hin. exact (findMatches_cells n g k Hsq).
  - by apply (findMatches_nil n).
  - intros m Hm.
    apply findMatches_elem in Hm as [(r & _ & Hm) | (c & _ & Hm)];
      apply scanLine_sound in Hm as (s & len & _ & _ & H3 & -> & _);
      by rewrite length_fmap, length_seq.
Qed.

Lemma matched_cells_are_runs_witness :
  mkCell 0 1 ∈ getMatchedSet (findMatches Samples.lined).
Proof.
  assert (Hsq : Square 3 Samples.lined) by (split; [done | by repeat constructor]).
  destruct (matched_cells_are_runs 3 Samples.lined Hsq) as (H & _).
  apply H. exists 1%Z. split; [lia|]. left. exists 0. split; [simpl; lia|].
  intros i Hi. destruct i as [|[|[|i]]]; [reflexivity.. | lia].
Defined.

End MatchFacts.

(** ** Match-Three: the valid moves *)

Module MoveFacts.

Import MatchThree GridFacts BoardFacts GravityFacts MatchFacts.

Lemma extendLow_spec get t lo :
  extendLow get t lo <= lo
  /\ (forall j, extendLow get t lo <= j < lo -> get j = Some t)
  /\ (0 < extendLow get t lo -> get (extendLow get t lo - 1) <> Some t).
Proof.
  induction lo as [|j IH]; cbn [extendLow].
  - split; [lia|]. split; [intros j Hj; lia | lia].
  - destruct (same (get j) (Some t)) eqn:E.
    + apply same_true in E. destruct IH as (Hle & Hall & Hstop).
      split; [lia|]. split; [|done].
      intros i Hi. destruct (decide (i = j)) as [-> | Hne]; [done|].
      apply Hall. lia.
    + split; [lia|]. split; [intros i Hi; lia|].
      intros _. replace (S j - 1) with j by lia.
      intros Hget. apply same_true in Hget. congruence.
Qed.

Lemma extendHigh_spec get t k hi :
  hi <= extendHigh get t k hi <= hi + k
  /\ (forall j, hi < j <= extendHigh get t k hi -> get j = Some t)
  /\ (extendHigh get t k hi < hi + k ->
      get (S (extendHigh get t k hi)) <> Some t).
Proof.
  revert hi. induction k as [|k IH]; intros hi; cbn [extendHigh].
  - split; [lia|]. split; [intros j Hj; lia | lia].
  - destruct (same (get (S hi)) (Some t)) eqn:E.
    + apply same_true in E. destruct (IH (S hi)) as (Hle & Hall & Hstop).
      split; [lia|]. split.
      * intros j Hj. destruct (decide (j = S hi)) as [-> | Hne]; [done|].
        apply Hall. lia.
      * intros Hlt. apply Hstop. lia.
    + split; [lia|]. split; [intros j Hj; lia|].
      intros _ Hget. apply same_true in Hget. congruence.
Qed.

(** The probe of [wouldMatch] along one line: position [i], which holds
    [t], lies in three cells in line that hold [t]. *)
Lemma lineHit_spec get t n i :
  i < n -> get i = Some t ->
  lineHit get t n i = true
  <-> exists s, s <= i <= s + 2 /\ s + 2 < n
        /\ forall j, j < 3 -> get (s + j) = Some t.
Proof.
  intros Hi Hget. unfold lineHit.
  destruct (extendLow_spec get t i) as (Hlo & Hlall & Hlstop).
  destruct (extendHigh_spec get t (n - 1 - i) i) as (Hhi & Hhall & Hhstop).
  set (lo := extendLow get t i) in *.
  set (hi := extendHigh get t (n - 1 - i) i) in *.
  assert (Hall : forall j, lo <= j <= hi -> get j = Some t).
  { intros j Hj. destruct (decide (j = i)) as [-> | Hne]; [done|].
    destruct (decide (j < i)); [apply Hlall | apply Hhall]; lia. }
  rewrite Nat.leb_le. split.
  - intros H3. exists (if decide (i + 2 <= hi) then i else hi - 2).
    case_decide; (split; [lia|]); (split; [lia|]);
      intros j Hj; apply Hall; lia.
  - intros (s & Hs & Hsn & Hrun).
    assert (lo <= s).
    { destruct (decide (lo <= s)) as [|Hgt]; [done|]. exfalso.
      apply Hlstop; [lia|].
      replace (lo - 1) with (s + (lo - 1 - s)) by lia. apply Hrun. lia. }
    assert (s + 2 <= hi).
    { destruct (decide (s + 2 <= hi)) as [|Hlt]; [done|]. exfalso.
      apply Hhstop; [lia|].
      replace (S hi) with (s + (S hi - s)) by lia. apply Hrun. lia. }
    lia.
Qed.

Lemma swapped_cells n g r1 c1 r2 c2 t1 t2 :
  Square n g -> (r1, c1) <> (r2, c2) ->
  cell g r1 c1 = Some t1 -> cell g r2 c2 = Some t2 ->
  let g1 := setCell (setCell g r1 c1 t2) r2 c2 t1 in
  cell g1 r1 c1 = Some t2 /\ cell g1 r2 c2 = Some t1
  /\ (forall r c, (r, c) <> (r1, c1) -> (r, c) <> (r2, c2) ->
        cell g1 r c = cell g r c).
Proof.
  intros Hsq Hne H1 H2 g1. subst g1.
  assert (Hs2 : is_Some (cell (setCell g r1 c1 t2) r2 c2)).
  { rewrite cell_setCell_ne; [by eexists | by eexists | done]. }
  split; [|split].
  - rewrite cell_setCell_ne; [|done | congruence].
    apply cell_setCell_eq. by eexists.
  - by apply cell_setCell_eq.
  - intros r c Hn1 Hn2. rewrite cell_setCell_ne; [|done | congruence].
    rewrite cell_setCell_ne; [done | by eexists | congruence].
Qed.

Lemma cell_in_board n g r c v :
  Square n g -> cell g r c = Some v -> r < n /\ c < n.
Proof.
  intros Hsq H. apply cell_Some in H as (line & Hl & _ & Hlt).
  rewrite (Square_row n g _ _ Hsq Hl) in Hlt. split; [|done].
  destruct Hsq as [<- _]. by eapply lookup_lt_Some.
Qed.

(** What [wouldMatch] answers for two different cells of the board. *)
Lemma wouldMatch_found n g r1 c1 r2 c2 t1 t2 :
  Square n g -> (r1, c1) <> (r2, c2) ->
  cell g r1 c1 = Some t1 -> cell g r2 c2 = Some t2 ->
  let g1 := setCell (setCell g r1 c1 t2) r2 c2 t1 in
  exists found, wouldMatch g r1 c1 r2 c2 = Some (found, g)
    /\ (found = true <->
        t1 <> t2
        /\ (lineHit (cell g1 r1) t2 n c1 = true
            \/ lineHit (fun r => cell g1 r c1) t2 n r1 = true
            \/ lineHit (cell g1 r2) t1 n c2 = true
            \/ lineHit (fun r => cell g1 r c2) t1 n r2 = true)).
Proof.
  intros Hsq Hne H1 H2 g1. unfold wouldMatch. rewrite H1, H2.
  assert (Hlen : length g = n) by apply Hsq.
  case_bool_decide as Ht.
  - exists false. split; [done|]. split; [done | intros [? _]; done].
  - rewrite Hlen. fold g1. eexists. split.
    + f_equal. f_equal. subst g1. by apply swap_twice.
    + rewrite !orb_true_iff. split; [intros H; split; [done | tauto] | tauto].
Qed.

Lemma hit_row_InRun n g r c t :
  c < n -> cell g r c = Some t -> (0 <= t)%Z ->
  lineHit (cell g r) t n c = true -> InRun g (mkCell r c).
Proof.
  intros Hc Hget Ht H. apply lineHit_spec in H as (s & Hs & _ & Hrun); [|done..].
  exists t. split; [done|]. left. by exists s.
Qed.

Lemma hit_col_InRun n g r c t :
  r < n -> cell g r c = Some t -> (0 <= t)%Z ->
  lineHit (fun r => cell g r c) t n r = true -> InRun g (mkCell r c).
Proof.
  intros Hr Hget Ht H. apply lineHit_spec in H as (s & Hs & _ & Hrun); [|done..].
  exists t. split; [done|]. right. by exists s.
Qed.

(** A swap that [wouldMatch] accepts gives a board with a match. *)
Lemma wouldMatch_sound n g r1 c1 r2 c2 g' :
  Square n g -> Full g -> (r1, c1) <> (r2, c2) ->
  wouldMatch g r1 c1 r2 c2 = Some (true, g') ->
  g' = g /\ MakesMatch g (mkCell r1 c1) (mkCell r2 c2).
Proof.
  intros Hsq Hfull Hne H.
  destruct (cell g r1 c1) as [t1|] eqn:H1;
    [|unfold wouldMatch in H; by rewrite H1 in H].
  destruct (cell g r2 c2) as [t2|] eqn:H2;
    [|unfold wouldMatch in H; by rewrite H1, H2 in H].
  destruct (wouldMatch_found n g r1 c1 r2 c2 t1 t2 Hsq Hne H1 H2)
    as (found & E & Hfound).
  rewrite E in H. injection H as -> <-. split; [done|].
  destruct (swapped_cells n g r1 c1 r2 c2 t1 t2 Hsq Hne H1 H2)
    as (Hc1 & Hc2 & _).
  destruct (cell_in_board n g r1 c1 t1 Hsq H1) as [Hr1 Hcc1].
  destruct (cell_in_board n g r2 c2 t2 Hsq H2) as [Hr2 Hcc2].
  set (g1 := setCell (setCell g r1 c1 t2) r2 c2 t1) in *.
  assert (Hsq1 : Square n g1).
  { subst g1. apply setCell_Square; [|done..]. by apply setCell_Square. }
  exists g1. split; [unfold swapCells; cbn [row col]; by rewrite H1, H2|].
  intros Hnil0. pose proof (proj1 (findMatches_nil n g1 Hsq1) Hnil0) as Hnil.
  destruct (proj1 Hfound eq_refl) as [_ [Hh | [Hh | [Hh | Hh]]]].
  - apply (Hnil (mkCell r1 c1)). eapply hit_row_InRun; eauto.
  - apply (Hnil (mkCell r1 c1)). eapply hit_col_InRun; eauto.
  - apply (Hnil (mkCell r2 c2)). eapply hit_row_InRun; eauto.
  - apply (Hnil (mkCell r2 c2)). eapply hit_col_InRun; eauto.
Qed.

(** On a board without a match, a swap that [wouldMatch] refuses gives a
    board without a match. *)
Lemma wouldMatch_complete n g r1 c1 r2 c2 g' :
  Square n g -> findMatches g = [] -> (r1, c1) <> (r2, c2) ->
  wouldMatch g r1 c1 r2 c2 = Some (false, g') ->
  g' = g /\ ~ MakesMatch g (mkCell r1 c1) (mkCell r2 c2).
Proof.
  intros Hsq Hnil Hne H.
  destruct (cell g r1 c1) as [t1|] eqn:H1;
    [|unfold wouldMatch in H; by rewrite H1 in H].
  destruct (cell g r2 c2) as [t2|] eqn:H2;
    [|unfold wouldMatch in H; by rewrite H1, H2 in H].
  destruct (wouldMatch_found n g r1 c1 r2 c2 t1 t2 Hsq Hne H1 H2)
    as (found & E & Hfound).
  rewrite E in H. injection H as -> <-. split; [done|].
  intros (g1' & Hsw & Hm). unfold swapCells in Hsw. cbn [row col] in Hsw.
  rewrite H1, H2 in Hsw. injection Hsw as <-.
  destruct (swapped_cells n g r1 c1 r2 c2 t1 t2 Hsq Hne H1 H2)
    as (Hc1 & Hc2 & Hother).
  destruct (cell_in_board n g r1 c1 t1 Hsq H1) as [Hr1 Hcc1].
  destruct (cell_in_board n g r2 c2 t2 Hsq H2) as [Hr2 Hcc2].
  set (g1 := setCell (setCell g r1 c1 t2) r2 c2 t1) in *.
  assert (Hsq1 : Square n g1).
  { subst g1. apply setCell_Square; [|done..]. by apply setCell_Square. }
  destruct (decide (t1 = t2)) as [-> | Ht].
  { apply Hm. subst g1. rewrite (setCell_id g r1 c1 t2 H1).
    by rewrite (setCell_id g r2 c2 t2 H2). }
  assert (Hno : lineHit (cell g1 r1) t2 n c1 = false
                /\ lineHit (fun r => cell g1 r c1) t2 n r1 = false
                /\ lineHit (cell g1 r2) t1 n c2 = false
                /\ lineHit (fun r => cell g1 r c2) t1 n r2 = false).
  { repeat split; apply not_true_is_false; intros Hh;
      assert (false = true); try discriminate; apply Hfound; split; tauto. }
  destruct Hno as (N1 & N2 & N3 & N4).
  apply Hm. apply (proj2 (findMatches_nil n g1 Hsq1)). intros k (v & Hv & Hrun).
  pose proof (proj1 (findMatches_nil n g Hsq) Hnil k) as Hk.
  destruct Hrun as [(c & Hc & Hall) | (r & Hr & Hall)].
  - (* a run in row [row k] *)
    assert (Hin : c + 2 < n).
    { destruct (cell_in_board n g1 _ _ _ Hsq1 (Hall 2 ltac:(lia))). lia. }
    destruct (decide (row k = r1 /\ c <= c1 <= c + 2)) as [[Er Hc1'] | Hn1].
    { assert (v = t2) as ->.
      { pose proof (Hall (c1 - c) ltac:(lia)) as Hx.
        replace (c + (c1 - c)) with c1 in Hx by lia. rewrite Er in Hx.
        congruence. }
      assert (lineHit (cell g1 r1) t2 n c1 = true); [|congruence].
      apply lineHit_spec; [done..|]. exists c. rewrite <- Er. done. }
    destruct (decide (row k = r2 /\ c <= c2 <= c + 2)) as [[Er Hc2'] | Hn2].
    { assert (v = t1) as ->.
      { pose proof (Hall (c2 - c) ltac:(lia)) as Hx.
        replace (c + (c2 - c)) with c2 in Hx by lia. rewrite Er in Hx.
        congruence. }
      assert (lineHit (cell g1 r2) t1 n c2 = true); [|congruence].
      apply lineHit_spec; [done..|]. exists c. rewrite <- Er. done. }
    apply Hk. exists v. split; [done|]. left. exists c. split; [done|].
    intros i Hi. rewrite <- Hother; [by apply Hall | |];
      intros [= E1 E2]; [apply Hn1 | apply Hn2]; lia.
  - (* a run in column [col k] *)
    assert (Hin : r + 2 < n).
    { destruct (cell_in_board n g1 _ _ _ Hsq1 (Hall 2 ltac:(lia))). lia. }
    destruct (decide (col k = c1 /\ r <= r1 <= r + 2)) as [[Ec Hr1'] | Hn1].
    { assert (v = t2) as ->.
      { pose proof (Hall (r1 - r) ltac:(lia)) as Hx.
        replace (r + (r1 - r)) with r1 in Hx by lia. rewrite Ec in Hx.
        congruence. }
      assert (lineHit (fun r => cell g1 r c1) t2 n r1 = true); [|congruence].
      apply lineHit_spec; [done..|]. exists r. rewrite <- Ec. done. }
    destruct (decide (col k = c2 /\ r <= r2 <= r + 2)) as [[Ec Hr2'] | Hn2].
    { assert (v = t1) as ->.
      { pose proof (Hall (r2 - r) ltac:(lia)) as Hx.
        replace (r + (r2 - r)) with r2 in Hx by lia. rewrite Ec in Hx.
        congruence. }
      assert (lineHit (fun r => cell g1 r c2) t1 n r2 = true); [|congruence].
      apply lineHit_spec; [done..|]. exists r. rewrite <- Ec. done. }
    apply Hk. exists v. split; [done|]. right. exists r. split; [done|].
    intros i Hi. rewrite <- Hother; [by apply Hall | |];
      intros [= E1 E2]; [apply Hn1 | apply Hn2]; lia.
Qed.

Lemma probeCell_spec n g r c mv g' :
  Square n g -> r < n -> c < n ->
  probeCell n g (r, c) = Some (mv, g') ->
  g' = g
  /\ match mv with
     | Some (a, b) => ProbedTrue n g r c a b
     | None => ProbedFalse n g r c
     end.
Proof.
  intros Hsq Hr Hc. unfold probeCell, ProbedTrue, ProbedFalse.
  destruct (Square_cell n g r c Hsq Hr Hc) as [v Hv].
  assert (HR : c + 1 < n -> exists hitR,
            wouldMatch g r c r (c + 1) = Some (hitR, g)).
  { intros H. apply wouldMatch_restores; [by eexists|].
    apply (Square_cell n); [done.. | lia]. }
  assert (HD : r + 1 < n -> exists hitD,
            wouldMatch g r c (r + 1) c = Some (hitD, g)).
  { intros H. apply wouldMatch_restores; [by eexists|].
    apply (Square_cell n); [done | lia | done]. }
  destruct (Nat.ltb_spec c (n - 1)) as [Hc1 | Hc1];
    destruct (Nat.ltb_spec r (n - 1)) as [Hr1 | Hr1].
  - destruct HR as (hitR & ER); [lia|]. destruct HD as (hitD & ED); [lia|].
    rewrite ER. cbn. destruct hitR.
    + intros [= <- <-]. split; [done|]. split; [done|]. left.
      split; [done|]. split; [lia | done].
    + rewrite ED. cbn. destruct hitD; intros [= <- <-]; (split; [done|]).
      * split; [done|]. right. split; [done|]. split; [lia | done].
      * split; done.
  - destruct HR as (hitR & ER); [lia|].
    rewrite ER. cbn. destruct hitR; intros [= <- <-]; (split; [done|]).
    + split; [done|]. left. split; [done|]. split; [lia | done].
    + split; [done | lia].
  - destruct HD as (hitD & ED); [lia|].
    cbn. rewrite ED. cbn. destruct hitD; intros [= <- <-]; (split; [done|]).
    + split; [done|]. right. split; [done|]. split; [lia | done].
    + split; [lia | done].
  - cbn. intros [= <- <-]. split; [done|]. split; lia.
Qed.

Lemma probeCells_spec n g rcs mv g' :
  Square n g -> Forall (fun rc => rc.1 < n /\ rc.2 < n) rcs ->
  probeCells n rcs g = Some (mv, g') ->
  g' = g
  /\ match mv with
     | Some (a, b) => exists r c, (r, c) ∈ rcs /\ ProbedTrue n g r c a b
     | None => forall r c, (r, c) ∈ rcs -> ProbedFalse n g r c
     end.
Proof.
  intros Hsq. induction rcs as [|[r c] rcs IH]; intros Hin; cbn [probeCells].
  - intros [= <- <-]. split; [done|]. intros r c H. by apply elem_of_nil in H.
  - apply Forall_cons in Hin as [[Hr Hc] Hin]. cbn in Hr, Hc.
    destruct (probeCell n g (r, c)) as [[m g1]|] eqn:E; [|done]. cbn.
    apply probeCell_spec in E as [-> Hm]; [|done..].
    destruct m as [[a b]|].
    + intros [= <- <-]. split; [done|]. exists r, c. split; [by left | done].
    + intros H. destruct (IH Hin H) as [-> Hmv]. split; [done|].
      destruct mv as [[a b]|].
      * destruct Hmv as (r' & c' & Hrc & Hp). exists r', c'.
        split; [by right | done].
      * intros r' c' Hrc. apply elem_of_cons in Hrc as [[= -> ->] | Hrc];
          [done | by apply Hmv].
Qed.

Lemma allCells_elem n r c : (r, c) ∈ allCells n <-> r < n /\ c < n.
Proof.
  unfold allCells. rewrite list_elem_of_bind. split.
  - intros (r' & Hc & Hr). apply list_elem_of_fmap in Hc as (c' & [= -> ->] & Hc).
    apply elem_of_seq in Hc, Hr. lia.
  - intros [Hr Hc]. exists r. split; [|apply elem_of_seq; lia].
    apply list_elem_of_fmap. exists c. split; [done | apply elem_of_seq; lia].
Qed.

Lemma swapCells_sym g a b g1 :
  a <> b -> swapCells g a b = Some g1 -> swapCells g b a = Some g1.
Proof.
  unfold swapCells. intros Hne.
  destruct (cell g (row a) (col a)) as [va|] eqn:Ha; [|done].
  destruct (cell g (row b) (col b)) as [vb|] eqn:Hb; [|done].
  intros [= <-]. f_equal. apply setCell_comm; [by eexists.. |].
  intros [= E1 E2]. apply Hne. destruct a, b; cbn in *; congruence.
Qed.

(** X10. A move that [findValidMove] reports can be played: on a
    square board whose cells all hold gems, the two cells it returns are
    neighbouring cells of the board, swapping them gives a board on which
    [findMatches] finds a match, and the board is handed back as it was. *)
Theorem valid_move_makes_match (n : nat) (g g' : Grid) (a b : CellPos) :
  Square n g -> Full g ->
  findValidMove g = Some (Some (a, b), g') ->
  g' = g /\ OnBoard n a /\ OnBoard n b /\ Neighbours a b /\ MakesMatch g a b.
Proof.
  intros Hsq Hfull H. assert (Hlen : length g = n) by apply Hsq.
  unfold findValidMove in H. rewrite Hlen in H.
  apply probeCells_spec in H as [-> (r & c & Hrc & -> & Hp)];
    [|done | apply allCells_range].
  apply allCells_elem in Hrc as [Hr Hc]. split; [done|].
  destruct Hp as [(-> & Hc1 & Hw) | (-> & Hr1 & Hw)];
    (apply (wouldMatch_sound n) in Hw as [_ Hm];
       [|done | done | intros [= ]; lia]);
    unfold OnBoard, Neighbours; cbn [row col];
    (split; [lia|]); (split; [lia|]); (split; [|done]).
  - left. split; [done | by left].
  - right. split; [done | by left].
Qed.

Lemma valid_move_makes_match_witness :
  MakesMatch Samples.movable (mkCell 0 2) (mkCell 1 2).
Proof.
  assert (Hsq : Square 3 Samples.movable)
    by (split; [done | by repeat constructor]).
  assert (Hfull : Full Samples.movable).
  { intros r c v H. destruct r as [|[|[|r]]]; [| | |done];
      (destruct c as [|[|[|c]]]; [| | |done]); injection H as <-; lia. }
  assert (E : findValidMove Samples.movable
              = Some (Some (mkCell 0 2, mkCell 1 2), Samples.movable))
    by (vm_compute; reflexivity).
  apply (valid_move_makes_match 3 Samples.movable Samples.movable
           (mkCell 0 2) (mkCell 1 2) Hsq Hfull E).
Defined.

(** X11. [findValidMove] misses no move: when it returns
    [null] on a square board without a match, no swap of two neighbouring
    cells of the board gives a board on which [findMatches] finds a match,
    and the board is handed back as it was. *)
Theorem no_valid_move_means_stuck (n : nat) (g g' : Grid) :
  Square n g -> findMatches g = [] ->
  findValidMove g = Some (None, g') ->
  g' = g
  /\ forall a b, OnBoard n a -> OnBoard n b -> Neighbours a b ->
       ~ MakesMatch g a b.
Proof.
  intros Hsq Hnil H. assert (Hlen : length g = n) by apply Hsq.
  unfold findValidMove in H. rewrite Hlen in H.
  apply probeCells_spec in H as [-> Hall]; [|done | apply allCells_range].
  split; [done|].
  assert (Hright : forall r c, r < n -> c + 1 < n ->
            ~ MakesMatch g (mkCell r c) (mkCell r (c + 1))).
  { intros r c Hr Hc.
    destruct (Hall r c) as [Hw _]; [apply allCells_elem; lia|].
    apply (wouldMatch_complete n) in Hw as [_ Hm];
      [done | done | done | intros [= ]; lia | done]. }
  assert (Hdown : forall r c, r + 1 < n -> c < n ->
            ~ MakesMatch g (mkCell r c) (mkCell (r + 1) c)).
  { intros r c Hr Hc.
    destruct (Hall r c) as [_ Hw]; [apply allCells_elem; lia|].
    apply (wouldMatch_complete n) in Hw as [_ Hm];
      [done | done | done | intros [= ]; lia | done]. }
  intros [ra ca] [rb cb] [Hra Hca] [Hrb Hcb] Hnb.
  unfold Neighbours in Hnb. cbn [row col] in *.
  assert (Hflip : forall a b, a <> b -> ~ MakesMatch g a b -> ~ MakesMatch g b a).
  { intros a b Hne Hno (g1 & Hsw & Hm). apply Hno. exists g1.
    split; [|done]. apply swapCells_sym; [congruence | done]. }
  destruct Hnb as [[-> [-> | ->]] | [-> [-> | ->]]]; cbn [row col] in *.
  - apply Hright; lia.
  - apply Hflip; [intros [= ]; lia | apply Hright; lia].
  - apply Hdown; lia.
  - apply Hflip; [intros [= ]; lia | apply Hdown; lia].
Qed.

Lemma no_valid_move_means_stuck_witness :
  ~ MakesMatch Samples.deadBoard (mkCell 3 4) (mkCell 3 3).
Proof.
  assert (Hnil : findMatches Samples.deadBoard = []) by (vm_compute; reflexivity).
  assert (E : findValidMove Samples.deadBoard = Some (None, Samples.deadBoard))
    by (vm_compute; reflexivity).
  destruct (no_valid_move_means_stuck 7 Samples.deadBoard Samples.deadBoard
              SwapFacts.deadBoard_Square Hnil E) as [_ H].
  apply H; [split; simpl; lia | split; simpl; lia |].
  left. split; [reflexivity | right; reflexivity].
Defined.

End MoveFacts.

(** ** Match-Three: the shuffle *)

Module ShuffleFacts.

Import MatchThree GridFacts BoardFacts SwapFacts SettleFacts.

(** Exchanging two elements rearranges the array. *)
Lemma swapAt_Permutation l i j : swapAt l i j ≡ₚ l.
Proof.
  unfold swapAt.
  destruct (l !! i) as [vi|] eqn:Hi; [|done].
  destruct (l !! j) as [vj|] eqn:Hj; [|done].
  assert (Hil : i < length l) by (by eapply lookup_lt_Some).
  assert (Hjl : j < length l) by (by eapply lookup_lt_Some).
  apply Permutation_inj. split; [by rewrite !length_insert|].
  exists (fun k => if decide (k = i) then j else if decide (k = j) then i else k).
  split.
  - intros a b. repeat case_decide; intros; subst; congruence.
  - intros k. rewrite !list_lookup_insert, length_insert.
    repeat case_decide; subst; try done; try lia; try tauto;
      repeat match goal with H : _ /\ _ |- _ => destruct H end;
      subst; congruence.
Qed.

(** The Fisher-Yates pass rearranges the array. *)
Lemma shuffleFlat_Permutation flat src p flat' p' :
  shuffleFlat flat src p = Some (flat', p') -> flat' ≡ₚ flat.
Proof.
  unfold shuffleFlat. intros H.
  apply (forM_invariant (fun l => l ≡ₚ flat)) in H; [done | | done].
  intros i l src1 p1 l' p1' Hl Hs. unfold shuffleStep in Hs.
  apply bind_Some in Hs as (j & p2 & _ & Hs). apply ret_Some in Hs as [<- _].
  by rewrite swapAt_Permutation.
Qed.

Lemma regrid_chunks n (flat : list Z) m :
  concat ((fun r => take n (drop (r * n) flat)) <$> seq 0 m)
  = take (m * n) flat.
Proof.
  induction m as [|m IH]; [done|].
  rewrite seq_S, fmap_app, concat_app, IH. cbn [fmap list_fmap concat].
  rewrite app_nil_r, take_take_drop. f_equal. lia.
Qed.

(** Cutting the array into rows loses nothing. *)
Lemma regrid_concat n flat :
  length flat = n * n -> concat (regrid n flat) = flat.
Proof.
  intros Hlen. unfold regrid. rewrite regrid_chunks.
  apply take_ge. lia.
Qed.

Lemma shuffleAttempts_rearranges n types fuel src attempts g p g' p' :
  Square n g ->
  shuffleAttempts attempts fuel g types src p = Some (g', p') ->
  (concat g' ≡ₚ concat g /\ HasMove g')
  \/ exists p0, createBoard fuel n types src p0 = Some (g', p').
Proof.
  intros Hsq. assert (Hn : length g = n) by (by destruct Hsq).
  revert p. induction attempts as [|k IH]; intros p H; cbn [shuffleAttempts] in H.
  - rewrite Hn in H. right. by exists p.
  - apply bind_Some in H as (flat & p1 & Hflat & H).
    pose proof (shuffleFlat_Permutation _ _ _ _ _ Hflat) as Hperm.
    apply shuffleFlat_length in Hflat.
    rewrite (concat_rows_length n) in Hflat by (by destruct Hsq).
    rewrite Hn in Hflat, H.
    assert (Hng : Square n (regrid n flat)) by (by apply regrid_Square).
    destruct (noMatches (findMatches (regrid n flat))) eqn:Em; [|by eapply IH].
    destruct (findValidMove_restores n _ Hng) as [mv Hmv].
    apply bind_Some in H as ([mv' ng'] & p2 & Hl & H).
    apply lift_Some in Hl as [Hl ->]. rewrite Hmv in Hl. injection Hl as <- <-.
    destruct mv as [mv|]; cbn [isNull] in H; [|by eapply IH].
    apply ret_Some in H as [<- _]. left. split; [|by exists mv].
    by rewrite regrid_concat.
Qed.

Lemma shuffleBoard_rearranges n types fuel src g p g' p' :
  Square n g ->
  shuffleBoard fuel g types src p = Some (g', p') ->
  (concat g' ≡ₚ concat g /\ HasMove g')
  \/ exists p0, createBoard fuel n types src p0 = Some (g', p').
Proof. unfold shuffleBoard. apply shuffleAttempts_rearranges. Qed.

(** Every shuffle of a square board is a rearrangement of its gems. *)
Lemma ShuffleOf_rearranges n g src q ng q' :
  Square n g -> ShuffleOf g src q ng q' -> concat ng ≡ₚ concat g.
Proof.
  intros Hsq (flat & Hflat & ->).
  assert (Hn : length g = n) by (by destruct Hsq).
  pose proof (shuffleFlat_Permutation _ _ _ _ _ Hflat) as Hperm.
  apply shuffleFlat_length in Hflat.
  rewrite (concat_rows_length n) in Hflat by (by destruct Hsq).
  rewrite Hn in Hflat |- *. by rewrite regrid_concat.
Qed.

(** X12. [shuffleBoard] only rearranges the gems, unless it gives
    up. Every Fisher-Yates pass returns a permutation of the array it is
    given, so every shuffle of a square board holds the gems of that
    board. The board that [shuffleBoard] returns for a square board is
    square and has no match, and it is either the first accepted one of
    its 100 shuffles of the board (all shuffles before it were turned
    down, for a match or for want of a valid move), which has a valid
    move and holds the gems of the old board, or, after 100 shuffles that
    were all turned down, the fresh board of [createBoard]. *)
Theorem shuffle_rearranges_gems (n : nat) (types : Z) (fuel : nat)
    (src : nat -> U01) (g g' : Grid) (p p' : nat) :
  Square n g ->
  shuffleBoard fuel g types src p = Some (g', p') ->
  (forall flat flat' q q',
     shuffleFlat flat src q = Some (flat', q') -> flat' ≡ₚ flat)
  /\ (forall q ng q', ShuffleOf g src q ng q' -> concat ng ≡ₚ concat g)
  /\ Square n g' /\ findMatches g' = []
  /\ ((exists k q,
         k < 100 /\ Rejected g src k p q /\ ShuffleOf g src q g' p'
         /\ HasMove g' /\ concat g' ≡ₚ concat g)
      \/ (exists q,
            Rejected g src 100 p q
            /\ createBoard fuel n types src q = Some (g', p'))).
Proof.
  intros Hsq H. split; [intros flat flat' q q'; apply shuffleFlat_Permutation|].
  split; [intros q ng q'; by apply (ShuffleOf_rearranges n)|].
  destruct (shuffleBoard_spec n types fuel src g p g' p' Hsq H) as (H1 & H2 & _).
  split; [done|]. split; [done|].
  assert (Hn : length g = n) by (by destruct Hsq).
  destruct (shuffleBoard_trace n types fuel src g p g' p' Hsq H)
    as [(k & q & Hk & Hr & Hs & _ & Hmv) | (q & Hr & Hc)].
  - left. exists k, q. split; [exact Hk|]. split; [exact Hr|].
    split; [exact Hs|]. split; [exact Hmv|].
    by apply (ShuffleOf_rearranges n g src q g' p').
  - right. exists q. split; [exact Hr|]. by rewrite <- Hn.
Qed.

Lemma shuffle_rearranges_gems_witness :
  exists g' p',
    shuffleBoard 10 Samples.movable 5 Samples.secondTry 0 = Some (g', p')
    /\ Rejected Samples.movable Samples.secondTry 1 0 8
    /\ ShuffleOf Samples.movable Samples.secondTry 8 g' p'
    /\ HasMove g' /\ concat g' ≡ₚ concat Samples.movable.
Proof.
  assert (Hsq : Square 3 Samples.movable)
    by (split; [done | by repeat constructor]).
  let r := eval vm_compute in
      (shuffleBoard 10 Samples.movable 5 Samples.secondTry 0) in
  match r with Some (?g', ?p') => exists g', p' end.
  match goal with
  | |- ?A /\ _ => assert (E : A) by (vm_compute; reflexivity)
  end.
  split; [exact E|].
  (* the first shuffle has a match *)
  assert (Hfirst : Rejected Samples.movable Samples.secondTry 1 0 8).
  { eapply Rejected_more; [| |apply Rejected_none].
    - eexists. split; [vm_compute; reflexivity | reflexivity].
    - intros [Hm _]. vm_compute in Hm. discriminate Hm. }
  split; [exact Hfirst|].
  (* the second one is accepted *)
  assert (Hsecond : ShuffleOf Samples.movable Samples.secondTry 8
                      [[1; 0; 2]; [2; 0; 2]; [1; 1; 0]]%Z 16).
  { eexists. split; [vm_compute; reflexivity | vm_compute; reflexivity]. }
  split; [exact Hsecond|].
  destruct (shuffle_rearranges_gems 3 5 10 Samples.secondTry Samples.movable
              _ 0 _ Hsq E)
    as (_ & Hperm & _ & _ & _).
  split; [|exact (Hperm _ _ _ Hsecond)].
  eexists. vm_compute. reflexivity.
Defined.

End ShuffleFacts.

(** ** Match-Three: the score and the countdown *)

Module GameFacts.

Import MatchThree GridFacts BoardFacts SwapFacts.

(** The steps of one frame. *)
Lemma draw_steps fuel s now gm src p gm' p' :
  draw fuel s now gm src p = Some (gm', p') ->
  exists gm1 gm3 p3 gm4,
    stepSwapping now (tickTimer now gm) = Some gm1
    /\ stepClearing (gemTypes s) now (stepSwappingBack now gm1) src p
       = Some (gm3, p3)
    /\ stepFalling fuel (gemTypes s) now gm3 src p3 = Some (gm4, p')
    /\ stepHint now gm4 = Some gm'.
Proof.
  unfold draw. intros H.
  apply bind_Some in H as (gm1 & p1 & H1 & H). apply lift_Some in H1 as [H1 ->].
  apply bind_Some in H as (gm3 & p3 & H3 & H).
  apply bind_Some in H as (gm4 & p4 & H4 & H). apply lift_Some in H as [H ->].
  by exists gm1, gm3, p3, gm4.
Qed.

Lemma SameClock_refl gm : SameClock gm gm.
Proof. by unfold SameClock. Qed.

Lemma SameClock_trans gm1 gm2 gm3 :
  SameClock gm1 gm2 -> SameClock gm2 gm3 -> SameClock gm1 gm3.
Proof. unfold SameClock. intros (-> & -> & ->) (-> & -> & ->). done. Qed.

Lemma stepSwapping_clock now gm gm' :
  stepSwapping now gm = Some gm' -> SameClock gm gm'.
Proof.
  unfold stepSwapping. destruct (_ && _); [|intros [= <-]; apply SameClock_refl].
  destruct (swapCells (grid gm) _ _) as [g1|]; [|done]. cbn.
  destruct (noMatches (findMatches g1)).
  - destruct (swapCells g1 _ _) as [g2|]; [|done]. cbn. by intros [= <-].
  - by intros [= <-].
Qed.

Lemma stepSwappingBack_clock now gm : SameClock gm (stepSwappingBack now gm).
Proof. unfold stepSwappingBack. by destruct (_ && _). Qed.

Lemma stepClearing_clock types now gm src p gm' p' :
  stepClearing types now gm src p = Some (gm', p') -> SameClock gm gm'.
Proof.
  unfold stepClearing. destruct (_ && _).
  - intros H. apply bind_Some in H as ([ng fd] & p1 & _ & H).
    apply ret_Some in H as [<- _]. done.
  - intros H. apply ret_Some in H as [<- _]. apply SameClock_refl.
Qed.

Lemma stepFalling_clock fuel types now gm src p gm' p' :
  stepFalling fuel types now gm src p = Some (gm', p') -> SameClock gm gm'.
Proof.
  unfold stepFalling. destruct (_ && _).
  - destruct (noMatches (findMatches (grid gm))).
    + intros H. apply bind_Some in H as ([mv g1] & p1 & _ & H).
      apply bind_Some in H as (g2 & p2 & _ & H).
      apply ret_Some in H as [<- _]. done.
    + intros H. apply ret_Some in H as [<- _]. done.
  - intros H. apply ret_Some in H as [<- _]. apply SameClock_refl.
Qed.

Lemma stepHint_clock now gm gm' :
  stepHint now gm = Some gm' -> SameClock gm gm'.
Proof.
  unfold stepHint. destruct (_ && _); [|intros [= <-]; apply SameClock_refl].
  destruct (hintMove gm); [intros [= <-]; apply SameClock_refl|].
  destruct (findValidMove (grid gm)) as [[mv g1]|]; [|done]. cbn.
  by intros [= <-].
Qed.

(** After the countdown, a frame leaves the state and the clock alone. *)
Lemma draw_clock fuel s now gm src p gm' p' :
  draw fuel s now gm src p = Some (gm', p') ->
  SameClock (tickTimer now gm) gm'.
Proof.
  intros H. apply draw_steps in H as (gm1 & gm3 & p3 & gm4 & H1 & H3 & H4 & H5).
  eapply SameClock_trans; [by eapply stepSwapping_clock|].
  eapply SameClock_trans; [apply stepSwappingBack_clock|].
  eapply SameClock_trans; [by eapply stepClearing_clock|].
  eapply SameClock_trans; [by eapply stepFalling_clock|].
  by eapply stepHint_clock.
Qed.

(** The countdown of a playing game. *)
Lemma tickTimer_playing now gm :
  stateRef gm = playing ->
  let gm' := tickTimer now gm in
  lastTickTime gm' = now
  /\ ((stateRef gm' = playing /\ (0 < timeRemaining gm')%Q)
      \/ (stateRef gm' = gameover /\ timeRemaining gm' = 0%Q))
  /\ ((lastTickTime gm <= now)%Q -> (0 <= timeRemaining gm)%Q ->
      (timeRemaining gm' <= timeRemaining gm)%Q)
  /\ ((lastTickTime gm <= 0)%Q -> (0 < timeRemaining gm)%Q ->
      stateRef gm' = playing /\ timeRemaining gm' = timeRemaining gm).
Proof.
  intros Hp. unfold tickTimer. rewrite Hp. cbn zeta.
  set (t1 := if Qltb 0 (lastTickTime gm) then _ else _).
  destruct (Qle_bool t1 0) eqn:Eo; cbn [stateRef timeRemaining lastTickTime].
  - apply Qle_bool_iff in Eo. split; [done|]. split; [by right|]. split.
    + intros _ H0. done.
    + intros Hl Ht. exfalso. subst t1.
      destruct (Qltb 0 (lastTickTime gm)) eqn:El.
      * apply Qltb_lt in El. lra.
      * lra.
  - assert (Hpos : (0 < t1)%Q).
    { apply Qnot_le_lt. intros Hle. apply Qle_bool_iff in Hle. congruence. }
    split; [done|]. split; [by left|]. split.
    + intros Hl H0. subst t1. destruct (Qltb 0 (lastTickTime gm)); [|lra].
      destruct (Qltb _ (1 # 2)); [|lra].
      assert (0 <= (now - lastTickTime gm) / 1000)%Q; [|lra].
      apply Qle_shift_div_l; lra.
    + intros Hl Ht. split; [done|]. subst t1.
      destruct (Qltb 0 (lastTickTime gm)) eqn:El; [|done].
      apply Qltb_lt in El. lra.
Qed.

Lemma tickTimer_stopped now gm :
  stateRef gm <> playing ->
  let gm' := tickTimer now gm in
  stateRef gm' = stateRef gm /\ timeRemaining gm' = timeRemaining gm
  /\ lastTickTime gm' = 0%Q.
Proof.
  intros Hp. unfold tickTimer. destruct (stateRef gm); done.
Qed.

(** X13. The Match-Three countdown: after a frame of a playing
    game either the game is still playing and the countdown is above
    zero, or the game is over and the countdown reads exactly zero; with a
    clock that does not run backwards the countdown never goes up. A frame
    of a game that is not playing (paused, over) leaves the countdown
    alone. *)
Theorem countdown_ends_at_zero (fuel : nat) (s : GameSettings) (now : Q)
    (gm gm' : Game) (src : nat -> U01) (p p' : nat) :
  draw fuel s now gm src p = Some (gm', p') ->
  (stateRef gm = playing ->
     ((stateRef gm' = playing /\ (0 < timeRemaining gm')%Q)
      \/ (stateRef gm' = gameover /\ timeRemaining gm' = 0%Q))
     /\ ((lastTickTime gm <= now)%Q -> (0 <= timeRemaining gm)%Q ->
         (timeRemaining gm' <= timeRemaining gm)%Q))
  /\ (stateRef gm <> playing ->
      stateRef gm' = stateRef gm /\ timeRemaining gm' = timeRemaining gm).
Proof.
  intros H. apply draw_clock in H as (Es & Et & El). rewrite Es, Et. split.
  - intros Hp. destruct (tickTimer_playing now gm Hp) as (_ & H1 & H2 & _).
    done.
  - intros Hp. destruct (tickTimer_stopped now gm Hp) as (H1 & H2 & _). done.
Qed.

Lemma countdown_ends_at_zero_witness :
  exists gm' p',
    draw 10 (PRESETS easy) 16 Samples.resting Samples.halves 0 = Some (gm', p')
    /\ ((stateRef gm' = playing /\ (0 < timeRemaining gm')%Q)
        \/ (stateRef gm' = gameover /\ timeRemaining gm' = 0%Q)).
Proof.
  assert (E : exists gm' p',
             draw 10 (PRESETS easy) 16 Samples.resting Samples.halves 0
             = Some (gm', p')) by (vm_compute; eauto).
  destruct E as (gm' & p' & E). exists gm', p'. split; [exact E|].
  destruct (countdown_ends_at_zero 10 (PRESETS easy) 16 Samples.resting gm'
              Samples.halves 0 p' E) as [H _].
  destruct (H eq_refl) as [H1 _]. exact H1.
Defined.

Lemma frames_paused fuel s nows gm src p gm' p' :
  stateRef gm = paused ->
  frames fuel s nows gm src p = Some (gm', p') ->
  stateRef gm' = paused /\ timeRemaining gm' = timeRemaining gm.
Proof.
  intros Hp H.
  apply (forM_invariant
           (fun g => stateRef g = paused /\ timeRemaining g = timeRemaining gm))
    in H; [done | | done].
  intros now g src1 p1 g' p1' [Hs Ht] Hd.
  apply draw_clock in Hd as (Es & Et & _).
  destruct (tickTimer_stopped now g) as (H1 & H2 & _); [congruence|].
  rewrite Es, Et, H1, H2. done.
Qed.

(** X14. Pausing stops the Match-Three countdown: however many
    frames are drawn while the game is paused and however late the game
    is resumed, the first frame after the resume finds the game playing
    with the countdown it had when it was paused. *)
Theorem pause_stops_countdown (fuel : nat) (s : GameSettings) (nows : list Q)
    (now : Q) (gm gm1 gm2 : Game) (src : nat -> U01) (p p1 p2 : nat) :
  stateRef gm = playing -> (0 < timeRemaining gm)%Q ->
  frames fuel s nows (togglePause gm) src p = Some (gm1, p1) ->
  draw fuel s now (togglePause gm1) src p1 = Some (gm2, p2) ->
  stateRef gm1 = paused /\ timeRemaining gm1 = timeRemaining gm
  /\ stateRef gm2 = playing /\ timeRemaining gm2 = timeRemaining gm
  /\ lastTickTime gm2 = now.
Proof.
  intros Hp Ht Hf Hd.
  assert (Hp0 : stateRef (togglePause gm) = paused
                /\ timeRemaining (togglePause gm) = timeRemaining gm)
    by (unfold togglePause; by rewrite Hp).
  destruct Hp0 as [Hp0 Ht0].
  apply frames_paused in Hf as [Hs1 Ht1]; [|done]. rewrite Ht0 in Ht1.
  split; [done|]. split; [done|].
  assert (Hr : stateRef (togglePause gm1) = playing
               /\ timeRemaining (togglePause gm1) = timeRemaining gm
               /\ lastTickTime (togglePause gm1) = 0%Q)
    by (unfold togglePause; rewrite Hs1; cbn; by rewrite Ht1).
  destruct Hr as (Hr1 & Hr2 & Hr3).
  apply draw_clock in Hd as (Es & Et & El). rewrite Es, Et, El.
  destruct (tickTimer_playing now (togglePause gm1) Hr1) as (Hl & _ & _ & H4).
  destruct H4 as [H5 H6]; [rewrite Hr3; lra | rewrite Hr2; lra|].
  rewrite H5, H6, Hl. done.
Qed.

Lemma pause_stops_countdown_witness :
  exists gm1 p1 gm2 p2,
    frames 10 (PRESETS easy) [16; 4000; 90000]%Q (togglePause Samples.resting)
      Samples.halves 0 = Some (gm1, p1)
    /\ draw 10 (PRESETS easy) 90016 (togglePause gm1) Samples.halves p1
       = Some (gm2, p2)
    /\ stateRef gm2 = playing /\ timeRemaining gm2 = 100%Q.
Proof.
  let r1 := eval vm_compute in
      (frames 10 (PRESETS easy) [16; 4000; 90000]%Q
         (togglePause Samples.resting) Samples.halves 0) in
  match r1 with
  | Some (?gm1, ?p1) =>
      let r2 := eval vm_compute in
          (draw 10 (PRESETS easy) 90016 (togglePause gm1) Samples.halves p1) in
      match r2 with
      | Some (?gm2, ?p2) => exists gm1, p1, gm2, p2
      end
  end.
  match goal with
  | |- ?A /\ ?B /\ _ =>
      assert (E1 : A) by (vm_compute; reflexivity);
      assert (E2 : B) by (vm_compute; reflexivity)
  end.
  split; [exact E1|]. split; [exact E2|].
  assert (Ht : (0 < timeRemaining Samples.resting)%Q) by reflexivity.
  destruct (pause_stops_countdown _ _ _ _ Samples.resting _ _ _ _ _ _
              eq_refl Ht E1 E2)
    as (_ & _ & H3 & H4 & _).
  split; [exact H3 | exact H4].
Defined.

Lemma groupScore_fifty m :
  exists k, (1 <= k <= 6)%Z /\ groupScore m = (50 * k)%Z.
Proof.
  unfold groupScore. destruct (_ <=? 3); [exists 1%Z; lia|].
  destruct (_ =? 4); [exists 3%Z; lia | exists 6%Z; lia].
Qed.

Lemma score_sum ms acc :
  exists k, (Z.of_nat (length ms) <= k <= 6 * Z.of_nat (length ms))%Z
    /\ foldl (fun total m => total + groupScore m)%Z acc ms = (acc + 50 * k)%Z.
Proof.
  revert acc. induction ms as [|m ms IH]; intros acc; cbn [foldl length].
  - exists 0%Z. lia.
  - destruct (groupScore_fifty m) as (k1 & Hk1 & ->).
    destruct (IH (acc + 50 * k1)%Z) as (k & Hk & ->).
    exists (k1 + k)%Z. lia.
Qed.

(** [calcScore]: between 50 and 300 points for each group, times the
    cascade level. *)
Lemma calcScore_bounds ms cascade :
  exists k, (Z.of_nat (length ms) <= k <= 6 * Z.of_nat (length ms))%Z
    /\ calcScore ms cascade = (50 * k * cascade)%Z.
Proof.
  unfold calcScore. destruct (score_sum ms 0) as (k & Hk & ->).
  exists k. split; [done | lia].
Qed.

Lemma Scored_refl gm : (0 <= cascadeLevel gm)%Z -> Scored gm gm.
Proof. intros H. split; [done|]. exists 0%Z. lia. Qed.

Lemma Scored_trans gm1 gm2 gm3 :
  Scored gm1 gm2 -> Scored gm2 gm3 -> Scored gm1 gm3.
Proof.
  intros (_ & k1 & Hk1 & E1) (Hc & k2 & Hk2 & E2). split; [done|].
  exists (k1 + k2)%Z. lia.
Qed.

Lemma startClearing_Scored now gm g ms cascade :
  (0 <= cascade)%Z -> Scored gm (startClearing now gm g ms cascade).
Proof.
  intros Hc. split; [done|]. cbn [score startClearing].
  destruct (calcScore_bounds ms cascade) as (k & Hk & ->).
  exists (k * cascade)%Z. split; [nia | lia].
Qed.

Lemma stepSwapping_Scored now gm gm' :
  (0 <= cascadeLevel gm)%Z ->
  stepSwapping now gm = Some gm' -> Scored gm gm'.
Proof.
  intros Hc. unfold stepSwapping.
  destruct (_ && _); [|intros [= <-]; by apply Scored_refl].
  destruct (swapCells (grid gm) _ _) as [g1|]; [|done]. cbn.
  destruct (noMatches (findMatches g1)).
  - destruct (swapCells g1 _ _) as [g2|]; [|done]. cbn. intros [= <-].
    split; [done|]. exists 0%Z. cbn. lia.
  - intros [= <-]. by apply startClearing_Scored.
Qed.

Lemma stepSwappingBack_Scored now gm :
  (0 <= cascadeLevel gm)%Z -> Scored gm (stepSwappingBack now gm).
Proof.
  intros Hc. unfold stepSwappingBack.
  destruct (_ && _); [|by apply Scored_refl].
  split; [done|]. exists 0%Z. cbn. lia.
Qed.

Lemma stepClearing_Scored types now gm src p gm' p' :
  (0 <= cascadeLevel gm)%Z ->
  stepClearing types now gm src p = Some (gm', p') -> Scored gm gm'.
Proof.
  intros Hc. unfold stepClearing. destruct (_ && _).
  - intros H. apply bind_Some in H as ([ng fd] & p1 & _ & H).
    apply ret_Some in H as [<- _]. split; [done|]. exists 0%Z. cbn. lia.
  - intros H. apply ret_Some in H as [<- _]. by apply Scored_refl.
Qed.

Lemma stepFalling_Scored fuel types now gm src p gm' p' :
  (0 <= cascadeLevel gm)%Z ->
  stepFalling fuel types now gm src p = Some (gm', p') -> Scored gm gm'.
Proof.
  intros Hc. unfold stepFalling. destruct (_ && _).
  - destruct (noMatches (findMatches (grid gm))).
    + intros H. apply bind_Some in H as ([mv g1] & p1 & _ & H).
      apply bind_Some in H as (g2 & p2 & _ & H).
      apply ret_Some in H as [<- _]. split; [done|]. exists 0%Z.
      cbn [score]. lia.
    + intros H. apply ret_Some in H as [<- _].
      apply startClearing_Scored. lia.
  - intros H. apply ret_Some in H as [<- _]. by apply Scored_refl.
Qed.

Lemma stepHint_Scored now gm gm' :
  (0 <= cascadeLevel gm)%Z -> stepHint now gm = Some gm' -> Scored gm gm'.
Proof.
  intros Hc. unfold stepHint.
  destruct (_ && _); [|intros [= <-]; by apply Scored_refl].
  destruct (hintMove gm); [intros [= <-]; by apply Scored_refl|].
  destruct (findValidMove (grid gm)) as [[mv g1]|]; [|done]. cbn.
  intros [= <-]. split; [done|]. exists 0%Z. cbn. lia.
Qed.

Lemma tickTimer_Scored now gm :
  (0 <= cascadeLevel gm)%Z -> Scored gm (tickTimer now gm).
Proof.
  intros Hc. unfold tickTimer.
  destruct (stateRef gm); (split; [done|]); exists 0%Z; cbn; lia.
Qed.

Lemma draw_Scored fuel s now gm src p gm' p' :
  (0 <= cascadeLevel gm)%Z ->
  draw fuel s now gm src p = Some (gm', p') -> Scored gm gm'.
Proof.
  intros Hc H.
  apply draw_steps in H as (gm1 & gm3 & p3 & gm4 & H1 & H3 & H4 & H5).
  pose proof (tickTimer_Scored now gm Hc) as S0.
  pose proof (stepSwapping_Scored _ _ _ (proj1 S0) H1) as S1.
  pose proof (stepSwappingBack_Scored now gm1 (proj1 S1)) as S2.
  pose proof (stepClearing_Scored _ _ _ _ _ _ _ (proj1 S2) H3) as S3.
  pose proof (stepFalling_Scored _ _ _ _ _ _ _ _ (proj1 S3) H4) as S4.
  pose proof (stepHint_Scored _ _ _ (proj1 S4) H5) as S5.
  exact (Scored_trans _ _ _ S0 (Scored_trans _ _ _ S1 (Scored_trans _ _ _ S2
           (Scored_trans _ _ _ S3 (Scored_trans _ _ _ S4 S5))))).
Qed.

(** X15. The Match-Three score never goes down: over any frames,
    from a game whose cascade level is not negative (as after
    [initGame]), the score goes up by a multiple of 50 and the cascade
    level stays non-negative. A scoring step pays, for each group found,
    between 50 and 300 points times the cascade level. *)
Theorem score_never_drops (fuel : nat) (s : GameSettings) (nows : list Q)
    (gm gm' : Game) (src : nat -> U01) (p p' : nat) :
  (0 <= cascadeLevel gm)%Z ->
  frames fuel s nows gm src p = Some (gm', p') ->
  (score gm <= score gm')%Z
  /\ (exists k, (0 <= k)%Z /\ score gm' = (score gm + 50 * k)%Z)
  /\ (0 <= cascadeLevel gm')%Z
  /\ (forall ms cascade, (0 <= cascade)%Z ->
        (50 * Z.of_nat (length ms) * cascade <= calcScore ms cascade
         <= 300 * Z.of_nat (length ms) * cascade)%Z).
Proof.
  intros Hc H.
  apply (forM_invariant (fun g => Scored gm g)) in H.
  - destruct H as (Hc' & k & Hk & E). split; [lia|]. split; [by exists k|].
    split; [done|]. intros ms cascade Hcas.
    destruct (calcScore_bounds ms cascade) as (j & Hj & ->). nia.
  - intros now g src1 p1 g' p1' Hs Hd.
    eapply Scored_trans; [exact Hs|]. eapply draw_Scored; [apply Hs | done].
  - by apply Scored_refl.
Qed.

Lemma score_never_drops_witness :
  exists gm' p',
    frames 10 (PRESETS easy) [100; 200]%Q Samples.matching Samples.halves 0
    = Some (gm', p')
    /\ (score Samples.matching <= score gm')%Z.
Proof.
  assert (E : exists gm' p',
             frames 10 (PRESETS easy) [100; 200]%Q Samples.matching
               Samples.halves 0 = Some (gm', p')) by (vm_compute; eauto).
  destruct E as (gm' & p' & E). exists gm', p'. split; [exact E|].
  assert (Hc : (0 <= cascadeLevel Samples.matching)%Z) by (simpl; lia).
  destruct (score_never_drops 10 (PRESETS easy) [100; 200]%Q Samples.matching
              gm' Samples.halves 0 p' Hc E) as (H & _).
  exact H.
Defined.

End GameFacts.

(** ** Match-Three: the board stays whole *)

Module WholeFacts.

Import MatchThree GridFacts BoardFacts SwapFacts GravityFacts SettleFacts.
Import MatchFacts MoveFacts ShuffleFacts GameFacts.

Lemma elem_of_concat (g : Grid) v :
  v ∈ concat g <-> exists line, line ∈ g /\ v ∈ line.
Proof.
  induction g as [|l g IH]; cbn [concat].
  - split; [intros H; by apply elem_of_nil in H|].
    intros (line & H & _). by apply elem_of_nil in H.
  - rewrite elem_of_app, IH. split.
    + intros [H | (line & Hl & H)]; [exists l; split; [by left | done]|].
      exists line. split; [by right | done].
    + intros (line & Hl & H). apply elem_of_cons in Hl as [-> | Hl];
        [by left | right; by exists line].
Qed.

Lemma cell_concat (g : Grid) v :
  v ∈ concat g <-> exists r c, cell g r c = Some v.
Proof.
  rewrite elem_of_concat. unfold cell. split.
  - intros (line & Hl & Hv). apply list_elem_of_lookup in Hl as [r Hr].
    apply list_elem_of_lookup in Hv as [c Hc]. exists r, c. by rewrite Hr.
  - intros (r & c & H). destruct (g !! r) as [line|] eqn:Hr; [|done].
    exists line. split; by eapply list_elem_of_lookup_2.
Qed.

Lemma Gems_concat types g :
  Gems types g <-> forall v, v ∈ concat g -> (0 <= v < types)%Z.
Proof.
  unfold Gems. split.
  - intros H v Hv. apply cell_concat in Hv as (r & c & Hv). eauto.
  - intros H r c v Hv. apply H, cell_concat. eauto.
Qed.

Lemma Gems_rearranged types g g' :
  concat g' ≡ₚ concat g -> Gems types g -> Gems types g'.
Proof.
  rewrite !Gems_concat. intros Hp H v Hv. apply H. by rewrite <- Hp.
Qed.

Lemma pickGem_range fuel g r c types src p gem p' :
  (0 < types)%Z ->
  pickGem fuel g r c types src p = Some (gem, p') -> (0 <= gem < types)%Z.
Proof.
  intros Ht. revert p. induction fuel as [|fuel IH]; intros p; cbn [pickGem];
    [done|].
  intros H. apply bind_Some in H as (gem1 & p1 & Hr & H).
  destruct (rejects g r c gem1); [by eapply IH|].
  apply ret_Some in H as [<- _]. by eapply randomIndex_range.
Qed.

(** What a write leaves in the cells, wherever it lands. *)
Lemma setCell_cells g r c v r' c' w :
  cell (setCell g r c v) r' c' = Some w -> w = v \/ cell g r' c' = Some w.
Proof.
  unfold setCell, cell. destruct (g !! r) as [line|] eqn:Hr; [|by right].
  destruct (decide (r' = r)) as [-> | Hne];
    [|rewrite list_lookup_insert_ne by done; by right].
  rewrite list_lookup_insert_eq by (by eapply lookup_lt_Some). rewrite Hr.
  unfold arrSet. destruct (Nat.ltb_spec c (length line)).
  - rewrite list_lookup_insert. case_decide; [intros [= <-]; by left | by right].
  - destruct (Nat.eqb_spec c (length line)) as [-> | ?]; [|by right].
    destruct (decide (c' < length line)).
    + rewrite lookup_app_l by done. by right.
    + rewrite lookup_app_r by lia. intros Hw.
      apply list_elem_of_lookup_2, list_elem_of_singleton in Hw. by left.
Qed.

Lemma arrSet_row_cells (g : Grid) r r' c' w :
  cell (arrSet g r []) r' c' = Some w -> cell g r' c' = Some w.
Proof.
  unfold arrSet, cell. destruct (Nat.ltb_spec r (length g)).
  - rewrite list_lookup_insert. case_decide; [by rewrite lookup_nil | done].
  - destruct (Nat.eqb_spec r (length g)) as [-> | ?]; [|done].
    destruct (decide (r' < length g)).
    + by rewrite lookup_app_l.
    + rewrite lookup_app_r by lia.
      destruct (r' - length g) as [|k]; cbn; [by rewrite lookup_nil | done].
Qed.

Lemma createRow_gems fuel size types r g src p g' p' :
  (0 < types)%Z -> Gems types g ->
  createRow fuel size types r g src p = Some (g', p') -> Gems types g'.
Proof.
  intros Ht Hg H. unfold createRow in H.
  apply (forM_invariant (Gems types)) in H; [done | |].
  - intros c g1 src1 p1 g2 p2 Hg1 Hb.
    apply bind_Some in Hb as (gem & p3 & Hpick & Hret).
    apply ret_Some in Hret as [<- _].
    apply pickGem_range in Hpick; [|done].
    intros r' c' w Hw. apply setCell_cells in Hw as [-> | Hw]; [done|].
    by eapply Hg1.
  - intros r' c' w Hw. apply arrSet_row_cells in Hw. by eapply Hg.
Qed.

(** [createBoard] fills the board with gems of the [types] kinds. *)
Lemma createBoard_gems fuel size types src p g p' :
  (0 < types)%Z ->
  createBoard fuel size types src p = Some (g, p') -> Gems types g.
Proof.
  intros Ht H. unfold createBoard in H.
  apply (forM_invariant (Gems types)) in H; [done | |].
  - intros r g1 src1 p1 g2 p2 Hg1 Hb. by eapply createRow_gems.
  - intros r c v Hv. unfold cell in Hv. by rewrite lookup_nil in Hv.
Qed.

Lemma shuffleBoard_gems n fuel types src g p g' p' :
  (0 < types)%Z -> Square n g -> Gems types g ->
  shuffleBoard fuel g types src p = Some (g', p') ->
  Square n g' /\ Gems types g'.
Proof.
  intros Ht Hsq Hg H.
  destruct (shuffleBoard_spec n types fuel src g p g' p' Hsq H) as (Hsq' & _).
  split; [done|].
  destruct (shuffleBoard_rearranges n types fuel src g p g' p' Hsq H)
    as [[Hp _] | (p0 & Hc)].
  - by eapply Gems_rearranged.
  - by eapply createBoard_gems.
Qed.

Lemma Neighbours_distinct a b : Neighbours a b -> a <> b.
Proof.
  intros [[_ [H | H]] | [_ [H | H]]] ->; lia.
Qed.

Lemma OnBoard_cell n g k :
  Square n g -> OnBoard n k -> is_Some (cell g (row k) (col k)).
Proof. intros Hsq [Hr Hc]. by apply (Square_cell n). Qed.

(** The swap of two cells of the board keeps the board whole. *)
Lemma swapCells_whole n types g a b :
  Square n g -> Gems types g -> OnBoard n a -> OnBoard n b ->
  exists g1, swapCells g a b = Some g1 /\ Square n g1 /\ Gems types g1.
Proof.
  intros Hsq Hg Ha Hb. unfold swapCells.
  destruct (OnBoard_cell n g a Hsq Ha) as [va Hva].
  destruct (OnBoard_cell n g b Hsq Hb) as [vb Hvb].
  rewrite Hva, Hvb. eexists. split; [done|]. split.
  - destruct Ha, Hb. apply setCell_Square; [|done..]. by apply setCell_Square.
  - intros r c w Hw. apply setCell_cells in Hw as [-> | Hw]; [by eapply Hg|].
    apply setCell_cells in Hw as [-> | Hw]; by eapply Hg.
Qed.

(** Emptying cells of the board keeps its shape and adds no gem. *)
Lemma holes_whole n ks g :
  Square n g -> Forall (OnBoard n) ks ->
  let holed := foldl (fun g k => setCell g (row k) (col k) (-1)) g ks in
  Square n holed
  /\ forall r c w, cell holed r c = Some w -> w = (-1)%Z \/ cell g r c = Some w.
Proof.
  revert g. induction ks as [|k ks IH]; intros g Hsq Hks; cbn [foldl].
  - split; [done | by right].
  - apply Forall_cons in Hks as [[Hr Hc] Hks].
    destruct (IH (setCell g (row k) (col k) (-1))) as [Hsq' Hcells];
      [by apply setCell_Square | done |].
    split; [done|]. intros r c w Hw. apply Hcells in Hw as [-> | Hw]; [by left|].
    by apply setCell_cells in Hw.
Qed.

(** [applyGravity] on a square board whose gems are of the [types] kinds
    gives a square board with a gem in every cell. *)
Lemma applyGravity_whole n g types src p ng fd p' :
  Square n g -> (0 < types)%Z ->
  (forall r c w, cell g r c = Some w -> (w < types)%Z) ->
  applyGravity g types src p = Some ((ng, fd), p') ->
  Square n ng /\ Gems types ng.
Proof.
  intros Hg Ht Hup E. unfold applyGravity in E.
  assert (Hn : length g = n) by (by destruct Hg). rewrite Hn in E.
  destruct (forM_seq_spec
              (fun c (st : GravState) =>
                 Square n st.1
                 /\ forall c', c' < c ->
                      exists fresh,
                        column st.1 c' = fresh ++ survivors g c'
                        /\ Forall (fun v => (0 <= v < types)%Z) fresh)
              (gravityColumn g types n) src n 0 (emptyGrid n, []) p)
    as ([ng1 fd1] & p1 & E1 & Hsq & Hcols).
  - intros c [ng0 fd0] q Hc [Hsq Hdone]. cbn [fst] in Hsq, Hdone.
    destruct (gravityColumn_spec n g types c ng0 fd0 src q)
      as (ng' & fd' & q' & fresh & E' & Hsq' & Hcol & Hall & Hoth);
      [done | done | lia | done |].
    exists (ng', fd'), q'. split; [done|]. cbn [fst]. split; [done|].
    intros c' Hc'. destruct (decide (c' = c)) as [-> | Hne].
    + by exists fresh.
    + rewrite Hoth by done. apply Hdone. lia.
  - cbn [fst]. split; [apply emptyGrid_Square | intros c' Hc'; lia].
  - rewrite E in E1. injection E1 as <- <- <-. cbn [fst] in Hsq, Hcols.
    split; [done|]. intros r c v Hv.
    destruct (cell_in_board n ng r c v Hsq Hv) as [Hr Hc].
    destruct (Hcols c Hc) as (fresh & Hcol & Hall).
    rewrite <- (column_lookup n) in Hv by done.
    apply list_elem_of_lookup_2 in Hv. rewrite Hcol in Hv.
    apply elem_of_app in Hv as [Hv | Hv].
    + rewrite Forall_forall in Hall. by apply Hall.
    + unfold survivors in Hv. apply list_elem_of_filter in Hv as [Hv0 Hv].
      split; [done|]. apply list_elem_of_lookup in Hv as [r' Hv].
      rewrite (column_lookup n) in Hv by done. by eapply Hup.
Qed.

Lemma InRun_on_board n g k : Square n g -> InRun g k -> OnBoard n k.
Proof.
  intros Hsq (v & _ & [(c & Hc & Hall) | (r & Hr & Hall)]).
  - pose proof (Hall (col k - c) ltac:(lia)) as H.
    replace (c + (col k - c)) with (col k) in H by lia.
    by apply (cell_in_board n) in H.
  - pose proof (Hall (row k - r) ltac:(lia)) as H.
    replace (r + (row k - r)) with (row k) in H by lia.
    by apply (cell_in_board n) in H.
Qed.

Lemma matched_on_board n g :
  Square n g -> Forall (OnBoard n) (getMatchedSet (findMatches g)).
Proof.
  intros Hsq. apply Forall_forall. intros k Hk.
  apply getMatchedSet_spec in Hk. apply (findMatches_cells n g k Hsq) in Hk.
  by eapply InRun_on_board.
Qed.

Lemma BoardOk_same n types gm gm' :
  SameBoard gm gm' -> BoardOk n types gm -> BoardOk n types gm'.
Proof.
  intros (Eg & Ea & Ef & Et & Em). unfold BoardOk.
  by rewrite Eg, Ea, Ef, Et, Em.
Qed.

Lemma tickTimer_same now gm : SameBoard gm (tickTimer now gm).
Proof. unfold tickTimer, SameBoard. by destruct (stateRef gm). Qed.

Lemma togglePause_same gm : SameBoard gm (togglePause gm).
Proof. unfold togglePause, SameBoard. by destruct (stateRef gm). Qed.

Lemma startClearing_whole n types now gm g cascade :
  Square n g -> Gems types g ->
  BoardOk n types (startClearing now gm g (findMatches g) cascade).
Proof.
  intros Hsq Hg. unfold BoardOk. cbn.
  split; [done|]. split; [done|]. split; [by apply matched_on_board | done].
Qed.

(** The swap of a frame never reads outside the board. *)
Lemma stepSwapping_whole n types now gm :
  BoardOk n types gm ->
  exists gm', stepSwapping now gm = Some gm' /\ BoardOk n types gm'.
Proof.
  intros Hok. pose proof Hok as (Hsq & Hg & Hm & Hsw). unfold stepSwapping.
  destruct (bool_decide (animState gm = swapping)) eqn:Ea; cbn [andb];
    [|by exists gm].
  apply bool_decide_eq_true in Ea. destruct (Hsw Ea) as (Hf & Ht & Hn).
  destruct (Qle_bool SWAP_MS (now - animStart gm)); [|by exists gm].
  destruct (swapCells_whole n types (grid gm) _ _ Hsq Hg Hf Ht)
    as (g1 & E1 & Hsq1 & Hg1).
  rewrite E1. cbn. destruct (noMatches (findMatches g1)).
  - rewrite (swapCells_back _ _ _ _ E1). cbn. eexists. split; [done|].
    unfold BoardOk. cbn. done.
  - eexists. split; [done|]. by apply startClearing_whole.
Qed.

Lemma stepSwappingBack_whole n types now gm :
  BoardOk n types gm -> BoardOk n types (stepSwappingBack now gm).
Proof.
  intros Hok. unfold stepSwappingBack. destruct (_ && _); [|done].
  destruct Hok as (Hsq & Hg & Hm & Hsw). unfold BoardOk. cbn. done.
Qed.

Lemma stepClearing_whole n types now gm src p gm' p' :
  (0 < types)%Z -> BoardOk n types gm ->
  stepClearing types now gm src p = Some (gm', p') -> BoardOk n types gm'.
Proof.
  intros Ht Hok. pose proof Hok as (Hsq & Hg & Hm & Hsw). unfold stepClearing.
  destruct (_ && _); [|intros H; by apply ret_Some in H as [<- _]].
  intros H. apply bind_Some in H as ([ng fd] & p1 & Hgrav & H).
  apply ret_Some in H as [<- _].
  destruct (holes_whole n (matchedCells gm) (grid gm) Hsq Hm) as [Hsq1 Hcells].
  apply (applyGravity_whole n) in Hgrav as [Hsq2 Hg2]; [|done..|].
  - unfold BoardOk. cbn. done.
  - intros r c w Hw. apply Hcells in Hw as [-> | Hw]; [lia|].
    apply Hg in Hw. lia.
Qed.

Lemma stepFalling_whole n fuel types now gm src p gm' p' :
  (0 < types)%Z -> BoardOk n types gm ->
  stepFalling fuel types now gm src p = Some (gm', p') -> BoardOk n types gm'.
Proof.
  intros Ht Hok H. pose proof Hok as (Hsq & Hg & Hm & Hsw).
  destruct (bool_decide (animState gm = falling)
            && Qle_bool FALL_MS (now - animStart gm)) eqn:Eb; cycle 1.
  { unfold stepFalling in H. rewrite Eb in H.
    by apply ret_Some in H as [<- _]. }
  apply andb_true_iff in Eb as [Ea Et]. apply bool_decide_eq_true in Ea.
  destruct (findMatches (grid gm)) as [|m ms] eqn:Em.
  - destruct (stepFalling_settle n fuel types now gm src p gm' p' Hsq Ea Et Em H)
      as (Ha' & Hsq' & _ & Hkeep & Hshuf & _).
    assert (Hmc : matchedCells gm' = matchedCells gm).
    { rewrite (stepFalling_eq fuel types now gm Ea Et Em) in H.
      apply bind_Some in H as ([mv g1] & p1 & _ & H).
      apply bind_Some in H as (g2 & p2 & _ & H).
      by apply ret_Some in H as [<- _]. }
    unfold BoardOk. rewrite Hmc, Ha'. split; [done|].
    split; [|split; [done | intros; congruence]].
    destruct (findValidMove_restores n (grid gm) Hsq) as [[mv|] Hmv].
    + rewrite Hkeep; [done | by exists mv].
    + eapply (shuffleBoard_gems n); [done | exact Hsq | exact Hg |].
      apply Hshuf. intros (mv & Hmv'). congruence.
  - unfold stepFalling in H.
    rewrite bool_decide_eq_true_2, Et, Em in H by done. cbn in H.
    apply ret_Some in H as [<- _]. rewrite <- Em.
    by apply startClearing_whole.
Qed.

Lemma stepHint_whole n now gm :
  Square n (grid gm) ->
  exists gm', stepHint now gm = Some gm' /\ SameBoard gm gm'.
Proof.
  intros Hsq. unfold stepHint, SameBoard.
  destruct (_ && _); [|by eexists].
  destruct (hintMove gm); [by eexists|].
  destruct (findValidMove_restores n (grid gm) Hsq) as [mv ->]. cbn.
  by eexists.
Qed.

(** A frame keeps the board whole. *)
Lemma draw_whole n fuel s now gm src p gm' p' :
  (0 < gemTypes s)%Z -> BoardOk n (gemTypes s) gm ->
  draw fuel s now gm src p = Some (gm', p') -> BoardOk n (gemTypes s) gm'.
Proof.
  intros Ht Hok H.
  apply draw_steps in H as (gm1 & gm3 & p3 & gm4 & H1 & H3 & H4 & H5).
  pose proof (BoardOk_same n _ _ _ (tickTimer_same now gm) Hok) as Hok0.
  destruct (stepSwapping_whole n _ now _ Hok0) as (gm1' & E1 & Hok1).
  rewrite H1 in E1. injection E1 as <-.
  pose proof (stepSwappingBack_whole n _ now gm1 Hok1) as Hok2.
  pose proof (stepClearing_whole n _ now _ src p gm3 p3 Ht Hok2 H3) as Hok3.
  pose proof (stepFalling_whole n fuel _ now gm3 src p3 gm4 p' Ht Hok3 H4)
    as Hok4.
  destruct (stepHint_whole n now gm4) as (gm5 & E5 & Hs5); [apply Hok4|].
  rewrite H5 in E5. injection E5 as <-. by eapply BoardOk_same.
Qed.

Lemma initGame_whole fuel s now src p gm p' :
  (0 < gemTypes s)%Z ->
  initGame fuel s now src p = Some (gm, p') ->
  BoardOk (gridSize s) (gemTypes s) gm /\ stateRef gm = playing
  /\ animState gm = idle /\ score gm = 0%Z /\ cascadeLevel gm = 0%Z
  /\ timeRemaining gm = timeLimit s.
Proof.
  intros Ht H. unfold initGame in H.
  apply bind_Some in H as (g & p1 & Hc & H).
  pose proof (createBoard_gems _ _ _ _ _ _ _ Ht Hc) as Hg.
  apply createBoard_spec in Hc as [Hsq _].
  destruct (findValidMove_restores _ g Hsq) as [mv Hmv].
  apply bind_Some in H as ([mv' g1] & p2 & Hl & H).
  apply lift_Some in Hl as [Hl ->]. rewrite Hmv in Hl. injection Hl as <- <-.
  apply bind_Some in H as (g2 & p3 & Hs & H).
  apply ret_Some in H as [<- _].
  assert (H2 : Square (gridSize s) g2 /\ Gems (gemTypes s) g2).
  { destruct (isNull mv).
    - by eapply shuffleBoard_gems.
    - by apply ret_Some in Hs as [<- _]. }
  destruct H2 as [Hsq2 Hg2]. unfold BoardOk. cbn.
  split; [|done]. split; [done|]. split; [done|]. split; [done|].
  intros; congruence.
Qed.

Lemma handleSwipe_whole s types now startCell dx dy gm :
  BoardOk (gridSize s) types gm -> OnBoard (gridSize s) startCell ->
  BoardOk (gridSize s) types (handleSwipe s now startCell dx dy gm).
Proof.
  intros Hok [Hr Hc]. pose proof Hok as (Hsq & Hg & Hm & Hsw).
  unfold handleSwipe.
  destruct (negb (bool_decide (stateRef gm = playing))); [done|].
  destruct (negb (bool_decide (animState gm = idle))); [done|].
  cbv zeta.
  match goal with |- BoardOk _ _ (if ?b then _ else _) => destruct b eqn:Eb end;
    [done|].
  repeat (apply orb_false_elim in Eb as [Eb ?]).
  unfold BoardOk, OnBoard, Neighbours. cbn [grid matchedCells animState
    swapFrom swapTo row col].
  split; [done|]. split; [done|]. split; [done|]. intros _.
  destruct (Qltb (Qabs dy) (Qabs dx)), (Qltb 0 dx), (Qltb 0 dy); lia.
Qed.

Lemma handleTap_whole n types now now' hit ss :
  SessionOk n types ss ->
  (forall k, hit = Some k -> OnBoard n k) ->
  SessionOk n types (handleTap now now' hit ss).
Proof.
  intros [Hok Hsel] Hhit. pose proof Hok as (Hsq & Hg & Hm & Hsw).
  unfold handleTap. cbv zeta.
  destruct (bool_decide (stateRef (game ss) = playing)); cbn [negb]; [|done].
  destruct (bool_decide (animState (game ss) = idle)) eqn:Ei; cbn [negb];
    [|done].
  apply bool_decide_eq_true in Ei.
  assert (Hok1 : forall t, BoardOk n types (touched t (game ss))).
  { intros t. unfold BoardOk, touched. cbn. done. }
  destruct hit as [cell|]; [|split; [done | intros k [=]]].
  pose proof (Hhit cell eq_refl) as Hcell.
  destruct (selected ss) as [sel|] eqn:Es;
    [|split; [apply Hok1 | intros k [= <-]; done]].
  pose proof (Hsel sel eq_refl) as Hs.
  destruct (_ && _); [split; [apply Hok1 | intros k [=]]|].
  destruct (Z.eqb_spec (dist (row sel) (row cell) + dist (col sel) (col cell)) 1)
    as [Hd | Hd]; [|split; [apply Hok1 | intros k [= <-]; done]].
  split; [|intros k [=]].
  unfold BoardOk. cbn. split; [done|]. split; [done|]. split; [done|].
  intros _. split; [done|]. split; [done|].
  unfold Neighbours, dist in *. lia.
Qed.

Lemma onEvent_whole fuel s e ss src p ss' p' :
  (0 < gemTypes s)%Z -> ValidEvent (gridSize s) e ->
  SessionOk (gridSize s) (gemTypes s) ss ->
  onEvent fuel s e ss src p = Some (ss', p') ->
  SessionOk (gridSize s) (gemTypes s) ss'.
Proof.
  intros Ht Hv [Hok Hsel] H. destruct e as [now | now c dx dy | now now' hit |];
    cbn [onEvent] in H.
  - apply bind_Some in H as (gm & p1 & Hd & H). apply ret_Some in H as [<- _].
    split; [|done]. cbn. by eapply draw_whole.
  - apply ret_Some in H as [<- _]. split; cbn.
    + by apply handleSwipe_whole.
    + destruct (swipeStarts _ _ _ _ _); [intros k [=] | done].
  - apply ret_Some in H as [<- _]. apply handleTap_whole; [done|].
    intros k ->. exact Hv.
  - apply ret_Some in H as [<- _]. split; [|done]. cbn.
    eapply BoardOk_same; [apply togglePause_same | done].
Qed.

(** X16. The Match-Three board stays whole. For a positive number
    of gem types, after [initGame] and any frames, swipes, taps and pauses
    (the swipes and taps on cells of the board) the board is [gridSize] by
    [gridSize] with one of the [gemTypes] gems in every cell (so no cell
    is ever left empty between two frames), the cells marked for clearing
    are cells of the board, and a swap in progress is between two
    neighbouring cells of the board. On such a board the swap step of a
    frame does not fail. *)
Theorem board_stays_whole (fuel : nat) (s : GameSettings) (now0 : Q)
    (es : list Event) (src : nat -> U01) (p p0 p' : nat) (gm0 : Game)
    (ss' : Session) :
  (0 < gemTypes s)%Z ->
  Forall (ValidEvent (gridSize s)) es ->
  initGame fuel s now0 src p = Some (gm0, p0) ->
  play fuel s es (mkSession gm0 None) src p0 = Some (ss', p') ->
  Square (gridSize s) (grid (game ss'))
  /\ Gems (gemTypes s) (grid (game ss'))
  /\ Forall (OnBoard (gridSize s)) (matchedCells (game ss'))
  /\ (animState (game ss') = swapping ->
      OnBoard (gridSize s) (swapFrom (game ss'))
      /\ OnBoard (gridSize s) (swapTo (game ss'))
      /\ Neighbours (swapFrom (game ss')) (swapTo (game ss')))
  /\ (forall now, is_Some (stepSwapping now (tickTimer now (game ss')))).
Proof.
  intros Ht Hes H0 Hplay.
  assert (Hinv : SessionOk (gridSize s) (gemTypes s) ss').
  { revert Hplay. unfold play.
    generalize (mkSession gm0 None) p0
      (conj (proj1 (initGame_whole fuel s now0 src p gm0 p0 Ht H0))
            (fun k (E : None = Some k) => False_ind (OnBoard (gridSize s) k)
               (eq_ind None (fun o => match o with
                                      | None => True | Some _ => False end)
                       I _ E))
       : SessionOk (gridSize s) (gemTypes s) (mkSession gm0 None)).
    induction Hes as [|e es He Hes IH]; intros ss q Hss H; cbn [forM] in H.
    - by apply ret_Some in H as [<- _].
    - apply bind_Some in H as (ss1 & q1 & H1 & H).
      eapply IH; [|exact H]. by eapply onEvent_whole. }
  destruct Hinv as [Hok _]. pose proof Hok as (Hsq & Hg & Hm & Hsw).
  repeat (split; [done|]). intros now.
  destruct (stepSwapping_whole (gridSize s) (gemTypes s) now
              (tickTimer now (game ss'))) as (gm1 & -> & _); [|done].
  eapply BoardOk_same; [apply tickTimer_same | done].
Qed.

Lemma board_stays_whole_witness :
  exists gm0 p0 ss' p',
    initGame 10 (PRESETS easy) 0 Samples.cycle5 0 = Some (gm0, p0)
    /\ play 10 (PRESETS easy) Samples.twoTaps (mkSession gm0 None)
         Samples.cycle5 p0 = Some (ss', p')
    /\ Square 7 (grid (game ss')) /\ Gems 5 (grid (game ss')).
Proof.
  let r0 := eval vm_compute in
      (initGame 10 (PRESETS easy) 0 Samples.cycle5 0) in
  match r0 with
  | Some (?gm0, ?p0) =>
      let r1 := eval vm_compute in
          (play 10 (PRESETS easy) Samples.twoTaps (mkSession gm0 None)
             Samples.cycle5 p0) in
      match r1 with
      | Some (?ss, ?q) => exists gm0, p0, ss, q
      end
  end.
  match goal with
  | |- ?A /\ ?B /\ _ =>
      assert (E0 : A) by (vm_compute; reflexivity);
      assert (E1 : B) by (vm_compute; reflexivity)
  end.
  split; [exact E0|]. split; [exact E1|].
  assert (Ht : (0 < gemTypes (PRESETS easy))%Z) by reflexivity.
  assert (Hv : Forall (ValidEvent (gridSize (PRESETS easy))) Samples.twoTaps).
  { repeat constructor; simpl; lia. }
  destruct (board_stays_whole 10 (PRESETS easy) 0 Samples.twoTaps
              Samples.cycle5 0 _ _ _ _ Ht Hv E0 E1) as (H1 & H2 & _).
  split; [exact H1 | exact H2].
Defined.

End WholeFacts.

(** ** Space Invaders: collisions and enemy fire *)

Module InvaderShotFacts.

Import SpaceInvaders InvadersFacts.

Lemma Qltb_false a b : Qltb a b = false <-> (b <= a)%Q.
Proof.
  unfold Qltb. rewrite negb_false_iff. apply Qle_bool_iff.
Qed.

Lemma rectsOverlap_true ax ay aw ah bx by' bw bh :
  rectsOverlap ax ay aw ah bx by' bw bh = true
  <-> (ax < bx + bw /\ bx < ax + aw /\ ay < by' + bh /\ by' < ay + ah)%Q.
Proof.
  unfold rectsOverlap. rewrite !andb_true_iff, !Qltb_lt. tauto.
Qed.

Lemma Meet_iff a len b len' :
  (0 < len)%Q -> (0 < len')%Q ->
  Meet a len b len' <-> (a < b + len' /\ b < a + len)%Q.
Proof.
  intros Hl Hl'. unfold Meet. split.
  - intros (t & H1 & H2 & H3 & H4). lra.
  - intros [H1 H2].
    destruct (Qlt_le_dec a b) as [Hab | Hab];
      destruct (Qlt_le_dec (a + len) (b + len')) as [Hh | Hh].
    + exists ((1 # 2) * (b + (a + len)))%Q. lra.
    + exists ((1 # 2) * (b + (b + len')))%Q. lra.
    + exists ((1 # 2) * (a + (a + len)))%Q. lra.
    + exists ((1 # 2) * (a + (b + len')))%Q. lra.
Qed.

(** X17. [rectsOverlap] is the test that the interiors of the two
    rectangles intersect: for rectangles of positive width and height it
    holds exactly when their horizontal extents have a point in common
    and their vertical extents have one, so that rectangles that only
    touch along an edge do not overlap; and the test does not depend on
    the order of the two rectangles. *)
Theorem rectsOverlap_interiors (ax ay aw ah bx by' bw bh : Q) :
  (0 < aw)%Q -> (0 < ah)%Q -> (0 < bw)%Q -> (0 < bh)%Q ->
  (rectsOverlap ax ay aw ah bx by' bw bh = true
   <-> Meet ax aw bx bw /\ Meet ay ah by' bh)
  /\ rectsOverlap ax ay aw ah bx by' bw bh
     = rectsOverlap bx by' bw bh ax ay aw ah
  /\ ((ax + aw == bx)%Q -> rectsOverlap ax ay aw ah bx by' bw bh = false).
Proof.
  intros Haw Hah Hbw Hbh. split; [|split].
  - rewrite rectsOverlap_true, !Meet_iff by done. tauto.
  - unfold rectsOverlap.
    destruct (Qltb ax (bx + bw)), (Qltb bx (ax + aw)),
      (Qltb ay (by' + bh)), (Qltb by' (ay + ah)); reflexivity.
  - intros Htouch. apply not_true_is_false. intros H.
    apply rectsOverlap_true in H. lra.
Qed.

Lemma rectsOverlap_interiors_witness :
  rectsOverlap 0 0 3 10 3 0 28 22 = false
  /\ rectsOverlap 0 0 3 10 2 5 28 22 = rectsOverlap 2 5 28 22 0 0 3 10.
Proof.
  assert (H3 : (0 < 3)%Q) by reflexivity.
  assert (H10 : (0 < 10)%Q) by reflexivity.
  assert (H28 : (0 < 28)%Q) by reflexivity.
  assert (H22 : (0 < 22)%Q) by reflexivity.
  split.
  - apply (rectsOverlap_interiors 0 0 3 10 3 0 28 22 H3 H10 H28 H22).
    reflexivity.
  - apply (rectsOverlap_interiors 0 0 3 10 2 5 28 22 H3 H10 H28 H22).
Defined.

Lemma mapGet_Some m k a : mapGet m k = Some a -> (k, a) ∈ m.
Proof.
  induction m as [|[k' a'] m IH]; cbn [mapGet]; [done|].
  destruct (Nat.eqb_spec k' k) as [-> | Hne].
  - intros [= ->]. by left.
  - intros H. right. by apply IH.
Qed.

Lemma mapGet_None m k : mapGet m k = None -> k ∉ m.*1.
Proof.
  induction m as [|[k' a'] m IH]; cbn [mapGet fmap list_fmap fst];
    [intros _ H; by apply elem_of_nil in H|].
  destruct (Nat.eqb_spec k' k) as [-> | Hne]; [done|].
  intros H Hin. apply elem_of_cons in Hin as [-> | Hin]; [done|].
  by apply IH.
Qed.

Lemma mapSet_elem m k a k' a' :
  NoDup m.*1 ->
  (k', a') ∈ mapSet m k a
  <-> (k' = k /\ a' = a) \/ (k' <> k /\ (k', a') ∈ m).
Proof.
  induction m as [|[k0 a0] m IH]; cbn [mapSet fmap list_fmap fst]; intros Hnd.
  - rewrite list_elem_of_singleton. split.
    + intros [= -> ->]. by left.
    + intros [[-> ->] | [_ H]]; [done | by apply elem_of_nil in H].
  - apply NoDup_cons in Hnd as [Hk0 Hnd].
    destruct (Nat.eqb_spec k0 k) as [-> | Hne].
    + rewrite !elem_of_cons. split.
      * intros [[= -> ->] | H]; [by left|].
        right. split; [|by right]. intros ->. apply Hk0.
        apply list_elem_of_fmap. by exists (k, a').
      * intros [[-> ->] | [Hne [[= E _] | H]]]; [by left | done | by right].
    + rewrite !elem_of_cons, IH by done. split.
      * intros [[= -> ->] | [[-> ->] | [Hn H]]];
          [right; split; [done | by left] | by left | right; split; [done | by right]].
      * intros [[-> ->] | [Hn [[= -> ->] | H]]];
          [right; by left | by left | right; right; by split].
Qed.

Lemma mapSet_keys m k a k' :
  k' ∈ (mapSet m k a).*1 <-> k' = k \/ k' ∈ m.*1.
Proof.
  induction m as [|[k0 a0] m IH]; cbn [mapSet fmap list_fmap fst].
  - rewrite list_elem_of_singleton. split; [by left|].
    intros [-> | H]; [done | by apply elem_of_nil in H].
  - destruct (Nat.eqb_spec k0 k) as [-> | Hne]; cbn [fmap list_fmap fst].
    + rewrite !elem_of_cons. tauto.
    + rewrite !elem_of_cons, IH. tauto.
Qed.

Lemma mapSet_NoDup m k a : NoDup m.*1 -> NoDup (mapSet m k a).*1.
Proof.
  induction m as [|[k0 a0] m IH]; cbn [mapSet fmap list_fmap fst]; intros Hnd.
  - apply NoDup_singleton.
  - apply NoDup_cons in Hnd as [Hk0 Hnd].
    destruct (Nat.eqb_spec k0 k) as [-> | Hne]; cbn [fmap list_fmap fst].
    + by apply NoDup_cons.
    + apply NoDup_cons. split; [|by apply IH].
      rewrite mapSet_keys. intros [-> | H]; done.
Qed.

Lemma keys_unique (m : list (nat * Alien)) k a b :
  NoDup m.*1 -> (k, a) ∈ m -> (k, b) ∈ m -> a = b.
Proof.
  induction m as [|[k1 a1] m IH]; cbn [fmap list_fmap fst]; intros Hnd Ha Hb;
    [by apply elem_of_nil in Ha|].
  apply NoDup_cons in Hnd as [Hk1 Hnd].
  assert (Hkey : forall c, (k1, c) ∈ m -> False).
  { intros c Hc. apply Hk1. apply list_elem_of_fmap. by exists (k1, c). }
  apply elem_of_cons in Ha as [Ea | Ha];
    apply elem_of_cons in Hb as [Eb | Hb].
  - congruence.
  - exfalso. injection Ea as -> ->. by eapply Hkey.
  - exfalso. injection Eb as -> ->. by eapply Hkey.
  - by apply IH.
Qed.

Lemma Bottoms_step m seen a :
  Bottoms m seen ->
  Bottoms (if alive a then
             match mapGet m (a_col a) with
             | None => mapSet m (a_col a) a
             | Some existing =>
                 if a_row existing <? a_row a then mapSet m (a_col a) a else m
             end
           else m) (seen ++ [a]).
Proof.
  intros (Hnd & Hent & Hcov).
  assert (Hseen : forall a', a' ∈ seen ++ [a] -> a' ∈ seen \/ a' = a).
  { intros a' H. apply elem_of_app in H as [H | H]; [by left|].
    apply list_elem_of_singleton in H. by right. }
  assert (Hset : forall top,
            (forall a', a' ∈ seen -> alive a' = true -> a_col a' = a_col a ->
               a_row a' <= a_row a) ->
            alive a = true -> top = a ->
            Bottoms (mapSet m (a_col a) top) (seen ++ [a])).
  { intros top Hmax Hal ->. split; [by apply mapSet_NoDup|]. split.
    - intros k a0 Hin.
      apply (proj1 (mapSet_elem _ _ _ _ _ Hnd)) in Hin as [[-> ->] | [Hne Hin]].
      + split; [apply elem_of_app; right; by left|].
        repeat split; try done.
        intros a' Ha' Hal' Hc. destruct (Hseen a' Ha') as [H | ->]; [|done].
        by apply Hmax.
      + destruct (Hent k a0 Hin) as (H1 & H2 & H3 & H4).
        split; [apply elem_of_app; by left|]. repeat split; try done.
        intros a' Ha' Hal' Hc. destruct (Hseen a' Ha') as [H | ->];
          [by apply H4 | congruence].
    - intros a' Ha' Hal'. apply mapSet_keys.
      destruct (Hseen a' Ha') as [H | ->]; [right; by apply Hcov | by left]. }
  destruct (alive a) eqn:Hal.
  - destruct (mapGet m (a_col a)) as [e|] eqn:Hget.
    + apply mapGet_Some in Hget. destruct (Hent _ _ Hget) as (H1 & H2 & H3 & H4).
      destruct (Nat.ltb_spec (a_row e) (a_row a)) as [Hlt | Hge].
      * apply Hset; try done. intros a' Ha' Hal' Hc.
        pose proof (H4 a' Ha' Hal' Hc). lia.
      * split; [done|]. split.
        -- intros k a0 Hin. destruct (Hent k a0 Hin) as (G1 & G2 & G3 & G4).
           split; [apply elem_of_app; by left|]. repeat split; try done.
           intros a' Ha' Hal' Hc. destruct (Hseen a' Ha') as [H | ->];
             [by apply G4|].
           assert (a0 = e) as ->; [|done].
           apply (keys_unique m k); [done | done | congruence].
        -- intros a' Ha' Hal'. destruct (Hseen a' Ha') as [H | ->];
             [by apply Hcov|].
           apply list_elem_of_fmap. by exists (a_col a, e).
    + apply mapGet_None in Hget. apply Hset; try done.
      intros a' Ha' Hal' Hc. exfalso. apply Hget. rewrite <- Hc. by apply Hcov.
  - split; [done|]. split.
    + intros k a0 Hin. destruct (Hent k a0 Hin) as (G1 & G2 & G3 & G4).
      split; [apply elem_of_app; by left|]. repeat split; try done.
      intros a' Ha' Hal' Hc. destruct (Hseen a' Ha') as [H | ->];
        [by apply G4 | congruence].
    + intros a' Ha' Hal'. destruct (Hseen a' Ha') as [H | ->];
        [by apply Hcov | congruence].
Qed.

Lemma colBottom_Bottoms als : Bottoms (colBottom als) als.
Proof.
  unfold colBottom.
  assert (H : forall m seen, Bottoms m seen ->
            Bottoms (foldl (fun m a =>
                              if alive a then
                                match mapGet m (a_col a) with
                                | None => mapSet m (a_col a) a
                                | Some existing =>
                                    if a_row existing <? a_row a
                                    then mapSet m (a_col a) a else m
                                end
                              else m) m als) (seen ++ als)).
  { induction als as [|a als IH]; intros m seen Hb; cbn [foldl].
    - by rewrite app_nil_r.
    - replace (seen ++ a :: als) with ((seen ++ [a]) ++ als)
        by (by rewrite <- app_assoc).
      apply IH. by apply Bottoms_step. }
  apply (H [] []). split; [apply NoDup_nil_2|].
  split; [intros k a Hin; by apply elem_of_nil in Hin|].
  intros a' Hin. by apply elem_of_nil in Hin.
Qed.

(** The candidates for the enemy shot. *)
Lemma bottomAliens_spec als a :
  a ∈ bottomAliens als ->
  a ∈ als /\ alive a = true
  /\ forall a', a' ∈ als -> alive a' = true -> a_col a' = a_col a ->
       a_row a' <= a_row a.
Proof.
  unfold bottomAliens. intros H.
  apply list_elem_of_fmap in H as ([k a0] & -> & Hin). cbn [snd].
  destruct (colBottom_Bottoms als) as (_ & Hent & _).
  destruct (Hent k a0 Hin) as (H1 & H2 & H3 & H4).
  split; [done|]. split; [done|]. intros a' Ha' Hal' Hc. apply H4; congruence.
Qed.

Lemma bottomAliens_nonempty als :
  living als <> [] -> bottomAliens als <> [].
Proof.
  intros Hl. destruct (living als) as [|a l] eqn:E; [done|].
  assert (Ha : a ∈ living als) by (rewrite E; by left).
  apply list_elem_of_filter in Ha as [Hal Ha].
  destruct (colBottom_Bottoms als) as (_ & _ & Hcov).
  pose proof (Hcov a Ha Hal) as Hk. unfold bottomAliens.
  destruct (colBottom als); [by apply elem_of_nil in Hk | done].
Qed.

Lemma enemyFire_spec (s : GameSettings) (dt : Q) (wv : Z)
    (timer : Q) (als : list Alien) (bs : list Bullet) (src : nat -> U01)
    (p : nat) :
  exists bs' t' p',
    enemyFire s dt wv timer als bs src p = Some ((bs', t'), p')
    /\ (bs' = bs
        \/ exists shooter,
             bs' = bs ++ [mkBullet
                            (x shooter + w shooter / 2 - BULLET_W / 2)
                            (y shooter + h shooter)
                            (bulletSpeed s * (65 # 100)) enemy]
             /\ t' = 0%Q
             /\ shooter ∈ als /\ alive shooter = true
             /\ forall a', a' ∈ als -> alive a' = true ->
                   a_col a' = a_col shooter -> a_row a' <= a_row shooter)
    /\ (living als <> [] ->
        (qmax 300 (enemyFireInterval s - inject_Z (wv - 1) * 80)
         <= timer + dt * 1000)%Q ->
        bs' <> bs).
Proof.
  unfold enemyFire. cbv zeta.
  destruct (Qle_bool _ (timer + dt * 1000)) eqn:Edue.
  - destruct (bottomAliens als) as [|a0 bottom] eqn:Eb.
    + exists bs, 0%Q, p. split; [done|]. split; [by left|].
      intros Hl _. by apply bottomAliens_nonempty in Hl.
    + set (cands := a0 :: bottom) in *.
      set (i := Qfloor (u_val (src p) * inject_Z (Z.of_nat (length cands)))).
      assert (Ei : randomIndex (Z.of_nat (length cands)) src p = Some (i, S p))
        by reflexivity.
      pose proof Ei as Hr. apply randomIndex_range in Hr; [|cbn; lia].
      assert (Hlk : is_Some (cands !! Z.to_nat i))
        by (apply lookup_lt_is_Some; lia).
      destruct Hlk as [shooter Hs].
      eexists _, 0%Q, (S p). split.
      { apply bind_Some. exists i, (S p). split; [done|].
        apply bind_Some. exists shooter, (S p). split; [by apply lift_Some|].
        reflexivity. }
      assert (Hin : shooter ∈ bottomAliens als)
        by (rewrite Eb; by eapply list_elem_of_lookup_2).
      apply bottomAliens_spec in Hin as (H1 & H2 & H3).
      split; [right; by exists shooter|].
      intros _ _ E. apply (f_equal length) in E.
      rewrite length_app in E. cbn in E. lia.
  - exists bs, (timer + dt * 1000)%Q, p. split; [done|]. split; [by left|].
    intros _ Hdue. apply Qle_bool_iff in Hdue. congruence.
Qed.

(** X18. Enemy fire comes from the front line: when the enemy
    fire block adds a bullet, it starts under the middle of an alien that
    is alive and has no alive alien below it in its column, and the fire
    timer is back at zero. The block always returns, and when the fire
    interval has elapsed and an alien is alive it does add a bullet. *)
Theorem enemy_fire_from_bottom (s : GameSettings) (dt : Q) (wv : Z)
    (timer : Q) (als : list Alien) (bs : list Bullet) (src : nat -> U01)
    (p : nat) :
  exists bs' t' p',
    enemyFire s dt wv timer als bs src p = Some ((bs', t'), p')
    /\ (bs' = bs
        \/ exists shooter,
             bs' = bs ++ [mkBullet
                            (x shooter + w shooter / 2 - BULLET_W / 2)
                            (y shooter + h shooter)
                            (bulletSpeed s * (65 # 100)) enemy]
             /\ t' = 0%Q
             /\ shooter ∈ als /\ alive shooter = true
             /\ forall a', a' ∈ als -> alive a' = true ->
                   a_col a' = a_col shooter -> a_row a' <= a_row shooter)
    /\ (living als <> [] ->
        (qmax 300 (enemyFireInterval s - inject_Z (wv - 1) * 80)
         <= timer + dt * 1000)%Q ->
        bs' <> bs).
Proof. apply enemyFire_spec. Qed.

Lemma enemy_fire_from_bottom_witness :
  exists bs' t' p',
    enemyFire (PRESETS easy) (16 # 1000) 1 5000
      [mkAlien 0 0 100 100 28 22 true 0 0] [] Samples.halves 0
    = Some ((bs', t'), p')
    /\ bs' <> [].
Proof.
  destruct (enemy_fire_from_bottom (PRESETS easy) (16 # 1000) 1 5000
              [mkAlien 0 0 100 100 28 22 true 0 0] [] Samples.halves 0)
    as (bs' & t' & p' & E & _ & H).
  exists bs', t', p'. split; [exact E|].
  apply H; vm_compute; discriminate.
Defined.

End InvaderShotFacts.

(** ** Space Invaders: the frame *)

Module InvaderFrameFacts.

Import SpaceInvaders InvadersFacts InvaderShotFacts.

Lemma filter_sublist_of {A} (P : A -> Prop) `{!forall x, Decision (P x)}
    (l : list A) :
  filter P l `sublist_of` l.
Proof.
  induction l as [|x l IH]; [constructor|].
  rewrite filter_cons. case_decide; by constructor.
Qed.

Lemma sublist_filter_mono {A} (P : A -> Prop) `{!forall x, Decision (P x)}
    (l1 l2 : list A) :
  l1 `sublist_of` l2 -> filter P l1 `sublist_of` filter P l2.
Proof.
  induction 1 as [|x l1 l2 _ IH|x l1 l2 _ IH]; [constructor| |].
  - rewrite !filter_cons. destruct (decide (P x)); [by constructor | done].
  - rewrite filter_cons. destruct (decide (P x)); [by constructor | done].
Qed.

Lemma playerBullets_sublist bs' bs :
  bs' `sublist_of` bs ->
  length (playerBullets bs') <= length (playerBullets bs).
Proof.
  intros H. apply sublist_length. by apply sublist_filter_mono.
Qed.

Lemma playerBullets_enemy bs bx by' bdy :
  playerBullets (bs ++ [mkBullet bx by' bdy enemy]) = playerBullets bs.
Proof.
  unfold playerBullets. rewrite filter_app, filter_cons.
  rewrite decide_False by done. by rewrite app_nil_r.
Qed.

Lemma filter_fmap_length {A} (P : A -> Prop) `{!forall x, Decision (P x)}
    (f : A -> A) (l : list A) :
  (forall x, P (f x) <-> P x) ->
  length (filter P (f <$> l)) = length (filter P l).
Proof.
  intros Hf. induction l as [|a l IH]; [done|].
  cbn [fmap list_fmap]. rewrite !filter_cons.
  destruct (decide (P (f a))) as [H1 | H1], (decide (P a)) as [H2 | H2];
    cbn [length].
  - by rewrite IH.
  - exfalso. by apply H2, Hf.
  - exfalso. by apply H1, Hf.
  - done.
Qed.

Lemma playerBullets_moved dt bs :
  length (playerBullets
            ((fun b => mkBullet (b_x b) (b_y b + dy b * dt) (dy b) (owner b))
               <$> bs))
  = length (playerBullets bs).
Proof. unfold playerBullets. by apply filter_fmap_length. Qed.

Lemma moveBullets_player height dt bs :
  length (playerBullets (moveBullets height dt bs))
  <= length (playerBullets bs).
Proof.
  unfold moveBullets. rewrite <- (playerBullets_moved dt bs).
  apply playerBullets_sublist, filter_sublist_of.
Qed.

(** The shooting block respects the bullet cap. *)
Lemma shoot_capped s dt keys px g :
  length (playerBullets (bullets g)) <= maxPlayerBullets s ->
  length (playerBullets (shoot s dt keys px g).1) <= maxPlayerBullets s.
Proof.
  intros Hcap. unfold shoot. cbv zeta.
  destruct (_ && _); [|done].
  fold (playerBullets (bullets g)).
  destruct (Nat.ltb_spec (length (playerBullets (bullets g)))
              (maxPlayerBullets s)) as [Hlt | Hge]; [|done].
  cbn [fst]. unfold playerBullets in *. rewrite filter_app, length_app.
  rewrite filter_cons, decide_True, filter_nil by done. cbn [length]. lia.
Qed.

Lemma removeLast_sublist hit bs bs' :
  removeLast hit bs = Some bs' ->
  bs' `sublist_of` bs /\ length bs = S (length bs')
  /\ exists b, b ∈ bs /\ hit b = true.
Proof.
  revert bs'. induction bs as [|b bs IH]; intros bs'; cbn [removeLast];
    [done|].
  destruct (removeLast hit bs) as [rest'|].
  - intros [= <-]. destruct (IH rest' eq_refl) as (H1 & H2 & b0 & H3 & H4).
    split; [by constructor|]. split; [cbn; lia|].
    exists b0. split; [by right | done].
  - destruct (hit b) eqn:Eh; [|done]. intros [= <-].
    split; [by constructor|]. split; [done|]. exists b. split; [by left | done].
Qed.

(** The aliens that a pass leaves: the same aliens at the same places,
    some of them dead now. *)
Lemma hitAlien_spec b als als' a :
  hitAlien b als = Some (als', a) ->
  a ∈ als /\ alive a = true
  /\ bulletOver b (x a) (y a) (w a) (h a) = true
  /\ length als' = length als
  /\ S (length (living als')) = length (living als)
  /\ (Forall (fun a => type a < 3) als ->
      Forall (fun a => type a < 3) als').
Proof.
  revert als'. induction als as [|a0 als IH]; intros als'; cbn [hitAlien];
    [done|].
  destruct (alive a0 && bulletOver b (x a0) (y a0) (w a0) (h a0)) eqn:E.
  - intros [= <- <-]. apply andb_true_iff in E as [Hal Hov].
    split; [by left|]. split; [done|]. split; [done|]. split; [done|].
    split.
    + unfold living. rewrite !filter_cons. cbn [kill alive].
      rewrite decide_False by done. rewrite decide_True by done. done.
    + intros Hf. apply Forall_cons in Hf as [H0 Hf].
      apply Forall_cons. done.
  - destruct (hitAlien b als) as [[rest' k]|]; [|done]. intros [= <- <-].
    destruct (IH rest' eq_refl) as (H1 & H2 & H3 & H4 & H5 & H6).
    split; [by right|]. split; [done|]. split; [done|].
    split; [cbn; lia|]. split.
    + unfold living in *. rewrite !filter_cons.
      case_decide; cbn [length]; lia.
    + intros Hf. apply Forall_cons in Hf as [H0 Hf].
      apply Forall_cons. split; [done | by apply H6].
Qed.

Lemma ALIEN_POINTS_range ty pts :
  ALIEN_POINTS !! ty = Some pts -> (10 <= pts <= 40)%Z.
Proof.
  unfold ALIEN_POINTS. destruct ty as [|[|[|ty]]]; cbn; intros [= <-]; lia.
Qed.

Lemma qmax_ge_l a b : (a <= qmax a b)%Q.
Proof.
  unfold qmax. destruct (Qle_bool a b) eqn:E; [by apply Qle_bool_iff | lra].
Qed.

Lemma alienHits_spec s wv bs t bs' t' :
  alienHits s wv bs t = Some (bs', t') -> Hits wv bs bs' t t'.
Proof.
  revert bs' t'. induction bs as [|b bs IH]; intros bs' t'; cbn [alienHits].
  - intros [= <- <-]. unfold Hits. repeat split; try done; try lia.
    by left.
  - destruct (alienHits s wv bs t) as [[rest' t1]|]; [|done]. cbn.
    destruct (IH rest' t1 eq_refl)
      as (H1 & H2 & H3 & H4 & H5 & H6 & H7 & H8).
    assert (Hkeep : Hits wv (b :: bs) (b :: rest') t t1).
    { unfold Hits. split; [by constructor|]. repeat split; try done.
      - cbn [length]. lia.
      - by apply H6.
      - by apply H6. }
    destruct (isPlayer b); [|by intros [= <- <-]].
    destruct (hitAlien b (t_aliens t1)) as [[als' a]|] eqn:Eh;
      [|by intros [= <- <-]].
    apply hitAlien_spec in Eh as (G1 & G2 & G3 & G4 & G5 & G6).
    destruct (ALIEN_POINTS !! type a) as [pts|] eqn:Ep; [|done]. cbn.
    apply ALIEN_POINTS_range in Ep.
    destruct (_ || _); [done|]. intros [= <- <-].
    unfold Hits. cbn [t_aliens t_count t_score t_interval].
    split; [by constructor|]. split; [lia|]. split; [lia|].
    split; [cbn [length]; lia|]. split; [lia|]. split; [|split].
    + intros Hw. specialize (H6 Hw). nia.
    + intros Hf. by apply G6, H7.
    + right. apply qmax_ge_l.
Qed.

Lemma speedFactor_pos s wv count :
  0 < rows s * cols s -> (1 <= wv)%Z ->
  (count <= Z.of_nat (rows s * cols s))%Z ->
  (1 <= speedFactor s wv count)%Q.
Proof.
  intros Htot Hw Hc. unfold speedFactor. cbv zeta.
  set (total := inject_Z (Z.of_nat (rows s * cols s))).
  assert (Ht : (0 < total)%Q).
  { subst total. change 0%Q with (inject_Z 0). rewrite <- Zlt_Qlt. lia. }
  assert (Hr : (inject_Z count / total <= 1)%Q).
  { apply Qle_shift_div_r; [done|]. rewrite Qmult_1_l. subst total.
    rewrite <- Zle_Qle. lia. }
  assert (Hwq : (0 <= inject_Z (wv - 1))%Q).
  { change 0%Q with (inject_Z 0). rewrite <- Zle_Qle. lia. }
  set (a := inject_Z (wv - 1)) in *. set (r := (inject_Z count / total)%Q) in *.
  assert (H1 : (1 <= 1 + a * (12 # 100))%Q) by nra.
  assert (H2 : (1 <= 1 + (1 - r) * (5 # 2))%Q) by nra.
  nra.
Qed.

(** The pass always returns on a game whose aliens are of the three
    kinds and whose counter is within [rows * cols]. *)
Lemma alienHits_total s wv bs t :
  (1 <= wv)%Z ->
  t_count t = Z.of_nat (length (living (t_aliens t))) ->
  length (t_aliens t) <= rows s * cols s ->
  Forall (fun a => type a < 3) (t_aliens t) ->
  exists bs' t', alienHits s wv bs t = Some (bs', t').
Proof.
  intros Hw Hc Hlen Hty. induction bs as [|b bs IH]; cbn [alienHits];
    [by eexists _, _|].
  destruct IH as (rest' & t1 & E). rewrite E. cbn.
  apply alienHits_spec in E as (H1 & H2 & H3 & H4 & H5 & H6 & H7 & H8).
  destruct (isPlayer b); [|by eexists _, _].
  destruct (hitAlien b (t_aliens t1)) as [[als' a]|] eqn:Eh;
    [|by eexists _, _].
  apply hitAlien_spec in Eh as (G1 & G2 & G3 & G4 & G5 & G6).
  assert (Hta : type a < 3).
  { specialize (H7 Hty). rewrite Forall_forall in H7. by apply H7. }
  assert (exists pts, ALIEN_POINTS !! type a = Some pts) as [pts ->].
  { unfold ALIEN_POINTS. destruct (type a) as [|[|[|ty]]]; cbn; eauto. lia. }
  cbn.
  assert (Htot : 0 < rows s * cols s).
  { apply list_elem_of_lookup in G1 as [i Hi]. apply lookup_lt_Some in Hi. lia. }
  assert (Hliv : length (living (t_aliens t1)) <= length (t_aliens t1))
    by apply length_filter.
  pose proof (speedFactor_pos s wv (t_count t1 - 1) Htot Hw ltac:(lia)) as Hsp.
  destruct (Nat.eqb_spec (rows s * cols s) 0) as [E0 | _]; [lia|].
  destruct (Qeq_bool (speedFactor s wv (t_count t1 - 1)) 0) eqn:Eq.
  - apply Qeq_bool_iff in Eq. rewrite Eq in Hsp. lra.
  - cbn. by eexists _, _.
Qed.

Lemma Eroded_refl sh : Eroded sh sh.
Proof. by unfold Eroded. Qed.

Lemma Eroded_trans sh1 sh2 sh3 :
  Eroded sh1 sh2 -> Eroded sh2 sh3 -> Eroded sh1 sh3.
Proof.
  intros (A1 & A2 & A3 & A4) (B1 & B2 & B3 & B4). unfold Eroded.
  split; [congruence|]. split; [congruence|]. split; [congruence|]. eauto.
Qed.

Lemma clearBlock_Eroded sh br bc : Eroded sh (clearBlock sh br bc).
Proof.
  unfold Eroded, clearBlock. cbn [s_x s_y blocks].
  split; [done|]. split; [done|]. split; [by rewrite length_alter|].
  intros r c. unfold solid. cbn [blocks].
  destruct (decide (r = br)) as [-> | Hne].
  - rewrite list_lookup_alter_eq.
    destruct (blocks sh !! br) as [line|]; [|done].
    cbn. rewrite list_lookup_insert. case_decide; [done | done].
  - by rewrite list_lookup_alter_ne.
Qed.

Lemma Eroded_list_refl shs : Forall2 Eroded shs shs.
Proof. induction shs; constructor; [apply Eroded_refl | done]. Qed.

Lemma Eroded_list_trans l1 l2 l3 :
  Forall2 Eroded l1 l2 -> Forall2 Eroded l2 l3 -> Forall2 Eroded l1 l3.
Proof.
  intros H. revert l3. induction H as [|a b l1 l2 Hab _ IH]; intros l3 H23.
  - by inversion H23.
  - inversion H23 as [|b' c l2' l3' Hbc H' E1 E2]; subst.
    constructor; [by eapply Eroded_trans | by apply IH].
Qed.

Lemma Eroded_rows l1 l2 :
  Forall2 Eroded l1 l2 ->
  Forall (fun sh => length (blocks sh) = SHIELD_ROWS) l1 ->
  Forall (fun sh => length (blocks sh) = SHIELD_ROWS) l2.
Proof.
  induction 1 as [|a b l1 l2 (_ & _ & Hl & _) _ IH]; [done|].
  intros Hf. apply Forall_cons in Hf as [Ha Hf].
  apply Forall_cons. split; [congruence | by apply IH].
Qed.

Lemma blockAt_total sh br bc :
  br < length (blocks sh) -> exists blk, blockAt sh br bc = Some blk.
Proof.
  intros Hlt. unfold blockAt. destruct (lookup_lt_is_Some_2 _ _ Hlt) as [line ->].
  cbn. by eexists.
Qed.

Lemma inShield_range br bc :
  inShield br bc = true ->
  Z.to_nat br < SHIELD_ROWS /\ Z.to_nat bc < SHIELD_COLS.
Proof.
  unfold inShield, SHIELD_ROWS, SHIELD_COLS.
  rewrite !andb_true_iff, !Z.leb_le, !Z.ltb_lt. lia.
Qed.

(** One bullet against the shields: the pass returns, and a hit only
    takes blocks away. *)
Lemma shieldHit_spec b shs src p :
  Forall (fun sh => length (blocks sh) = SHIELD_ROWS) shs ->
  exists r p', shieldHit b shs src p = Some (r, p')
    /\ forall shs', r = Some shs' -> Forall2 Eroded shs shs'.
Proof.
  intros Hrows. revert p. induction shs as [|sh shs IH]; intros p;
    cbn [shieldHit].
  - exists None, p. split; [done | intros ? [=]].
  - apply Forall_cons in Hrows as [Hsh Hrows]. specialize (IH Hrows).
    assert (Hnext : exists r p',
              ((r0 ← shieldHit b shs; ret (cons sh <$> r0))
                 : M (option (list Shield))) src p = Some (r, p')
              /\ forall shs', r = Some shs' -> Forall2 Eroded (sh :: shs) shs').
    { destruct (IH p) as (r & p' & E & Hr). exists (cons sh <$> r), p'. split.
      - apply bind_Some. exists r, p'. split; [done | reflexivity].
      - intros shs' E'. destruct r as [l|]; [|done]. injection E' as <-.
        constructor; [apply Eroded_refl | by apply Hr]. }
    cbv zeta. destruct (negb (bulletOver _ _ _ _ _)); [exact Hnext|].
    match goal with |- context [inShield ?r ?c] =>
      set (br := r); set (bc := c) end.
    destruct (inShield br bc) eqn:Ein; [|exact Hnext].
    apply inShield_range in Ein as [Hbr Hbc].
    destruct (blockAt_total sh (Z.to_nat br) (Z.to_nat bc)) as [blk Eb];
      [by rewrite Hsh|].
    destruct blk; cycle 1.
    { destruct Hnext as (r & p' & E & Hr). exists r, p'. split; [|done].
      apply bind_Some. exists false, p. split; [by apply lift_Some | done]. }
    set (sh1 := clearBlock sh (Z.to_nat br) (Z.to_nat bc)).
    set (nbc := (bc + (if Qltb (1 # 2) (u_val (src p)) then 1 else -1))%Z).
    assert (H1 : Eroded sh sh1) by apply clearBlock_Eroded.
    destruct ((0 <=? nbc) && (nbc <? Z.of_nat SHIELD_COLS))%Z eqn:En.
    + destruct (blockAt_total sh1 (Z.to_nat br) (Z.to_nat nbc)) as [nb En'].
      { destruct H1 as (_ & _ & -> & _). by rewrite Hsh. }
      exists (Some ((if nb then clearBlock sh1 (Z.to_nat br) (Z.to_nat nbc)
                     else sh1) :: shs)), (S p).
      split.
      * apply bind_Some. exists true, p. split; [by apply lift_Some|].
        apply bind_Some. exists (src p), (S p). split; [done|].
        fold nbc. rewrite En. apply bind_Some.
        eexists _, (S p). split; [|reflexivity].
        apply bind_Some. exists nb, (S p). split; [by apply lift_Some|].
        reflexivity.
      * intros shs' [= <-]. constructor; [|apply Eroded_list_refl].
        destruct nb; [|done].
        eapply Eroded_trans; [exact H1 | apply clearBlock_Eroded].
    + exists (Some (sh1 :: shs)), (S p). split.
      * apply bind_Some. exists true, p. split; [by apply lift_Some|].
        apply bind_Some. exists (src p), (S p). split; [done|].
        fold nbc. rewrite En. apply bind_Some.
        exists sh1, (S p). split; reflexivity.
      * intros shs' [= <-]. constructor; [done | apply Eroded_list_refl].
Qed.

(** The bullets against the shields: the pass returns, it only removes
    bullets, and the shields only lose blocks. *)
Lemma shieldHits_spec bs shs src p :
  Forall (fun sh => length (blocks sh) = SHIELD_ROWS) shs ->
  exists bs' shs' p', shieldHits bs shs src p = Some ((bs', shs'), p')
    /\ bs' `sublist_of` bs /\ Forall2 Eroded shs shs'.
Proof.
  intros Hrows. revert p. induction bs as [|b bs IH]; intros p;
    cbn [shieldHits].
  - exists [], shs, p. split; [done|]. split; [done | apply Eroded_list_refl].
  - destruct (IH p) as (rest' & shs1 & p1 & E & Hsub & Her).
    destruct (shieldHit_spec b shs1 src p1) as (r & p2 & E2 & Hr);
      [by eapply Eroded_rows|].
    destruct r as [shs2|].
    + exists rest', shs2, p2. split.
      * apply bind_Some. exists (rest', shs1), p1. split; [done|].
        apply bind_Some. exists (Some shs2), p2. split; [done | reflexivity].
      * split; [by constructor|].
        eapply Eroded_list_trans; [exact Her | by apply Hr].
    + exists (b :: rest'), shs1, p2. split.
      * apply bind_Some. exists (rest', shs1), p1. split; [done|].
        apply bind_Some. exists None, p2. split; [done | reflexivity].
      * split; [by constructor | done].
Qed.

Lemma living_fmap f (l : list Alien) :
  (forall a, alive (f a) = alive a) ->
  length (living (f <$> l)) = length (living l).
Proof.
  intros Hf. unfold living. apply filter_fmap_length. intros a. by rewrite Hf.
Qed.

Lemma formationStep_aliens s width f :
  exists k, aliens (formationStep s width f) = k <$> aliens f
    /\ (forall a, alive (k a) = alive a) /\ (forall a, type (k a) = type a)
    /\ stepInterval (formationStep s width f) = stepInterval f.
Proof.
  unfold formationStep. cbv zeta. destruct (needDrop s width f).
  - eexists. split; [reflexivity|]. unfold dropAlien.
    split; [|split; [|done]]; intros a;
      destruct (alive a) eqn:E; cbn; by rewrite ?E.
  - eexists. split; [reflexivity|]. unfold slideAlien.
    split; [|split; [|done]]; intros a;
      destruct (alive a) eqn:E; cbn; by rewrite ?E.
Qed.

(** The formation block moves the aliens; it does not change which are
    alive, nor their kinds, nor the step interval. *)
Lemma formationUpdate_aliens s width dt f :
  let f' := formationUpdate s width dt f in
  length (aliens f') = length (aliens f)
  /\ length (living (aliens f')) = length (living (aliens f))
  /\ (Forall (fun a => type a < 3) (aliens f) ->
      Forall (fun a => type a < 3) (aliens f'))
  /\ stepInterval f' = stepInterval f.
Proof.
  unfold formationUpdate. cbv zeta.
  destruct (Qle_bool (stepInterval f) _); [|done].
  match goal with |- context [formationStep s width ?f0] =>
    destruct (formationStep_aliens s width f0) as (k & -> & Hal & Hty & ->)
  end.
  cbn [aliens stepInterval]. split; [by rewrite length_fmap|].
  split; [by apply living_fmap|]. split; [|done].
  intros Hf. apply Forall_fmap. eapply Forall_impl; [exact Hf|].
  intros a Ha. cbn. by rewrite Hty.
Qed.

Lemma living_all l : Forall (fun a => alive a = true) l -> living l = l.
Proof.
  unfold living. induction 1 as [|a l Ha _ IH]; [done|].
  rewrite filter_cons, decide_True by done. by rewrite IH.
Qed.

Lemma bind_rows_length {A} (f : nat -> nat -> A) c n a :
  length (r ← seq a n; f r <$> seq 0 c) = n * c.
Proof.
  revert a. induction n as [|n IH]; intros a; [done|].
  cbn [seq]. rewrite bind_cons, length_app, length_fmap, length_seq, IH. lia.
Qed.

(** The aliens of [initGame]: [rows * cols] of them, all alive, each of
    one of the three kinds. *)
Lemma initAliens_spec s canvasW wv :
  length (initAliens s canvasW wv) = rows s * cols s
  /\ Forall (fun a => alive a = true) (initAliens s canvasW wv)
  /\ Forall (fun a => type a < 3) (initAliens s canvasW wv).
Proof.
  unfold initAliens. cbv zeta. split; [apply bind_rows_length|].
  split; apply Forall_forall; intros a Ha;
    apply list_elem_of_bind in Ha as (r & Ha & _);
    apply list_elem_of_fmap in Ha as (c & -> & _); cbn [alive type]; [done|].
  destruct (r =? 0); [lia|]. destruct (r <=? rows s / 2); lia.
Qed.

Lemma qmax_ge_r a b : (b <= qmax a b)%Q.
Proof.
  unfold qmax. destruct (Qle_bool a b) eqn:E; [lra|].
  destruct (Qlt_le_dec a b) as [H | H]; [|done].
  assert (Qle_bool a b = true) by (apply Qle_bool_iff; lra). congruence.
Qed.

Lemma qmax_lub a b c : (a <= c)%Q -> (b <= c)%Q -> (qmax a b <= c)%Q.
Proof. intros Ha Hb. unfold qmax. by destruct (Qle_bool a b). Qed.

Lemma qmin_le_l a b : (qmin a b <= a)%Q.
Proof.
  unfold qmin. destruct (Qle_bool a b) eqn:E; [lra|].
  destruct (Qlt_le_dec b a) as [H | H]; [lra|].
  assert (Qle_bool a b = true) by (by apply Qle_bool_iff). congruence.
Qed.

(** The player stays in the field. *)
Lemma movePlayer_range s width dt keys g :
  (4 <= movePlayer s width dt keys g)%Q
  /\ ((44 <= width)%Q -> (movePlayer s width dt keys g <= width - 40)%Q).
Proof.
  unfold movePlayer. cbv zeta. split; [apply qmax_ge_l|].
  intros Hw. apply qmax_lub; [lra|].
  eapply Qle_trans; [apply qmin_le_l|]. unfold PLAYER_W. lra.
Qed.

Lemma ufoUpdate_total width dt u timer src p :
  exists r p', ufoUpdate width dt u timer src p = Some (r, p').
Proof.
  unfold ufoUpdate. cbv zeta. destruct (negb (active u)).
  - destruct (Qltb (12000 + u_val (src p) * 8000) (timer + dt * 1000)) eqn:E.
    + eexists _, _. apply bind_Some. eexists (_, _), _. split; [|reflexivity].
      apply bind_Some. exists (src p), (S p). split; [done|]. rewrite E.
      apply bind_Some. exists (src (S p)), (S (S p)). split; [done|].
      reflexivity.
    + eexists _, _. apply bind_Some. eexists (_, _), _. split; [|reflexivity].
      apply bind_Some. exists (src p), (S p). split; [done|]. rewrite E.
      reflexivity.
  - eexists _, _. apply bind_Some. eexists (_, _), _. split; reflexivity.
Qed.

Lemma ufoHits_spec wv u bs sc :
  (ufoHits wv u bs sc).1.2 `sublist_of` bs
  /\ ((0 <= wv)%Z -> (sc <= (ufoHits wv u bs sc).2)%Z).
Proof.
  unfold ufoHits. destruct (active u); [|by split].
  destruct (removeLast _ bs) as [bs'|] eqn:E; [|by split].
  apply removeLast_sublist in E as (H & _). cbn. split; [done|].
  unfold UFO_POINTS. lia.
Qed.

Lemma hitPlayer_sublist now px g bs bs' :
  hitPlayer now px g bs = Some bs' -> bs' `sublist_of` bs.
Proof.
  unfold hitPlayer. destruct (Qltb _ _); [|done].
  intros H. by apply removeLast_sublist in H as (H & _).
Qed.

Lemma generateStars_total src p :
  exists p', generateStars src p = Some (tt, p').
Proof.
  unfold generateStars.
  destruct (forM_total (fun (_ : nat) (u : unit) => _ ← random; ret u) src)
    with (xs := seq 0 (80 * 4)) (s := tt) (p := p) as ([] & p' & E).
  - intros x u q. exists u, (S q). reflexivity.
  - by exists p'.
Qed.

(** The end of the collisions: the enemy bullets against the player and
    the aliens at the player's row. *)
Lemma collided_spec now px cd f fireTimer uTimer t u sc bs shs g :
  let g1 := collided now px cd f fireTimer uTimer t u sc bs shs g in
  form g1 = mkFormation (t_aliens t) (alienDir f) (stepTimer f) (t_interval t)
              (alienAnimFrame f)
  /\ bullets g1 `sublist_of` bs /\ shields g1 = shs
  /\ playerX g1 = px /\ playerY g1 = playerY g /\ score g1 = sc
  /\ wave g1 = wave g /\ alienCount g1 = t_count t
  /\ lastTime g1 = lastTime g /\ touchShoot g1 = false
  /\ (livesLeft g - 1 <= livesLeft g1 <= livesLeft g)%Z
  /\ ((now <= invincibleUntil g)%Q -> livesLeft g1 = livesLeft g)
  /\ ((livesLeft g1 < livesLeft g)%Z -> invincibleUntil g1 = (now + 1500)%Q)
  /\ (stateRef g1 = gameover ->
      (livesLeft g1 <= 0)%Z
      \/ exists a, a ∈ t_aliens t /\ alive a = true
                   /\ (playerY g <= y a + h a)%Q)
  /\ (stateRef g1 = playing \/ stateRef g1 = gameover).
Proof.
  unfold collided. cbv zeta.
  assert (Hinv : (now <= invincibleUntil g)%Q -> hitPlayer now px g bs = None).
  { intros Hle. unfold hitPlayer.
    destruct (Qltb (invincibleUntil g) now) eqn:E; [|done].
    apply Qltb_lt in E. lra. }
  assert (Hreach : reachedPlayer g (t_aliens t) = true ->
            exists a, a ∈ t_aliens t /\ alive a = true
                      /\ (playerY g <= y a + h a)%Q).
  { intros Er. apply existsb_exists in Er as (a & Ha & Hr).
    apply andb_true_iff in Hr as [Hal Hr]. apply Qle_bool_iff in Hr.
    exists a. split; [by apply list_elem_of_In | done]. }
  destruct (hitPlayer now px g bs) as [bs'|] eqn:Eh;
    cbn [form bullets shields playerX playerY score wave alienCount lastTime
         touchShoot livesLeft invincibleUntil stateRef default andb].
  - pose proof (hitPlayer_sublist _ _ _ _ _ Eh) as Hsub.
    split; [done|]. split; [done|]. split; [done|]. split; [done|].
    split; [done|]. split; [done|]. split; [done|]. split; [done|].
    split; [done|]. split; [done|]. split; [lia|].
    split; [intros H; specialize (Hinv H); congruence|].
    split; [done|]. split.
    + destruct (livesLeft g - 1 <=? 0)%Z eqn:El; cbn [orb].
      * intros _. left. by apply Z.leb_le.
      * destruct (reachedPlayer g (t_aliens t)) eqn:Er; [|done].
        intros _. right. by apply Hreach.
    + destruct (_ || _); [by right | by left].
  - split; [done|]. split; [done|]. split; [done|]. split; [done|].
    split; [done|]. split; [done|]. split; [done|]. split; [done|].
    split; [done|]. split; [done|]. split; [lia|].
    split; [done|]. split; [lia|]. split.
    + cbn [orb]. destruct (reachedPlayer g (t_aliens t)) eqn:Er; [|done].
      intros _. right. by apply Hreach.
    + cbn [orb]. destruct (reachedPlayer _ _); [by right | by left].
Qed.

Lemma initGame_next s cw ch wv cs cl g src p :
  wv <> 1%Z ->
  initGame s cw ch wv cs cl g src p
  = Some (mkGame (stateRef g) (initFormation s cw wv) [] (shields g)
            (mkUFO false 0 0 0 UFO_W UFO_H) (cw / 2 - PLAYER_W / 2) (ch - 45)
            cs cl wv 0 0
            (Z.of_nat (length (aliens (initFormation s cw wv)))) 0
            false false false (shootCooldown g) (lastTime g), p).
Proof.
  intros Hne. unfold initGame.
  destruct (Z.eqb_spec wv 1) as [-> | _]; [done|]. reflexivity.
Qed.

(** The update of a sound game returns, and what it returns. *)
Lemma update_Updated s width height now dt keys g src p :
  Sound s g ->
  exists g1 p1 g' p',
    collisions s width height now dt keys g src p = Some (g1, p1)
    /\ nextWave s width height g1 src p1 = Some (g', p')
    /\ Updated s width now g g'
    /\ lastTime g' = lastTime g /\ touchShoot g' = false.
Proof.
  intros (Hcnt & Hlen & Hty & Hw & Hcap & Hsh).
  unfold collisions. cbv zeta.
  set (px := movePlayer s width dt keys g).
  set (shot := shoot s dt keys px g).
  set (bs2 := moveBullets height dt shot.1).
  set (f := formationUpdate s width dt (form g)).
  destruct (formationUpdate_aliens s width dt (form g)) as (Fl & Fv & Ft & Fi).
  fold f in Fl, Fv, Ft, Fi.
  destruct (enemyFire_spec s dt (wave g) (enemyFireTimer g) (aliens f) bs2
              src p) as (bs3 & fireTimer & p1 & E1 & Hb3 & _).
  destruct (ufoUpdate_total width dt (ufo g) (ufoTimer g) src p1)
    as ([u1 uTimer] & p2 & E2).
  destruct (alienHits_total s (wave g) bs3
              (mkTally (aliens f) (alienCount g) (score g) (stepInterval f)))
    as (bs4 & t & E3);
    [done | cbn [t_count t_aliens]; lia | cbn [t_aliens]; lia
     | cbn [t_aliens]; by apply Ft |].
  pose proof (alienHits_spec _ _ _ _ _ _ E3)
    as (A1 & A2 & A3 & A4 & A5 & A6 & A7 & A8).
  cbn [t_aliens t_count t_score t_interval] in A2, A3, A4, A5, A6, A7.
  destruct (ufoHits (wave g) u1 bs4 (t_score t)) as [[u2 bs5] sc] eqn:E4.
  pose proof (ufoHits_spec (wave g) u1 bs4 (t_score t)) as [U1 U2].
  rewrite E4 in U1, U2. cbn [fst snd] in U1, U2.
  destruct (shieldHits_spec bs5 (shields g) src p2 Hsh)
    as (bs6 & shs & p3 & E5 & S1 & S2).
  set (g1 := collided now px shot.2 f fireTimer uTimer t u2 sc bs6 shs g).
  destruct (collided_spec now px shot.2 f fireTimer uTimer t u2 sc bs6 shs g)
    as (C1 & C2 & C3 & C4 & C5 & C6 & C7 & C8 & C9 & C10 & C11 & C12 & C13
        & C14 & C15).
  fold g1 in C1, C2, C3, C4, C5, C6, C7, C8, C9, C10, C11, C12, C13, C14, C15.
  (* the bullets of the player *)
  assert (Hpb : length (playerBullets (bullets g1)) <= maxPlayerBullets s).
  { etrans; [apply playerBullets_sublist; exact C2|].
    etrans; [apply playerBullets_sublist; exact S1|].
    etrans; [apply playerBullets_sublist; exact U1|].
    etrans; [apply playerBullets_sublist; exact A1|].
    assert (playerBullets bs3 = playerBullets bs2) as ->.
    { destruct Hb3 as [-> | (sh & -> & _)]; [done|].
      apply playerBullets_enemy. }
    etrans; [apply moveBullets_player|]. by apply shoot_capped. }
  assert (Hsound1 : Sound s g1).
  { unfold Sound. rewrite C1, C3, C7, C8. cbn [aliens].
    split; [lia|]. split; [lia|]. split; [by apply A7, Ft|].
    split; [done|]. split; [done|]. by eapply Eroded_rows. }
  assert (Hscore : (score g <= score g1)%Z).
  { rewrite C6. specialize (A6 ltac:(lia)). specialize (U2 ltac:(lia)). nia. }
  (* the run up to the end of the collisions *)
  assert (Hrun :
            ('(bs3, fireTimer) ←
               enemyFire s dt (wave g) (enemyFireTimer g) (aliens f) bs2;
             '(u1, uTimer) ← ufoUpdate width dt (ufo g) (ufoTimer g);
             '(bs4, t) ← lift (alienHits s (wave g) bs3
                                 (mkTally (aliens f) (alienCount g) (score g)
                                    (stepInterval f)));
             let '(u2, bs5, sc) := ufoHits (wave g) u1 bs4 (t_score t) in
             '(bs6, shs) ← shieldHits bs5 (shields g);
             ret (collided now px shot.2 f fireTimer uTimer t u2 sc bs6 shs g))
              src p = Some (g1, p3)).
  { apply bind_Some. exists (bs3, fireTimer), p1. split; [done|].
    apply bind_Some. exists (u1, uTimer), p2. split; [done|].
    apply bind_Some. exists (bs4, t), p2. split; [by apply lift_Some|].
    cbv beta iota. rewrite E4.
    apply bind_Some. exists (bs6, shs), p3. split; [done|]. reflexivity. }
  assert (Hwv1 : wave g1 = wave g) by exact C7.
  exists g1, p3. unfold nextWave. rewrite Hwv1.
  destruct ((alienCount g1 <=? 0)%Z && bool_decide (stateRef g1 = playing))
    eqn:Eclear.
  - (* the wave is cleared *)
    apply andb_true_iff in Eclear as [Ec Ep].
    apply Z.leb_le in Ec. apply bool_decide_eq_true in Ep.
    assert (Hne : (wave g + 1)%Z <> 1%Z) by lia.
    destruct (initAliens_spec s width (wave g + 1)) as (I1 & I2 & I3).
    eexists _, p3. split; [exact Hrun|]. split; [by apply initGame_next|].
    split; [|by split].
    unfold Updated, Sound.
    cbn [form bullets shields playerX playerY score wave alienCount lastTime
         touchShoot livesLeft invincibleUntil stateRef aliens initFormation].
    rewrite (living_all _ I2), I1, C3.
    split.
    { split; [done|]. split; [lia|]. split; [done|]. split; [lia|].
      split; [unfold playerBullets; rewrite filter_nil; cbn; lia|].
      by eapply Eroded_rows. }
    split; [done|]. split; [done|]. split; [done|]. split; [done|].
    split; [intros _ E; lia|]. split; [intros E; congruence|].
    split; [by left|]. split; [right; repeat split; done|].
    split; [intros _ Htot E; apply (f_equal length) in E; cbn in E; lia|].
    intros Hwd. unfold PLAYER_W, Qdiv. change (/ 2)%Q with (1 # 2)%Q. lra.
  - (* the wave goes on *)
    exists g1, p3. split; [exact Hrun|]. split; [reflexivity|].
    split; [|by split].
    unfold Updated. split; [done|]. split; [by rewrite C3|].
    split; [done|]. split; [done|]. split; [done|].
    split; [intros Hl _; by apply C13|]. split.
    { intros Hg. destruct (C14 Hg) as [Hl | (a & Ha & Hal & Hr)]; [by left|].
      right. exists a. rewrite C1, C5. done. }
    split; [done|]. split; [by left|]. split.
    { intros Hp Htot E. apply andb_false_iff in Eclear as [Ec | Ec].
      - apply Z.leb_gt in Ec. destruct Hsound1 as (Hc1 & _).
        rewrite Hc1, E in Ec. cbn in Ec. lia.
      - by rewrite bool_decide_eq_true_2 in Ec. }
    intros Hwd. rewrite C4. subst px.
    destruct (movePlayer_range s width dt keys g) as [M1 M2]. split; [done|].
    by apply M2.
Qed.

Lemma stamped_Sound s now g : Sound s g -> Sound s (stamped now g).
Proof. by unfold Sound, stamped. Qed.

Lemma glow_total now st inv src p :
  exists p', glow now st inv src p = Some (tt, p') /\ (p' = p \/ p' = S (S p)).
Proof.
  unfold glow. destruct (_ && _).
  - exists (S (S p)). split; [reflexivity | by right].
  - exists p. split; [reflexivity | by left].
Qed.

(** One frame of a sound game: it returns; when it runs the update block
    the result is as [Updated] says, and otherwise only the time of the
    last frame changes. *)
Lemma frame_cases s width height now keys g src p :
  Sound s g ->
  exists g' p',
    frame s width height now keys g src p = Some (g', p')
    /\ ((Runs now g /\ Updated s width now g g' /\ lastTime g' = now)
        \/ (~ Runs now g /\ g' = stamped now g /\ (p' = p \/ p' = S (S p)))).
Proof.
  intros Hs. unfold frame. cbv zeta.
  destruct (bool_decide (stateRef g = playing)
            && Qltb 0 (frameDt (lastTime g) now)) eqn:E.
  - apply andb_true_iff in E as [Ep Ed].
    apply bool_decide_eq_true in Ep. apply Qltb_lt in Ed.
    destruct (update_Updated s width height now (frameDt (lastTime g) now)
                keys (stamped now g) src p (stamped_Sound s now g Hs))
      as (g1 & p1 & g' & p' & Ec & En & Hu & Hl & _).
    destruct (glow_total now (stateRef g') (invincibleUntil g1) src p')
      as (p2 & Eg & _).
    exists g', p2. split.
    { apply bind_Some. exists g1, p1. split; [exact Ec|].
      apply bind_Some. exists g', p'. split; [exact En|].
      apply bind_Some. exists tt, p2. split; [exact Eg | reflexivity]. }
    left. split; [done|]. split; [exact Hu|].
    rewrite Hl. cbn. by rewrite bool_decide_eq_false_2 by congruence.
  - destruct (glow_total now (stateRef (stamped now g))
                (invincibleUntil (stamped now g)) src p) as (p2 & Eg & Hp2).
    exists (stamped now g), p2. split.
    { apply bind_Some. exists tt, p2. split; [exact Eg | reflexivity]. }
    right. split; [|done].
    intros [Hp Hd]. apply andb_false_iff in E as [E | E].
    + by rewrite bool_decide_eq_true_2 in E.
    + apply Qltb_lt in Hd. congruence.
Qed.

Lemma frame_Sound s width height now keys g src p g' p' :
  Sound s g -> frame s width height now keys g src p = Some (g', p') ->
  Sound s g' /\ Forall2 Eroded (shields g) (shields g').
Proof.
  intros Hs E.
  destruct (frame_cases s width height now keys g src p Hs)
    as (g1 & p1 & E1 & Hc);
    rewrite E in E1; injection E1 as <- <-;
    destruct Hc as [(_ & Hu & _) | (_ & -> & _)].
  - destruct Hu as (H1 & H2 & _). done.
  - split; [by apply stamped_Sound | apply Eroded_list_refl].
Qed.

Lemma frames_Sound s width height inputs g src p :
  Sound s g ->
  exists g' p',
    frames s width height inputs g src p = Some (g', p')
    /\ Sound s g' /\ Forall2 Eroded (shields g) (shields g').
Proof.
  unfold frames. revert g p. induction inputs as [|[now keys] inputs IH];
    intros g p Hs; cbn [forM].
  - exists g, p. split; [done|]. split; [done | apply Eroded_list_refl].
  - destruct (frame_cases s width height now keys g src p Hs)
      as (g1 & p1 & E1 & _).
    destruct (frame_Sound _ _ _ _ _ _ _ _ _ _ Hs E1) as [Hs1 He1].
    destruct (IH g1 p1 Hs1) as (g' & p' & E & Hs' & He').
    exists g', p'. split.
    + apply bind_Some. exists g1, p1. split; [exact E1 | exact E].
    + split; [done|]. by eapply Eroded_list_trans.
Qed.

(** X19. The frame loop of Space Invaders keeps the game sound
    and never fails. From a game whose alien counter is the number of
    aliens alive, with at most [rows * cols] aliens of the three kinds, a
    wave of one or more, and no more player bullets in flight than
    [maxPlayerBullets], every sequence of frames returns (no division by
    zero in the speed-up, no read outside [ALIEN_POINTS] or of a missing
    shield row) and leaves a game of which the same holds: the counter
    stays exact and the player never has more than [maxPlayerBullets]
    bullets in flight. *)
Theorem frames_keep_sound (s : GameSettings) (width height : Q)
    (inputs : list (Q * Keys)) (g : Game) (src : nat -> U01) (p : nat) :
  Sound s g ->
  exists g' p',
    frames s width height inputs g src p = Some (g', p')
    /\ alienCount g' = Z.of_nat (length (living (aliens (form g'))))
    /\ length (playerBullets (bullets g')) <= maxPlayerBullets s
    /\ Sound s g'.
Proof.
  intros Hs.
  destruct (frames_Sound s width height inputs g src p Hs)
    as (g' & p' & E & Hs' & _).
  exists g', p'. split; [done|]. pose proof Hs' as (H1 & _ & _ & _ & H5 & _).
  done.
Qed.

Lemma frames_keep_sound_witness :
  exists g' p',
    frames (PRESETS easy) 480 640
      [(1016%Q, Samples.noKeys); (1032%Q, Samples.noKeys)] Samples.lastAlien
      Samples.halves 0 = Some (g', p')
    /\ length (playerBullets (bullets g')) <= 2.
Proof.
  assert (Hs : Sound (PRESETS easy) Samples.lastAlien).
  { unfold Sound. split; [reflexivity|]. split; [simpl; lia|].
    split; [repeat constructor|]. split; [simpl; lia|].
    split; [simpl; lia | constructor]. }
  destruct (frames_keep_sound (PRESETS easy) 480 640
              [(1016%Q, Samples.noKeys); (1032%Q, Samples.noKeys)]
              Samples.lastAlien Samples.halves 0 Hs)
    as (g' & p' & E & _ & H & _).
  exists g', p'. split; [exact E | exact H].
Defined.

(** X20. Shields only erode: over any frames of a sound game,
    and across waves, every shield keeps its place and its shape, and a
    block that is there afterwards was there before. *)
Theorem shields_only_erode (s : GameSettings) (width height : Q)
    (inputs : list (Q * Keys)) (g g' : Game) (src : nat -> U01) (p p' : nat) :
  Sound s g ->
  frames s width height inputs g src p = Some (g', p') ->
  Forall2 Eroded (shields g) (shields g').
Proof.
  intros Hs E.
  destruct (frames_Sound s width height inputs g src p Hs)
    as (g1 & p1 & E1 & _ & He).
  rewrite E in E1. by injection E1 as <- <-.
Qed.

Lemma shields_only_erode_witness :
  exists g' p',
    frames (PRESETS easy) 480 640 [(1016%Q, Samples.noKeys)]
      Samples.shielded Samples.halves 0 = Some (g', p')
    /\ Forall2 Eroded (shields Samples.shielded) (shields g')
    /\ shields g' <> shields Samples.shielded.
Proof.
  assert (Hs : Sound (PRESETS easy) Samples.shielded).
  { unfold Sound. split; [reflexivity|]. split; [simpl; lia|].
    split; [repeat constructor|]. split; [simpl; lia|].
    split; [simpl; lia | repeat constructor]. }
  let r := eval vm_compute in
      (frames (PRESETS easy) 480 640 [(1016%Q, Samples.noKeys)]
         Samples.shielded Samples.halves 0) in
  match r with Some (?g', ?p') => exists g', p' end.
  match goal with
  | |- ?A /\ _ => assert (E : A) by (vm_compute; reflexivity)
  end.
  split; [exact E|]. split.
  - exact (shields_only_erode _ _ _ _ _ _ _ _ _ Hs E).
  - intros H. vm_compute in H. discriminate H.
Defined.

(** X21. The next wave starts exactly when the last alien is shot
    and the game goes on. A frame of a sound game either keeps the wave
    or raises it by one, and then the game is playing with the fresh
    formation of [initGame] for the next wave, no bullet in flight and
    the alien counter at [rows * cols]; a game that is still playing
    after an update has an alien alive (when the settings have any). *)
Theorem wave_advances_when_cleared (s : GameSettings) (width height now : Q)
    (keys : Keys) (g g' : Game) (src : nat -> U01) (p p' : nat) :
  Sound s g ->
  frame s width height now keys g src p = Some (g', p') ->
  (wave g' = wave g
   \/ (wave g' = (wave g + 1)%Z /\ stateRef g' = playing
       /\ form g' = initFormation s width (wave g + 1)
       /\ bullets g' = []
       /\ alienCount g' = Z.of_nat (rows s * cols s)))
  /\ (Runs now g -> stateRef g' = playing -> 0 < rows s * cols s ->
      living (aliens (form g')) <> []).
Proof.
  intros Hs E.
  destruct (frame_cases s width height now keys g src p Hs)
    as (g1 & p1 & E1 & Hc);
    rewrite E in E1; injection E1 as <- <-;
    destruct Hc as [(Hr & Hu & _) | (Hn & -> & _)].
  - destruct Hu as (Hs' & _ & _ & _ & _ & _ & _ & _ & Hwv & Hliv & _).
    split; [|intros _; exact Hliv].
    destruct Hwv as [Hwv | (H1 & H2 & H3 & H4)]; [by left|]. right.
    repeat (split; [done|]). destruct Hs' as (Hc & _). rewrite Hc, H3.
    cbn [aliens initFormation].
    destruct (initAliens_spec s width (wave g + 1)) as (I1 & I2 & _).
    by rewrite (living_all _ I2), I1.
  - split; [by left|]. intros Hr. done.
Qed.

Lemma wave_advances_when_cleared_witness :
  exists g' p',
    frame (PRESETS easy) 480 640 1016 Samples.noKeys Samples.lastAlien
      Samples.halves 0 = Some (g', p')
    /\ wave g' = 2%Z.
Proof.
  assert (Hs : Sound (PRESETS easy) Samples.lastAlien).
  { unfold Sound. split; [reflexivity|]. split; [simpl; lia|].
    split; [repeat constructor|]. split; [simpl; lia|].
    split; [simpl; lia | constructor]. }
  let r := eval vm_compute in
      (frame (PRESETS easy) 480 640 1016 Samples.noKeys Samples.lastAlien
         Samples.halves 0) in
  match r with Some (?g', ?p') => exists g', p' end.
  match goal with
  | |- ?A /\ _ => assert (E : A) by (vm_compute; reflexivity)
  end.
  split; [exact E|].
  destruct (proj1 (wave_advances_when_cleared _ _ _ _ _ _ _ _ _ _ Hs E))
    as [H | (H & _)]; [discriminate H | exact H].
Defined.

(** X22. Score and lives in Space Invaders: a frame of a sound
    game never lowers the score and never raises the lives; it takes at
    most one life, none while the player is invincible, and a frame that
    takes a life (without starting a new wave) makes the player
    invincible for the next 1500 ms. *)
Theorem score_up_lives_down (s : GameSettings) (width height now : Q)
    (keys : Keys) (g g' : Game) (src : nat -> U01) (p p' : nat) :
  Sound s g ->
  frame s width height now keys g src p = Some (g', p') ->
  (score g <= score g')%Z
  /\ (livesLeft g - 1 <= livesLeft g' <= livesLeft g)%Z
  /\ ((now <= invincibleUntil g)%Q -> livesLeft g' = livesLeft g)
  /\ ((livesLeft g' < livesLeft g)%Z -> wave g' = wave g ->
      invincibleUntil g' = (now + 1500)%Q).
Proof.
  intros Hs E.
  destruct (frame_cases s width height now keys g src p Hs)
    as (g1 & p1 & E1 & Hc);
    rewrite E in E1; injection E1 as <- <-;
    destruct Hc as [(Hr & Hu & _) | (Hn & -> & _)].
  - destruct Hu as (_ & _ & H3 & H4 & H5 & H6 & _). done.
  - cbn. split; [lia|]. split; [lia|]. split; [done|]. intros; lia.
Qed.

Lemma score_up_lives_down_witness :
  exists g' p',
    frame (PRESETS easy) 480 640 1016 Samples.noKeys Samples.lastAlien
      Samples.halves 0 = Some (g', p')
    /\ (score Samples.lastAlien <= score g')%Z.
Proof.
  assert (Hs : Sound (PRESETS easy) Samples.lastAlien).
  { unfold Sound. split; [reflexivity|]. split; [simpl; lia|].
    split; [repeat constructor|]. split; [simpl; lia|].
    split; [simpl; lia | constructor]. }
  let r := eval vm_compute in
      (frame (PRESETS easy) 480 640 1016 Samples.noKeys Samples.lastAlien
         Samples.halves 0) in
  match r with Some (?g', ?p') => exists g', p' end.
  match goal with
  | |- ?A /\ _ => assert (E : A) by (vm_compute; reflexivity)
  end.
  split; [exact E|].
  exact (proj1 (score_up_lives_down _ _ _ _ _ _ _ _ _ _ Hs E)).
Defined.

(** X23. The player stays in the field: on a canvas 44 pixels
    wide or more, after a frame that runs the update block the player is
    within [4, width - 40], whatever keys are held, also when the frame
    starts a new wave. *)
Theorem player_stays_in_field (s : GameSettings) (width height now : Q)
    (keys : Keys) (g g' : Game) (src : nat -> U01) (p p' : nat) :
  Sound s g -> Runs now g -> (44 <= width)%Q ->
  frame s width height now keys g src p = Some (g', p') ->
  (4 <= playerX g' <= width - 40)%Q.
Proof.
  intros Hs Hr Hw E.
  destruct (frame_cases s width height now keys g src p Hs)
    as (g1 & p1 & E1 & Hc).
  rewrite E in E1. injection E1 as <- <-.
  destruct Hc as [(_ & Hu & _) | (Hn & _)]; [|done].
  destruct Hu as (_ & _ & _ & _ & _ & _ & _ & _ & _ & _ & H). by apply H.
Qed.

Lemma player_stays_in_field_witness :
  exists g' p',
    frame (PRESETS easy) 480 640 1016 Samples.noKeys Samples.lastAlien
      Samples.halves 0 = Some (g', p')
    /\ (4 <= playerX g' <= 480 - 40)%Q.
Proof.
  assert (Hs : Sound (PRESETS easy) Samples.lastAlien).
  { unfold Sound. split; [reflexivity|]. split; [simpl; lia|].
    split; [repeat constructor|]. split; [simpl; lia|].
    split; [simpl; lia | constructor]. }
  let r := eval vm_compute in
      (frame (PRESETS easy) 480 640 1016 Samples.noKeys Samples.lastAlien
         Samples.halves 0) in
  match r with Some (?g', ?p') => exists g', p' end.
  match goal with
  | |- ?A /\ _ => assert (E : A) by (vm_compute; reflexivity)
  end.
  split; [exact E|].
  assert (Hr : Runs 1016 Samples.lastAlien) by (split; reflexivity).
  assert (Hw : (44 <= 480)%Q) by (intros H; discriminate H).
  exact (player_stays_in_field _ _ _ _ _ _ _ _ _ _ Hs Hr Hw E).
Defined.



End InvaderFrameFacts.

(** ** Flappy Bird: the frame loop *)

Module FlappyLoopFacts.

Import FlappyBird.

Lemma half_gap : (PIPE_GAP / 2 == 80)%Q.
Proof. reflexivity. Qed.

Lemma spawnPipe_spec w playH fr ps src p :
  exists ps' p', spawnPipe w playH fr ps src p = Some (ps', p')
    /\ (ps' = ps
        \/ (Z.rem fr PIPE_SPAWN_INTERVAL = 0%Z
            /\ exists u : U01,
                 ps' = ps ++ [mkPipe w (PIPE_GAP / 2 + 40
                                        + u_val u * (playH - PIPE_GAP / 2 - 40
                                                     - (PIPE_GAP / 2 + 40))) false]))
    /\ (ps' = ps -> Z.rem fr PIPE_SPAWN_INTERVAL <> 0%Z).
Proof.
  unfold spawnPipe. destruct (Z.rem fr PIPE_SPAWN_INTERVAL =? 0)%Z eqn:E.
  - apply Z.eqb_eq in E. eexists _, _. split; [reflexivity|]. split.
    + right. split; [exact E|]. by exists (src p).
    + intros H. apply (f_equal length) in H. rewrite length_app in H.
      simpl in H. lia.
  - apply Z.eqb_neq in E. exists ps, p. split; [reflexivity|]. split; [by left | done].
Qed.

(** What the loop over the pipes returns, pipe by pipe. *)
Lemma movePipes_cons birdX p ps score :
  movePipes birdX (p :: ps) score
  = movePipe birdX p (movePipes birdX ps score).
Proof. reflexivity. Qed.

Lemma movePipe_fst birdX p later score :
  (movePipe birdX p (later, score)).1
  = if Qltb (p_x p - PIPE_SPEED + PIPE_WIDTH + 8) 0 then later
    else mkPipe (p_x p - PIPE_SPEED) (gapY p)
           (scored p || (negb (scored p)
                         && Qltb (p_x p - PIPE_SPEED + PIPE_WIDTH) birdX)) :: later.
Proof.
  unfold movePipe. by destruct (Qltb (p_x p - PIPE_SPEED + PIPE_WIDTH + 8) 0).
Qed.

Lemma movePipe_snd birdX p later score :
  (movePipe birdX p (later, score)).2
  = if negb (scored p) && Qltb (p_x p - PIPE_SPEED + PIPE_WIDTH) birdX
    then (score + 1)%Z else score.
Proof.
  unfold movePipe. by destruct (Qltb (p_x p - PIPE_SPEED + PIPE_WIDTH + 8) 0).
Qed.

(** The pipes that are left are pipes of before, moved; their gaps are
    where they were. *)
Lemma movePipes_gaps birdX (P : Q -> Prop) ps score :
  Forall (fun p => P (gapY p)) ps ->
  Forall (fun p => P (gapY p)) (movePipes birdX ps score).1.
Proof.
  induction 1 as [|p ps Hp _ IH]; [constructor|].
  rewrite movePipes_cons.
  destruct (movePipes birdX ps score) as [later sc] eqn:E.
  rewrite movePipe_fst. cbn [fst] in IH.
  destruct (Qltb _ 0); [exact IH|]. constructor; [exact Hp | exact IH].
Qed.

Lemma loop_total w h sway wd src p :
  exists wd' p', loop w h sway wd src p = Some (wd', p').
Proof.
  unfold loop. destruct (stateRef wd); try (eexists _, _; reflexivity).
  destruct (spawnPipe_spec w (h - GROUND_HEIGHT) (frame wd + 1) (pipes wd) src p)
    as (ps' & p' & E & _).
  unfold mbind, M_bind, bind. rewrite E. eexists _, _. reflexivity.
Qed.

Lemma play_total w h es wd src p :
  exists wd' p', play w h es wd src p = Some (wd', p').
Proof.
  unfold play. apply forM_total. intros e wd0 p0.
  destruct e as [sway|]; [apply loop_total | eexists _, _; reflexivity].
Qed.

(** A property of the world that every frame and every flap keeps holds
    after a game. *)
Lemma play_invariant (P : World -> Prop) w h :
  (forall e wd src p wd' p',
     P wd -> onEvent w h e wd src p = Some (wd', p') -> P wd') ->
  forall es wd src p wd' p',
    P wd -> play w h es wd src p = Some (wd', p') -> P wd'.
Proof.
  intros Hstep es wd src p wd' p' HP H.
  unfold play in H.
  exact (forM_invariant P (onEvent w h) es
           (fun e s src0 p0 s' p0' Hs E => Hstep e s src0 p0 s' p0' Hs E)
           wd src p wd' p' HP H).
Qed.

Lemma flap_pipes canvas wd :
  pipes (flap canvas wd) = pipes wd \/ pipes (flap canvas wd) = [].
Proof.
  unfold flap. destruct (stateRef wd); cbn; auto.
  destruct canvas as [[w h]|]; cbn; auto.
Qed.

Lemma spawned_gap_on_screen playH (u : U01) :
  (PIPE_GAP + 80 <= playH)%Q ->
  GapOnScreen playH
    (mkPipe 0 (PIPE_GAP / 2 + 40
               + u_val u * (playH - PIPE_GAP / 2 - 40 - (PIPE_GAP / 2 + 40))) false).
Proof.
  intros Hh. destruct (u_val_range u) as [H0 H1].
  unfold GapOnScreen. cbn [gapY]. rewrite !half_gap.
  unfold PIPE_GAP in Hh.
  assert (Hd : (0 <= playH - 80 - 40 - (80 + 40))%Q) by lra.
  assert (Hlo : (0 <= u_val u * (playH - 80 - 40 - (80 + 40)))%Q)
    by (apply Qmult_le_0_compat; assumption).
  assert (Hhi : (u_val u * (playH - 80 - 40 - (80 + 40))
                 <= 1 * (playH - 80 - 40 - (80 + 40)))%Q)
    by (apply Qmult_le_compat_r; [lra | assumption]).
  revert Hlo Hhi. generalize (u_val u * (playH - 80 - 40 - (80 + 40)))%Q.
  intros m Hlo Hhi. split; lra.
Qed.

Lemma GapOnScreen_gap playH p q :
  gapY p = gapY q -> GapOnScreen playH p -> GapOnScreen playH q.
Proof. unfold GapOnScreen. by intros ->. Qed.

Lemma onEvent_gaps w h e wd src p wd' p' :
  (PIPE_GAP + 80 <= h - GROUND_HEIGHT)%Q ->
  Forall (GapOnScreen (h - GROUND_HEIGHT)) (pipes wd) ->
  onEvent w h e wd src p = Some (wd', p') ->
  Forall (GapOnScreen (h - GROUND_HEIGHT)) (pipes wd').
Proof.
  intros Hh Hall H. destruct e as [sway|]; cbn [onEvent] in H.
  - unfold loop in H. destruct (stateRef wd).
    + apply ret_Some in H as [<- _]. exact Hall.
    + apply bind_Some in H as (ps & p1 & Hsp & H).
      apply ret_Some in H as [<- _]. cbn [pipes].
      apply (movePipes_gaps _ (fun g => (40 <= g - PIPE_GAP / 2)%Q
                                        /\ (g + PIPE_GAP / 2
                                            <= h - GROUND_HEIGHT - 40)%Q)).
      destruct (spawnPipe_spec w (h - GROUND_HEIGHT) (frame wd + 1) (pipes wd) src p)
        as (ps' & p1' & E & Hcases & _).
      rewrite E in Hsp. injection Hsp as <- <-.
      destruct Hcases as [-> | (_ & u & ->)]; [exact Hall|].
      apply Forall_app. split; [exact Hall|].
      constructor; [|constructor].
      exact (spawned_gap_on_screen _ u Hh).
    + apply ret_Some in H as [<- _]. exact Hall.
  - apply ret_Some in H as [<- _].
    destruct (flap_pipes (Some (w, h)) wd) as [-> | ->]; [exact Hall | constructor].
Qed.

(** *** The score *)

Lemma behind_moved b p :
  behind b p = true ->
  Qltb (p_x p - PIPE_SPEED + PIPE_WIDTH) (x b) = true.
Proof.
  unfold behind. rewrite !Qltb_lt. unfold PIPE_SPEED, PIPE_WIDTH. lra.
Qed.

Lemma gone_is_behind birdX px :
  (0 <= birdX)%Q ->
  Qltb (px - PIPE_SPEED + PIPE_WIDTH + 8) 0 = true ->
  Qltb (px - PIPE_SPEED + PIPE_WIDTH) birdX = true.
Proof.
  rewrite !Qltb_lt. unfold PIPE_SPEED, PIPE_WIDTH. lra.
Qed.

Lemma ahead_cons b q l :
  filter (fun p => behind b p = false) (q :: l)
  = if behind b q then filter (fun p => behind b p = false) l
    else q :: filter (fun p => behind b p = false) l.
Proof.
  rewrite filter_cons. case_decide as H; destruct (behind b q); done.
Qed.

(** The loop over the pipes of a frame: the flags of the pipes that are
    left still say which pipes are behind the bird, and the score has
    grown by the number of pipes that the bird has passed in this frame. *)
Lemma movePipes_counted (b : Bird) ps score :
  (0 <= x b)%Q ->
  (forall p, p ∈ ps -> scored p = behind b p) ->
  let moved := movePipes (x b) ps score in
  (forall p, p ∈ moved.1 -> scored p = behind b p)
  /\ (moved.2 + Z.of_nat (length (filter (fun p => behind b p = false) moved.1))
      = score + Z.of_nat (length (filter (fun p => behind b p = false) ps)))%Z.
Proof.
  intros Hx. induction ps as [|p ps IH]; intros Hfl.
  - cbn. split; [intros p Hp; by apply elem_of_nil in Hp | lia].
  - assert (Hfl' : forall q, q ∈ ps -> scored q = behind b q).
    { intros q Hq. apply Hfl. by right. }
    specialize (IH Hfl'). cbn zeta in IH |- *.
    rewrite movePipes_cons.
    destruct (movePipes (x b) ps score) as [later sc] eqn:E.
    cbn [fst snd] in IH. destruct IH as [IH1 IH2].
    rewrite movePipe_fst, movePipe_snd.
    assert (Hp : scored p = behind b p) by (apply Hfl; by left).
    rewrite (ahead_cons b p ps).
    assert (Hnew : forall fl,
      behind b (mkPipe (p_x p - PIPE_SPEED) (gapY p) fl)
      = Qltb (p_x p - PIPE_SPEED + PIPE_WIDTH) (x b)) by reflexivity.
    destruct (behind b p) eqn:Hb.
    + (* passed before: flagged, and still behind *)
      rewrite Hp. cbn [negb andb orb].
      pose proof (behind_moved b p Hb) as Hm.
      destruct (Qltb (p_x p - PIPE_SPEED + PIPE_WIDTH + 8) 0).
      * split; [exact IH1 | exact IH2].
      * split.
        -- intros q Hq. apply elem_of_cons in Hq as [-> | Hq]; [|by apply IH1].
           cbn [scored]. by rewrite Hnew, Hm.
        -- rewrite ahead_cons, Hnew, Hm. exact IH2.
    + rewrite Hp. cbn [negb andb orb length].
      destruct (Qltb (p_x p - PIPE_SPEED + PIPE_WIDTH + 8) 0) eqn:Hgone.
      * rewrite (gone_is_behind _ _ Hx Hgone).
        split; [exact IH1 | cbn iota; lia].
      * destruct (Qltb (p_x p - PIPE_SPEED + PIPE_WIDTH) (x b)) eqn:Hm.
        -- split.
           ++ intros q Hq. apply elem_of_cons in Hq as [-> | Hq]; [|by apply IH1].
              cbn [scored]. by rewrite Hnew.
           ++ rewrite ahead_cons, Hnew. cbn iota. lia.
        -- split.
           ++ intros q Hq. apply elem_of_cons in Hq as [-> | Hq]; [|by apply IH1].
              cbn [scored]. by rewrite Hnew.
           ++ rewrite ahead_cons, Hnew. cbn [length]. cbn iota. lia.
Qed.

Lemma spawn_count fr :
  (0 <= fr)%Z ->
  (Z.rem (fr + 1) PIPE_SPAWN_INTERVAL = 0 ->
   (fr + 1) / PIPE_SPAWN_INTERVAL = fr / PIPE_SPAWN_INTERVAL + 1)%Z
  /\ (Z.rem (fr + 1) PIPE_SPAWN_INTERVAL <> 0 ->
      (fr + 1) / PIPE_SPAWN_INTERVAL = fr / PIPE_SPAWN_INTERVAL)%Z.
Proof.
  intros Hfr. unfold PIPE_SPAWN_INTERVAL.
  rewrite Z.rem_mod_nonneg by lia.
  pose proof (Z.div_mod fr 100 ltac:(lia)) as H1.
  pose proof (Z.mod_pos_bound fr 100 ltac:(lia)) as H2.
  pose proof (Z.div_mod (fr + 1) 100 ltac:(lia)) as H3.
  pose proof (Z.mod_pos_bound (fr + 1) 100 ltac:(lia)) as H4.
  split; intros H; lia.
Qed.

Lemma start_Counted w h : (0 <= w)%Q -> Counted w (start w h).
Proof.
  intros Hw. unfold Counted, start, resetGame. cbn.
  split; [lra|]. split; [unfold PIPE_WIDTH; lra|]. split; [lia|].
  split; [intros p Hp; by apply elem_of_nil in Hp | reflexivity].
Qed.

Lemma onEvent_Counted w h e wd src p wd' p' :
  (0 <= w)%Q ->
  Counted w wd -> onEvent w h e wd src p = Some (wd', p') -> Counted w wd'.
Proof.
  intros Hw (Hx0 & Hx1 & Hfr & Hfl & Hsc) H.
  destruct e as [sway|]; cbn [onEvent] in H.
  - unfold loop in H. destruct (stateRef wd).
    + apply ret_Some in H as [<- _]. unfold Counted. cbn.
      split; [exact Hx0|]. split; [exact Hx1|]. split; [exact Hfr|].
      split; [exact Hfl | exact Hsc].
    + apply bind_Some in H as (ps & p1 & Hsp & H).
      apply ret_Some in H as [<- _].
      destruct (spawnPipe_spec w (h - GROUND_HEIGHT) (frame wd + 1) (pipes wd) src p)
        as (ps' & p1' & E & Hcases & Hno).
      rewrite E in Hsp. injection Hsp as <- <-.
      destruct (spawn_count (frame wd) Hfr) as [Hyes Hnot].
      assert (Hb : forall q, behind (fall (bird wd)) q = behind (bird wd) q)
        by reflexivity.
      assert (Hfl1 : forall q, q ∈ ps' -> scored q = behind (fall (bird wd)) q).
      { intros q Hq. rewrite Hb.
        destruct Hcases as [-> | (_ & u & ->)]; [by apply Hfl|].
        apply elem_of_app in Hq as [Hq | Hq]; [by apply Hfl|].
        apply list_elem_of_singleton in Hq as ->. cbn [scored].
        symmetry. unfold behind. cbn [p_x]. apply Qltb_ge. lra. }
      assert (Hcount :
        ((frame wd + 1) / PIPE_SPAWN_INTERVAL
         - Z.of_nat (length (filter (fun q => behind (fall (bird wd)) q = false) ps'))
         = score wd)%Z).
      { rewrite Hsc.
        change (behind (bird wd)) with (behind (fall (bird wd))).
        destruct Hcases as [-> | (Hrem & u & ->)].
        - rewrite Hnot; [reflexivity | by apply Hno].
        - rewrite Hyes by exact Hrem. rewrite filter_app, length_app.
          rewrite ahead_cons, filter_nil.
          assert (Hn : behind (fall (bird wd))
                         (mkPipe w (PIPE_GAP / 2 + 40
                            + u_val u * (h - GROUND_HEIGHT - PIPE_GAP / 2 - 40
                                         - (PIPE_GAP / 2 + 40))) false) = false).
          { unfold behind. cbn [p_x]. apply Qltb_ge. exact Hx1. }
          rewrite Hn. cbn [length]. lia. }
      destruct (movePipes_counted (fall (bird wd)) ps' (score wd) Hx0 Hfl1)
        as [H1 H2].
      unfold Counted. cbn [bird pipes score frame].
      split; [exact Hx0|]. split; [exact Hx1|]. split; [lia|].
      split; [exact H1 | lia].
    + apply ret_Some in H as [<- _]. unfold Counted.
      split; [exact Hx0|]. split; [exact Hx1|]. split; [exact Hfr|].
      split; [exact Hfl | exact Hsc].
  - apply ret_Some in H as [<- _]. unfold flap.
    destruct (stateRef wd); unfold Counted; cbn.
    + split; [exact Hx0|]. split; [exact Hx1|]. split; [exact Hfr|].
      split; [exact Hfl | exact Hsc].
    + split; [exact Hx0|]. split; [exact Hx1|]. split; [exact Hfr|].
      split; [exact Hfl | exact Hsc].
    + split; [lra|]. split; [unfold PIPE_WIDTH; lra|]. split; [lia|].
      split; [intros q Hq; by apply elem_of_nil in Hq | reflexivity].
Qed.

(** *** Collisions *)

Lemma hitsPipe_false b p : hitsPipe b p = false <-> Clear b p.
Proof.
  unfold hitsPipe, Clear. cbn zeta.
  rewrite !andb_false_iff, orb_false_iff, !Qltb_ge. tauto.
Qed.

Lemma dead_false playH b ps :
  dead playH b ps = false
  <-> (BIRD_RADIUS <= y b)%Q /\ (y b + BIRD_RADIUS <= playH)%Q
      /\ Forall (Clear b) ps.
Proof.
  unfold dead. rewrite !orb_false_iff, !Qltb_ge.
  assert (Hex : existsb (hitsPipe b) ps = false <-> Forall (Clear b) ps).
  { induction ps as [|q ps IH]; cbn [existsb].
    - split; [constructor | done].
    - rewrite orb_false_iff, hitsPipe_false, IH. split.
      + intros [H1 H2]. by constructor.
      + intros H. inversion H; subst. done. }
  rewrite Hex. unfold BIRD_RADIUS. split.
  - intros [[H1 H2] H3]. split; [lra|]. split; [lra | exact H3].
  - intros (H1 & H2 & H3). split; [split; lra | exact H3].
Qed.

(** X25. The gap of every pipe is fully on the screen. On a canvas
    whose play area (the height less the ground) is at least
    [PIPE_GAP + 80] = 240 pixels high, a game of any frames and flaps
    returns, and every pipe on the screen then has its gap between 40
    pixels under the top and 40 pixels over the ground, as long as the
    pipes it started with had. *)
Theorem pipe_gaps_stay_on_screen (w h : Q) (es : list Event) (wd : World)
    (src : nat -> U01) (p : nat) :
  (PIPE_GAP + 80 <= h - GROUND_HEIGHT)%Q ->
  Forall (GapOnScreen (h - GROUND_HEIGHT)) (pipes wd) ->
  exists wd' p',
    play w h es wd src p = Some (wd', p')
    /\ Forall (GapOnScreen (h - GROUND_HEIGHT)) (pipes wd').
Proof.
  intros Hh Hall.
  destruct (play_total w h es wd src p) as (wd' & p' & E).
  exists wd', p'. split; [exact E|].
  apply (play_invariant (fun wd0 => Forall (GapOnScreen (h - GROUND_HEIGHT)) (pipes wd0))
           w h) with (es := es) (wd := wd) (src := src) (p := p) (p' := p');
    [|exact Hall | exact E].
  intros e wd0 src0 p0 wd1 p1 H0 E0. exact (onEvent_gaps _ _ _ _ _ _ _ _ Hh H0 E0).
Qed.

Lemma pipe_gaps_stay_on_screen_witness :
  exists wd' p',
    play 400 600 [Frame 0; Flap; Frame 0]
      (mkWorld playing (mkBird 100 270 0 0 0) [mkPipe 200 300 false] 0 99)
      Samples.halves 0
    = Some (wd', p')
    /\ Forall (GapOnScreen (600 - GROUND_HEIGHT)) (pipes wd').
Proof.
  apply (pipe_gaps_stay_on_screen 400 600 [Frame 0; Flap; Frame 0]
           (mkWorld playing (mkBird 100 270 0 0 0) [mkPipe 200 300 false] 0 99)
           Samples.halves 0).
  - unfold PIPE_GAP, GROUND_HEIGHT. lra.
  - constructor; [|constructor]. split; vm_compute; discriminate.
Defined.

(** X26. Every pipe is counted once. In a game on a canvas of
    width [w >= 0], from the world the component starts with and through
    any frames, flaps, deaths and restarts: the pipes flagged as scored
    are exactly the pipes that lie behind the bird, and the score is the
    number of pipes spawned in this round (one every 100 frames) less the
    pipes on the screen that the bird has not passed yet. *)
Theorem score_counts_passed_pipes (w h : Q) (es : list Event)
    (src : nat -> U01) (p : nat) (wd' : World) (p' : nat) :
  (0 <= w)%Q ->
  play w h es (start w h) src p = Some (wd', p') ->
  (forall q, q ∈ pipes wd' -> scored q = true <-> Behind (bird wd') q)
  /\ (score wd'
      = frame wd' / PIPE_SPAWN_INTERVAL
        - Z.of_nat (length (filter (fun q => behind (bird wd') q = false)
                              (pipes wd'))))%Z.
Proof.
  intros Hw E.
  assert (HC : Counted w wd').
  { apply (play_invariant (Counted w) w h) with (es := es) (wd := start w h)
      (src := src) (p := p) (p' := p'); [|by apply start_Counted | exact E].
    intros e wd0 src0 p0 wd1 p1 H0 E0.
    exact (onEvent_Counted _ _ _ _ _ _ _ _ Hw H0 E0). }
  destruct HC as (_ & _ & _ & Hfl & Hsc). split; [|exact Hsc].
  intros q Hq. rewrite (Hfl q Hq). unfold behind, Behind. apply Qltb_lt.
Qed.

Lemma score_counts_passed_pipes_witness :
  exists wd' p',
    play 400 600 [Flap; Frame 0; Frame 0] (start 400 600) Samples.halves 0
    = Some (wd', p')
    /\ (score wd'
        = frame wd' / PIPE_SPAWN_INTERVAL
          - Z.of_nat (length (filter (fun q => behind (bird wd') q = false)
                                (pipes wd'))))%Z.
Proof.
  let r := eval vm_compute in
      (play 400 600 [Flap; Frame 0; Frame 0] (start 400 600) Samples.halves 0) in
  match r with Some (?wd', ?p') => exists wd', p' end.
  match goal with
  | |- ?A /\ _ => assert (E : A) by (vm_compute; reflexivity)
  end.
  assert (Hw : (0 <= 400)%Q) by lra.
  split; [exact E|].
  exact (proj2 (score_counts_passed_pipes 400 600 _ _ _ _ _ Hw E)).
Defined.

(** X27. The bird survives a frame only in the clear. A frame of a
    playing game returns, in the playing state or in game over; it leaves
    the game playing exactly when, after the move of the bird and of the
    pipes, the box around the bird is within the play area and reaches into
    no pipe. A frame of a game that is over changes nothing. *)
Theorem bird_survives_only_in_the_clear (w h sway : Q) (wd : World)
    (src : nat -> U01) (p : nat) :
  stateRef wd = playing ->
  exists wd' p',
    loop w h sway wd src p = Some (wd', p')
    /\ (stateRef wd' = playing \/ stateRef wd' = gameover)
    /\ (stateRef wd' = playing
        <-> (BIRD_RADIUS <= y (bird wd'))%Q
            /\ (y (bird wd') + BIRD_RADIUS <= h - GROUND_HEIGHT)%Q
            /\ Forall (Clear (bird wd')) (pipes wd'))
    /\ loop w h sway (mkWorld gameover (bird wd') (pipes wd') (score wd') (frame wd'))
         src p'
       = Some (mkWorld gameover (bird wd') (pipes wd') (score wd') (frame wd'), p').
Proof.
  intros Hst. unfold loop at 1. rewrite Hst.
  destruct (spawnPipe_spec w (h - GROUND_HEIGHT) (frame wd + 1) (pipes wd) src p)
    as (ps' & p1 & E & _).
  unfold mbind, M_bind, bind. rewrite E.
  eexists _, _. split; [reflexivity|]. cbn [stateRef bird pipes score frame].
  split; [destruct (dead _ _ _); auto|]. split; [|reflexivity].
  rewrite <- dead_false.
  destruct (dead _ _ _); split; intros H; try done.
Qed.

Lemma bird_survives_only_in_the_clear_witness :
  exists wd' p',
    loop 400 600 0 (mkWorld playing (mkBird 100 270 0 0 0) [] 0 0)
      Samples.halves 0 = Some (wd', p')
    /\ (stateRef wd' = playing \/ stateRef wd' = gameover).
Proof.
  destruct (bird_survives_only_in_the_clear 400 600 0
              (mkWorld playing (mkBird 100 270 0 0 0) [] 0 0) Samples.halves 0
              eq_refl) as (wd' & p' & E & H & _).
  exists wd', p'. split; [exact E | exact H].
Defined.

End FlappyLoopFacts.

(** ** Pixel Runner: the generated terrain and the player *)

Module TerrainFacts.

Import PixelRunner.

Lemma rand_within lo hi src p v p' :
  (lo <= hi)%Q ->
  rand lo hi src p = Some (v, p') -> (lo <= v)%Q /\ (v <= hi)%Q.
Proof.
  intros Hle H. unfold rand in H.
  apply bind_Some in H as (u & p1 & _ & H). apply ret_Some in H as [<- _].
  destruct (u_val_range u) as [H0 H1].
  assert (Hlo : (0 <= u_val u * (hi - lo))%Q)
    by (apply Qmult_le_0_compat; [done | lra]).
  assert (Hhi : (u_val u * (hi - lo) <= 1 * (hi - lo))%Q)
    by (apply Qmult_le_compat_r; lra).
  revert Hlo Hhi. generalize (u_val u * (hi - lo))%Q. intros m Hlo Hhi.
  split; lra.
Qed.

Lemma qmin_cases a b : (qmin a b = a /\ (a <= b)%Q) \/ (qmin a b = b /\ (b <= a)%Q).
Proof.
  unfold qmin. destruct (Qle_bool a b) eqn:E.
  - left. split; [done | by apply Qle_bool_iff].
  - right. split; [done|].
    destruct (Qlt_le_dec b a) as [H | H]; [lra|].
    apply Qle_bool_iff in H. congruence.
Qed.

Lemma qmax_cases a b : (qmax a b = b /\ (a <= b)%Q) \/ (qmax a b = a /\ (b <= a)%Q).
Proof.
  unfold qmax. destruct (Qle_bool a b) eqn:E.
  - left. split; [done | by apply Qle_bool_iff].
  - right. split; [done|].
    destruct (Qlt_le_dec b a) as [H | H]; [lra|].
    apply Qle_bool_iff in H. congruence.
Qed.

Lemma clamp_within v lo hi :
  (lo <= hi)%Q -> (lo <= clamp v lo hi)%Q /\ (clamp v lo hi <= hi)%Q.
Proof.
  intros Hle. unfold clamp.
  destruct (qmin_cases hi v) as [[-> H1] | [-> H1]];
    destruct (qmax_cases lo hi) as [[E2 H2] | [E2 H2]];
    destruct (qmax_cases lo v) as [[E3 H3] | [E3 H3]];
    rewrite ?E2, ?E3; split; lra.
Qed.

(** The platform that the generation draws next. *)
Lemma newPlatform_spec s groundY height lastRight src p plat p' :
  Consistent s -> (0 <= height)%Q ->
  newPlatform s groundY height lastRight src p = Some (plat, p') ->
  Chained s height lastRight [plat] /\ (0 <= w plat)%Q.
Proof.
  intros (Hg & Hw0 & Hw) Hh H. unfold newPlatform in H.
  apply bind_Some in H as (gap & p1 & Hgap & H).
  apply bind_Some in H as (pw & p2 & Hpw & H).
  apply bind_Some in H as (dy & p3 & _ & H).
  apply ret_Some in H as [<- _].
  apply (rand_within _ _ _ _ _ _ Hg) in Hgap as [Hg1 Hg2].
  apply (rand_within _ _ _ _ _ _ Hw) in Hpw as [Hw1 Hw2].
  destruct (clamp_within (groundY + dy) (height * (35 # 100)) (height * (88 # 100)))
    as [Hy1 Hy2]; [lra|].
  cbn [Chained x y w]. split; [|lra].
  split; [lra|]. split; [lra|]. split; [exact Hw1|]. split; [exact Hw2|].
  split; [exact Hy1|]. split; [exact Hy2 | exact I].
Qed.

(** A platform that follows the last one extends the chain. *)
Lemma Chained_snoc s height : forall ps lastRight plat,
  Chained s height lastRight ps ->
  Chained s height
    (from_option (fun q => x q + w q)%Q lastRight (last ps)) [plat] ->
  Chained s height lastRight (ps ++ [plat]).
Proof.
  induction ps as [|q ps IH]; intros lastRight plat Hc Hp.
  - exact Hp.
  - cbn [Chained] in Hc. destruct Hc as (H1 & H2 & H3 & H4 & H5 & H6 & Hc).
    change ((q :: ps) ++ [plat]) with (q :: (ps ++ [plat])).
    cbn [Chained]. repeat (split; [assumption|]).
    apply IH; [exact Hc|].
    destruct ps as [|q' ps]; [exact Hp|].
    assert (Hl : is_Some (last (q' :: ps))) by (by apply last_is_Some).
    rewrite last_cons_cons in Hp. destruct Hl as [z Hz].
    rewrite Hz in Hp |- *. exact Hp.
Qed.

Lemma last_snoc_edge (ps : list Platform) plat (lastRight : Q) :
  from_option (fun q => x q + w q)%Q lastRight (last (ps ++ [plat]))
  = (x plat + w plat)%Q.
Proof. by rewrite last_snoc. Qed.

Lemma Chained_widths s height : forall ps lastRight,
  Consistent s -> Chained s height lastRight ps ->
  Forall (fun pl => (0 <= w pl)%Q) ps.
Proof.
  intros ps lastRight (_ & Hw0 & _).
  revert lastRight. induction ps as [|q ps IH]; intros lastRight Hc; [constructor|].
  cbn [Chained] in Hc. destruct Hc as (_ & _ & H3 & _ & _ & _ & Hc).
  constructor; [lra | by eapply IH].
Qed.

(** The loop of [initGame]: the platforms it adds are chained to the ones
    it has. *)
Lemma initPlatforms_chained fuel s groundY canvasW canvasH src first :
  Consistent s -> (0 <= canvasH)%Q ->
  forall rest lastRight p ps' lastRight' p',
    Chained s canvasH 300 rest ->
    lastRight = from_option (fun q => x q + w q)%Q 300%Q (last rest) ->
    initPlatforms fuel s groundY canvasW canvasH (first :: rest) lastRight src p
    = Some ((ps', lastRight'), p') ->
    exists rest', ps' = first :: rest' /\ Chained s canvasH 300 rest'.
Proof.
  intros Hs Hh.
  induction fuel as [|fuel IH]; intros rest lastRight p ps' lastRight' p' Hc He H;
    cbn [initPlatforms] in H;
    destruct (Qltb lastRight (canvasW + SPAWN_AHEAD)); try done.
  - apply ret_Some in H as [[= <- _] _]. by exists rest.
  - apply bind_Some in H as (plat & p1 & Hplat & H).
    destruct (newPlatform_spec _ _ _ _ _ _ _ _ Hs Hh Hplat) as [Hnew _].
    change ((first :: rest) ++ [plat]) with (first :: (rest ++ [plat])) in H.
    apply (IH (rest ++ [plat])) in H; [exact H | |].
    + apply Chained_snoc; [exact Hc | by rewrite <- He].
    + by rewrite last_snoc_edge.
  - apply ret_Some in H as [[= <- _] _]. by exists rest.
Qed.

(** *** Coins and obstacles *)

(** A point of the platform, a fraction [r] of its width from its left. *)
Lemma along_platform (pl : Platform) lo hi r :
  (0 <= w pl)%Q -> (0 <= lo)%Q -> (hi <= 1)%Q -> (lo <= r)%Q -> (r <= hi)%Q ->
  (x pl <= x pl + w pl * r)%Q /\ (x pl + w pl * r <= x pl + w pl)%Q.
Proof.
  intros Hw H0 H1 Hr0 Hr1.
  assert (Hlo : (0 <= w pl * r)%Q) by (apply Qmult_le_0_compat; lra).
  assert (Hhi : (w pl * r <= w pl * 1)%Q).
  { rewrite !(Qmult_comm (w pl)). apply Qmult_le_compat_r; lra. }
  revert Hlo Hhi. generalize (w pl * r)%Q. intros m Hlo Hhi. split; lra.
Qed.

(** What [initGame] puts on one platform. *)
Lemma decorate_over s ps pl cs os src p cs' os' p' :
  pl ∈ ps -> (0 <= w pl)%Q ->
  Forall (CoinOver ps) cs -> Forall (ObstacleOver ps) os ->
  decorate s pl (cs, os) src p = Some ((cs', os'), p') ->
  Forall (CoinOver ps) cs' /\ Forall (ObstacleOver ps) os'.
Proof.
  intros Hin Hw Hcs Hos H. unfold decorate in H.
  apply bind_Some in H as (hasCoin & p1 & _ & H).
  apply bind_Some in H as (cs1 & p2 & Hc & H).
  assert (Hcs1 : Forall (CoinOver ps) cs1).
  { destruct hasCoin.
    - apply bind_Some in Hc as (r & p3 & Hr & Hc).
      apply ret_Some in Hc as [<- _]. apply rand_within in Hr; [|lra].
      apply Forall_app. split; [exact Hcs|]. constructor; [|constructor].
      destruct (along_platform pl (2 # 10) (8 # 10) r) as [Hx1 Hx2]; try lra.
      exists pl. cbn [c_x c_y collected].
      split; [exact Hin|]. split; [exact Hx1|]. split; [exact Hx2|].
      split; [lra|]. split; [lra | reflexivity].
    - apply ret_Some in Hc as [<- _]. exact Hcs. }
  apply bind_Some in H as (hasObstacle & p4 & _ & H).
  destruct hasObstacle.
  - apply bind_Some in H as (isSpike & p5 & _ & H). destruct isSpike.
    + apply bind_Some in H as (r & p6 & Hr & H).
      apply ret_Some in H as [[= <- <-] _]. apply rand_within in Hr; [|lra].
      split; [exact Hcs1|].
      apply Forall_app. split; [exact Hos|]. constructor; [|constructor].
      destruct (along_platform pl (3 # 10) (7 # 10) r) as [Hx1 Hx2]; try lra.
      exists pl. cbn [o_x o_y o_h kind].
      split; [exact Hin|]. split; [exact Hx1|]. split; [exact Hx2|]. lra.
    + apply bind_Some in H as (r & p6 & Hr & H).
      apply bind_Some in H as (d & p7 & Hd & H).
      apply bind_Some in H as (u & p8 & _ & H).
      apply ret_Some in H as [[= <- <-] _].
      apply rand_within in Hr; [|lra]. apply rand_within in Hd; [|lra].
      split; [exact Hcs1|].
      apply Forall_app. split; [exact Hos|]. constructor; [|constructor].
      destruct (along_platform pl (2 # 10) (8 # 10) r) as [Hx1 Hx2]; try lra.
      exists pl. cbn [o_x o_y o_h kind baseY].
      split; [exact Hin|]. split; [exact Hx1|]. split; [exact Hx2|].
      split; [lra|]. split; [lra | reflexivity].
  - apply ret_Some in H as [[= <- <-] _]. split; [exact Hcs1 | exact Hos].
Qed.

Lemma decorate_all s ps : forall l cs os src p cs' os' p',
  Forall (fun pl => pl ∈ ps /\ (0 <= w pl)%Q) l ->
  Forall (CoinOver ps) cs -> Forall (ObstacleOver ps) os ->
  forM l (decorate s) (cs, os) src p = Some ((cs', os'), p') ->
  Forall (CoinOver ps) cs' /\ Forall (ObstacleOver ps) os'.
Proof.
  induction l as [|pl l IH]; intros cs os src p cs' os' p' Hl Hcs Hos H.
  - cbn [forM] in H. apply ret_Some in H as [[= <- <-] _]. done.
  - rewrite forM_cons in H. apply bind_Some in H as ([cs1 os1] & p1 & H1 & H).
    inversion Hl as [|? ? [Hin Hw] Hl']; subst.
    destruct (decorate_over _ _ _ _ _ _ _ _ _ _ Hin Hw Hcs Hos H1) as [Hcs1 Hos1].
    exact (IH _ _ _ _ _ _ _ Hl' Hcs1 Hos1 H).
Qed.

Lemma CoinOver_sub ps qs c :
  (forall pl, pl ∈ ps -> pl ∈ qs) -> CoinOver ps c -> CoinOver qs c.
Proof. intros Hsub (pl & Hin & H). exists pl. split; [by apply Hsub | exact H]. Qed.

Lemma ObstacleOver_sub ps qs o :
  (forall pl, pl ∈ ps -> pl ∈ qs) -> ObstacleOver ps o -> ObstacleOver qs o.
Proof. intros Hsub (pl & Hin & H). exists pl. split; [by apply Hsub | exact H]. Qed.

(** What a frame puts on a platform that it adds: it appends to the
    coins and to the obstacles, and what it appends belongs to the
    platform. *)
Lemma decorateAhead_adds s pl t src p t' p' :
  (0 <= w pl)%Q ->
  decorateAhead s pl t src p = Some (t', p') ->
  platforms t' = platforms t
  /\ exists nc no,
       coins t' = coins t ++ nc /\ obstacles t' = obstacles t ++ no
       /\ Forall (CoinOver [pl]) nc /\ Forall (ObstacleOver [pl]) no.
Proof.
  intros Hw H. unfold decorateAhead in H.
  assert (Hin : pl ∈ [pl]) by (by apply list_elem_of_singleton).
  apply bind_Some in H as (hasCoin & p1 & _ & H).
  apply bind_Some in H as (cs1 & p2 & Hc & H).
  assert (Hcs1 : exists nc, cs1 = coins t ++ nc /\ Forall (CoinOver [pl]) nc).
  { destruct hasCoin.
    - apply bind_Some in Hc as (r & p3 & Hr & Hc).
      apply bind_Some in Hc as (d & p3' & Hd & Hc).
      apply ret_Some in Hc as [<- _].
      apply rand_within in Hr; [|lra]. apply rand_within in Hd; [|lra].
      eexists. split; [reflexivity|]. constructor; [|constructor].
      destruct (along_platform pl (2 # 10) (8 # 10) r) as [Hx1 Hx2]; try lra.
      exists pl. cbn [c_x c_y collected].
      split; [exact Hin|]. split; [exact Hx1|]. split; [exact Hx2|].
      split; [lra|]. split; [lra | reflexivity].
    - apply ret_Some in Hc as [<- _]. exists []. by rewrite app_nil_r. }
  destruct Hcs1 as (nc & -> & Hnc).
  apply bind_Some in H as (hasObstacle & p4 & _ & H).
  apply bind_Some in H as (os1 & p5 & Ho & H).
  apply ret_Some in H as [<- _]. cbn [platforms coins obstacles].
  split; [reflexivity|]. exists nc.
  destruct hasObstacle.
  - apply bind_Some in Ho as (isSpike & p6 & _ & Ho). destruct isSpike.
    + apply bind_Some in Ho as (r & p7 & Hr & Ho).
      apply ret_Some in Ho as [<- _]. apply rand_within in Hr; [|lra].
      eexists. split; [reflexivity|]. split; [reflexivity|].
      split; [exact Hnc|]. constructor; [|constructor].
      destruct (along_platform pl (3 # 10) (7 # 10) r) as [Hx1 Hx2]; try lra.
      exists pl. cbn [o_x o_y o_h kind].
      split; [exact Hin|]. split; [exact Hx1|]. split; [exact Hx2|]. lra.
    + apply bind_Some in Ho as (d & p7 & Hd & Ho).
      apply bind_Some in Ho as (r & p8 & Hr & Ho).
      apply bind_Some in Ho as (u & p9 & _ & Ho).
      apply ret_Some in Ho as [<- _].
      apply rand_within in Hr; [|lra]. apply rand_within in Hd; [|lra].
      eexists. split; [reflexivity|]. split; [reflexivity|].
      split; [exact Hnc|]. constructor; [|constructor].
      destruct (along_platform pl (2 # 10) (8 # 10) r) as [Hx1 Hx2]; try lra.
      exists pl. cbn [o_x o_y o_h kind baseY].
      split; [exact Hin|]. split; [exact Hx1|]. split; [exact Hx2|].
      split; [lra|]. split; [lra | reflexivity].
  - apply ret_Some in Ho as [<- _]. exists [].
    split; [reflexivity|]. split; [by rewrite app_nil_r|].
    split; [exact Hnc | constructor].
Qed.

(** The loop of a frame: it appends platforms, chained to the edge it
    starts from, and appends coins and obstacles that belong to the
    platforms it appends. *)
Lemma extend_adds fuel s groundY width height src bp bc bo edge :
  Consistent s -> (0 <= height)%Q ->
  forall newp nc no t lastRight p t' lastRight' p',
    platforms t = bp ++ newp -> coins t = bc ++ nc ->
    obstacles t = bo ++ no ->
    Chained s height edge newp ->
    lastRight = from_option (fun q => x q + w q)%Q edge (last newp) ->
    Forall (CoinOver newp) nc -> Forall (ObstacleOver newp) no ->
    extend fuel s groundY width height t lastRight src p
    = Some ((t', lastRight'), p') ->
    exists newp' nc' no',
      platforms t' = bp ++ newp' /\ coins t' = bc ++ nc'
      /\ obstacles t' = bo ++ no'
      /\ Chained s height edge newp'
      /\ Forall (CoinOver newp') nc' /\ Forall (ObstacleOver newp') no'.
Proof.
  intros Hs Hh.
  induction fuel as [|fuel IH];
    intros newp nc no t lastRight p t' lastRight' p' Hpl Hco Hob Hc He Hcs Hos H;
    cbn [extend] in H;
    destruct (Qltb lastRight (width + SPAWN_AHEAD)); try done.
  - apply ret_Some in H as [[= <- _] _]. by exists newp, nc, no.
  - apply bind_Some in H as (plat & p1 & Hplat & H).
    apply bind_Some in H as (t1 & p2 & Hdec & H).
    destruct (newPlatform_spec _ _ _ _ _ _ _ _ Hs Hh Hplat) as [Hnew Hw].
    apply (decorateAhead_adds _ _ _ _ _ _ _ Hw) in Hdec
      as (Hp1 & nc1 & no1 & Hc1 & Ho1 & Hnc1 & Hno1).
    cbn [platforms coins obstacles] in Hp1, Hc1, Ho1.
    assert (Hsub : forall pl, pl ∈ newp -> pl ∈ newp ++ [plat])
      by (intros pl Hpl0; apply elem_of_app; by left).
    assert (Hsub1 : forall pl, pl ∈ [plat] -> pl ∈ newp ++ [plat])
      by (intros pl Hpl0; apply elem_of_app; by right).
    apply (IH (newp ++ [plat]) (nc ++ nc1) (no ++ no1)) in H; [exact H|..].
    + by rewrite Hp1, Hpl, <- app_assoc.
    + by rewrite Hc1, Hco, <- app_assoc.
    + by rewrite Ho1, Hob, <- app_assoc.
    + apply Chained_snoc; [exact Hc | by rewrite <- He].
    + by rewrite last_snoc_edge.
    + apply Forall_app. split.
      * eapply Forall_impl; [exact Hcs|]. intros c. by apply CoinOver_sub.
      * eapply Forall_impl; [exact Hnc1|]. intros c. by apply CoinOver_sub.
    + apply Forall_app. split.
      * eapply Forall_impl; [exact Hos|]. intros o. by apply ObstacleOver_sub.
      * eapply Forall_impl; [exact Hno1|]. intros o. by apply ObstacleOver_sub.
  - apply ret_Some in H as [[= <- _] _]. by exists newp, nc, no.
Qed.

(** [lastRight] after the loop over the platforms is no less than the
    right edge of any of them. *)
Lemma trackRight_max ps pl :
  pl ∈ ps -> (x pl + w pl <= trackRight ps)%Q.
Proof.
  unfold trackRight.
  assert (H : forall acc,
    let r := foldl (fun lastRight p =>
                      if Qltb lastRight (x p + w p) then (x p + w p)%Q
                      else lastRight) acc ps in
    (acc <= r)%Q /\ forall q, q ∈ ps -> (x q + w q <= r)%Q).
  { induction ps as [|q0 ps IH]; intros acc; cbn [foldl].
    - split; [lra|]. intros q Hq. by apply elem_of_nil in Hq.
    - destruct (Qltb acc (x q0 + w q0)) eqn:E.
      + apply Qltb_lt in E. destruct (IH (x q0 + w q0)%Q) as [H1 H2].
        cbn zeta in H1, H2. split; [lra|].
        intros q Hq. apply elem_of_cons in Hq as [-> | Hq]; [lra | by apply H2].
      + apply Qltb_ge in E. destruct (IH acc) as [H1 H2].
        cbn zeta in H1, H2. split; [lra|].
        intros q Hq. apply elem_of_cons in Hq as [-> | Hq]; [lra | by apply H2]. }
  intros Hin. by apply (H 0%Q).
Qed.

(** The platforms of that loop alone. *)
Lemma extend_platforms fuel s groundY width height src base edge :
  Consistent s -> (0 <= height)%Q ->
  forall new t lastRight p t' lastRight' p',
    platforms t = base ++ new ->
    Chained s height edge new ->
    lastRight = from_option (fun q => x q + w q)%Q edge (last new) ->
    extend fuel s groundY width height t lastRight src p
    = Some ((t', lastRight'), p') ->
    exists new', platforms t' = base ++ new' /\ Chained s height edge new'.
Proof.
  intros Hs Hh.
  induction fuel as [|fuel IH];
    intros new t lastRight p t' lastRight' p' Hpl Hc He H;
    cbn [extend] in H;
    destruct (Qltb lastRight (width + SPAWN_AHEAD)); try done.
  - apply ret_Some in H as [[= <- _] _]. by exists new.
  - apply bind_Some in H as (plat & p1 & Hplat & H).
    apply bind_Some in H as (t1 & p2 & Hdec & H).
    destruct (newPlatform_spec _ _ _ _ _ _ _ _ Hs Hh Hplat) as [Hnew _].
    apply RunnerFacts.decorateAhead_platforms in Hdec. cbn [platforms] in Hdec.
    apply (IH (new ++ [plat])) in H; [exact H | | |].
    + by rewrite Hdec, Hpl, <- app_assoc.
    + apply Chained_snoc; [exact Hc | by rewrite <- He].
    + by rewrite last_snoc_edge.
  - apply ret_Some in H as [[= <- _] _]. by exists new.
Qed.

(** The generation of [initGame], loop by loop. *)
Lemma initTerrain_spec fuel s canvasW canvasH src p t p' :
  Consistent s -> (0 <= canvasH)%Q ->
  initTerrain fuel s canvasW canvasH src p = Some (t, p') ->
  exists rest,
    platforms t
    = mkPlatform 0 (inject_Z (Qfloor (canvasH * GROUND_Y_FRAC))) 300 :: rest
    /\ Chained s canvasH 300 rest
    /\ Forall (CoinOver (platforms t)) (coins t)
    /\ Forall (ObstacleOver (platforms t)) (obstacles t).
Proof.
  intros Hs Hh H. unfold initTerrain in H.
  apply bind_Some in H as ([ps lr] & p1 & Hps & H).
  apply bind_Some in H as ([cs os] & p2 & Hdec & H).
  apply ret_Some in H as [<- _]. cbn [platforms coins obstacles].
  apply (initPlatforms_chained _ _ _ _ _ _ _ Hs Hh []) in Hps
    as (rest & -> & Hc); [|exact I | reflexivity].
  exists rest. split; [reflexivity|]. split; [exact Hc|].
  cbn [drop] in Hdec.
  apply (decorate_all s (mkPlatform 0 (inject_Z (Qfloor (canvasH * GROUND_Y_FRAC))) 300
                          :: rest)) in Hdec; [exact Hdec | | constructor | constructor].
  pose proof (Chained_widths _ _ _ _ Hs Hc) as Hws.
  apply Forall_forall. intros pl Hin. split; [by right|].
  rewrite Forall_forall in Hws. by apply Hws.
Qed.

(** *** The generation of a frame *)

Lemma generateAhead_chain s height fuel groundY width t src p t' p' :
  Consistent s -> (0 <= height)%Q ->
  generateAhead fuel s groundY width height t src p = Some (t', p') ->
  exists edge new,
    platforms t' = platforms t ++ new
    /\ Chained s height edge new
    /\ (0 <= edge)%Q
    /\ (forall pl, pl ∈ platforms t -> (x pl + w pl <= edge)%Q)
    /\ (edge = 0%Q \/ EdgeOf edge (platforms t)).
Proof.
  intros Hs Hh H.
  unfold generateAhead in H.
  apply bind_Some in H as ([t1 lr] & p1 & Hext & H).
  apply ret_Some in H as [<- _].
  destruct (extend_platforms fuel s groundY width height src
              (platforms t) (trackRight (platforms t))
              Hs Hh [] t (trackRight (platforms t)) p t1 lr p1)
    as (new & Hp & Hc);
    [by rewrite app_nil_r | exact I | reflexivity | exact Hext|].
  exists (trackRight (platforms t)), new.
  split; [exact Hp|]. split; [exact Hc|].
  split; [apply RunnerFacts.trackRight_nonneg|].
  split; [intros pl; apply trackRight_max|].
  apply RunnerFacts.trackRight_edge.
Qed.

(** The update block of a frame ends its terrain with the generation
    loop, run on the terrain that it kept. *)
Lemma update_generates sine fuel s width height dt g src p g' p' :
  update sine fuel s width height dt g src p = Some (g', p') ->
  exists q,
    generateAhead fuel s (groundY g) width height (kept sine s dt g) src q
    = Some (terrain g', p').
Proof.
  unfold update. cbv zeta. intros H.
  apply bind_Some in H as (layers & p1 & _ & H).
  apply bind_Some in H as (t & p2 & Hg & H).
  apply ret_Some in H as [<- <-]. by exists p1.
Qed.

(** X28. The generated platforms follow the settings. With
    consistent settings (the ranges of gaps and widths are not empty, no
    width is negative) on a canvas of height [>= 0]: the terrain of
    [initGame] is the starting platform, 300 wide at the ground line,
    followed by platforms each of which begins [gapMin] to [gapMax] to the
    right of the platform before it, is [platWidthMin] to [platWidthMax]
    wide and lies between 35% and 88% of the height; the generation loop
    of a frame only adds platforms at the end, chained in the same way to
    the rightmost edge that the terrain had: an edge that no platform of
    the terrain reaches beyond, and that is the right edge of one of
    them, or 0 when none of them reaches beyond 0; and so does the update
    block of a frame, for the terrain that it has kept after the scroll
    and the removal of what has left the screen. *)
Theorem platforms_follow_the_settings (s : GameSettings) (height : Q) :
  Consistent s -> (0 <= height)%Q ->
  (forall fuel canvasW src p t p',
     initTerrain fuel s canvasW height src p = Some (t, p') ->
     exists rest,
       platforms t
       = mkPlatform 0 (inject_Z (Qfloor (height * GROUND_Y_FRAC))) 300 :: rest
       /\ Chained s height 300 rest)
  /\ (forall fuel groundY width t src p t' p',
        generateAhead fuel s groundY width height t src p = Some (t', p') ->
        exists edge new,
          platforms t' = platforms t ++ new
          /\ Chained s height edge new
          /\ (0 <= edge)%Q
          /\ (forall pl, pl ∈ platforms t -> (x pl + w pl <= edge)%Q)
          /\ (edge = 0%Q \/ EdgeOf edge (platforms t)))
  /\ (forall sine fuel width dt g src p g' p',
        update sine fuel s width height dt g src p = Some (g', p') ->
        exists edge new,
          platforms (terrain g') = platforms (kept sine s dt g) ++ new
          /\ Chained s height edge new
          /\ (0 <= edge)%Q
          /\ (forall pl, pl ∈ platforms (kept sine s dt g) ->
                         (x pl + w pl <= edge)%Q)
          /\ (edge = 0%Q \/ EdgeOf edge (platforms (kept sine s dt g)))).
Proof.
  intros Hs Hh. split; [|split].
  - intros fuel canvasW src p t p' H.
    destruct (initTerrain_spec _ _ _ _ _ _ _ _ Hs Hh H) as (rest & E & Hc & _).
    by exists rest.
  - intros fuel groundY width t src p t' p'.
    by apply generateAhead_chain.
  - intros sine fuel width dt g src p g' p' H.
    apply update_generates in H as (q & H).
    by apply (generateAhead_chain s height fuel (groundY g) width _ src q _ p').
Qed.

Lemma platforms_follow_the_settings_witness :
  (exists t p',
     initTerrain 20 (PRESETS easy) 400 600 Samples.tenths 0 = Some (t, p')
     /\ exists rest,
          platforms t
          = mkPlatform 0 (inject_Z (Qfloor (600 * GROUND_Y_FRAC))) 300 :: rest
          /\ Chained (PRESETS easy) 600 300 rest)
  /\ (exists t' p',
        generateAhead 20 (PRESETS easy) 450 400 600 Samples.twoPlatforms
          Samples.tenths 0 = Some (t', p')
        /\ exists new,
             platforms t' = platforms Samples.twoPlatforms ++ new
             /\ new <> []
             /\ Chained (PRESETS easy) 600 550 new)
  /\ (exists g' p',
        update Samples.still 20 (PRESETS easy) 400 600 (5 # 100)
          Samples.runner Samples.tenths 0 = Some (g', p')
        /\ exists new,
             platforms (terrain g')
             = [mkPlatform (-900 # 100) 450 300; mkPlatform (34100 # 100) 440 200] ++ new
             /\ new <> []
             /\ Chained (PRESETS easy) 600 541 new).
Proof.
  assert (Hs : Consistent (PRESETS easy)).
  { unfold Consistent. cbn. split; [lra|]. split; lra. }
  assert (Hh : (0 <= 600)%Q) by lra.
  destruct (platforms_follow_the_settings (PRESETS easy) 600 Hs Hh)
    as (Hinit & Hgen & Hupd).
  split; [|split].
  - let r := eval vm_compute in
        (initTerrain 20 (PRESETS easy) 400 600 Samples.tenths 0) in
    match r with Some (?t, ?p') => exists t, p' end.
    match goal with
    | |- ?A /\ _ => assert (E : A) by (vm_compute; reflexivity)
    end.
    split; [exact E|].
    exact (Hinit 20 400%Q Samples.tenths 0 _ _ E).
  - let r := eval vm_compute in
        (generateAhead 20 (PRESETS easy) 450 400 600 Samples.twoPlatforms
           Samples.tenths 0) in
    match r with Some (?t, ?p') => exists t, p' end.
    match goal with
    | |- ?A /\ _ => assert (E : A) by (vm_compute; reflexivity)
    end.
    split; [exact E|].
    destruct (Hgen 20 450%Q 400%Q Samples.twoPlatforms Samples.tenths 0 _ _ E)
      as (edge & new & Hp & Hc & _ & Hmax & Hedge).
    exists new. split; [exact Hp|]. split.
    { intros ->. rewrite app_nil_r in Hp. vm_compute in Hp. discriminate Hp. }
    (* the edge is 550, the right edge of the second platform *)
    assert (Hge : (550 <= edge)%Q).
    { apply (Qle_trans _ (350 + 200)); [lra|].
      apply (Hmax (mkPlatform 350 440 200)). right. by left. }
    assert (Hle : (edge <= 550)%Q).
    { destruct Hedge as [-> | (pl & Hin & ->)]; [lra|].
      apply elem_of_cons in Hin as [-> | Hin]; [cbn; lra|].
      apply list_elem_of_singleton in Hin as ->. cbn. lra. }
    destruct new as [|pl new]; [exact I|].
    cbn [Chained] in Hc |- *.
    destruct Hc as (H1 & H2 & H3 & H4 & H5 & H6 & H7).
    split; [lra|]. split; [lra|]. repeat (split; [assumption|]). exact H7.
  - let r := eval vm_compute in
        (update Samples.still 20 (PRESETS easy) 400 600 (5 # 100)
           Samples.runner Samples.tenths 0) in
    match r with Some (?t, ?p') => exists t, p' end.
    match goal with
    | |- ?A /\ _ => assert (E : A) by (vm_compute; reflexivity)
    end.
    split; [exact E|].
    destruct (Hupd Samples.still 20 400%Q (5 # 100)%Q Samples.runner
                Samples.tenths 0 _ _ E)
      as (edge & new & Hp & Hc & _ & Hmax & Hedge).
    assert (Hk : platforms (kept Samples.still (PRESETS easy) (5 # 100)
                              Samples.runner)
                 = [mkPlatform (-900 # 100) 450 300; mkPlatform (34100 # 100) 440 200])
      by (vm_compute; reflexivity).
    rewrite Hk in Hp, Hmax, Hedge.
    exists new. split; [exact Hp|]. split.
    { intros ->. rewrite app_nil_r in Hp. vm_compute in Hp. discriminate Hp. }
    assert (Hge : (541 <= edge)%Q).
    { apply (Qle_trans _ ((34100 # 100) + 200)); [lra|].
      apply (Hmax (mkPlatform (34100 # 100) 440 200)). right. by left. }
    assert (Hle : (edge <= 541)%Q).
    { destruct Hedge as [-> | (pl & Hin & ->)]; [lra|].
      apply elem_of_cons in Hin as [-> | Hin]; [cbn; lra|].
      apply list_elem_of_singleton in Hin as ->. cbn. lra. }
    destruct new as [|pl new]; [exact I|].
    cbn [Chained] in Hc |- *.
    destruct Hc as (H1 & H2 & H3 & H4 & H5 & H6 & H7).
    split; [lra|]. split; [lra|]. repeat (split; [assumption|]). exact H7.
Defined.

Lemma generateAhead_adds s height fuel groundY width t src p t' p' :
  Consistent s -> (0 <= height)%Q ->
  generateAhead fuel s groundY width height t src p = Some (t', p') ->
  exists newp newc newo,
    platforms t' = platforms t ++ newp
    /\ coins t' = coins t ++ newc
    /\ obstacles t' = obstacles t ++ newo
    /\ Forall (CoinOver newp) newc
    /\ Forall (ObstacleOver newp) newo.
Proof.
  intros Hs Hh H.
  unfold generateAhead in H.
  apply bind_Some in H as ([t1 lr] & p1 & Hext & H).
  apply ret_Some in H as [<- _].
  destruct (extend_adds fuel s groundY width height src
              (platforms t) (coins t) (obstacles t) (trackRight (platforms t))
              Hs Hh [] [] [] t (trackRight (platforms t)) p t1 lr p1)
    as (newp & nc & no & Hp & Hc & Ho & _ & Hnc & Hno);
    [by rewrite app_nil_r | by rewrite app_nil_r | by rewrite app_nil_r
    | exact I | reflexivity | constructor | constructor | exact Hext|].
  by exists newp, nc, no.
Qed.

(** X29. Coins and obstacles belong to platforms. With consistent
    settings on a canvas of height [>= 0], every coin of the terrain of
    [initGame] hangs over one of its platforms (within its left and right
    edge, 25 to 45 pixels above it, not collected) and every obstacle
    belongs to one: a spike stands on the platform, a flyer hovers 50 to
    90 pixels above it at its base height. The generation loop of a
    frame, whatever the terrain it finds, only appends to the platforms,
    to the coins and to the obstacles, and every coin and obstacle it
    appends belongs in this way to one of the platforms it appends; so
    the update block of a frame only appends such platforms, coins and
    obstacles to the terrain that it has kept after the scroll, the coin
    collection and the removal of what has left the screen. *)
Theorem decorations_belong_to_platforms (s : GameSettings) (height : Q) :
  Consistent s -> (0 <= height)%Q ->
  (forall fuel canvasW src p t p',
     initTerrain fuel s canvasW height src p = Some (t, p') ->
     Forall (CoinOver (platforms t)) (coins t)
     /\ Forall (ObstacleOver (platforms t)) (obstacles t))
  /\ (forall fuel groundY width t src p t' p',
        generateAhead fuel s groundY width height t src p = Some (t', p') ->
        exists newp newc newo,
          platforms t' = platforms t ++ newp
          /\ coins t' = coins t ++ newc
          /\ obstacles t' = obstacles t ++ newo
          /\ Forall (CoinOver newp) newc
          /\ Forall (ObstacleOver newp) newo)
  /\ (forall sine fuel width dt g src p g' p',
        update sine fuel s width height dt g src p = Some (g', p') ->
        exists newp newc newo,
          platforms (terrain g') = platforms (kept sine s dt g) ++ newp
          /\ coins (terrain g') = coins (kept sine s dt g) ++ newc
          /\ obstacles (terrain g') = obstacles (kept sine s dt g) ++ newo
          /\ Forall (CoinOver newp) newc
          /\ Forall (ObstacleOver newp) newo).
Proof.
  intros Hs Hh. split; [|split].
  - intros fuel canvasW src p t p' H.
    destruct (initTerrain_spec _ _ _ _ _ _ _ _ Hs Hh H) as (rest & _ & _ & H1 & H2).
    done.
  - intros fuel groundY width t src p t' p'.
    by apply generateAhead_adds.
  - intros sine fuel width dt g src p g' p' H.
    apply update_generates in H as (q & H).
    by apply (generateAhead_adds s height fuel (groundY g) width _ src q _ p').
Qed.

Lemma decorations_belong_to_platforms_witness :
  (exists t p',
     initTerrain 20 (PRESETS easy) 400 600 Samples.tenths 0 = Some (t, p')
     /\ coins t <> [] /\ obstacles t <> []
     /\ Forall (CoinOver (platforms t)) (coins t)
     /\ Forall (ObstacleOver (platforms t)) (obstacles t))
  /\ (exists t' p',
        generateAhead 20 (PRESETS easy) 450 400 600 Samples.twoPlatforms
          Samples.tenths 0 = Some (t', p')
        /\ exists newp newc newo,
             platforms t' = platforms Samples.twoPlatforms ++ newp
             /\ coins t' = newc /\ obstacles t' = newo
             /\ newc <> [] /\ newo <> []
             /\ Forall (CoinOver newp) newc
             /\ Forall (ObstacleOver newp) newo)
  /\ (exists g' p',
        update Samples.still 20 (PRESETS easy) 400 600 (5 # 100)
          Samples.runner Samples.tenths 0 = Some (g', p')
        /\ exists newp newc newo,
             platforms (terrain g')
             = [mkPlatform (-900 # 100) 450 300; mkPlatform (34100 # 100) 440 200] ++ newp
             /\ coins (terrain g') = newc /\ obstacles (terrain g') = newo
             /\ newc <> [] /\ newo <> []
             /\ Forall (CoinOver newp) newc
             /\ Forall (ObstacleOver newp) newo).
Proof.
  assert (Hs : Consistent (PRESETS easy)).
  { unfold Consistent. cbn. split; [lra|]. split; lra. }
  assert (Hh : (0 <= 600)%Q) by lra.
  destruct (decorations_belong_to_platforms (PRESETS easy) 600 Hs Hh)
    as (Hinit & Hgen & Hupd).
  split; [|split].
  - let r := eval vm_compute in
        (initTerrain 20 (PRESETS easy) 400 600 Samples.tenths 0) in
    match r with Some (?t, ?p') => exists t, p' end.
    match goal with
    | |- ?A /\ _ => assert (E : A) by (vm_compute; reflexivity)
    end.
    split; [exact E|]. split; [discriminate|]. split; [discriminate|].
    exact (Hinit 20 400%Q Samples.tenths 0 _ _ E).
  - let r := eval vm_compute in
        (generateAhead 20 (PRESETS easy) 450 400 600 Samples.twoPlatforms
           Samples.tenths 0) in
    match r with Some (?t, ?p') => exists t, p' end.
    match goal with
    | |- ?A /\ _ => assert (E : A) by (vm_compute; reflexivity)
    end.
    split; [exact E|].
    destruct (Hgen 20 450%Q 400%Q Samples.twoPlatforms Samples.tenths 0 _ _ E)
      as (newp & newc & newo & Hp & Hc & Ho & Hnc & Hno).
    cbn [coins obstacles Samples.twoPlatforms app] in Hc, Ho.
    exists newp, newc, newo. split; [exact Hp|].
    split; [exact Hc|]. split; [exact Ho|].
    split; [rewrite <- Hc; discriminate|].
    split; [rewrite <- Ho; discriminate|].
    split; [exact Hnc | exact Hno].
  - let r := eval vm_compute in
        (update Samples.still 20 (PRESETS easy) 400 600 (5 # 100)
           Samples.runner Samples.tenths 0) in
    match r with Some (?t, ?p') => exists t, p' end.
    match goal with
    | |- ?A /\ _ => assert (E : A) by (vm_compute; reflexivity)
    end.
    split; [exact E|].
    destruct (Hupd Samples.still 20 400%Q (5 # 100)%Q Samples.runner
                Samples.tenths 0 _ _ E)
      as (newp & newc & newo & Hp & Hc & Ho & Hnc & Hno).
    assert (Hk : kept Samples.still (PRESETS easy) (5 # 100) Samples.runner
                 = mkTerrain [mkPlatform (-900 # 100) 450 300; mkPlatform (34100 # 100) 440 200]
                     [] [])
      by (vm_compute; reflexivity).
    rewrite Hk in Hp, Hc, Ho.
    cbn [platforms coins obstacles app] in Hp, Hc, Ho.
    exists newp, newc, newo. split; [exact Hp|].
    split; [exact Hc|]. split; [exact Ho|].
    split; [rewrite <- Hc; discriminate|].
    split; [rewrite <- Ho; discriminate|].
    split; [exact Hnc | exact Hno].
Defined.

(** *** The player *)

Lemma processJump_spec pressed pl :
  let pl1 := processJump pressed pl in
  pl_x pl1 = pl_x pl /\ pl_w pl1 = pl_w pl /\ pl_h pl1 = pl_h pl
  /\ jumpsLeft pl1
     = (if pressed && (0 <? jumpsLeft pl)%Z then jumpsLeft pl - 1 else jumpsLeft pl)%Z.
Proof.
  unfold processJump. destruct (pressed && (0 <? jumpsLeft pl)%Z); done.
Qed.

Lemma holdJump_spec dt pl :
  let pl1 := holdJump dt pl in
  pl_x pl1 = pl_x pl /\ pl_w pl1 = pl_w pl /\ pl_h pl1 = pl_h pl
  /\ jumpsLeft pl1 = jumpsLeft pl.
Proof.
  unfold holdJump. destruct (jumpHeld pl); [|done].
  destruct (Qltb _ _); done.
Qed.

Lemma landsOn_spec dt pl plat :
  landsOn dt pl plat = true ->
  (x plat + 4 < pl_x pl + pl_w pl)%Q /\ (pl_x pl < x plat + w plat - 4)%Q.
Proof.
  unfold landsOn. rewrite !andb_true_iff, !Qltb_lt. tauto.
Qed.

(** The loop over the platforms: the player is as before, or stands on
    one of them. *)
Lemma land_spec maxJ dt : forall plats pl,
  let pl' := land maxJ dt plats pl in
  pl_x pl' = pl_x pl /\ pl_w pl' = pl_w pl /\ pl_h pl' = pl_h pl
  /\ (pl' = pl
      \/ exists plat, plat ∈ plats
           /\ onGround pl' = true
           /\ pl_y pl' = (y plat - pl_h pl)%Q
           /\ (x plat + 4 < pl_x pl + pl_w pl)%Q
           /\ (pl_x pl < x plat + w plat - 4)%Q
           /\ vy pl' = 0%Q /\ jumpsLeft pl' = maxJ /\ jumpHeld pl' = false).
Proof.
  induction plats as [|plat plats IH]; intros pl; cbn zeta.
  - cbn. repeat (split; [reflexivity|]). by left.
  - change (land maxJ dt (plat :: plats) pl)
      with (land maxJ dt plats (landOn maxJ dt pl plat)).
    specialize (IH (landOn maxJ dt pl plat)). cbn zeta in IH.
    destruct IH as (Hx & Hw & Hh & IH).
    unfold landOn in *. destruct (landsOn dt pl plat) eqn:El.
    + cbn [pl_x pl_w pl_h] in Hx, Hw, Hh, IH.
      split; [exact Hx|]. split; [exact Hw|]. split; [exact Hh|]. right.
      destruct (landsOn_spec _ _ _ El) as [Hr1 Hr2].
      destruct IH as [-> | (plat' & Hin & H1 & H2 & H3 & H4 & H5)].
      * exists plat. split; [by left|]. cbn. done.
      * exists plat'. split; [by right|]. done.
    + split; [exact Hx|]. split; [exact Hw|]. split; [exact Hh|].
      destruct IH as [-> | (plat' & Hin & H)]; [by left|].
      right. exists plat'. split; [by right | exact H].
Qed.

(** X30. Jumps are counted, and the player lands on top of
    platforms. In a playing frame, for a player with between 0 and
    [maxJumps] jumps left ([maxJumps] is 2 with the double jump and 1
    without): the player still has between 0 and [maxJumps] jumps left and
    has not moved sideways; when the frame leaves the player on the ground,
    the player stands on the top of one of the platforms, overlapping it
    by more than 4 pixels, at rest, with all jumps restored and the hold of
    the jump ended; when it leaves the player in the air, a jump was used
    exactly if the jump was pressed while one was left; and pressing the
    jump with no jump left changes nothing. *)
Theorem jumps_are_counted (s : GameSettings) (dt : Q) (pressed : bool)
    (plats : list Platform) (pl : Player) :
  (0 <= jumpsLeft pl <= maxJumps s)%Z ->
  let pl' := movePlayer s dt pressed plats pl in
  (0 <= jumpsLeft pl' <= maxJumps s)%Z
  /\ pl_x pl' = pl_x pl
  /\ (onGround pl' = true ->
      exists plat, plat ∈ plats
        /\ (pl_y pl' + pl_h pl' == y plat)%Q
        /\ (x plat + 4 < pl_x pl' + pl_w pl')%Q
        /\ (pl_x pl' < x plat + w plat - 4)%Q
        /\ vy pl' = 0%Q /\ jumpsLeft pl' = maxJumps s /\ jumpHeld pl' = false)
  /\ (onGround pl' = false ->
      jumpsLeft pl'
      = (if pressed && (0 <? jumpsLeft pl)%Z then jumpsLeft pl - 1
         else jumpsLeft pl)%Z)
  /\ (jumpsLeft pl = 0%Z ->
      movePlayer s dt true plats pl = movePlayer s dt false plats pl).
Proof.
  intros Hj. cbn zeta. unfold movePlayer.
  destruct (processJump_spec pressed pl) as (Hx1 & Hw1 & Hh1 & Hj1).
  destruct (holdJump_spec dt (processJump pressed pl)) as (Hx2 & Hw2 & Hh2 & Hj2).
  cbn zeta in *.
  set (pl2 := holdJump dt (processJump pressed pl)) in *.
  destruct (land_spec (maxJumps s) dt plats (gravity dt pl2))
    as (Hx3 & Hw3 & Hh3 & Hl).
  cbn zeta in *.
  set (pl' := land (maxJumps s) dt plats (gravity dt pl2)) in *.
  cbn [gravity pl_x pl_w pl_h] in Hx3, Hw3, Hh3.
  assert (Hjl : jumpsLeft pl2
                = (if pressed && (0 <? jumpsLeft pl)%Z then jumpsLeft pl - 1
                   else jumpsLeft pl)%Z) by congruence.
  assert (Hrange : (0 <= jumpsLeft pl2 <= maxJumps s)%Z).
  { rewrite Hjl. destruct pressed; cbn [andb]; [|lia].
    destruct (0 <? jumpsLeft pl)%Z eqn:E; [|lia]. apply Z.ltb_lt in E. lia. }
  split; [|split; [congruence|split; [|split]]].
  - destruct Hl as [-> | (plat & _ & _ & _ & _ & _ & _ & -> & _)].
    + exact Hrange.
    + unfold maxJumps. destruct (doubleJump s); lia.
  - intros Hg. destruct Hl as [E | (plat & Hin & _ & Hy & Hr1 & Hr2 & Hv & Hjm & Hh)].
    + rewrite E in Hg. discriminate Hg.
    + exists plat. split; [exact Hin|].
      cbn [gravity pl_x pl_w pl_h] in Hy, Hr1, Hr2.
      rewrite Hx3, Hw3. split; [rewrite Hy, Hh3; ring|]. done.
  - intros Hg. destruct Hl as [E | (plat & _ & Hg' & _)].
    + rewrite E. exact Hjl.
    + rewrite Hg' in Hg. discriminate Hg.
  - intros H0. unfold processJump. rewrite H0. reflexivity.
Qed.

Lemma jumps_are_counted_witness :
  let pl := mkPlayer 80 416 0 28 34 true 2 false 0 0 0 in
  let pl' := movePlayer (PRESETS easy) (16 # 1000) true [mkPlatform 0 450 300] pl in
  (0 <= jumpsLeft pl' <= maxJumps (PRESETS easy))%Z /\ jumpsLeft pl' = 1%Z.
Proof.
  intros pl pl'.
  assert (Hj : (0 <= jumpsLeft pl <= maxJumps (PRESETS easy))%Z)
    by (split; vm_compute; discriminate).
  split.
  - exact (proj1 (jumps_are_counted (PRESETS easy) (16 # 1000) true
                    [mkPlatform 0 450 300] pl Hj)).
  - vm_compute. reflexivity.
Defined.

End TerrainFacts.

(** ** Elapsed time per frame *)

Module TimingFacts.

Import MatchThree.

(** C6, as stated, fails for Match-Three: a frame 300 ms after the
    previous one takes the whole 0.3 s off the countdown. *)
Lemma countdown_not_capped : ~ Samples.CappedAt50ms.
Proof.
  intros (_ & _ & H). specialize (H 1300%Q Samples.lateFrame).
  vm_compute in H. apply H. reflexivity.
Qed.

Lemma PR_qmin_le_r a b : (PixelRunner.qmin a b <= b)%Q.
Proof.
  unfold PixelRunner.qmin. destruct (Qle_bool a b) eqn:E.
  - by apply Qle_bool_iff.
  - apply Qle_refl.
Qed.

Lemma PR_frameDt_capped lastTime now :
  (PixelRunner.frameDt lastTime now <= 5 # 100)%Q.
Proof.
  unfold PixelRunner.frameDt.
  destruct (Qltb 0 lastTime); [apply PR_qmin_le_r | done].
Qed.

Lemma tickTimer_drop now gm : (countdownDrop now gm < 1 # 2)%Q.
Proof.
  unfold countdownDrop, MatchThree.tickTimer.
  set (tr := MatchThree.timeRemaining gm).
  set (dt := ((now - MatchThree.lastTickTime gm) / 1000)%Q).
  destruct (MatchThree.stateRef gm); simpl; fold tr; try lra.
  destruct (Qltb 0 (MatchThree.lastTickTime gm)).
  - destruct (Qltb dt (1 # 2)) eqn:Edt.
    + apply Qltb_lt in Edt.
      destruct (Qle_bool (tr - dt) 0) eqn:E0; [apply Qle_bool_iff in E0|]; lra.
    + destruct (Qle_bool tr 0) eqn:E0; [apply Qle_bool_iff in E0|]; lra.
  - destruct (Qle_bool tr 0) eqn:E0; [apply Qle_bool_iff in E0|]; lra.
Qed.

(** *** Space Invaders: the timers of a frame *)

Lemma enemyFire_timer s dt wv timer als bs src p bs' t' p' :
  SpaceInvaders.enemyFire s dt wv timer als bs src p = Some ((bs', t'), p') ->
  t' = 0%Q \/ t' = (timer + dt * 1000)%Q.
Proof.
  unfold SpaceInvaders.enemyFire. cbv zeta.
  destruct (Qle_bool _ _).
  - destruct (SpaceInvaders.bottomAliens als) as [|a bottom].
    + intros H. apply ret_Some in H as [[= _ <-] _]. by left.
    + intros H. apply bind_Some in H as (i & p1 & _ & H).
      apply bind_Some in H as (shooter & p2 & _ & H).
      apply ret_Some in H as [[= _ <-] _]. by left.
  - intros H. apply ret_Some in H as [[= _ <-] _]. by right.
Qed.

Lemma ufoUpdate_timer width dt u timer src p u' t' p' :
  SpaceInvaders.ufoUpdate width dt u timer src p = Some ((u', t'), p') ->
  t' = 0%Q \/ t' = (timer + dt * 1000)%Q.
Proof.
  unfold SpaceInvaders.ufoUpdate. cbv zeta. intros H.
  apply bind_Some in H as ([u1 t1] & p1 & H1 & H).
  apply ret_Some in H as [[= _ <-] _].
  destruct (negb (SpaceInvaders.active u)).
  - apply bind_Some in H1 as (r & p2 & _ & H1).
    destruct (Qltb _ _).
    + apply bind_Some in H1 as (r2 & p3 & _ & H1).
      apply ret_Some in H1 as [[= _ <-] _]. by left.
    + apply ret_Some in H1 as [[= _ <-] _]. by right.
  - apply ret_Some in H1 as [[= _ <-] _]. by right.
Qed.

Lemma collisions_timers s width height now dt keys g src p g1 p1 :
  SpaceInvaders.collisions s width height now dt keys g src p = Some (g1, p1) ->
  (SpaceInvaders.enemyFireTimer g1 = 0%Q
   \/ SpaceInvaders.enemyFireTimer g1
      = (SpaceInvaders.enemyFireTimer g + dt * 1000)%Q)
  /\ (SpaceInvaders.ufoTimer g1 = 0%Q
      \/ SpaceInvaders.ufoTimer g1 = (SpaceInvaders.ufoTimer g + dt * 1000)%Q).
Proof.
  unfold SpaceInvaders.collisions. cbv zeta. intros H.
  apply bind_Some in H as ([bs3 fireTimer] & p2 & Hf & H).
  apply bind_Some in H as ([u1 uTimer] & p3 & Hu & H).
  apply bind_Some in H as ([bs4 t] & p4 & _ & H).
  destruct (SpaceInvaders.ufoHits _ _ _ _) as [[u2 bs5] sc].
  apply bind_Some in H as ([bs6 shs] & p5 & _ & H).
  apply ret_Some in H as [<- _].
  apply enemyFire_timer in Hf. apply ufoUpdate_timer in Hu.
  unfold SpaceInvaders.collided. cbv zeta.
  cbn [SpaceInvaders.enemyFireTimer SpaceInvaders.ufoTimer]. done.
Qed.

Lemma nextWave_timers s width height g1 src p g' p' :
  SpaceInvaders.nextWave s width height g1 src p = Some (g', p') ->
  g' = g1
  \/ (SpaceInvaders.enemyFireTimer g' = 0%Q /\ SpaceInvaders.ufoTimer g' = 0%Q).
Proof.
  unfold SpaceInvaders.nextWave. destruct (_ && _).
  - unfold SpaceInvaders.initGame. intros H.
    apply bind_Some in H as (u & p1 & _ & H).
    apply ret_Some in H as [<- _]. right. done.
  - intros H. apply ret_Some in H as [<- _]. by left.
Qed.

(** *** Pixel Runner: the scroll of a frame *)

Lemma update_scroll sine fuel s width height dt g src p g' p' :
  PixelRunner.update sine fuel s width height dt g src p = Some (g', p') ->
  PixelRunner.distance g'
  = (PixelRunner.distance g + PixelRunner.scrollSpeed g * dt)%Q
  /\ PixelRunner.scrollSpeed g'
     = (PixelRunner.scrollSpeed g + PixelRunner.acceleration s * dt)%Q
  /\ PixelRunner.lastTime g' = PixelRunner.lastTime g.
Proof.
  unfold PixelRunner.update. cbv zeta. intros H.
  apply bind_Some in H as (layers & p1 & _ & H).
  apply bind_Some in H as (t & p2 & _ & H).
  apply ret_Some in H as [<- _]. done.
Qed.

(** C6, amended. A frame of Space Invaders or of Pixel Runner feeds its
    update block at most 50 ms: the elapsed time that the frame computes
    is at most 0.05 s; a frame that runs the update block runs it with
    that time, which is above 0 and at most 0.05 s, and any other frame
    only stamps the time; so a frame of Space Invaders adds at most 50 ms
    to the UFO timer and to the fire timer, and a frame of Pixel Runner
    scrolls by at most the scroll speed times 0.05 s, however long ago
    the last frame was. The Match-Three countdown has no 50 ms cap: it
    takes the whole elapsed time when that is under 500 ms and nothing
    when it is 500 ms or more (a countdown above 0 is left as it is, one
    that is not above 0 becomes 0), so one frame lowers it by less than
    500 ms; and the countdown after a frame of [draw] is the one its
    timer block leaves. *)
Theorem elapsed_time_bounds :
  (forall lastTime now, (SpaceInvaders.frameDt lastTime now <= 5 # 100)%Q)
  /\ (forall lastTime now, (PixelRunner.frameDt lastTime now <= 5 # 100)%Q)
  /\ (forall s width height now keys g src p g' p',
        SpaceInvaders.frame s width height now keys g src p = Some (g', p') ->
        ((SpaceInvaders.Runs now g
          /\ exists dt g1 p1 p2,
               dt = SpaceInvaders.frameDt (SpaceInvaders.lastTime g) now
               /\ (0 < dt)%Q /\ (dt <= 5 # 100)%Q
               /\ SpaceInvaders.collisions s width height now dt keys
                    (SpaceInvaders.stamped now g) src p = Some (g1, p1)
               /\ SpaceInvaders.nextWave s width height g1 src p1
                  = Some (g', p2))
         \/ (~ SpaceInvaders.Runs now g /\ g' = SpaceInvaders.stamped now g))
        /\ ((0 <= SpaceInvaders.ufoTimer g)%Q ->
            (SpaceInvaders.ufoTimer g' <= SpaceInvaders.ufoTimer g + 50)%Q)
        /\ ((0 <= SpaceInvaders.enemyFireTimer g)%Q ->
            (SpaceInvaders.enemyFireTimer g'
             <= SpaceInvaders.enemyFireTimer g + 50)%Q))
  /\ (forall sine fuel s width height now g src p g' p',
        PixelRunner.frame sine fuel s width height now g src p = Some (g', p') ->
        ((PixelRunner.Runs now g
          /\ exists dt,
               dt = PixelRunner.frameDt (PixelRunner.lastTime g) now
               /\ (0 < dt)%Q /\ (dt <= 5 # 100)%Q
               /\ PixelRunner.update sine fuel s width height dt
                    (PixelRunner.stamped now g) src p = Some (g', p'))
         \/ (~ PixelRunner.Runs now g
             /\ g' = PixelRunner.stamped now g /\ p' = p))
        /\ ((0 <= PixelRunner.scrollSpeed g)%Q ->
            (PixelRunner.distance g <= PixelRunner.distance g')%Q
            /\ (PixelRunner.distance g'
                <= PixelRunner.distance g
                   + PixelRunner.scrollSpeed g * (5 # 100))%Q))
  /\ (forall now gm, (countdownDrop now gm < 1 # 2)%Q)
  /\ (forall now gm,
        MatchThree.stateRef gm = MatchThree.playing ->
        (0 < MatchThree.lastTickTime gm)%Q ->
        let dt := ((now - MatchThree.lastTickTime gm) / 1000)%Q in
        (dt < 1 # 2)%Q -> (0 < MatchThree.timeRemaining gm - dt)%Q ->
        MatchThree.timeRemaining (MatchThree.tickTimer now gm)
        = (MatchThree.timeRemaining gm - dt)%Q)
  /\ (forall now gm,
        MatchThree.stateRef gm = MatchThree.playing ->
        (0 < MatchThree.lastTickTime gm)%Q ->
        let dt := ((now - MatchThree.lastTickTime gm) / 1000)%Q in
        (1 # 2 <= dt)%Q ->
        ((0 < MatchThree.timeRemaining gm)%Q ->
         MatchThree.timeRemaining (MatchThree.tickTimer now gm)
         = MatchThree.timeRemaining gm)
        /\ ((MatchThree.timeRemaining gm <= 0)%Q ->
            MatchThree.timeRemaining (MatchThree.tickTimer now gm) = 0%Q))
  /\ (forall fuel s now gm src p gm' p',
        MatchThree.draw fuel s now gm src p = Some (gm', p') ->
        MatchThree.timeRemaining gm'
        = MatchThree.timeRemaining (MatchThree.tickTimer now gm)).
Proof.
  split; [apply InvadersFacts.frameDt_capped|].
  split; [apply PR_frameDt_capped|].
  split.
  { (* Space Invaders *)
    intros s width height now keys g src p g' p' H.
    pose proof (InvadersFacts.frameDt_capped (SpaceInvaders.lastTime g) now)
      as Hcap.
    unfold SpaceInvaders.frame in H. cbv zeta in H.
    destruct (bool_decide (SpaceInvaders.stateRef g = SpaceInvaders.playing)
              && Qltb 0 (SpaceInvaders.frameDt (SpaceInvaders.lastTime g) now))
      eqn:E.
    - apply andb_true_iff in E as [Ep Ed].
      apply bool_decide_eq_true in Ep. apply Qltb_lt in Ed.
      apply bind_Some in H as (g1 & p1 & Hc & H).
      apply bind_Some in H as (g2 & p2 & Hn & H).
      apply bind_Some in H as ([] & p3 & _ & H).
      apply ret_Some in H as [<- _].
      split.
      { left. split; [by split|].
        exists (SpaceInvaders.frameDt (SpaceInvaders.lastTime g) now), g1, p1, p2.
        done. }
      destruct (collisions_timers _ _ _ _ _ _ _ _ _ _ _ Hc) as [Hf Hu].
      cbn [SpaceInvaders.stamped SpaceInvaders.enemyFireTimer
           SpaceInvaders.ufoTimer] in Hf, Hu.
      set (dt := SpaceInvaders.frameDt (SpaceInvaders.lastTime g) now) in *.
      destruct (nextWave_timers _ _ _ _ _ _ _ _ Hn) as [-> | [Hf2 Hu2]].
      + split; intros H0.
        * destruct Hu as [-> | ->]; lra.
        * destruct Hf as [-> | ->]; lra.
      + rewrite Hf2, Hu2. split; intros H0; lra.
    - apply bind_Some in H as ([] & p3 & _ & H).
      apply ret_Some in H as [<- _].
      split.
      { right. split; [|done]. intros [Hp Hd].
        apply andb_false_iff in E as [E | E].
        - by rewrite bool_decide_eq_true_2 in E.
        - apply Qltb_lt in Hd. congruence. }
      cbn [SpaceInvaders.stamped SpaceInvaders.enemyFireTimer
           SpaceInvaders.ufoTimer].
      split; intros H0; lra. }
  split.
  { (* Pixel Runner *)
    intros sine fuel s width height now g src p g' p' H.
    pose proof (PR_frameDt_capped (PixelRunner.lastTime g) now) as Hcap.
    unfold PixelRunner.frame in H. cbv zeta in H.
    destruct (bool_decide (PixelRunner.stateRef g = PixelRunner.playing)
              && Qltb 0 (PixelRunner.frameDt (PixelRunner.lastTime g) now))
      eqn:E.
    - apply andb_true_iff in E as [Ep Ed].
      apply bool_decide_eq_true in Ep. apply Qltb_lt in Ed.
      split.
      { left. split; [by split|].
        exists (PixelRunner.frameDt (PixelRunner.lastTime g) now). done. }
      intros Hsp. apply update_scroll in H as (Hd & _).
      cbn [PixelRunner.stamped PixelRunner.distance PixelRunner.scrollSpeed]
        in Hd.
      rewrite Hd.
      set (dt := PixelRunner.frameDt (PixelRunner.lastTime g) now) in *.
      assert (0 <= PixelRunner.scrollSpeed g * dt)%Q
        by (apply Qmult_le_0_compat; lra).
      assert (PixelRunner.scrollSpeed g * dt
              <= PixelRunner.scrollSpeed g * (5 # 100))%Q.
      { rewrite !(Qmult_comm (PixelRunner.scrollSpeed g)).
        apply Qmult_le_compat_r; lra. }
      split; lra.
    - apply ret_Some in H as [<- <-].
      split.
      { right. split; [|done]. intros [Hp Hd].
        apply andb_false_iff in E as [E | E].
        - by rewrite bool_decide_eq_true_2 in E.
        - apply Qltb_lt in Hd. congruence. }
      intros Hsp. cbn [PixelRunner.stamped PixelRunner.distance].
      assert (0 <= PixelRunner.scrollSpeed g * (5 # 100))%Q
        by (apply Qmult_le_0_compat; lra).
      split; lra. }
  split; [apply tickTimer_drop|].
  split.
  { intros now gm Hst Hlast dt Hdt Hpos.
    unfold MatchThree.tickTimer. rewrite Hst.
    apply Qltb_lt in Hlast. rewrite Hlast.
    apply Qltb_lt in Hdt. fold dt. rewrite Hdt.
    destruct (Qle_bool (MatchThree.timeRemaining gm - dt) 0) eqn:E; simpl.
    - apply Qle_bool_iff in E. exfalso. lra.
    - reflexivity. }
  split.
  { intros now gm Hst Hlast dt Hdt.
    unfold MatchThree.tickTimer. rewrite Hst.
    apply Qltb_lt in Hlast. rewrite Hlast.
    apply Qltb_ge in Hdt. fold dt. rewrite Hdt.
    destruct (Qle_bool (MatchThree.timeRemaining gm) 0) eqn:E; simpl.
    - apply Qle_bool_iff in E. split; [intros; exfalso; lra | done].
    - split; [done|]. intros H0. apply Qle_bool_iff in H0. congruence. }
  intros fuel s now gm src p gm' p' H.
  by apply GameFacts.draw_clock in H as (_ & H & _).
Qed.

Lemma elapsed_time_bounds_witness :
  (SpaceInvaders.frameDt 1000 1300 <= 5 # 100)%Q
  /\ (PixelRunner.frameDt 1000 1300 <= 5 # 100)%Q
  /\ (exists g' p',
        SpaceInvaders.frame (SpaceInvaders.PRESETS SpaceInvaders.easy) 480 640
          1300 Samples.noKeys Samples.lastLife Samples.halves 0 = Some (g', p')
        /\ (SpaceInvaders.ufoTimer g'
            <= SpaceInvaders.ufoTimer Samples.lastLife + 50)%Q)
  /\ (exists g' p',
        PixelRunner.frame Samples.still 20 (PixelRunner.PRESETS PixelRunner.easy)
          400 600 1300 Samples.runner Samples.tenths 0 = Some (g', p')
        /\ (PixelRunner.distance g'
            <= PixelRunner.distance Samples.runner
               + PixelRunner.scrollSpeed Samples.runner * (5 # 100))%Q)
  /\ MatchThree.timeRemaining (MatchThree.tickTimer 1300 Samples.lateFrame)
     = (60 - (1300 - 1000) / 1000)%Q
  /\ MatchThree.timeRemaining (MatchThree.tickTimer 1600 Samples.lateFrame)
     = 60%Q.
Proof.
  destruct elapsed_time_bounds as (H1 & H2 & H3 & H4 & _ & H6 & H7 & _).
  split; [apply H1|]. split; [apply H2|].
  split.
  { let r := eval vm_compute in
        (SpaceInvaders.frame (SpaceInvaders.PRESETS SpaceInvaders.easy) 480 640
           1300 Samples.noKeys Samples.lastLife Samples.halves 0) in
    match r with Some (?g', ?p') => exists g', p' end.
    match goal with
    | |- ?A /\ _ => assert (E : A) by (vm_compute; reflexivity)
    end.
    split; [exact E|].
    destruct (H3 _ _ _ _ _ _ _ _ _ _ E) as (_ & Hu & _).
    apply Hu. vm_compute. discriminate. }
  split.
  { let r := eval vm_compute in
        (PixelRunner.frame Samples.still 20
           (PixelRunner.PRESETS PixelRunner.easy) 400 600 1300 Samples.runner
           Samples.tenths 0) in
    match r with Some (?g', ?p') => exists g', p' end.
    match goal with
    | |- ?A /\ _ => assert (E : A) by (vm_compute; reflexivity)
    end.
    split; [exact E|].
    destruct (H4 _ _ _ _ _ _ _ _ _ _ _ E) as (_ & Hd).
    apply Hd. vm_compute. discriminate. }
  split.
  - apply (H6 1300%Q Samples.lateFrame); reflexivity.
  - apply (H7 1600%Q Samples.lateFrame); [reflexivity | reflexivity | |].
    + vm_compute. discriminate.
    + reflexivity.
Defined.

End TimingFacts.
